(** * myRedis: a shallow embedding of the execution core, the eviction caches,
      the RESP codec, the snapshot file and the cluster router.

    Conventions used throughout.
    - Go [string] and [[]byte] are both byte sequences and are rendered as
      [string] (one [ascii] per byte).  Where the source distinguishes a nil
      slice from an empty one the value is wrapped in [option] ([None] = nil).
    - Go [int] / [int64] values are [Z]; wrap-around is written out where an
      operation can leave the 64-bit range ([wrap64]).
    - Instants ([time.Time]) are [Z] nanoseconds since the Unix epoch; the wall
      clock and the monotonic clock are taken to agree.
    - A Go [map] is a [gmap]; an object that the source shares by reference
      ([*list.List], [HashData], [SetData]) lives in an explicit [store] and is
      named by its location. *)

From Stdlib Require Import ZArith Lia Ascii DecimalString DecimalZ.
From stdpp Require Import gmap strings list sorting.

Open Scope Z_scope.

(** ** Machine integers and decimal conversions (Go's [strconv]) *)

Definition int64_min : Z := - 2 ^ 63.
Definition int64_max : Z := 2 ^ 63 - 1.
Definition in_int64 (z : Z) : bool := (int64_min <=? z) && (z <=? int64_max).

(** Two's complement wrap-around of a 64-bit signed operation. *)
Definition wrap64 (z : Z) : Z := (z + 2 ^ 63) mod 2 ^ 64 - 2 ^ 63.

Definition CR : ascii := Ascii.Ascii true false true true false false false false.
Definition LF : ascii := Ascii.Ascii false true false true false false false false.
Definition CRLF : string := String CR (String LF "").

Definition len (s : string) : Z := Z.of_nat (String.length s).

(** [strconv.FormatInt(v, 10)] and [strconv.Itoa]: minus sign for negatives,
    no leading zeros, ["0"] for zero. *)
Definition FormatInt (v : Z) : string := NilZero.string_of_int (Z.to_int v).
Definition Itoa (v : Z) : string := FormatInt v.

Definition digit_of (c : ascii) : option Z :=
  let n := Z.of_nat (nat_of_ascii c) in
  if (48 <=? n) && (n <=? 57) then Some (n - 48) else None.

Fixpoint parse_digits (s : string) (acc : Z) : option Z :=
  match s with
  | EmptyString => Some acc
  | String c s' =>
      match digit_of c with
      | Some d => parse_digits s' (acc * 10 + d)
      | None => None
      end
  end.

(** [strconv.ParseInt(s, 10, 64)]: optional sign, at least one decimal digit,
    nothing else, and the value must fit in 64 bits.  [None] is the error
    result. *)
Definition ParseInt (s : string) : option Z :=
  match s with
  | EmptyString => None
  | String c s' =>
      let '(neg, body) :=
        if Ascii.eqb c "+"%char then (false, s')
        else if Ascii.eqb c "-"%char then (true, s')
        else (false, s) in
      match body with
      | EmptyString => None
      | _ =>
          match parse_digits body 0 with
          | Some n =>
              let v := if neg then - n else n in
              if in_int64 v then Some v else None
          | None => None
          end
      end
  end.

(** [strconv.Atoi]: [int] is 64 bits wide on the supported platforms. *)
Definition Atoi (s : string) : option Z := ParseInt s.

(** [strings.ToLower] on the ASCII range (command names are ASCII). *)
Definition lower_ascii (c : ascii) : ascii :=
  let n := nat_of_ascii c in
  if (Nat.leb 65 n && Nat.leb n 90)%bool then ascii_of_nat (n + 32) else c.

Fixpoint ToLower (s : string) : string :=
  match s with
  | EmptyString => EmptyString
  | String c s' => String (lower_ascii c) (ToLower s')
  end.

(** ** RESP replies and their serializers (resp/reply.go) *)

Module resp.

Inductive Reply : Type :=
| StatusReply (Status : string)
| ErrorReply (Status : string)
| IntReply (Code : Z)
| BulkReply (Arg : option string)
| MultiBulkReply (Args : option (list (option string))).

Definition MakeStatusReply := StatusReply.
Definition MakeErrReply := ErrorReply.
Definition MakeIntReply := IntReply.
Definition MakeBulkReply := BulkReply.
Definition MakeMultiBulkReply := MultiBulkReply.

Definition OkReply : Reply := MakeStatusReply "OK".
Definition PongReply : Reply := MakeStatusReply "PONG".
Definition NullBulkReply : Reply := MakeBulkReply None.

(** One element of an array, as [MultiBulkReply.ToBytes] writes it. *)
Definition bulk_bytes (arg : option string) : string :=
  match arg with
  | None => "$-1" +:+ CRLF
  | Some a => "$" +:+ Itoa (len a) +:+ CRLF +:+ a +:+ CRLF
  end.

Fixpoint bulks_bytes (args : list (option string)) : string :=
  match args with
  | [] => ""
  | a :: rest => bulk_bytes a +:+ bulks_bytes rest
  end.

Definition ToBytes (r : Reply) : string :=
  match r with
  | StatusReply s => "+" +:+ s +:+ CRLF
  | ErrorReply s => "-" +:+ s +:+ CRLF
  | IntReply c => ":" +:+ FormatInt c +:+ CRLF
  | BulkReply None => "$-1" +:+ CRLF
  | BulkReply (Some a) => "$" +:+ Itoa (len a) +:+ CRLF +:+ a +:+ CRLF
  | MultiBulkReply None => "*-1" +:+ CRLF
  | MultiBulkReply (Some args) =>
      "*" +:+ Itoa (Z.of_nat (length args)) +:+ CRLF +:+ bulks_bytes args
  end.

(** ** The parser (resp/parser.go)

    The [bufio.Reader] is the string of bytes not yet consumed.  A parsing
    function returns the value together with the bytes left, an error, or a
    run-time panic (index or length out of range). *)

Inductive result (A : Type) : Type :=
| Ok (a : A)
| Err (msg : string)
| Panic.
Arguments Ok {A} a.
Arguments Err {A} msg.
Arguments Panic {A}.

(** [bufio.Reader.ReadBytes('\n')]: the bytes up to and including the first
    line feed, or [None] (an error, [io.EOF]) when there is none. *)
Fixpoint ReadBytes_LF (s : string) : option (string * string) :=
  match s with
  | EmptyString => None
  | String c s' =>
      if Ascii.eqb c LF then Some (String c "", s')
      else match ReadBytes_LF s' with
           | Some (line, rest) => Some (String c line, rest)
           | None => None
           end
  end.

(** [io.ReadFull] of [n] bytes. *)
Fixpoint ReadFull (n : nat) (s : string) : option (string * string) :=
  match n with
  | O => Some ("", s)
  | S n' =>
      match s with
      | EmptyString => None
      | String c s' =>
          match ReadFull n' s' with
          | Some (b, rest) => Some (String c b, rest)
          | None => None
          end
      end
  end.

Definition byte_at (s : string) (i : Z) : option ascii :=
  if i <? 0 then None else String.get (Z.to_nat i) s.

Definition slice_to (s : string) (n : Z) : string := String.substring 0 (Z.to_nat n) s.

Definition tail (s : string) : string :=
  match s with EmptyString => EmptyString | String _ s' => s' end.

Definition readLine (input : string) : result (string * string) :=
  match ReadBytes_LF input with
  | None => Err "EOF"
  | Some (line, rest) =>
      if (1 <? len line) && bool_decide (byte_at line (len line - 2) = Some CR)
      then Ok (slice_to line (len line - 2), rest)
      else Err "protocol error: no CRLF"
  end.

Definition parseBulk (header : string) (input : string) : result (option string * string) :=
  match Atoi (tail header) with
  | None => Err "strconv.Atoi: parsing error"
  | Some n =>
      if n =? -1 then Ok (None, input)
      else if n + 2 <? 0 then Panic (* make([]byte, n+2) with a negative length *)
      else
        match ReadFull (Z.to_nat (n + 2)) input with
        | None => Err "unexpected EOF"
        | Some (body, rest) =>
            match byte_at body n, byte_at body (n + 1) with
            | Some c1, Some c2 =>
                if Ascii.eqb c1 CR && Ascii.eqb c2 LF
                then Ok (Some (slice_to body n), rest)
                else Err "protocol error: bad bulk string format"
            | _, _ => Panic (* body[n] out of range *)
            end
        end
  end.

(** The element loop of [parseArray]: [k] elements still to read. *)
Fixpoint parseArray_loop (k : nat) (input : string) (lines : list (option string))
  : result (list (option string) * string) :=
  match k with
  | O => Ok (lines, input)
  | S k' =>
      match readLine input with
      | Err e => Err e
      | Panic => Panic
      | Ok (line, rest) =>
          match line with
          | EmptyString => Panic (* line[0] on an empty line *)
          | String c _ =>
              if Ascii.eqb c "$"%char then
                match parseBulk line rest with
                | Err e => Err e
                | Panic => Panic
                | Ok (arg, rest') => parseArray_loop k' rest' (lines ++ [arg])
                end
              else Err "protocol error: expected bulk string in array"
          end
      end
  end.

(** [parseArray] returns a nil [*MultiBulkReply] for the count [-1]; that nil
    pointer is [None] here. *)
Definition parseArray (header : string) (input : string) : result (option Reply * string) :=
  match Atoi (tail header) with
  | None => Err "strconv.Atoi: parsing error"
  | Some n =>
      if n =? -1 then Ok (None, input)
      else if n <? 0 then Panic (* make([][]byte, 0, n) with a negative capacity *)
      else
        match parseArray_loop (Z.to_nat n) input [] with
        | Err e => Err e
        | Panic => Panic
        | Ok (lines, rest) => Ok (Some (MakeMultiBulkReply (Some lines)), rest)
        end
  end.

Definition parseLine (line : string) (input : string) : result (option Reply * string) :=
  match line with
  | EmptyString => Err "empty line"
  | String c body =>
      if Ascii.eqb c "*"%char then parseArray line input
      else if Ascii.eqb c "$"%char then
        match parseBulk line input with
        | Err e => Err e
        | Panic => Panic
        | Ok (arg, rest) => Ok (Some (MakeBulkReply arg), rest)
        end
      else if Ascii.eqb c "+"%char then Ok (Some (MakeStatusReply body), input)
      else if Ascii.eqb c "-"%char then Ok (Some (MakeErrReply body), input)
      else if Ascii.eqb c ":"%char then
        match ParseInt body with
        | Some v => Ok (Some (MakeIntReply v), input)
        | None => Err "strconv.ParseInt: parsing error"
        end
      else Err ("protocol error: " +:+ line)
  end.

(** One round of the loop of [parse0] (and of [StreamParser.ReadReply]): read
    the first line, then parse by its prefix. *)
Definition Parse (input : string) : result (option Reply * string) :=
  match readLine input with
  | Err e => Err e
  | Panic => Panic
  | Ok (line, rest) => parseLine line rest
  end.

(** Replies the serializer can emit and a peer can read back: a status or
    error text is one line (no line feed), an integer fits in 64 bits, every
    slice length is a Go [int], and the array is not the nil array. *)
Fixpoint no_LF (s : string) : bool :=
  match s with
  | EmptyString => true
  | String c s' => negb (Ascii.eqb c LF) && no_LF s'
  end.

Definition bulk_ok (arg : option string) : bool :=
  match arg with
  | None => true
  | Some a => in_int64 (len a)
  end.

Definition well_formed (r : Reply) : bool :=
  match r with
  | StatusReply s | ErrorReply s => no_LF s
  | IntReply c => in_int64 c
  | BulkReply arg => bulk_ok arg
  | MultiBulkReply None => false
  | MultiBulkReply (Some args) =>
      in_int64 (Z.of_nat (length args)) && forallb bulk_ok args
  end.

(** *** The stream loop (resp/parser.go, [ParseStream] and [parse0])

    What [parse0] sends on the channel before it closes it: the replies
    ([None] is the nil array, which the source boxes as a nil pointer) and
    at most one error, the last payload.  The flag tells that the goroutine
    panicked instead of returning.  An [io.EOF] from [readLine] ends the
    stream silently.  Every round consumes at least the line feed it read
    up to, so the length of the input bounds the rounds: the fuel. *)
Inductive Payload : Type :=
| Data (r : option Reply)
| PayloadErr (msg : string).

Fixpoint parse0_loop (fuel : nat) (input : string) : list Payload * bool :=
  match fuel with
  | O => ([], false)
  | S fuel' =>
      match readLine input with
      | Err e => if String.eqb e "EOF" then ([], false) else ([PayloadErr e], false)
      | Panic => ([], true)
      | Ok (line, rest) =>
          match parseLine line rest with
          | Err e => ([PayloadErr e], false)
          | Panic => ([], true)
          | Ok (r, rest') =>
              let '(ps, panicked) := parse0_loop fuel' rest' in (Data r :: ps, panicked)
          end
      end
  end.

Definition parse0 (input : string) : list Payload * bool :=
  parse0_loop (S (String.length input)) input.

Definition ParseStream (input : string) : list Payload * bool := parse0 input.

End resp.

(** ** The cluster ring and router (cluster/ring.go, cluster/router.go) *)

Module cluster.

Section Router.

(** [crc32.ChecksumIEEE] (Go's standard library), a 32-bit unsigned hash. *)
Variable ChecksumIEEE : string -> Z.

Record Ring : Type := {
  vnodes : Z;
  nodes : list string;
  sortedHashes : list Z;
  hashToNode : gmap Z string;
}.

(** [sort.Search(n, f)] on the slice [NewRing] sorted: the first index whose
    hash is at least [h], or the length when there is none. *)
Fixpoint Search_ge (hs : list Z) (h : Z) : nat :=
  match hs with
  | [] => O
  | x :: hs' => if h <=? x then O else S (Search_ge hs' h)
  end.

Definition NodeForKey (r : Ring) (key : string) : string :=
  match sortedHashes r with
  | [] => ""
  | _ =>
      let h := ChecksumIEEE key in
      let idx := Search_ge (sortedHashes r) h in
      let idx := if bool_decide (idx = length (sortedHashes r)) then O else idx in
      match sortedHashes r !! idx with
      | Some x => default "" (hashToNode r !! x)
      | None => ""
      end
  end.

(** [NewRing]: [vnodes] hashes per node, of the node name followed by [#]
    and the index; a later node overwrites the owner of a hash it shares
    with an earlier one. *)
Definition vnode_hashes (node : string) (vnodes : Z) : list (Z * string) :=
  map (fun i => (ChecksumIEEE (node +:+ "#" +:+ Itoa (Z.of_nat i)), node))
      (seq 0 (Z.to_nat vnodes)).

Definition NewRing (nodes : list string) (vnodes : Z) : Ring :=
  let vnodes := if vnodes <=? 0 then 160 else vnodes in
  let pairs := concat (map (fun node => vnode_hashes node vnodes) nodes) in
  {| vnodes := vnodes;
     nodes := nodes;
     sortedHashes := merge_sort Z.le (map fst pairs);
     hashToNode := fold_left (fun m p => <[p.1 := p.2]> m) pairs ∅ |}.

(** The local database and the peers are the router's environment: what a
    node answers to a command.  [None] as a reply is a nil reply value;
    [inr e] is a transport error of [PeerClient.Do]. *)
Variable localExec : list string -> option resp.Reply.
Variable peerDo : string -> list string -> option resp.Reply + string.

(** The per-group goroutines deliver their results in completion order, which
    the scheduler chooses: some rearrangement of the groups. *)
Variable completion_order :
  list (string * list string) -> list (string * list string).

Record Router : Type := {
  localAddr : string;
  ring : Ring;
}.

Record delResult : Type := {
  count : Z;
  err : option resp.Reply;
}.

Definition owner (r : Router) (kb : string) : string :=
  let node := NodeForKey (ring r) kb in
  if bool_decide (node = "") then localAddr r else node.

(** [groups[node] = append(groups[node], kb)] for the keys in command order. *)
Definition group_keys (r : Router) (keys : list string) : gmap string (list string) :=
  fold_left (fun groups kb =>
               let node := owner r kb in
               <[node := default [] (groups !! node) ++ [kb]]> groups)
            keys ∅.

Definition subCmd (keys : list string) : list string := "DEL" :: keys.

(** The body of the goroutine started for one group. *)
Definition del_group (r : Router) (g : string * list string) : delResult :=
  let '(node, keys) := g in
  let outcome :=
    if bool_decide (node = localAddr r) then inl (localExec (subCmd keys))
    else peerDo node (subCmd keys) in
  match outcome with
  | inr e => {| count := 0;
                err := Some (resp.MakeErrReply ("ERR cluster forward failed: " +:+ e)) |}
  | inl (Some (resp.ErrorReply s)) => {| count := 0; err := Some (resp.ErrorReply s) |}
  | inl (Some (resp.IntReply c)) => {| count := c; err := None |}
  | inl _ => {| count := 0;
                err := Some (resp.MakeErrReply "ERR cluster: DEL unexpected reply") |}
  end.

(** The loop over the results channel: the first error met is returned, the
    counts are added in 64-bit arithmetic. *)
Fixpoint collect (results : list delResult) (total : Z) : resp.Reply :=
  match results with
  | [] => resp.MakeIntReply total
  | res :: rest =>
      match err res with
      | Some e => e
      | None => collect rest (wrap64 (total + count res))
      end
  end.

Definition execDel (r : Router) (cmd : list string) : resp.Reply :=
  match cmd with
  | [] | [_] => resp.MakeErrReply "ERR wrong number of arguments for 'del' command"
  | _ :: keys =>
      let groups := group_keys r keys in
      collect (map (del_group r) (completion_order (map_to_list groups))) 0
  end.

(** [Router.Exec]: PING runs locally, DEL is split by owner, any other
    command goes to the owner of its first argument. *)
Definition Exec (r : Router) (cmd : list string) : option resp.Reply :=
  match cmd with
  | [] => Some (resp.MakeErrReply "ERR empty command")
  | name :: rest =>
      let name := ToLower name in
      if String.eqb name "ping" then localExec cmd
      else if String.eqb name "del" then Some (execDel r cmd)
      else
        match rest with
        | [] => localExec cmd
        | key :: _ =>
            let target := NodeForKey (ring r) key in
            if bool_decide (target = "") || bool_decide (target = localAddr r)
            then localExec cmd
            else
              match peerDo target cmd with
              | inr e => Some (resp.MakeErrReply ("ERR cluster forward failed: " +:+ e))
              | inl reply => reply
              end
        end
  end.

End Router.

End cluster.

(** ** Values and their size estimates (db/types.go)

    A list, hash or set value is a reference: [ListData] wraps a
    [*list.List], [HashData] and [SetData] are Go maps.  The object lives in
    the [store]; the value held by the cache and the variable a command works
    on name the same location, so a change made through one is seen through
    the other.  Inside values a nil byte slice and an empty one are not told
    apart. *)

Module types.

Definition loc : Type := positive.

Inductive object : Type :=
| ListObj (elems : list string)
| HashObj (fields : gmap string string)
| SetObj (members : gset string).

Definition store : Type := gmap loc object.

(** A new object ([list.New()], [make(HashData)], [make(SetData)]) gets a
    location that is not in use. *)
Definition new_loc (st : store) : loc := fresh (dom st).

Definition alloc (st : store) (o : object) : loc * store :=
  let l := new_loc st in (l, <[l := o]> st).

Inductive Value : Type :=
| StringData (b : string)
| ListData (L : loc)
| HashData (h : loc)
| SetData (s : loc).

Definition list_elems (st : store) (l : loc) : list string :=
  match st !! l with Some (ListObj es) => es | _ => [] end.
Definition hash_fields (st : store) (l : loc) : gmap string string :=
  match st !! l with Some (HashObj h) => h | _ => ∅ end.
Definition set_members (st : store) (l : loc) : gset string :=
  match st !! l with Some (SetObj s) => s | _ => ∅ end.

Definition ListData_Len (es : list string) : Z :=
  fold_left (fun size b => size + len b + 16) es 0.
Definition HashData_Len (h : gmap string string) : Z :=
  map_fold (fun k v size => size + (len k + len v + 16)) 0 h.
Definition SetData_Len (s : gset string) : Z :=
  set_fold (fun k size => size + (len k + 16)) 0 s.

(** The [Len()] method, read through the store as it is at the call. *)
Definition Len (st : store) (v : Value) : Z :=
  match v with
  | StringData b => len b
  | ListData l => ListData_Len (list_elems st l)
  | HashData h => HashData_Len (hash_fields st h)
  | SetData s => SetData_Len (set_members st s)
  end.

End types.

(** ** The eviction caches (pkg/lru) *)

Module lru.

Import types.

Inductive RemoveReason : Type :=
| RemoveReasonEvicted
| RemoveReasonExpired
| RemoveReasonDeleted
| RemoveReasonCleared.

#[global] Instance RemoveReason_eq_dec : EqDecision RemoveReason.
Proof. solve_decision. Defined.

(** One call of the removal callback [OnRemoveFunc(key, value, reason)].
    A cache operation returns the calls it made, in order; the owner of the
    cache runs its callback over them. *)
Definition event : Type := string * Value * RemoveReason.

(** The interface [EvictionCache].  Every operation gets the store (for
    [Len()]) and the clock in Unix seconds (for the cache's own TTL).  [Add]
    returns [None] when its eviction loop never ends. *)
Class EvictionCache (C : Type) : Type := {
  Add : store -> Z -> C -> string -> Value -> Z -> option (C * list event);
  Get : store -> Z -> C -> string -> C * option Value * list event;
  Peek : store -> Z -> C -> string -> C * option Value * list event;
  Remove : store -> C -> string -> C * list event;
  ForEach : C -> list (string * Value);
  Len : C -> Z;
}.

(** *** LRU (pkg/lru/lru.go)

    [ll] is the recency list, front first; the map [cache] from a key to its
    list element is the lookup of the key in [ll].  The expiry min-heap only
    serves the cache's own background sweep of entries added with a TTL and
    is left out, as is that sweep. *)

Record entry : Type := {
  key : string;
  value : Value;
  expiresAt : Z;
}.

Record Cache : Type := {
  maxBytes : Z;
  nbytes : Z;
  ll : list entry;
}.

Definition New (maxBytes : Z) : Cache :=
  {| maxBytes := maxBytes; nbytes := 0; ll := [] |}.

Definition find_entry (k : string) (l : list entry) : option entry :=
  head (filter (fun e => key e = k) l).

Definition drop_key (k : string) (l : list entry) : list entry :=
  filter (fun e => key e <> k) l.

Definition removeEntry (st : store) (c : Cache) (kv : entry) (reason : RemoveReason)
  : Cache * event :=
  ({| maxBytes := maxBytes c;
      nbytes := nbytes c - (len (key kv) + types.Len st (value kv));
      ll := drop_key (key kv) (ll c) |},
   (key kv, value kv, reason)).

Definition over_budget (maxBytes nbytes : Z) : bool :=
  negb (maxBytes =? 0) && (maxBytes <? nbytes).

(** [for c.maxBytes != 0 && c.maxBytes < c.nbytes { c.RemoveOldest() }].
    [RemoveOldest] does nothing on an empty list, and the loop then spins
    for ever: [None].  The fuel is the length of the list. *)
Fixpoint evict_loop (fuel : nat) (st : store) (c : Cache) : option (Cache * list event) :=
  if over_budget (maxBytes c) (nbytes c) then
    match fuel, last (ll c) with
    | S fuel', Some ele =>
        let '(c', ev) := removeEntry st c ele RemoveReasonEvicted in
        match evict_loop fuel' st c' with
        | Some (c'', evs) => Some (c'', ev :: evs)
        | None => None
        end
    | _, _ => None
    end
  else Some (c, []).

Definition Cache_Add (st : store) (now : Z) (c : Cache) (k : string) (v : Value) (ttl : Z)
  : option (Cache * list event) :=
  let expiresAt := if 0 <? ttl then now + ttl else 0 in
  let c1 :=
    match find_entry k (ll c) with
    | Some kv =>
        {| maxBytes := maxBytes c;
           nbytes := nbytes c + (types.Len st v - types.Len st (value kv));
           ll := {| key := k; value := v; expiresAt := expiresAt |} :: drop_key k (ll c) |}
    | None =>
        {| maxBytes := maxBytes c;
           nbytes := nbytes c + (len k + types.Len st v);
           ll := {| key := k; value := v; expiresAt := expiresAt |} :: ll c |}
    end in
  evict_loop (length (ll c1)) st c1.

Definition is_expired (expiresAt now : Z) : bool := (0 <? expiresAt) && (expiresAt <? now).

Definition Cache_Get (st : store) (now : Z) (c : Cache) (k : string)
  : Cache * option Value * list event :=
  match find_entry k (ll c) with
  | Some kv =>
      if is_expired (expiresAt kv) now then
        let '(c', ev) := removeEntry st c kv RemoveReasonExpired in (c', None, [ev])
      else
        ({| maxBytes := maxBytes c; nbytes := nbytes c;
            ll := kv :: drop_key k (ll c) |}, Some (value kv), [])
  | None => (c, None, [])
  end.

Definition Cache_Peek (st : store) (now : Z) (c : Cache) (k : string)
  : Cache * option Value * list event :=
  match find_entry k (ll c) with
  | Some kv =>
      if is_expired (expiresAt kv) now then
        let '(c', ev) := removeEntry st c kv RemoveReasonExpired in (c', None, [ev])
      else (c, Some (value kv), [])
  | None => (c, None, [])
  end.

Definition Cache_Remove (st : store) (c : Cache) (k : string) : Cache * list event :=
  match find_entry k (ll c) with
  | Some kv => let '(c', ev) := removeEntry st c kv RemoveReasonDeleted in (c', [ev])
  | None => (c, [])
  end.

(** [ForEach] ranges over a Go map, in no particular order; the recency
    order stands for it. *)
Definition Cache_ForEach (c : Cache) : list (string * Value) :=
  map (fun e => (key e, value e)) (ll c).

Definition Cache_Len (c : Cache) : Z := Z.of_nat (length (ll c)).

#[global] Instance Cache_EvictionCache : EvictionCache Cache := {
  Add := Cache_Add;
  Get := Cache_Get;
  Peek := Cache_Peek;
  Remove := Cache_Remove;
  ForEach := Cache_ForEach;
  Len := Cache_Len;
}.

(** *** LFU (pkg/lru/lfu.go)

    [buckets] maps a frequency to its list of keys, front first; the
    [element] field of an entry is the place of its key in the bucket of its
    frequency. *)

Record lfuEntry : Type := {
  lfu_value : Value;
  freq : Z;
  lfu_expiresAt : Z;
}.

Record LFUCache : Type := {
  lfu_maxBytes : Z;
  lfu_nbytes : Z;
  items : gmap string lfuEntry;
  buckets : gmap Z (list string);
  minFreq : Z;
}.

Definition NewLFU (maxBytes : Z) : LFUCache :=
  {| lfu_maxBytes := maxBytes; lfu_nbytes := 0; items := ∅; buckets := ∅; minFreq := 0 |}.

Definition bucket_nonempty (b : option (list string)) : bool :=
  match b with Some (_ :: _) => true | _ => false end.

(** [getOrCreateBucket(freq)] followed by [PushFront]. *)
Definition push_front (f : Z) (k : string) (bs : gmap Z (list string)) : gmap Z (list string) :=
  <[f := k :: default [] (bs !! f)]> bs.

(** [b.Remove(ent.element)] on the bucket of frequency [f], and the removal
    of the bucket when that empties it; the flag tells whether it did. *)
Definition bucket_remove (f : Z) (k : string) (bs : gmap Z (list string))
  : gmap Z (list string) * bool :=
  match bs !! f with
  | Some b =>
      let b' := filter (fun k' => k' <> k) b in
      match b' with
      | [] => (delete f bs, true)
      | _ => (<[f := b']> bs, false)
      end
  | None => (bs, false)
  end.

Definition increment (c : LFUCache) (k : string) (ent : lfuEntry) : LFUCache :=
  let oldFreq := freq ent in
  let '(bs, emptied) := bucket_remove oldFreq k (buckets c) in
  let minFreq' :=
    if emptied && bool_decide (minFreq c = oldFreq) then oldFreq + 1 else minFreq c in
  let ent' := {| lfu_value := lfu_value ent; freq := oldFreq + 1;
                 lfu_expiresAt := lfu_expiresAt ent |} in
  {| lfu_maxBytes := lfu_maxBytes c; lfu_nbytes := lfu_nbytes c;
     items := <[k := ent']> (items c);
     buckets := push_front (oldFreq + 1) k bs;
     minFreq := minFreq' |}.

(** [recalculateMinFreq]: the least frequency with a non-empty bucket, 0 when
    there is none.  Frequencies are positive, so the order in which the Go
    map is ranged over does not matter. *)
Definition recalculateMinFreq (bs : gmap Z (list string)) : Z :=
  map_fold (fun f l m =>
              match l with
              | [] => m
              | _ => if (m =? 0) || (f <? m) then f else m
              end) 0 bs.

Definition LFU_removeEntry (st : store) (c : LFUCache) (k : string) (ent : lfuEntry)
    (reason : RemoveReason) : LFUCache * event :=
  let '(bs, emptied) := bucket_remove (freq ent) k (buckets c) in
  let minFreq' :=
    if emptied && bool_decide (minFreq c = freq ent) then
      if bool_decide (size (items c) = 1%nat) then 0
      else if bool_decide (bs !! (freq ent + 1) = None) then recalculateMinFreq bs
      else freq ent + 1
    else minFreq c in
  ({| lfu_maxBytes := lfu_maxBytes c;
      lfu_nbytes := lfu_nbytes c - (len k + types.Len st (lfu_value ent));
      items := delete k (items c);
      buckets := bs;
      minFreq := minFreq' |},
   (k, lfu_value ent, reason)).

(** The search of [evictOne] for a non-empty bucket, from [minFreq] upwards.
    It gives up and recalculates once [minFreq] passes one million, so it
    takes at most [1000001 - minFreq] rounds: the fuel. *)
Fixpoint scan_buckets (fuel : nat) (bs : gmap Z (list string)) (m : Z)
  : gmap Z (list string) * Z :=
  if bucket_nonempty (bs !! m) then (bs, m)
  else
    match fuel with
    | O => (bs, m)
    | S fuel' =>
        let bs' := delete m bs in
        let m' := m + 1 in
        if 1000000 <? m' then (bs', recalculateMinFreq bs')
        else scan_buckets fuel' bs' m'
    end.

(** [evictOne]; [None] when it returns without having removed an entry. *)
Definition evictOne (st : store) (c : LFUCache) : option (LFUCache * event) :=
  if bool_decide (size (items c) = 0%nat) then None
  else
    let '(bs, m) := scan_buckets (S (Z.to_nat (1000000 - minFreq c))) (buckets c) (minFreq c) in
    match bs !! m with
    | Some b =>
        match last b with
        | Some k =>
            match items c !! k with
            | Some ent =>
                Some (LFU_removeEntry st
                        {| lfu_maxBytes := lfu_maxBytes c; lfu_nbytes := lfu_nbytes c;
                           items := items c; buckets := bs; minFreq := m |}
                        k ent RemoveReasonEvicted)
            | None => None
            end
        | None => None
        end
    | None => None
    end.

(** [for c.maxBytes != 0 && c.nbytes > c.maxBytes { c.evictOne() }]: a round
    that removes nothing leaves the condition as it was, and the loop never
    ends ([None]).  The fuel is the number of entries. *)
Fixpoint lfu_evict_loop (fuel : nat) (st : store) (c : LFUCache)
  : option (LFUCache * list event) :=
  if over_budget (lfu_maxBytes c) (lfu_nbytes c) then
    match fuel, evictOne st c with
    | S fuel', Some (c', ev) =>
        match lfu_evict_loop fuel' st c' with
        | Some (c'', evs) => Some (c'', ev :: evs)
        | None => None
        end
    | _, _ => None
    end
  else Some (c, []).

Definition LFU_Add (st : store) (now : Z) (c : LFUCache) (k : string) (v : Value) (ttl : Z)
  : option (LFUCache * list event) :=
  let expiresAt := if 0 <? ttl then now + ttl else 0 in
  let c1 :=
    match items c !! k with
    | Some ent =>
        increment
          {| lfu_maxBytes := lfu_maxBytes c;
             lfu_nbytes := lfu_nbytes c + (types.Len st v - types.Len st (lfu_value ent));
             items := items c; buckets := buckets c; minFreq := minFreq c |}
          k {| lfu_value := v; freq := freq ent; lfu_expiresAt := expiresAt |}
    | None =>
        {| lfu_maxBytes := lfu_maxBytes c;
           lfu_nbytes := lfu_nbytes c + (len k + types.Len st v);
           items := <[k := {| lfu_value := v; freq := 1; lfu_expiresAt := expiresAt |}]> (items c);
           buckets := push_front 1 k (buckets c);
           minFreq := 1 |}
    end in
  lfu_evict_loop (size (items c1)) st c1.

Definition LFU_Get (st : store) (now : Z) (c : LFUCache) (k : string)
  : LFUCache * option Value * list event :=
  match items c !! k with
  | Some ent =>
      if is_expired (lfu_expiresAt ent) now then
        let '(c', ev) := LFU_removeEntry st c k ent RemoveReasonExpired in (c', None, [ev])
      else (increment c k ent, Some (lfu_value ent), [])
  | None => (c, None, [])
  end.

Definition LFU_Peek (st : store) (now : Z) (c : LFUCache) (k : string)
  : LFUCache * option Value * list event :=
  match items c !! k with
  | Some ent =>
      if is_expired (lfu_expiresAt ent) now then
        let '(c', ev) := LFU_removeEntry st c k ent RemoveReasonExpired in (c', None, [ev])
      else (c, Some (lfu_value ent), [])
  | None => (c, None, [])
  end.

Definition LFU_Remove (st : store) (c : LFUCache) (k : string) : LFUCache * list event :=
  match items c !! k with
  | Some ent => let '(c', ev) := LFU_removeEntry st c k ent RemoveReasonDeleted in (c', [ev])
  | None => (c, [])
  end.

Definition LFU_ForEach (c : LFUCache) : list (string * Value) :=
  map (fun kv => (kv.1, lfu_value kv.2)) (map_to_list (items c)).

Definition LFU_Len (c : LFUCache) : Z := Z.of_nat (size (items c)).

#[global] Instance LFUCache_EvictionCache : EvictionCache LFUCache := {
  Add := LFU_Add;
  Get := LFU_Get;
  Peek := LFU_Peek;
  Remove := LFU_Remove;
  ForEach := LFU_ForEach;
  Len := LFU_Len;
}.

End lru.

(** ** The snapshot file (rdb/rdb.go) *)

Module rdb.

Definition magicHeader : string := "MYRDB1".

(** [EntryType] is a [uint8]. *)
Definition TypeString : Z := 1.
Definition TypeList : Z := 2.
Definition TypeHash : Z := 3.
Definition TypeSet : Z := 4.

Record Entry : Type := {
  Key : string;
  Type_ : Z;
  ExpireAtUnixMs : Z;
  String_ : string;
  List : list string;
  Hash : gmap string string;
  Set_ : list string;
}.

(** [n] bytes of [v], least significant first ([binary.LittleEndian]); a
    negative [v] comes out in two's complement. *)
Fixpoint le_bytes (n : nat) (v : Z) : string :=
  match n with
  | O => ""
  | S n' => String (ascii_of_N (Z.to_N (v mod 256))) (le_bytes n' (v / 256))
  end.

Definition writeUint8 (v : Z) : string := le_bytes 1 v.
Definition writeUint32 (v : Z) : string := le_bytes 4 v.
Definition writeInt64 (v : Z) : string := le_bytes 8 v.
Definition writeString (s : string) : string := writeUint32 (len s) +:+ s.
Definition writeBytes (b : string) : string := writeUint32 (len b) +:+ b.

Definition concat_map {A : Type} (f : A -> string) (l : list A) : string :=
  fold_right (fun x acc => f x +:+ acc) "" l.

Definition key_le (a b : Entry) : Prop := String.le (Key a) (Key b).

#[global] Instance key_le_dec : RelDecision key_le.
Proof. intros a b. unfold key_le. apply _. Defined.

(** [sort.Slice] by key and [sort.Strings]: ascending byte-wise order. *)
Definition sort_entries (entries : list Entry) : list Entry := merge_sort key_le entries.
Definition sort_strings (l : list string) : list string := merge_sort String.le l.

(** The type-specific body of one entry; [None] for an unknown type. *)
Definition write_body (e : Entry) : option string :=
  if Type_ e =? TypeString then Some (writeBytes (String_ e))
  else if Type_ e =? TypeList then
    Some (writeUint32 (Z.of_nat (length (List e))) +:+ concat_map writeBytes (List e))
  else if Type_ e =? TypeHash then
    let fields := sort_strings (map fst (map_to_list (Hash e))) in
    Some (writeUint32 (Z.of_nat (length fields))
          +:+ concat_map (fun field =>
                writeString field +:+ writeBytes (default "" (Hash e !! field))) fields)
  else if Type_ e =? TypeSet then
    let members := sort_strings (Set_ e) in
    Some (writeUint32 (Z.of_nat (length members)) +:+ concat_map writeString members)
  else None.

Definition write_entry (e : Entry) : option string :=
  match write_body e with
  | Some body =>
      Some (writeUint8 (Type_ e) +:+ writeString (Key e)
            +:+ writeInt64 (ExpireAtUnixMs e) +:+ body)
  | None => None
  end.

Fixpoint write_entries (entries : list Entry) : option string :=
  match entries with
  | [] => Some ""
  | e :: rest =>
      match write_entry e, write_entries rest with
      | Some b, Some bs => Some (b +:+ bs)
      | _, _ => None
      end
  end.

(** [SaveToWriter]: the bytes written to a writer that accepts them all, with
    [createdAt] the clock reading [time.Now().UnixMilli()]; [None] is the
    error [unknown entry type]. *)
Definition SaveToWriter (createdAt : Z) (entries : list Entry) : option string :=
  let entries := sort_entries entries in
  match write_entries entries with
  | Some body =>
      Some (magicHeader +:+ writeInt64 createdAt
            +:+ writeUint32 (Z.of_nat (length entries)) +:+ body)
  | None => None
  end.

(** *** The loader ([LoadFromReader])

    The reader is the string of bytes not yet read; [None] from a read
    helper is the error of [io.ReadFull] on a short input. *)

(** [binary.LittleEndian.Uint32] and [Uint64]: the value of the bytes. *)
Fixpoint le_value (b : string) : Z :=
  match b with
  | EmptyString => 0
  | String c b' => Z.of_N (N_of_ascii c) + 256 * le_value b'
  end.

Definition readUint8 (input : string) : option (Z * string) :=
  match resp.ReadFull 1 input with
  | Some (b, rest) => Some (le_value b, rest)
  | None => None
  end.

Definition readUint32 (input : string) : option (Z * string) :=
  match resp.ReadFull 4 input with
  | Some (b, rest) => Some (le_value b, rest)
  | None => None
  end.

(** [int64(binary.LittleEndian.Uint64(b))]: the upper half of the unsigned
    range is the negative numbers. *)
Definition readInt64 (input : string) : option (Z * string) :=
  match resp.ReadFull 8 input with
  | Some (b, rest) =>
      let u := le_value b in
      Some (if 2 ^ 63 <=? u then u - 2 ^ 64 else u, rest)
  | None => None
  end.

Definition readString (input : string) : option (string * string) :=
  match readUint32 input with
  | Some (n, rest) =>
      if n =? 0 then Some ("", rest) else resp.ReadFull (Z.to_nat n) rest
  | None => None
  end.

Definition readBytes (input : string) : option (string * string) :=
  match readUint32 input with
  | Some (n, rest) =>
      if n =? 0 then Some ("", rest) else resp.ReadFull (Z.to_nat n) rest
  | None => None
  end.

(** The loops [for j := uint32(0); j < cnt; j++] over the elements of a
    list, the pairs of a hash and the members of a set. *)
Fixpoint read_list_elems (cnt : nat) (input : string) (acc : list string)
  : option (list string * string) :=
  match cnt with
  | O => Some (acc, input)
  | S cnt' =>
      match readBytes input with
      | Some (b, rest) => read_list_elems cnt' rest (acc ++ [b])
      | None => None
      end
  end.

Fixpoint read_hash_pairs (cnt : nat) (input : string) (acc : gmap string string)
  : option (gmap string string * string) :=
  match cnt with
  | O => Some (acc, input)
  | S cnt' =>
      match readString input with
      | Some (field, rest) =>
          match readBytes rest with
          | Some (val, rest') => read_hash_pairs cnt' rest' (<[field := val]> acc)
          | None => None
          end
      | None => None
      end
  end.

Fixpoint read_set_members (cnt : nat) (input : string) (acc : list string)
  : option (list string * string) :=
  match cnt with
  | O => Some (acc, input)
  | S cnt' =>
      match readString input with
      | Some (m, rest) => read_set_members cnt' rest (acc ++ [m])
      | None => None
      end
  end.

Inductive load_error : Type :=
| io_error
| invalid_rdb_header
| unknown_entry_type.

(** One round of the loop over the entries. *)
Definition read_entry (input : string) : load_error + (Entry * string) :=
  match readUint8 input with
  | None => inl io_error
  | Some (typ, r1) =>
      match readString r1 with
      | None => inl io_error
      | Some (key, r2) =>
          match readInt64 r2 with
          | None => inl io_error
          | Some (expireAt, r3) =>
              if typ =? TypeString then
                match readBytes r3 with
                | Some (b, r4) =>
                    inr ({| Key := key; Type_ := typ; ExpireAtUnixMs := expireAt;
                            String_ := b; List := []; Hash := ∅; Set_ := [] |}, r4)
                | None => inl io_error
                end
              else if typ =? TypeList then
                match readUint32 r3 with
                | Some (cnt, r4) =>
                    match read_list_elems (Z.to_nat cnt) r4 [] with
                    | Some (l, r5) =>
                        inr ({| Key := key; Type_ := typ; ExpireAtUnixMs := expireAt;
                                String_ := ""; List := l; Hash := ∅; Set_ := [] |}, r5)
                    | None => inl io_error
                    end
                | None => inl io_error
                end
              else if typ =? TypeHash then
                match readUint32 r3 with
                | Some (cnt, r4) =>
                    match read_hash_pairs (Z.to_nat cnt) r4 ∅ with
                    | Some (h, r5) =>
                        inr ({| Key := key; Type_ := typ; ExpireAtUnixMs := expireAt;
                                String_ := ""; List := []; Hash := h; Set_ := [] |}, r5)
                    | None => inl io_error
                    end
                | None => inl io_error
                end
              else if typ =? TypeSet then
                match readUint32 r3 with
                | Some (cnt, r4) =>
                    match read_set_members (Z.to_nat cnt) r4 [] with
                    | Some (l, r5) =>
                        inr ({| Key := key; Type_ := typ; ExpireAtUnixMs := expireAt;
                                String_ := ""; List := []; Hash := ∅; Set_ := l |}, r5)
                    | None => inl io_error
                    end
                | None => inl io_error
                end
              else inl unknown_entry_type
          end
      end
  end.

Fixpoint read_entries (n : nat) (input : string) (acc : list Entry)
  : load_error + list Entry :=
  match n with
  | O => inr acc
  | S n' =>
      match read_entry input with
      | inl err => inl err
      | inr (e, rest) => read_entries n' rest (acc ++ [e])
      end
  end.

Definition LoadFromReader (input : string) : load_error + list Entry :=
  match resp.ReadFull (String.length magicHeader) input with
  | None => inl io_error
  | Some (header, r1) =>
      if String.eqb header magicHeader then
        match readInt64 r1 with
        | None => inl io_error
        | Some (_, r2) =>
            match readUint32 r2 with
            | None => inl io_error
            | Some (n, r3) => read_entries (Z.to_nat n) r3 []
            end
        end
      else inl invalid_rdb_header
  end.

End rdb.

(** ** The execution core (db/)

    Where a source file holds two revisions of a function, the newer one is
    modelled: the one written for the PEXPIREAT translation of [appendAof]. *)

Module db.

Import types lru resp.

Section Core.

Context {C : Type} {EC : EvictionCache C}.

(** The fields of [StandaloneDB] that the single writer reads and writes.
    [aofHandler] is [None] for a nil handler and otherwise the records given
    to [AddAof] so far, oldest first.  [objects] is the store of the list,
    hash and set objects.  [callbacks] is not a field of the program: it
    records every call of the removal callback, oldest first, so that what
    the cache did can be stated. *)
Record StandaloneDB : Type := {
  cache : C;
  ttlMap : gmap string Z;
  evictedKeys : list string;
  aofHandler : option (list (list string));
  objects : store;
  callbacks : list event;
}.

Definition set_cache (c : C) (db : StandaloneDB) : StandaloneDB :=
  {| cache := c; ttlMap := ttlMap db; evictedKeys := evictedKeys db;
     aofHandler := aofHandler db; objects := objects db;
     callbacks := callbacks db |}.
Definition set_ttlMap (m : gmap string Z) (db : StandaloneDB) : StandaloneDB :=
  {| cache := cache db; ttlMap := m; evictedKeys := evictedKeys db;
     aofHandler := aofHandler db; objects := objects db;
     callbacks := callbacks db |}.
Definition set_evictedKeys (l : list string) (db : StandaloneDB) : StandaloneDB :=
  {| cache := cache db; ttlMap := ttlMap db; evictedKeys := l;
     aofHandler := aofHandler db; objects := objects db;
     callbacks := callbacks db |}.
Definition set_aofHandler (h : option (list (list string))) (db : StandaloneDB) : StandaloneDB :=
  {| cache := cache db; ttlMap := ttlMap db; evictedKeys := evictedKeys db;
     aofHandler := h; objects := objects db; callbacks := callbacks db |}.
Definition set_callbacks (l : list event) (db : StandaloneDB) : StandaloneDB :=
  {| cache := cache db; ttlMap := ttlMap db; evictedKeys := evictedKeys db;
     aofHandler := aofHandler db; objects := objects db; callbacks := l |}.
Definition set_objects (st : store) (db : StandaloneDB) : StandaloneDB :=
  {| cache := cache db; ttlMap := ttlMap db; evictedKeys := evictedKeys db;
     aofHandler := aofHandler db; objects := st; callbacks := callbacks db |}.

(** A step of the single writer: it changes the state and returns a value,
    or never returns ([None]: an eviction loop that does not end). *)
Definition M (A : Type) : Type := StandaloneDB -> option (A * StandaloneDB).

Definition ret {A : Type} (a : A) : M A := fun db => Some (a, db).
Definition bind {A B : Type} (m : M A) (f : A -> M B) : M B :=
  fun db => match m db with
            | Some (a, db') => f a db'
            | None => None
            end.

Notation "x <- m ;; k" := (bind m (fun x => k))
  (at level 62, m at next level, right associativity, only parsing).
Notation "m ;;; k" := (bind m (fun _ => k))
  (at level 62, right associativity, only parsing).

Definition gets {A : Type} (f : StandaloneDB -> A) : M A := fun db => Some (f db, db).
Definition modify (f : StandaloneDB -> StandaloneDB) : M unit := fun db => Some (tt, f db).

(** The callback installed by [NewStandaloneDBWithConfig]: it always drops
    the key from [ttlMap], and records the key when the reason is an
    eviction. *)
Definition onEvicted (db : StandaloneDB) (ev : event) : StandaloneDB :=
  let '(k, _, reason) := ev in
  let db := set_callbacks (callbacks db ++ [ev]) db in
  let db := set_ttlMap (delete k (ttlMap db)) db in
  if decide (reason = RemoveReasonEvicted)
  then set_evictedKeys (evictedKeys db ++ [k]) db
  else db.

Definition fire (evs : list event) (db : StandaloneDB) : StandaloneDB :=
  fold_left onEvicted evs db.

(** [time.Now().Unix()] of an instant in nanoseconds. *)
Definition unix (now : Z) : Z := now / 10 ^ 9.
(** [t.UnixMilli()] and [time.UnixMilli(ms)]. *)
Definition UnixMilli (t : Z) : Z := t / 10 ^ 6.
Definition time_UnixMilli (ms : Z) : Z := ms * 10 ^ 6.

(** The cache operations as the core calls them (the TTL argument of [Add]
    is always 0), each followed by the callbacks it made. *)
Definition cache_Add (now : Z) (k : string) (v : Value) : M unit :=
  fun db =>
    match Add (objects db) (unix now) (cache db) k v 0 with
    | Some (c, evs) => Some (tt, fire evs (set_cache c db))
    | None => None
    end.
Definition cache_Get (now : Z) (k : string) : M (option Value) :=
  fun db =>
    let '(c, r, evs) := Get (objects db) (unix now) (cache db) k in
    Some (r, fire evs (set_cache c db)).
Definition cache_Peek (now : Z) (k : string) : M (option Value) :=
  fun db =>
    let '(c, r, evs) := Peek (objects db) (unix now) (cache db) k in
    Some (r, fire evs (set_cache c db)).
Definition cache_Remove (k : string) : M unit :=
  fun db =>
    let '(c, evs) := Remove (objects db) (cache db) k in
    Some (tt, fire evs (set_cache c db)).

Definition AddAof (args : list string) : M unit :=
  modify (fun db =>
            match aofHandler db with
            | Some log => set_aofHandler (Some (log ++ [args])) db
            | None => db
            end).

(** [if expireTime, ok := db.ttlMap[key]; ok { if time.Now().After(expireTime) ...]. *)
Definition past_due (now : Z) (k : string) : M bool :=
  gets (fun db => match ttlMap db !! k with
                  | Some t => t <? now
                  | None => false
                  end).

Definition new_object (o : object) : M loc :=
  fun db => let '(l, st) := alloc (objects db) o in Some (l, set_objects st db).
Definition write_object (l : loc) (o : object) : M unit :=
  modify (fun db => set_objects (<[l := o]> (objects db)) db).
Definition read_list (l : loc) : M (list string) :=
  gets (fun db => list_elems (objects db) l).
Definition read_hash (l : loc) : M (gmap string string) :=
  gets (fun db => hash_fields (objects db) l).
Definition read_set (l : loc) : M (gset string) :=
  gets (fun db => set_members (objects db) l).

Definition WRONGTYPE : Reply :=
  MakeErrReply "WRONGTYPE Operation against a key holding the wrong kind of value".
Definition wrong_args (name : string) : Reply :=
  MakeErrReply ("ERR wrong number of arguments for '" +:+ name +:+ "' command").
Definition not_an_integer : Reply :=
  MakeErrReply "ERR value is not an integer or out of range".

(** *** Strings (db/basic.go) *)

Definition set (now : Z) (args : list string) : M Reply :=
  match args with
  | [_; k; val] =>
      cache_Add now k (StringData val) ;;;
      modify (fun db => set_ttlMap (delete k (ttlMap db)) db) ;;;
      ret OkReply
  | _ => ret (wrong_args "set")
  end.

Definition get (now : Z) (args : list string) : M Reply :=
  match args with
  | [_; k] =>
      val <- cache_Get now k ;;
      match val with
      | None => ret NullBulkReply
      | Some v =>
          due <- past_due now k ;;
          if due then cache_Remove k ;;; ret NullBulkReply
          else match v with
               | StringData str => ret (MakeBulkReply (Some str))
               | _ => ret WRONGTYPE
               end
      end
  | _ => ret (wrong_args "get")
  end.

Fixpoint del_loop (now : Z) (keys : list string) (deleted : Z) : M Z :=
  match keys with
  | [] => ret deleted
  | k :: rest =>
      val <- cache_Peek now k ;;
      match val with
      | Some _ => cache_Remove k ;;; del_loop now rest (deleted + 1)
      | None => del_loop now rest deleted
      end
  end.

Definition del (now : Z) (args : list string) : M Reply :=
  match args with
  | [] | [_] => ret (wrong_args "del")
  | _ :: keys => deleted <- del_loop now keys 0 ;; ret (MakeIntReply deleted)
  end.

(** *** Lists (db/list.go) *)

Definition getListForWrite (now : Z) (k : string) : M (loc + Reply) :=
  val <- cache_Get now k ;;
  match val with
  | None => l <- new_object (ListObj []) ;; ret (inl l)
  | Some v =>
      due <- past_due now k ;;
      if due then cache_Remove k ;;; l <- new_object (ListObj []) ;; ret (inl l)
      else match v with
           | ListData l => ret (inl l)
           | _ => ret (inr WRONGTYPE)
           end
  end.

Definition PushFront_all (values es : list string) : list string :=
  fold_left (fun es v => v :: es) values es.
Definition PushBack_all (values es : list string) : list string :=
  fold_left (fun es v => es ++ [v]) values es.

Definition push (name : string) (pushAll : list string -> list string -> list string)
    (now : Z) (args : list string) : M Reply :=
  match args with
  | _ :: k :: (_ :: _) as values =>
      r <- getListForWrite now k ;;
      match r with
      | inr errReply => ret errReply
      | inl l =>
          es <- read_list l ;;
          let es' := pushAll values es in
          write_object l (ListObj es') ;;;
          cache_Add now k (ListData l) ;;;
          ret (MakeIntReply (Z.of_nat (length es')))
      end
  | _ => ret (wrong_args name)
  end.

Definition lpush : Z -> list string -> M Reply := push "lpush" PushFront_all.
Definition rpush : Z -> list string -> M Reply := push "rpush" PushBack_all.

(** [LPOP] and [RPOP] differ in the end they take the element from:
    [take_end es] is the element and the list left. *)
Definition pop (name : string)
    (take_end : list string -> option (string * list string))
    (now : Z) (args : list string) : M Reply :=
  match args with
  | [_; k] =>
      val <- cache_Get now k ;;
      match val with
      | None => ret NullBulkReply
      | Some v =>
          due <- past_due now k ;;
          if due then cache_Remove k ;;; ret NullBulkReply
          else match v with
               | ListData l =>
                   es <- read_list l ;;
                   match take_end es with
                   | None => ret NullBulkReply
                   | Some (x, es') =>
                       write_object l (ListObj es') ;;;
                       match es' with
                       | [] => cache_Remove k
                       | _ => cache_Add now k (ListData l)
                       end ;;;
                       ret (MakeBulkReply (Some x))
                   end
               | _ => ret WRONGTYPE
               end
      end
  | _ => ret (wrong_args name)
  end.

Definition take_front (es : list string) : option (string * list string) :=
  match es with
  | [] => None
  | x :: es' => Some (x, es')
  end.
Definition take_back (es : list string) : option (string * list string) :=
  match last es with
  | None => None
  | Some x => Some (x, removelast es)
  end.

Definition lpop : Z -> list string -> M Reply := pop "lpop" take_front.
Definition rpop : Z -> list string -> M Reply := pop "rpop" take_back.

Definition llen (now : Z) (args : list string) : M Reply :=
  match args with
  | [_; k] =>
      val <- cache_Get now k ;;
      match val with
      | None => ret (MakeIntReply 0)
      | Some v =>
          due <- past_due now k ;;
          if due then cache_Remove k ;;; ret (MakeIntReply 0)
          else match v with
               | ListData l => es <- read_list l ;; ret (MakeIntReply (Z.of_nat (length es)))
               | _ => ret WRONGTYPE
               end
      end
  | _ => ret (wrong_args "llen")
  end.

(** The index arithmetic of [lrange]: negative indices count from the end,
    then [start] is raised to 0 and [stop] lowered to [size - 1]. *)
Definition clamp_range (size start stop : Z) : Z * Z :=
  let start := if start <? 0 then size + start else start in
  let stop := if stop <? 0 then size + stop else stop in
  let start := if start <? 0 then 0 else start in
  let stop := if size <=? stop then size - 1 else stop in
  (start, stop).

(** The scan of the list from the front, [i] the index of the head. *)
Fixpoint lrange_loop (es : list string) (i start stop : Z) : list (option string) :=
  match es with
  | [] => []
  | e :: rest =>
      let out := if (start <=? i) && (i <=? stop) then [Some e] else [] in
      if stop <? i then out else out ++ lrange_loop rest (i + 1) start stop
  end.

Definition lrange (now : Z) (args : list string) : M Reply :=
  match args with
  | [_; k; a2; a3] =>
      match Atoi a2, Atoi a3 with
      | Some start, Some stop =>
          val <- cache_Get now k ;;
          match val with
          | None => ret (MakeMultiBulkReply None)
          | Some v =>
              due <- past_due now k ;;
              if due then cache_Remove k ;;; ret (MakeMultiBulkReply None)
              else match v with
                   | ListData l =>
                       es <- read_list l ;;
                       let size := Z.of_nat (length es) in
                       let '(start, stop) := clamp_range size start stop in
                       if stop <? start then ret (MakeMultiBulkReply None)
                       else ret (MakeMultiBulkReply (Some (lrange_loop es 0 start stop)))
                   | _ => ret WRONGTYPE
                   end
          end
      | _, _ => ret not_an_integer
      end
  | _ => ret (wrong_args "lrange")
  end.

(** *** Hashes (db/hash.go) *)

(** [getHash] returns the map and [true], or [false] for a key that is
    missing, past-due (removed here, with a [del] record written straight to
    the append log) or of another type: [None]. *)
Definition getHash (now : Z) (k : string) : M (option loc) :=
  val <- cache_Get now k ;;
  match val with
  | None => ret None
  | Some v =>
      due <- past_due now k ;;
      if due then cache_Remove k ;;; AddAof ["del"; k] ;;; ret None
      else match v with
           | HashData h => ret (Some h)
           | _ => ret None
           end
  end.

(** The loop [for i := 2; i < len(args); i += 2] of [hset]. *)
Fixpoint hset_loop (fv : list string) (h : gmap string string) (count : Z)
  : gmap string string * Z :=
  match fv with
  | field :: val :: rest =>
      hset_loop rest (<[field := val]> h)
                (match h !! field with None => count + 1 | Some _ => count end)
  | _ => (h, count)
  end.

Definition hset_store (now : Z) (k : string) (fv : list string) (h : loc) : M Reply :=
  fields <- read_hash h ;;
  let '(fields', count) := hset_loop fv fields 0 in
  write_object h (HashObj fields') ;;;
  cache_Add now k (HashData h) ;;;
  ret (MakeIntReply count).

Definition hset (now : Z) (args : list string) : M Reply :=
  match args with
  | _ :: k :: (_ :: _ :: _) as fv =>
      if Nat.even (length args) then
        r <- getHash now k ;;
        match r with
        | Some h => hset_store now k fv h
        | None =>
            h <- new_object (HashObj ∅) ;;
            val <- cache_Get now k ;;
            match val with
            | Some (HashData _) | None => hset_store now k fv h
            | Some _ =>
                due <- past_due now k ;;
                if due then cache_Remove k ;;; AddAof ["del"; k] ;;; hset_store now k fv h
                else ret WRONGTYPE
            end
        end
      else ret (wrong_args "hset")
  | _ => ret (wrong_args "hset")
  end.

(** What the readers do when [getHash] (or [getSet]) said no: a second
    lookup tells a wrong type from a missing key. *)
Definition wrong_type_or (now : Z) (k : string) (is_type : Value -> bool) (missing : Reply)
  : M Reply :=
  val <- cache_Get now k ;;
  match val with
  | Some v => if is_type v then ret missing else ret WRONGTYPE
  | None => ret missing
  end.

Definition is_hash (v : Value) : bool := match v with HashData _ => true | _ => false end.
Definition is_set (v : Value) : bool := match v with SetData _ => true | _ => false end.

Definition hget (now : Z) (args : list string) : M Reply :=
  match args with
  | [_; k; field] =>
      r <- getHash now k ;;
      match r with
      | None => wrong_type_or now k is_hash NullBulkReply
      | Some h =>
          fields <- read_hash h ;;
          match fields !! field with
          | None => ret NullBulkReply
          | Some val => ret (MakeBulkReply (Some val))
          end
      end
  | _ => ret (wrong_args "hget")
  end.

(** [for k, v := range h]: the order of the pairs is the map's. *)
Definition hgetall (now : Z) (args : list string) : M Reply :=
  match args with
  | [_; k] =>
      r <- getHash now k ;;
      match r with
      | None => wrong_type_or now k is_hash (MakeMultiBulkReply None)
      | Some h =>
          fields <- read_hash h ;;
          ret (MakeMultiBulkReply
                 (Some (concat (map (fun kv => [Some kv.1; Some kv.2]) (map_to_list fields)))))
      end
  | _ => ret (wrong_args "hgetall")
  end.

Fixpoint hdel_loop (fs : list string) (h : gmap string string) (count : Z)
  : gmap string string * Z :=
  match fs with
  | [] => (h, count)
  | field :: rest =>
      match h !! field with
      | Some _ => hdel_loop rest (delete field h) (count + 1)
      | None => hdel_loop rest h count
      end
  end.

Definition hdel (now : Z) (args : list string) : M Reply :=
  match args with
  | _ :: k :: (_ :: _) as fs =>
      r <- getHash now k ;;
      match r with
      | None => wrong_type_or now k is_hash (MakeIntReply 0)
      | Some h =>
          fields <- read_hash h ;;
          let '(fields', count) := hdel_loop fs fields 0 in
          write_object h (HashObj fields') ;;;
          (if bool_decide (size fields' = 0%nat) then cache_Remove k
           else cache_Add now k (HashData h)) ;;;
          ret (MakeIntReply count)
      end
  | _ => ret (wrong_args "hdel")
  end.

(** *** Sets (db/set.go) *)

Definition getSet (now : Z) (k : string) : M (option loc) :=
  val <- cache_Get now k ;;
  match val with
  | None => ret None
  | Some v =>
      due <- past_due now k ;;
      if due then cache_Remove k ;;; ret None
      else match v with
           | SetData s => ret (Some s)
           | _ => ret None
           end
  end.

Fixpoint sadd_loop (members : list string) (s : gset string) (added : Z) : gset string * Z :=
  match members with
  | [] => (s, added)
  | m :: rest =>
      if bool_decide (m ∈ s) then sadd_loop rest s added
      else sadd_loop rest ({[ m ]} ∪ s) (added + 1)
  end.

(** From the label [CreateNewSet] on; [s] is [None] for a nil map. *)
Definition sadd_store (now : Z) (k : string) (members : list string) (s : option loc)
  : M Reply :=
  s <- match s with
       | Some s => ret s
       | None => new_object (SetObj ∅)
       end ;;
  ms <- read_set s ;;
  let '(ms', added) := sadd_loop members ms 0 in
  write_object s (SetObj ms') ;;;
  (if (0 <? added) || bool_decide (size ms' = 0%nat)
   then cache_Add now k (SetData s) else ret tt) ;;;
  ret (MakeIntReply added).

Definition sadd (now : Z) (args : list string) : M Reply :=
  match args with
  | _ :: k :: (_ :: _) as members =>
      r <- getSet now k ;;
      match r with
      | Some s => sadd_store now k members (Some s)
      | None =>
          val <- cache_Get now k ;;
          match val with
          | Some (SetData _) | None => sadd_store now k members None
          | Some _ =>
              due <- past_due now k ;;
              if due then cache_Remove k ;;; sadd_store now k members None
              else ret WRONGTYPE
          end
      end
  | _ => ret (wrong_args "sadd")
  end.

Fixpoint srem_loop (members : list string) (s : gset string) (removed : Z) : gset string * Z :=
  match members with
  | [] => (s, removed)
  | m :: rest =>
      if bool_decide (m ∈ s) then srem_loop rest (s ∖ {[ m ]}) (removed + 1)
      else srem_loop rest s removed
  end.

Definition srem (now : Z) (args : list string) : M Reply :=
  match args with
  | _ :: k :: (_ :: _) as members =>
      r <- getSet now k ;;
      match r with
      | None => wrong_type_or now k is_set (MakeIntReply 0)
      | Some s =>
          ms <- read_set s ;;
          let '(ms', removed) := srem_loop members ms 0 in
          write_object s (SetObj ms') ;;;
          (if bool_decide (size ms' = 0%nat) then cache_Remove k
           else cache_Add now k (SetData s)) ;;;
          ret (MakeIntReply removed)
      end
  | _ => ret (wrong_args "srem")
  end.

Definition scard (now : Z) (args : list string) : M Reply :=
  match args with
  | [_; k] =>
      r <- getSet now k ;;
      match r with
      | None => wrong_type_or now k is_set (MakeIntReply 0)
      | Some s => ms <- read_set s ;; ret (MakeIntReply (Z.of_nat (size ms)))
      end
  | _ => ret (wrong_args "scard")
  end.

Definition smembers (now : Z) (args : list string) : M Reply :=
  match args with
  | [_; k] =>
      r <- getSet now k ;;
      match r with
      | None => wrong_type_or now k is_set (MakeMultiBulkReply None)
      | Some s =>
          ms <- read_set s ;;
          ret (MakeMultiBulkReply (Some (map Some (elements ms))))
      end
  | _ => ret (wrong_args "smembers")
  end.

(** *** Expiration (db/ttl.go) *)

(** [time.Duration(seconds) * time.Second]: a 64-bit product. *)
Definition seconds_to_duration (seconds : Z) : Z := wrap64 (seconds * 10 ^ 9).

Definition expire (now : Z) (args : list string) : M Reply :=
  match args with
  | [_; k; a2] =>
      match ParseInt a2 with
      | None => ret not_an_integer
      | Some seconds =>
          val <- cache_Peek now k ;;
          match val with
          | None => ret (MakeIntReply 0)
          | Some _ =>
              if seconds <=? 0 then cache_Remove k ;;; ret (MakeIntReply 1)
              else
                modify (fun db =>
                          set_ttlMap (<[k := now + seconds_to_duration seconds]> (ttlMap db)) db) ;;;
                ret (MakeIntReply 1)
          end
      end
  | _ => ret (wrong_args "expire")
  end.

Definition pexpireat (now : Z) (args : list string) : M Reply :=
  match args with
  | [_; k; a2] =>
      match ParseInt a2 with
      | None => ret not_an_integer
      | Some ms =>
          val <- cache_Peek now k ;;
          match val with
          | None => ret (MakeIntReply 0)
          | Some _ =>
              let expireAt := time_UnixMilli ms in
              if expireAt <=? now then cache_Remove k ;;; ret (MakeIntReply 1)
              else
                modify (fun db => set_ttlMap (<[k := expireAt]> (ttlMap db)) db) ;;;
                ret (MakeIntReply 1)
          end
      end
  | _ => ret (wrong_args "pexpireat")
  end.

(** [time.Until] saturates at the ends of the 64-bit range. *)
Definition time_Until (now t : Z) : Z := Z.max int64_min (Z.min int64_max (t - now)).

(** [int64(ttl.Seconds())] is computed in floating point; the whole seconds
    of the duration stand for it. *)
Definition ttl (now : Z) (args : list string) : M Reply :=
  match args with
  | [_; k] =>
      val <- cache_Peek now k ;;
      match val with
      | None => ret (MakeIntReply (-2))
      | Some _ =>
          t <- gets (fun db => ttlMap db !! k) ;;
          match t with
          | None => ret (MakeIntReply (-1))
          | Some expireTime =>
              let d := time_Until now expireTime in
              if d <=? 0 then cache_Remove k ;;; ret (MakeIntReply (-2))
              else ret (MakeIntReply (d / 10 ^ 9))
          end
      end
  | _ => ret (wrong_args "ttl")
  end.

Definition persist (now : Z) (args : list string) : M Reply :=
  match args with
  | [_; k] =>
      val <- cache_Peek now k ;;
      match val with
      | None => ret (MakeIntReply 0)
      | Some _ =>
          t <- gets (fun db => ttlMap db !! k) ;;
          match t with
          | None => ret (MakeIntReply 0)
          | Some _ =>
              modify (fun db => set_ttlMap (delete k (ttlMap db)) db) ;;;
              ret (MakeIntReply 1)
          end
      end
  | _ => ret (wrong_args "persist")
  end.

(** *** Snapshot of the live state (db/snapshot.go) *)

Fixpoint purge_loop (now : Z) (l : list (string * Z)) : M unit :=
  match l with
  | [] => ret tt
  | (k, t) :: rest =>
      (if t <=? now then cache_Remove k else ret tt) ;;;
      purge_loop now rest
  end.

(** [purgeExpiredAll]: every key whose instant is not after [now] is removed
    (the callback drops its [ttlMap] entry). *)
Definition purgeExpiredAll (now : Z) : M unit :=
  l <- gets (fun db => map_to_list (ttlMap db)) ;;
  purge_loop now l.

Definition mkEntry (k : string) (typ ms : Z) (s : string) (l : list string)
    (h : gmap string string) (members : list string) : rdb.Entry :=
  {| rdb.Key := k; rdb.Type_ := typ; rdb.ExpireAtUnixMs := ms; rdb.String_ := s;
     rdb.List := l; rdb.Hash := h; rdb.Set_ := members |}.

(** The body of the [ForEach] callback of [snapshotEntries]: the deep copy of
    one entry, or nothing for a key found past-due. *)
Definition snapshot_entry (db : StandaloneDB) (now : Z) (kv : string * Value)
  : option rdb.Entry :=
  let '(k, v) := kv in
  let copy (ms : Z) : rdb.Entry :=
    match v with
    | StringData b => mkEntry k rdb.TypeString ms b [] ∅ []
    | ListData l => mkEntry k rdb.TypeList ms "" (list_elems (objects db) l) ∅ []
    | HashData h => mkEntry k rdb.TypeHash ms "" [] (hash_fields (objects db) h) []
    | SetData s =>
        mkEntry k rdb.TypeSet ms "" [] ∅
                (rdb.sort_strings (elements (set_members (objects db) s)))
    end in
  match ttlMap db !! k with
  | None => Some (copy 0)
  | Some expireAt => if expireAt <=? now then None else Some (copy (UnixMilli expireAt))
  end.

Definition snapshotEntries (now : Z) : M (list rdb.Entry) :=
  purgeExpiredAll now ;;;
  gets (fun db => rdb.sort_entries (omap (snapshot_entry db now) (ForEach (cache db)))).

Fixpoint remove_all (keys : list string) : M unit :=
  match keys with
  | [] => ret tt
  | k :: rest => cache_Remove k ;;; remove_all rest
  end.

Definition apply_entry (now : Z) (e : rdb.Entry) : M unit :=
  let ms := rdb.ExpireAtUnixMs e in
  if (0 <? ms) && (ms <=? UnixMilli now) then ret tt
  else
    let set_ttl : M unit :=
      if 0 <? ms
      then modify (fun db => set_ttlMap (<[rdb.Key e := time_UnixMilli ms]> (ttlMap db)) db)
      else ret tt in
    if rdb.Type_ e =? rdb.TypeString then
      cache_Add now (rdb.Key e) (StringData (rdb.String_ e)) ;;; set_ttl
    else if rdb.Type_ e =? rdb.TypeList then
      l <- new_object (ListObj (rdb.List e)) ;;
      cache_Add now (rdb.Key e) (ListData l) ;;; set_ttl
    else if rdb.Type_ e =? rdb.TypeHash then
      h <- new_object (HashObj (rdb.Hash e)) ;;
      cache_Add now (rdb.Key e) (HashData h) ;;; set_ttl
    else if rdb.Type_ e =? rdb.TypeSet then
      s <- new_object (SetObj (list_to_set (rdb.Set_ e))) ;;
      cache_Add now (rdb.Key e) (SetData s) ;;; set_ttl
    else ret tt.

Fixpoint apply_loop (now : Z) (entries : list rdb.Entry) : M unit :=
  match entries with
  | [] => ret tt
  | e :: rest => apply_entry now e ;;; apply_loop now rest
  end.

Definition applySnapshot (now : Z) (entries : list rdb.Entry) : M unit :=
  keys <- gets (fun db => map fst (ForEach (cache db))) ;;
  remove_all keys ;;;
  modify (set_ttlMap ∅) ;;;
  apply_loop now entries.

(** *** The periodic sweep ([activeExpire])

    [for key, t := range db.ttlMap] visits the entries in an order the
    run-time chooses; the only entry removed while ranging is the one being
    visited.  [range_order] is that order, a rearrangement of the entries.
    The sample is the first 20 entries visited; a key whose instant is
    before [now] is removed, and nothing is written to the log. *)
Variable range_order : list (string * Z) -> list (string * Z).

Fixpoint expire_sample (now : Z) (l : list (string * Z)) : M unit :=
  match l with
  | [] => ret tt
  | (k, t) :: rest =>
      (if t <? now then cache_Remove k else ret tt) ;;;
      expire_sample now rest
  end.

Definition activeExpire (now : Z) : M unit :=
  l <- gets (fun db => range_order (map_to_list (ttlMap db))) ;;
  expire_sample now (take 20 l).

(** *** Dispatch and the append log (db/db.go) *)

(** SAVE, BGSAVE, REWRITEAOF and BGREWRITEAOF work on files.  Whether such a
    command gets as far as taking the snapshot (persistence configured,
    nothing in progress, the appender accepted the start) and what it
    replies is decided outside the keyspace: [admin_refused] is the error
    with which the command stops before the snapshot, [admin_reply] its
    reply once the snapshot is taken.  Its only effect on the keyspace is
    the sweep made by [snapshotEntries]. *)
Variable admin_refused : string -> option Reply.
Variable admin_reply : string -> Reply.

Definition admin (name : string) (now : Z) : M Reply :=
  match admin_refused name with
  | Some e => ret e
  | None => snapshotEntries now ;;; ret (admin_reply name)
  end.

(** [execInternal]; the reply is [None] for the nil reply of an empty
    command. *)
Definition execInternal (now : Z) (cmd : list string) : M (option Reply) :=
  match cmd with
  | [] => ret None
  | name :: _ =>
      let commandName := ToLower name in
      r <- (if String.eqb commandName "ping" then ret (MakeStatusReply "PONG")
            else if String.eqb commandName "set" then set now cmd
            else if String.eqb commandName "get" then get now cmd
            else if String.eqb commandName "del" then del now cmd
            else if String.eqb commandName "lpush" then lpush now cmd
            else if String.eqb commandName "rpush" then rpush now cmd
            else if String.eqb commandName "lpop" then lpop now cmd
            else if String.eqb commandName "rpop" then rpop now cmd
            else if String.eqb commandName "lrange" then lrange now cmd
            else if String.eqb commandName "llen" then llen now cmd
            else if String.eqb commandName "hset" then hset now cmd
            else if String.eqb commandName "hget" then hget now cmd
            else if String.eqb commandName "hgetall" then hgetall now cmd
            else if String.eqb commandName "hdel" then hdel now cmd
            else if String.eqb commandName "sadd" then sadd now cmd
            else if String.eqb commandName "srem" then srem now cmd
            else if String.eqb commandName "smembers" then smembers now cmd
            else if String.eqb commandName "scard" then scard now cmd
            else if String.eqb commandName "expire" then expire now cmd
            else if String.eqb commandName "pexpireat" then pexpireat now cmd
            else if String.eqb commandName "ttl" then ttl now cmd
            else if String.eqb commandName "persist" then persist now cmd
            else if String.eqb commandName "save" then admin commandName now
            else if String.eqb commandName "bgsave" then admin commandName now
            else if String.eqb commandName "rewriteaof" then admin commandName now
            else if String.eqb commandName "bgrewriteaof" then admin commandName now
            else ret (MakeErrReply ("ERR unknown command '" +:+ commandName +:+ "'"))) ;;
      ret (Some r)
  end.

Definition isError (reply : option Reply) : bool :=
  match reply with
  | Some (ErrorReply _) => true
  | _ => false
  end.

Definition writeCommands : list string :=
  ["set"; "del"; "lpush"; "rpush"; "lpop"; "rpop"; "hset"; "hdel"; "sadd"; "srem";
   "pexpireat"].

Definition isWriteCommand (cmd : list string) : bool :=
  match cmd with
  | [] => false
  | name :: _ => bool_decide (ToLower name ∈ writeCommands)
  end.

Definition DEL_record (k : string) : list string := ["DEL"; k].

Definition appendAof (cmd : list string) (res : option Reply) : M unit :=
  match cmd with
  | [] => ret tt
  | name :: rest =>
      let name := ToLower name in
      if String.eqb name "expire" then
        match res, rest with
        | Some (IntReply 1), k :: _ =>
            t <- gets (fun db => ttlMap db !! k) ;;
            match t with
            | Some expireAt => AddAof ["PEXPIREAT"; k; FormatInt (UnixMilli expireAt)]
            | None => AddAof (DEL_record k)
            end
        | _, _ => ret tt
        end
      else if String.eqb name "persist" then
        match res with
        | Some (IntReply 1) => AddAof cmd
        | _ => ret tt
        end
      else if isWriteCommand cmd then AddAof cmd
      else ret tt
  end.

Fixpoint append_DELs (keys : list string) : M unit :=
  match keys with
  | [] => ret tt
  | k :: rest => AddAof (DEL_record k) ;;; append_DELs rest
  end.

(** A request taken from the queue: a command, or an internal closure [fn]
    (snapshot apply); [noAof] is set for replayed commands. *)
Record commandRequest : Type := {
  cmd : list string;
  fn : option (Z -> M Reply);
  noAof : bool;
}.

(** The body of [case req := <-db.ops] in [background]; the reply is what is
    sent on [req.result]. *)
Definition handle (now : Z) (req : commandRequest) : M (option Reply) :=
  modify (set_evictedKeys []) ;;;
  res <- match fn req with
         | Some f => r <- f now ;; ret (Some r)
         | None => execInternal now (cmd req)
         end ;;
  h <- gets aofHandler ;;
  (if negb (noAof req) && bool_decide (h <> None) && negb (isError res) then
     appendAof (cmd req) res ;;;
     keys <- gets evictedKeys ;;
     append_DELs keys
   else ret tt) ;;;
  ret res.

End Core.

Arguments StandaloneDB C : clear implicits.
Arguments M C A : clear implicits.
Arguments commandRequest C : clear implicits.

(** [NewStandaloneDBWithConfig]: a non-positive [MaxBytes] means the default
    budget; [aof] tells whether the append log could be opened. *)
Definition DefaultMaxBytes : Z := 100 * 1024 * 1024.

Definition new_db {C : Type} (c : C) (aof : bool) : StandaloneDB C :=
  {| cache := c; ttlMap := ∅; evictedKeys := [];
     aofHandler := if aof then Some [] else None; objects := ∅; callbacks := [] |}.

Definition budget (MaxBytes : Z) : Z := if MaxBytes <=? 0 then DefaultMaxBytes else MaxBytes.

Definition NewStandaloneDB_lru (MaxBytes : Z) (aof : bool) : StandaloneDB Cache :=
  new_db (lru.New (budget MaxBytes)) aof.
Definition NewStandaloneDB_lfu (MaxBytes : Z) (aof : bool) : StandaloneDB LFUCache :=
  new_db (lru.NewLFU (budget MaxBytes)) aof.

(** *** The commands of a rewrite (db/aof_rewrite.go)

    [snapshotEntryToCommands]: the commands that rebuild one entry, the
    elements in batches of 512 (a hash in batches of 512 pairs), then the
    expiry; [None] is the error for an unknown type. *)
Definition batch : Z := 512.

(** [for i := 0; i < len(l); i += size] with [l[i:end]] as the body's
    slice; at most [len(l)] rounds. *)
Fixpoint batches_from {A : Type} (fuel : nat) (size : Z) (l : list A) (i : Z)
  : list (list A) :=
  match fuel with
  | O => []
  | S fuel' =>
      if i <? Z.of_nat (length l) then
        let end_ := if Z.of_nat (length l) <? i + size then Z.of_nat (length l)
                    else i + size in
        take (Z.to_nat (end_ - i)) (drop (Z.to_nat i) l)
        :: batches_from fuel' size l (i + size)
      else []
  end.

Definition batches {A : Type} (size : Z) (l : list A) : list (list A) :=
  batches_from (length l) size l 0.

Definition snapshotEntryToCommands (e : rdb.Entry) : option (list (list string)) :=
  let key := rdb.Key e in
  let expiry :=
    if 0 <? rdb.ExpireAtUnixMs e
    then [["PEXPIREAT"; key; FormatInt (rdb.ExpireAtUnixMs e)]]
    else [] in
  if rdb.Type_ e =? rdb.TypeString then
    Some ([["SET"; key; rdb.String_ e]] ++ expiry)
  else if rdb.Type_ e =? rdb.TypeList then
    Some (map (fun b => "RPUSH" :: key :: b) (batches batch (rdb.List e)) ++ expiry)
  else if rdb.Type_ e =? rdb.TypeHash then
    let fields := rdb.sort_strings (map fst (map_to_list (rdb.Hash e))) in
    let pairs := concat (map (fun f => [f; default "" (rdb.Hash e !! f)]) fields) in
    Some (map (fun b => "HSET" :: key :: b) (batches (batch * 2) pairs) ++ expiry)
  else if rdb.Type_ e =? rdb.TypeSet then
    let members := rdb.sort_strings (rdb.Set_ e) in
    Some (map (fun b => "SADD" :: key :: b) (batches batch members) ++ expiry)
  else None.

End db.


(** ** Facts about the decimal conversions *)

Lemma parse_digits_of_uint_acc (d : Decimal.uint) (acc : positive) :
  parse_digits (NilEmpty.string_of_uint d) (Z.pos acc) = Some (Z.pos (Pos.of_uint_acc d acc)).
Proof.
  revert acc. induction d; intros acc; cbn [NilEmpty.string_of_uint parse_digits Pos.of_uint_acc];
    [reflexivity | ..];
    (match goal with |- context [digit_of ?c] =>
       let v := eval vm_compute in (digit_of c) in change (digit_of c) with v end);
    cbv iota beta;
    (match goal with |- parse_digits _ ?a = _ =>
       match goal with |- _ = Some (Z.pos (Pos.of_uint_acc _ ?p)) =>
         replace a with (Z.pos p) by lia end end);
    apply IHd.
Qed.

Lemma parse_digits_of_uint (d : Decimal.uint) :
  parse_digits (NilEmpty.string_of_uint d) 0 = Some (Z.of_N (Pos.of_uint d)).
Proof.
  induction d; cbn [NilEmpty.string_of_uint parse_digits Pos.of_uint];
    [reflexivity | ..];
    (match goal with |- context [digit_of ?c] =>
       let v := eval vm_compute in (digit_of c) in change (digit_of c) with v end);
    cbv iota beta; try exact IHd;
    (match goal with |- parse_digits _ ?a = Some (Z.of_N (N.pos (Pos.of_uint_acc _ ?p))) =>
       change a with (Z.pos p) end);
    rewrite parse_digits_of_uint_acc; reflexivity.
Qed.

Lemma string_of_uint_head (d : Decimal.uint) :
  d <> Decimal.Nil ->
  exists c s, NilEmpty.string_of_uint d = String c s /\
              Ascii.eqb c "+"%char = false /\ Ascii.eqb c "-"%char = false.
Proof.
  destruct d; intros Hd; [congruence | ..]; cbn [NilEmpty.string_of_uint];
    eexists _, _; (split; [reflexivity | split; reflexivity]).
Qed.

Lemma to_uint_not_nil (p : positive) : Pos.to_uint p <> Decimal.Nil.
Proof.
  intros H. pose proof (DecimalPos.Unsigned.of_to p) as E.
  rewrite H in E. discriminate E.
Qed.

Lemma ParseInt_unsigned (d : Decimal.uint) :
  d <> Decimal.Nil -> in_int64 (Z.of_uint d) = true ->
  ParseInt (NilEmpty.string_of_uint d) = Some (Z.of_uint d).
Proof.
  intros Hd Hr. destruct (string_of_uint_head d Hd) as (c & s & E & Hp & Hm).
  unfold ParseInt. rewrite E, Hp, Hm. rewrite <- E.
  rewrite parse_digits_of_uint. fold (Z.of_uint d). rewrite Hr. reflexivity.
Qed.

(** [ParseInt] reads back what [FormatInt] prints, for every 64-bit value. *)
Lemma ParseInt_FormatInt (v : Z) : in_int64 v = true -> ParseInt (FormatInt v) = Some v.
Proof.
  intros Hr. unfold FormatInt.
  destruct v as [|p|p]; [reflexivity | ..]; cbn [Z.to_int NilZero.string_of_int].
  - assert (Hz : Z.of_uint (Pos.to_uint p) = Z.pos p).
    { unfold Z.of_uint. rewrite DecimalPos.Unsigned.of_to. reflexivity. }
    unfold NilZero.string_of_uint.
    pose proof (to_uint_not_nil p) as Hn.
    destruct (Pos.to_uint p) eqn:E; [congruence | ..]; rewrite <- E in *;
      rewrite ParseInt_unsigned, Hz by (try rewrite Hz; assumption); reflexivity.
  - assert (Hz : Z.of_uint (Pos.to_uint p) = Z.pos p).
    { unfold Z.of_uint. rewrite DecimalPos.Unsigned.of_to. reflexivity. }
    pose proof (to_uint_not_nil p) as Hn.
    unfold NilZero.string_of_uint.
    assert (Hs : match Pos.to_uint p with
                 | Decimal.Nil => "0"%string
                 | _ => NilEmpty.string_of_uint (Pos.to_uint p)
                 end = NilEmpty.string_of_uint (Pos.to_uint p))
      by (destruct (Pos.to_uint p); [congruence | reflexivity ..]).
    rewrite Hs. unfold ParseInt.
    change (Ascii.eqb "-" "+") with false. change (Ascii.eqb "-" "-") with true.
    cbv iota beta.
    destruct (string_of_uint_head _ Hn) as (c & s & Es & _ & _).
    rewrite Es. rewrite <- Es. rewrite parse_digits_of_uint.
    fold (Z.of_uint (Pos.to_uint p)). rewrite Hz.
    change (- Z.pos p) with (Z.neg p). rewrite Hr. reflexivity.
Qed.

(** ** Facts about the line reader *)

Lemma no_LF_string_of_uint (d : Decimal.uint) : resp.no_LF (NilEmpty.string_of_uint d) = true.
Proof. induction d; cbn; auto. Qed.

Lemma no_LF_FormatInt (v : Z) : resp.no_LF (FormatInt v) = true.
Proof.
  unfold FormatInt, NilZero.string_of_int, NilZero.string_of_uint.
  destruct (Z.to_int v) as [d|d]; destruct d; cbn; auto using no_LF_string_of_uint.
Qed.

Lemma ReadBytes_LF_line (s rest : string) :
  resp.no_LF s = true ->
  resp.ReadBytes_LF (s +:+ CRLF +:+ rest) = Some (s +:+ CRLF, rest).
Proof.
  induction s as [|c s IH]; intros H; [reflexivity |].
  cbn [resp.no_LF] in H. apply andb_true_iff in H as [Hc Hs].
  change (String c s +:+ CRLF +:+ rest) with (String c (s +:+ CRLF +:+ rest)).
  cbn [resp.ReadBytes_LF].
  apply negb_true_iff in Hc. rewrite Hc, (IH Hs). reflexivity.
Qed.

Lemma length_append_CRLF (s : string) : len (s +:+ CRLF) = len s + 2.
Proof.
  unfold len.
  assert (H : String.length (s +:+ CRLF) = (String.length s + 2)%nat).
  { induction s as [|c s IH]; [reflexivity |].
    change (String c s +:+ CRLF) with (String c (s +:+ CRLF)).
    cbn [String.length]. rewrite IH. reflexivity. }
  rewrite H. lia.
Qed.

Lemma get_append_CRLF (s : string) :
  String.get (String.length s) (s +:+ CRLF) = Some CR.
Proof. induction s; cbn; auto. Qed.

Lemma get_append_CRLF_1 (s : string) :
  String.get (S (String.length s)) (s +:+ CRLF) = Some LF.
Proof. induction s; cbn; auto. Qed.

Lemma substring_append_CRLF (s : string) :
  String.substring 0 (String.length s) (s +:+ CRLF) = s.
Proof.
  induction s as [|c s IH]; [reflexivity |].
  change (String c s +:+ CRLF) with (String c (s +:+ CRLF)).
  cbn [String.length String.substring]. rewrite IH. reflexivity.
Qed.

Lemma readLine_line (s rest : string) :
  resp.no_LF s = true ->
  resp.readLine (s +:+ CRLF +:+ rest) = resp.Ok (s, rest).
Proof.
  intros H. unfold resp.readLine. rewrite (ReadBytes_LF_line _ _ H).
  rewrite length_append_CRLF.
  replace (len s + 2 - 2) with (len s) by lia.
  unfold resp.byte_at, resp.slice_to, len.
  rewrite Nat2Z.id.
  destruct (Z.ltb_spec (Z.of_nat (String.length s)) 0) as [Hn|_]; [lia |].
  rewrite get_append_CRLF, substring_append_CRLF.
  rewrite bool_decide_eq_true_2 by reflexivity.
  destruct (Z.ltb_spec 1 (Z.of_nat (String.length s) + 2)) as [_|Hn]; [reflexivity | lia].
Qed.

Lemma ReadFull_body (a rest : string) :
  resp.ReadFull (String.length a + 2) (a +:+ CRLF +:+ rest) = Some (a +:+ CRLF, rest).
Proof.
  induction a as [|c a IH]; [reflexivity |].
  change (String c a +:+ CRLF +:+ rest) with (String c (a +:+ CRLF +:+ rest)).
  change (String.length (String c a) + 2)%nat with (S (String.length a + 2)).
  cbn [resp.ReadFull]. rewrite IH. reflexivity.
Qed.

Lemma append_assoc (a b c : string) : (a +:+ b) +:+ c = a +:+ b +:+ c.
Proof.
  induction a as [|x a IH]; [reflexivity |].
  change (String x (a +:+ b) +:+ c = String x (a +:+ b +:+ c)).
  change (String x ((a +:+ b) +:+ c) = String x (a +:+ b +:+ c)).
  rewrite IH. reflexivity.
Qed.

(** ** Parsing what the serializers write *)


Lemma Atoi_Itoa (v : Z) : in_int64 v = true -> Atoi (Itoa v) = Some v.
Proof. apply ParseInt_FormatInt. Qed.

Lemma len_nonneg (s : string) : 0 <= len s.
Proof. unfold len. lia. Qed.

Lemma header_bulk (a rest : string) :
  resp.readLine (resp.bulk_bytes (Some a) +:+ rest)
  = resp.Ok ("$" +:+ Itoa (len a), a +:+ CRLF +:+ rest).
Proof.
  unfold resp.bulk_bytes. rewrite !append_assoc.
  change ("$" +:+ Itoa (len a) +:+ CRLF +:+ a +:+ CRLF +:+ rest)
    with (("$" +:+ Itoa (len a)) +:+ CRLF +:+ a +:+ CRLF +:+ rest).
  apply readLine_line. cbn. apply no_LF_FormatInt.
Qed.

Lemma header_nil_bulk (rest : string) :
  resp.readLine (resp.bulk_bytes None +:+ rest) = resp.Ok ("$-1"%string, rest).
Proof. reflexivity. Qed.

Lemma parseBulk_some (a rest : string) :
  in_int64 (len a) = true ->
  resp.parseBulk ("$" +:+ Itoa (len a)) (a +:+ CRLF +:+ rest) = resp.Ok (Some a, rest).
Proof.
  intros Hr. unfold resp.parseBulk.
  change (resp.tail ("$" +:+ Itoa (len a))) with (Itoa (len a)).
  rewrite (Atoi_Itoa _ Hr).
  pose proof (len_nonneg a) as Hl.
  destruct (Z.eqb_spec (len a) (-1)) as [E|_]; [lia |].
  destruct (Z.ltb_spec (len a + 2) 0) as [E|_]; [lia |].
  replace (Z.to_nat (len a + 2)) with (String.length a + 2)%nat by (unfold len; lia).
  rewrite ReadFull_body.
  unfold resp.byte_at, resp.slice_to.
  destruct (Z.ltb_spec (len a) 0) as [E|_]; [lia |].
  destruct (Z.ltb_spec (len a + 1) 0) as [E|_]; [lia |].
  replace (Z.to_nat (len a + 1)) with (S (String.length a)) by (unfold len; lia).
  replace (Z.to_nat (len a)) with (String.length a) by (unfold len; lia).
  rewrite get_append_CRLF, get_append_CRLF_1, substring_append_CRLF.
  reflexivity.
Qed.

Lemma parseBulk_none (rest : string) :
  resp.parseBulk "$-1" rest = resp.Ok (None, rest).
Proof. reflexivity. Qed.

Lemma parseArray_loop_bulks (args : list (option string)) (rest : string)
    (acc : list (option string)) :
  forallb resp.bulk_ok args = true ->
  resp.parseArray_loop (length args) (resp.bulks_bytes args +:+ rest) acc
  = resp.Ok (acc ++ args, rest).
Proof.
  revert acc. induction args as [|arg args IH]; intros acc Hok.
  - cbn. rewrite app_nil_r. reflexivity.
  - cbn [forallb] in Hok. apply andb_true_iff in Hok as [Ha Hargs].
    change (resp.bulks_bytes (arg :: args))
      with (resp.bulk_bytes arg +:+ resp.bulks_bytes args).
    change (length (arg :: args)) with (S (length args)).
    cbn [resp.parseArray_loop].
    rewrite append_assoc.
    destruct arg as [a|].
    + rewrite header_bulk.
      change ("$" +:+ Itoa (len a)) with (String "$"%char (Itoa (len a))) at 1.
      cbv iota beta. change (Ascii.eqb "$" "$") with true. cbv iota.
      change (String "$"%char (Itoa (len a))) with ("$" +:+ Itoa (len a)).
      rewrite (parseBulk_some a _ Ha). rewrite (IH _ Hargs).
      rewrite <- app_assoc. reflexivity.
    + rewrite header_nil_bulk. cbv iota beta.
      change (Ascii.eqb "$" "$") with true. cbv iota.
      rewrite parseBulk_none. rewrite (IH _ Hargs).
      rewrite <- app_assoc. reflexivity.
Qed.

(** C9. Parsing the bytes that [ToBytes] produces for a well-formed reply
    (nil or non-nil bulk, empty array, non-empty array of bulks, status,
    error, integer) yields that reply back and consumes exactly those bytes:
    whatever follows them in the stream is left unread. *)
Theorem Parse_ToBytes_identity (r : resp.Reply) (rest : string) :
  resp.well_formed r = true ->
  resp.Parse (resp.ToBytes r +:+ rest) = resp.Ok (Some r, rest).
Proof.
  intros Hwf. unfold resp.Parse.
  destruct r as [s|s|c|[a|]|[args|]]; cbn [resp.well_formed] in Hwf.
  - cbn [resp.ToBytes]. rewrite !append_assoc.
    change ("+" +:+ s +:+ CRLF +:+ rest) with (("+" +:+ s) +:+ CRLF +:+ rest).
    rewrite readLine_line by exact Hwf. reflexivity.
  - cbn [resp.ToBytes]. rewrite !append_assoc.
    change ("-" +:+ s +:+ CRLF +:+ rest) with (("-" +:+ s) +:+ CRLF +:+ rest).
    rewrite readLine_line by exact Hwf. reflexivity.
  - cbn [resp.ToBytes]. rewrite !append_assoc.
    change (":" +:+ FormatInt c +:+ CRLF +:+ rest)
      with ((":" +:+ FormatInt c) +:+ CRLF +:+ rest).
    rewrite readLine_line by apply no_LF_FormatInt.
    change (":" +:+ FormatInt c) with (String ":"%char (FormatInt c)).
    cbn [resp.parseLine].
    change (Ascii.eqb ":" "*") with false. change (Ascii.eqb ":" "$") with false.
    change (Ascii.eqb ":" "+") with false. change (Ascii.eqb ":" "-") with false.
    change (Ascii.eqb ":" ":") with true. cbv iota.
    rewrite (ParseInt_FormatInt _ Hwf). reflexivity.
  - change (resp.ToBytes (resp.BulkReply (Some a))) with (resp.bulk_bytes (Some a)).
    rewrite header_bulk.
    change ("$" +:+ Itoa (len a)) with (String "$"%char (Itoa (len a))) at 1.
    cbn [resp.parseLine].
    change (Ascii.eqb "$" "*") with false. change (Ascii.eqb "$" "$") with true.
    cbv iota.
    change (String "$"%char (Itoa (len a))) with ("$" +:+ Itoa (len a)).
    rewrite (parseBulk_some a _ Hwf). reflexivity.
  - reflexivity.
  - apply andb_true_iff in Hwf as [Hn Hargs].
    cbn [resp.ToBytes]. rewrite !append_assoc.
    change ("*" +:+ Itoa (Z.of_nat (length args)) +:+ CRLF +:+ resp.bulks_bytes args +:+ rest)
      with (("*" +:+ Itoa (Z.of_nat (length args))) +:+ CRLF +:+ resp.bulks_bytes args +:+ rest).
    rewrite readLine_line by apply no_LF_FormatInt.
    change ("*" +:+ Itoa (Z.of_nat (length args)))
      with (String "*"%char (Itoa (Z.of_nat (length args)))).
    cbn [resp.parseLine]. change (Ascii.eqb "*" "*") with true. cbv iota.
    unfold resp.parseArray.
    change (resp.tail (String "*"%char (Itoa (Z.of_nat (length args)))))
      with (Itoa (Z.of_nat (length args))).
    rewrite (Atoi_Itoa _ Hn).
    destruct (Z.eqb_spec (Z.of_nat (length args)) (-1)) as [E|_]; [lia |].
    destruct (Z.ltb_spec (Z.of_nat (length args)) 0) as [E|_]; [lia |].
    rewrite Nat2Z.id, (parseArray_loop_bulks args rest [] Hargs). reflexivity.
  - discriminate Hwf.
Qed.

Lemma Parse_ToBytes_identity_witness :
  resp.Parse (resp.ToBytes (resp.MultiBulkReply (Some [Some "GET"%string; None; Some ""%string])) +:+ "")
  = resp.Ok (Some (resp.MultiBulkReply (Some [Some "GET"%string; None; Some ""%string])), ""%string).
Proof. apply Parse_ToBytes_identity. reflexivity. Defined.

(** The nil array is outside the identity: its bytes parse to the nil
    pointer, not to a [MultiBulkReply] value. *)
Example Parse_nil_array :
  resp.Parse (resp.ToBytes (resp.MultiBulkReply None)) = resp.Ok (None, ""%string).
Proof. reflexivity. Qed.

(** A status text with a line feed does not survive the round trip. *)
Example Parse_status_with_LF :
  resp.Parse (resp.ToBytes (resp.StatusReply (String "a" (String LF "b"))))
  = resp.Err "protocol error: no CRLF".
Proof. reflexivity. Qed.


(** ** The router's multi-key DEL *)

Definition Zsum (l : list Z) : Z := foldr Z.add 0 l.

Lemma wrap64_idem_add (a b : Z) : wrap64 (wrap64 a + b) = wrap64 (a + b).
Proof.
  unfold wrap64.
  replace ((a + 2 ^ 63) mod 2 ^ 64 - 2 ^ 63 + b + 2 ^ 63)
    with ((a + 2 ^ 63) mod 2 ^ 64 + b) by lia.
  rewrite Zplus_mod_idemp_l. f_equal. f_equal. lia.
Qed.

Lemma wrap64_in_range (a : Z) : in_int64 a = true -> wrap64 a = a.
Proof.
  unfold in_int64, int64_min, int64_max, wrap64. intros H.
  apply andb_true_iff in H as [H1 H2].
  apply Z.leb_le in H1, H2. rewrite Z.mod_small; lia.
Qed.

Lemma Zsum_Permutation (l1 l2 : list Z) : l1 ≡ₚ l2 -> Zsum l1 = Zsum l2.
Proof. unfold Zsum. induction 1; cbn; lia. Qed.

Section RouterFacts.

Context (ChecksumIEEE : string -> Z)
        (localExec : list string -> option resp.Reply)
        (peerDo : string -> list string -> option resp.Reply + string)
        (completion_order : list (string * list string) -> list (string * list string)).

Local Abbreviation owner := (cluster.owner ChecksumIEEE).
Local Abbreviation group_keys := (cluster.group_keys ChecksumIEEE).
Local Abbreviation del_group := (cluster.del_group localExec peerDo).
Local Abbreviation execDel := (cluster.execDel ChecksumIEEE localExec peerDo completion_order).

Definition keys_of (r : cluster.Router) (node : string) (keys : list string) : list string :=
  filter (fun k => owner r k = node) keys.

Definition group_of (r : cluster.Router) (node : string) (keys : list string)
  : option (list string) :=
  match keys_of r node keys with
  | [] => None
  | ks => Some ks
  end.

Lemma group_keys_fold (r : cluster.Router) (keys : list string)
    (acc : gmap string (list string)) (pre : list string) :
  (forall node, acc !! node = group_of r node pre) ->
  forall node,
    fold_left (fun groups kb =>
                 let node := owner r kb in
                 <[node := default [] (groups !! node) ++ [kb]]> groups) keys acc !! node
    = group_of r node (pre ++ keys).
Proof.
  revert acc pre. induction keys as [|k keys IH]; intros acc pre Hacc node.
  - rewrite app_nil_r. apply Hacc.
  - cbn [fold_left].
    replace (pre ++ k :: keys) with ((pre ++ [k]) ++ keys) by (rewrite <- app_assoc; reflexivity).
    apply IH. intros n. unfold group_of, keys_of in *.
    rewrite filter_app, filter_cons, filter_nil.
    destruct (decide (owner r k = n)) as [E|E].
    + subst n. rewrite lookup_insert_eq, Hacc.
      destruct (filter (fun k0 => owner r k0 = owner r k) pre); reflexivity.
    + rewrite lookup_insert_ne by exact E. rewrite Hacc, app_nil_r. reflexivity.
Qed.

Lemma group_keys_lookup (r : cluster.Router) (keys : list string) (node : string) :
  group_keys r keys !! node = group_of r node keys.
Proof.
  unfold cluster.group_keys.
  apply (group_keys_fold r keys ∅ []). intros n. rewrite lookup_empty. reflexivity.
Qed.

Lemma collect_no_error (results : list cluster.delResult) (total : Z) :
  Forall (fun res => cluster.err res = None) results ->
  cluster.collect results total
  = resp.IntReply (wrap64 (wrap64 total + Zsum (map cluster.count results)))
    \/ results = [] /\ cluster.collect results total = resp.IntReply total.
Proof.
  revert total. induction results as [|res results IH]; intros total Hall.
  - right. split; reflexivity.
  - left. inversion Hall as [|? ? Hres Hrest]; subst.
    cbn [cluster.collect]. rewrite Hres.
    destruct (IH (wrap64 (total + cluster.count res)) Hrest) as [E|[-> E]].
    + rewrite E. f_equal. cbn [map Zsum foldr]. fold (Zsum (map cluster.count results)).
      rewrite !wrap64_idem_add. f_equal. lia.
    + rewrite E. cbn. f_equal. rewrite wrap64_idem_add. f_equal. lia.
Qed.

Lemma collect_error (results : list cluster.delResult) (total : Z) :
  Exists (fun res => cluster.err res <> None) results ->
  exists res, res ∈ results /\ cluster.err res = Some (cluster.collect results total).
Proof.
  revert total. induction results as [|res results IH]; intros total Hex.
  - inversion Hex.
  - cbn [cluster.collect]. destruct (cluster.err res) as [e|] eqn:E.
    + exists res. split; [left | exact E].
    + inversion Hex as [? ? Hne|? ? Hrest]; subst; [congruence |].
      destruct (IH (wrap64 (total + cluster.count res)) Hrest) as (res' & Hin & He).
      exists res'. split; [right; exact Hin | exact He].
Qed.


Definition group_size (g : string * list string) : Z := Z.of_nat (length g.2).

Lemma group_sizes_insert (acc : gmap string (list string)) (node k : string) :
  Zsum (map group_size (map_to_list (<[node := default [] (acc !! node) ++ [k]]> acc)))
  = Zsum (map group_size (map_to_list acc)) + 1.
Proof.
  destruct (acc !! node) as [old|] eqn:E; cbn [default].
  - rewrite <- insert_delete_eq.
    rewrite (Zsum_Permutation _ _
      (Permutation_map group_size
         (map_to_list_insert (delete node acc) node (old ++ [k]) (lookup_delete_eq acc node)))).
    rewrite <- (Zsum_Permutation _ _
      (Permutation_map group_size (map_to_list_delete acc node old E))).
    cbn [map Zsum foldr]. unfold group_size at 1 3. cbn [snd].
    rewrite length_app. cbn [length]. lia.
  - rewrite (Zsum_Permutation _ _
      (Permutation_map group_size (map_to_list_insert acc node ([] ++ [k]) E))).
    cbn [map Zsum foldr app]. unfold group_size at 1, Zsum. cbn [snd length]. lia.
Qed.

Lemma group_sizes_total (r : cluster.Router) (keys : list string) :
  Zsum (map group_size (map_to_list (group_keys r keys))) = Z.of_nat (length keys).
Proof.
  unfold cluster.group_keys.
  assert (H : forall acc,
    Zsum (map group_size (map_to_list
      (fold_left (fun groups kb =>
                    let node := owner r kb in
                    <[node := default [] (groups !! node) ++ [kb]]> groups) keys acc)))
    = Zsum (map group_size (map_to_list acc)) + Z.of_nat (length keys)).
  { induction keys as [|k keys IH]; intros acc; cbn [fold_left length].
    - lia.
    - rewrite IH, group_sizes_insert. lia. }
  rewrite H, map_to_list_empty. cbn. lia.
Qed.

(** The owners of the keys of a command, each once. *)
Definition owners (r : cluster.Router) (keys : list string) : list string :=
  remove_dups (map (owner r) keys).

Lemma keys_of_owned (r : cluster.Router) (node : string) (keys : list string) :
  keys_of r node keys <> [] <-> node ∈ map (owner r) keys.
Proof.
  unfold keys_of. induction keys as [|k keys IH]; cbn [map].
  - rewrite filter_nil. split; [congruence | intros H; inversion H].
  - rewrite filter_cons, elem_of_cons. destruct (decide (owner r k = node)) as [E|E].
    + split; [intros _; left; congruence | discriminate].
    + rewrite IH. split; [right; assumption | intros [?|?]; [congruence | assumption]].
Qed.

Lemma groups_by_owner (r : cluster.Router) (keys : list string) :
  map_to_list (group_keys r keys)
  ≡ₚ map (fun node => (node, keys_of r node keys)) (owners r keys).
Proof.
  apply NoDup_Permutation.
  - apply NoDup_map_to_list.
  - apply (NoDup_fmap_1 fst).
    change (NoDup (fst <$> ((fun node => (node, keys_of r node keys)) <$> owners r keys))).
    rewrite <- list_fmap_compose.
    rewrite (list_fmap_ext _ id (owners r keys)) by reflexivity.
    rewrite list_fmap_id.
    apply NoDup_remove_dups.
  - intros [n ks]. rewrite elem_of_map_to_list, group_keys_lookup.
    change (map ?f ?l) with (f <$> l). rewrite list_elem_of_fmap. unfold group_of. split.
    + destruct (keys_of r n keys) as [|k0 ks0] eqn:E; [discriminate |].
      intros [= <-]. exists n. rewrite E. split; [reflexivity |].
      apply elem_of_remove_dups, keys_of_owned. rewrite E. discriminate.
    + intros (n' & [= -> ->] & Hin). apply elem_of_remove_dups, keys_of_owned in Hin.
      destruct (keys_of r n' keys); [congruence | reflexivity].
Qed.

Lemma owner_group_sizes (r : cluster.Router) (keys : list string) :
  Zsum (map (fun node => Z.of_nat (length (keys_of r node keys))) (owners r keys))
  = Z.of_nat (length keys).
Proof.
  rewrite <- (group_sizes_total r keys).
  rewrite (Zsum_Permutation _ _ (Permutation_map group_size (groups_by_owner r keys))).
  rewrite map_map. reflexivity.
Qed.

Lemma Zsum_between (f g : string -> Z) (l : list string) :
  (forall node, node ∈ l -> 0 <= f node <= g node) ->
  0 <= Zsum (map f l) <= Zsum (map g l).
Proof.
  unfold Zsum. induction l as [|n l IH]; intros H; cbn [map foldr]; [lia |].
  pose proof (H n ltac:(left)). pose proof (IH (fun m Hm => H m ltac:(right; exact Hm))).
  lia.
Qed.

(** C4. A DEL over keys is split into one group per ring owner, each group
    holding that owner's keys in command order, and each owner is sent one
    [DEL] of its group: to the local database when the owner is this node,
    through [peerDo] otherwise.  Whatever order the groups complete in: when
    every owner answers with an integer, the reply is the integer sum of the
    owners' answers (a 64-bit sum, and the exact sum for answers that DEL
    can give, each between 0 and the number of keys sent to that owner);
    when some owner's answer is not an integer, the reply is the failure of
    one of those owners: its error reply as it is, a transport error as
    [ERR cluster forward failed], any other reply as
    [ERR cluster: DEL unexpected reply]. *)
Theorem execDel_sums_owner_counts (r : cluster.Router) (name : string) (keys : list string) :
  (forall l, completion_order l ≡ₚ l) ->
  keys <> [] ->
  let home k :=
    let node := cluster.NodeForKey ChecksumIEEE (cluster.ring r) k in
    if bool_decide (node = ""%string) then cluster.localAddr r else node in
  let sent node := "DEL"%string :: filter (fun k => home k = node) keys in
  let answer node :=
    if bool_decide (node = cluster.localAddr r) then inl (localExec (sent node))
    else peerDo node (sent node) in
  let targets := remove_dups (map home keys) in
  (forall node, group_keys r keys !! node = group_of r node keys)
  /\ map_to_list (group_keys r keys)
     ≡ₚ map (fun node => (node, filter (fun k => home k = node) keys)) targets
  /\ (forall removed : string -> Z,
        (forall node, node ∈ targets ->
           answer node = inl (Some (resp.IntReply (removed node)))) ->
        execDel r (name :: keys) = resp.IntReply (wrap64 (Zsum (map removed targets)))
        /\ (Z.of_nat (length keys) <= int64_max ->
            (forall node, node ∈ targets ->
               0 <= removed node <= Z.of_nat (length (filter (fun k => home k = node) keys))) ->
            execDel r (name :: keys) = resp.IntReply (Zsum (map removed targets))))
  /\ ((exists node, node ∈ targets
                    /\ forall c, answer node <> inl (Some (resp.IntReply c))) ->
      exists failed, failed ∈ targets
        /\ match answer failed with
           | inr e => execDel r (name :: keys)
                      = resp.MakeErrReply ("ERR cluster forward failed: " +:+ e)
           | inl (Some (resp.ErrorReply s)) => execDel r (name :: keys) = resp.ErrorReply s
           | inl (Some (resp.IntReply _)) => False
           | inl _ => execDel r (name :: keys)
                      = resp.MakeErrReply "ERR cluster: DEL unexpected reply"
           end).
Proof.
  intros Hperm Hkeys home.
  assert (Hhome : home = owner r) by reflexivity.
  clearbody home. subst home. intros sent answer targets.
  set (groups := group_keys r keys).
  set (asked := map (fun node => (node, keys_of r node keys)) targets).
  assert (Hexec : execDel r (name :: keys)
                  = cluster.collect (map (del_group r) (completion_order (map_to_list groups))) 0).
  { destruct keys; [congruence | reflexivity]. }
  assert (Hres : map (del_group r) (completion_order (map_to_list groups))
                 ≡ₚ map (del_group r) asked).
  { apply Permutation_map. rewrite (Hperm _). apply groups_by_owner. }
  assert (Hone : forall node, del_group r (node, keys_of r node keys)
                 = match answer node with
                   | inr e => {| cluster.count := 0;
                                 cluster.err := Some (resp.MakeErrReply
                                                        ("ERR cluster forward failed: " +:+ e)) |}
                   | inl (Some (resp.ErrorReply s)) =>
                       {| cluster.count := 0; cluster.err := Some (resp.ErrorReply s) |}
                   | inl (Some (resp.IntReply c)) => {| cluster.count := c; cluster.err := None |}
                   | inl _ => {| cluster.count := 0;
                                 cluster.err := Some (resp.MakeErrReply
                                                        "ERR cluster: DEL unexpected reply") |}
                   end).
  { intros node. unfold cluster.del_group, answer, sent, cluster.subCmd, keys_of.
    destruct (bool_decide (node = cluster.localAddr r)); reflexivity. }
  split; [apply group_keys_lookup |].
  split; [apply groups_by_owner |].
  split.
  - intros removed Hint.
    assert (Hasked : map (del_group r) asked
                     = map (fun node => {| cluster.count := removed node; cluster.err := None |})
                           targets).
    { unfold asked. rewrite map_map. apply map_ext_in. intros node Hin.
      apply list_elem_of_In in Hin. rewrite Hone, (Hint node Hin). reflexivity. }
    assert (Hall : Forall (fun res => cluster.err res = None)
                          (map (del_group r) (completion_order (map_to_list groups)))).
    { rewrite Hres, Hasked. apply Forall_forall. intros res Hin.
      change (map ?f ?l) with (f <$> l) in Hin.
      apply list_elem_of_fmap in Hin as (node & -> & _). reflexivity. }
    assert (Hsum : execDel r (name :: keys)
                   = resp.IntReply (wrap64 (Zsum (map removed targets)))).
    { rewrite Hexec.
      assert (Hcounts : Zsum (map cluster.count
                          (map (del_group r) (completion_order (map_to_list groups))))
                        = Zsum (map removed targets)).
      { rewrite (Zsum_Permutation _ _ (Permutation_map cluster.count Hres)), Hasked, map_map.
        reflexivity. }
      destruct (collect_no_error _ 0 Hall) as [E|[Enil E]]; rewrite E.
      - rewrite wrap64_idem_add. cbn [Z.add]. rewrite Hcounts. reflexivity.
      - rewrite <- Hcounts, Enil. reflexivity. }
    split; [exact Hsum |].
    intros Hlen Hbound. rewrite Hsum. f_equal. apply wrap64_in_range.
    pose proof (Zsum_between removed _ targets Hbound) as Hb.
    change (Zsum (map (fun node => Z.of_nat (length (filter (fun k => owner r k = node) keys)))
                      targets))
      with (Zsum (map (fun node => Z.of_nat (length (keys_of r node keys))) (owners r keys)))
      in Hb.
    rewrite owner_group_sizes in Hb.
    unfold in_int64, int64_min, int64_max in *.
    apply andb_true_iff. split; apply Z.leb_le; lia.
  - intros (node & Hnode & Hbad).
    assert (Hex : Exists (fun res => cluster.err res <> None)
                         (map (del_group r) (completion_order (map_to_list groups)))).
    { rewrite Hres. apply Exists_exists. exists (del_group r (node, keys_of r node keys)).
      split.
      - change (map ?f ?l) with (f <$> l). apply list_elem_of_fmap.
        exists (node, keys_of r node keys). split; [reflexivity |].
        unfold asked. change (map ?f ?l) with (f <$> l). apply list_elem_of_fmap.
        exists node. split; [reflexivity | exact Hnode].
      - rewrite Hone. destruct (answer node) as [[[]|]|e] eqn:E; try discriminate.
        exfalso. eapply Hbad. reflexivity. }
    destruct (collect_error _ 0 Hex) as (res & Hin & He).
    rewrite <- Hexec in He. rewrite Hres in Hin.
    change (map ?f ?l) with (f <$> l) in Hin.
    apply list_elem_of_fmap in Hin as ([n ks] & -> & Hin).
    unfold asked in Hin. change (map ?f ?l) with (f <$> l) in Hin.
    apply list_elem_of_fmap in Hin as (failed & [= -> ->] & Hfailed).
    exists failed. split; [exact Hfailed |].
    rewrite Hone in He.
    destruct (answer failed) as [[[]|]|e]; cbn [cluster.err] in He;
      try discriminate; injection He as He; symmetry; exact He.
Qed.

End RouterFacts.

(** A two-node ring, hashing a key to its length: ["k"] and ["kkk"] belong
    to the local node ["A"], ["kk"] to the peer ["B"]. *)
Definition demo_ring : cluster.Ring :=
  {| cluster.vnodes := 1; cluster.nodes := ["A"; "B"];
     cluster.sortedHashes := [1; 2];
     cluster.hashToNode := {[ 1 := "A"%string; 2 := "B"%string ]} |}.
Definition demo_router : cluster.Router :=
  {| cluster.localAddr := "A"; cluster.ring := demo_ring |}.
Definition demo_local (cmd : list string) : option resp.Reply :=
  Some (resp.IntReply (Z.of_nat (length cmd) - 1)).
Definition demo_peer (node : string) (cmd : list string) : option resp.Reply + string :=
  inl (Some (resp.IntReply 1)).

Lemma execDel_sums_owner_counts_witness :
  cluster.execDel len demo_local demo_peer (@rev _) demo_router ["DEL"; "k"; "kk"; "kkk"]%string
  = resp.IntReply 3.
Proof.
  pose proof (execDel_sums_owner_counts len demo_local demo_peer (@rev _) demo_router
                "DEL" ["k"; "kk"; "kkk"]%string
                (fun l => Permutation_sym (Permutation_rev l))
                ltac:(discriminate)) as H.
  cbv zeta in H. destruct H as (_ & _ & H & _).
  destruct (H (fun node => if String.eqb node "A" then 2 else 1)) as [_ Hexact].
  - intros node Hin. vm_compute in Hin.
    apply elem_of_cons in Hin as [->|Hin]; [reflexivity |].
    apply elem_of_cons in Hin as [->|Hin]; [reflexivity | inversion Hin].
  - etransitivity; [apply Hexact | reflexivity].
    + vm_compute. discriminate.
    + intros node Hin. vm_compute in Hin.
      apply elem_of_cons in Hin as [->|Hin]; [vm_compute; split; discriminate |].
      apply elem_of_cons in Hin as [->|Hin]; [vm_compute; split; discriminate | inversion Hin].
Defined.


(** ** What the core relies on from a cache

    [view] is the keyspace a cache holds.  [ok] is the invariant of a cache
    that the core builds: it never passes a TTL to [Add], so no entry expires
    inside the cache. *)

Import types lru.

Definition evicted (ev : event) : Prop := ev.2 = RemoveReasonEvicted.
Definition event_key (ev : event) : string := ev.1.1.

Class CacheLaws (C : Type) {EC : EvictionCache C} : Type := {
  view : C -> gmap string Value;
  cache_nbytes : C -> Z;
  cache_maxBytes : C -> Z;
  ok : C -> Prop;
  Peek_ok : forall st now c k, ok c -> Peek st now c k = (c, view c !! k, []);
  Get_ok : forall st now c k, ok c ->
    exists c', Get st now c k = (c', view c !! k, [])
               /\ ok c' /\ view c' = view c
               /\ cache_nbytes c' = cache_nbytes c /\ cache_maxBytes c' = cache_maxBytes c;
  Remove_present : forall st c k v, ok c -> view c !! k = Some v ->
    exists c', Remove st c k = (c', [(k, v, RemoveReasonDeleted)])
               /\ ok c' /\ view c' = delete k (view c)
               /\ cache_nbytes c' = cache_nbytes c - (len k + types.Len st v)
               /\ cache_maxBytes c' = cache_maxBytes c;
  Remove_absent : forall st c k, ok c -> view c !! k = None -> Remove st c k = (c, []);
  Add_returns : forall st now c k v c' evs, ok c ->
    Add st now c k v 0 = Some (c', evs) ->
    ok c' /\ Forall evicted evs
    /\ (forall k', view c' !! k' =
                   if bool_decide (k' ∈ map event_key evs) then None
                   else <[k := v]> (view c) !! k')
    /\ cache_maxBytes c' = cache_maxBytes c
    /\ (cache_maxBytes c' = 0 \/ cache_nbytes c' <= cache_maxBytes c');
  Add_fits : forall st now c k v, ok c ->
    let delta := match view c !! k with
                 | Some old => types.Len st v - types.Len st old
                 | None => len k + types.Len st v
                 end in
    cache_maxBytes c = 0 \/ cache_nbytes c + delta <= cache_maxBytes c ->
    exists c', Add st now c k v 0 = Some (c', [])
               /\ ok c' /\ view c' = <[k := v]> (view c)
               /\ cache_nbytes c' = cache_nbytes c + delta
               /\ cache_maxBytes c' = cache_maxBytes c;
  ForEach_view : forall c, ok c -> ForEach c ≡ₚ map_to_list (view c);
}.

(** ** The LRU cache satisfies them *)

Definition lru_view (c : Cache) : gmap string Value :=
  list_to_map (map (fun e => (key e, value e)) (ll c)).

Definition lru_ok (c : Cache) : Prop :=
  NoDup (map key (ll c)) /\ Forall (fun e => expiresAt e = 0) (ll c).

Lemma find_entry_view (k : string) (l : list entry) :
  value <$> find_entry k l
  = (list_to_map (map (fun e => (key e, value e)) l) : gmap string Value) !! k.
Proof.
  unfold find_entry. induction l as [|e l IH]; [reflexivity |].
  cbn [map list_to_map foldr]. rewrite filter_cons.
  destruct (decide (key e = k)) as [E|E].
  - cbn. rewrite E, lookup_insert_eq. reflexivity.
  - rewrite lookup_insert_ne by exact E. exact IH.
Qed.

Lemma find_entry_key (k : string) (l : list entry) (e : entry) :
  find_entry k l = Some e -> key e = k /\ e ∈ l.
Proof.
  unfold find_entry. intros H. apply head_Some_elem_of in H.
  apply list_elem_of_filter in H. tauto.
Qed.

Lemma drop_key_view (k : string) (l : list entry) :
  (list_to_map (map (fun e => (key e, value e)) (drop_key k l)) : gmap string Value)
  = delete k (list_to_map (map (fun e => (key e, value e)) l)).
Proof.
  unfold drop_key. induction l as [|e l IH]; [cbn; rewrite delete_empty; reflexivity |].
  rewrite filter_cons. cbn [map list_to_map foldr].
  destruct (decide (key e <> k)) as [E|E].
  - cbn [map list_to_map foldr]. rewrite IH, delete_insert_ne by (intros Hk; apply E; symmetry; exact Hk). reflexivity.
  - apply dec_stable in E. rewrite E, delete_insert_eq. exact IH.
Qed.

Lemma drop_key_keys (k : string) (l : list entry) :
  map key (drop_key k l) = filter (fun k' => k' <> k) (map key l).
Proof.
  unfold drop_key. induction l as [|e l IH]; [reflexivity |].
  cbn [map]. rewrite !filter_cons. destruct (decide (key e <> k)); cbn [map]; congruence.
Qed.

Lemma drop_key_ok (k : string) (c : Cache) (mb nb : Z) :
  lru_ok c -> lru_ok {| maxBytes := mb; nbytes := nb; ll := drop_key k (ll c) |}.
Proof.
  intros [Hnd Hex]. split; cbn.
  - rewrite drop_key_keys. apply NoDup_filter, Hnd.
  - unfold drop_key. rewrite Forall_forall in *. intros e He.
    apply list_elem_of_filter in He as [_ He]. auto.
Qed.

Lemma not_in_drop_key (k : string) (l : list entry) : k ∉ map key (drop_key k l).
Proof.
  rewrite drop_key_keys. intros H. apply list_elem_of_filter in H. tauto.
Qed.

Lemma drop_key_absent (k : string) (l : list entry) :
  find_entry k l = None -> drop_key k l = l.
Proof.
  unfold find_entry, drop_key. induction l as [|e l IH]; [reflexivity |].
  rewrite !filter_cons. destruct (decide (key e = k)) as [E|E].
  - discriminate.
  - intros H. rewrite decide_True by exact E. rewrite (IH H). reflexivity.
Qed.

Lemma lru_not_expired (c : Cache) (k : string) (e : entry) (now : Z) :
  lru_ok c -> find_entry k (ll c) = Some e -> is_expired (expiresAt e) now = false.
Proof.
  intros [_ Hex] H. apply find_entry_key in H as [_ Hin].
  rewrite Forall_forall in Hex. rewrite (Hex e Hin). reflexivity.
Qed.

Lemma Len_nonneg (st : store) (v : Value) : 0 <= types.Len st v.
Proof.
  destruct v as [b|l|h|s]; cbn [types.Len].
  - apply len_nonneg.
  - unfold ListData_Len.
    assert (H : forall es acc, 0 <= acc -> 0 <= fold_left (fun size b => size + len b + 16) es acc).
    { induction es as [|e es IH]; intros acc Hacc; cbn; [exact Hacc |].
      apply IH. pose proof (len_nonneg e). lia. }
    apply H. lia.
  - unfold HashData_Len.
    apply (map_fold_weak_ind (fun size _ => 0 <= size)); [lia |].
    intros k v m r _ Hr. pose proof (len_nonneg k). pose proof (len_nonneg v). lia.
  - unfold SetData_Len.
    apply (set_fold_ind_L (fun size _ => 0 <= size)); [lia |].
    intros k X r _ Hr. pose proof (len_nonneg k). lia.
Qed.

Lemma lru_Peek_ok st now c k :
  lru_ok c -> Cache_Peek st now c k = (c, lru_view c !! k, []).
Proof.
  intros Hok. unfold Cache_Peek, lru_view. rewrite <- find_entry_view.
  destruct (find_entry k (ll c)) as [e|] eqn:E; [|reflexivity].
  rewrite (lru_not_expired c k e now Hok E). reflexivity.
Qed.

Lemma lru_Get_ok st now c k :
  lru_ok c ->
  exists c', Cache_Get st now c k = (c', lru_view c !! k, [])
             /\ lru_ok c' /\ lru_view c' = lru_view c
             /\ nbytes c' = nbytes c /\ maxBytes c' = maxBytes c.
Proof.
  intros Hok. unfold Cache_Get.
  pose proof (find_entry_view k (ll c)) as Hv. fold (lru_view c) in Hv.
  destruct (find_entry k (ll c)) as [e|] eqn:E.
  - rewrite (lru_not_expired c k e now Hok E). eexists. split; [rewrite <- Hv; reflexivity |].
    destruct (find_entry_key _ _ _ E) as [Hk Hin].
    split; [|split; [|split; reflexivity]].
    + destruct (drop_key_ok k c (maxBytes c) (nbytes c) Hok) as [Hnd Hex].
      destruct Hok as [_ Hex0]. cbn in *. split; cbn.
      * rewrite Hk. constructor; [apply not_in_drop_key | exact Hnd].
      * constructor; [|exact Hex]. rewrite Forall_forall in Hex0. auto.
    + unfold lru_view. cbn [ll map list_to_map foldr].
      rewrite drop_key_view. fold (lru_view c). rewrite Hk, insert_delete_eq.
      apply insert_id. rewrite <- Hv. reflexivity.
  - exists c. rewrite <- Hv. auto.
Qed.

Lemma lru_Remove_present st c k v :
  lru_ok c -> lru_view c !! k = Some v ->
  exists c', Cache_Remove st c k = (c', [(k, v, RemoveReasonDeleted)])
             /\ lru_ok c' /\ lru_view c' = delete k (lru_view c)
             /\ nbytes c' = nbytes c - (len k + types.Len st v)
             /\ maxBytes c' = maxBytes c.
Proof.
  intros Hok Hv. unfold Cache_Remove.
  pose proof (find_entry_view k (ll c)) as Hf. fold (lru_view c) in Hf. rewrite Hv in Hf.
  destruct (find_entry k (ll c)) as [e|] eqn:E; [|discriminate].
  injection Hf as Hf. destruct (find_entry_key _ _ _ E) as [Hk _].
  unfold removeEntry. rewrite Hk, Hf. eexists. split; [reflexivity |].
  split; [apply drop_key_ok, Hok |].
  split; [apply drop_key_view | split; reflexivity].
Qed.

Lemma lru_Remove_absent st c k :
  lru_ok c -> lru_view c !! k = None -> Cache_Remove st c k = (c, []).
Proof.
  intros _ Hv. unfold Cache_Remove.
  pose proof (find_entry_view k (ll c)) as Hf. fold (lru_view c) in Hf. rewrite Hv in Hf.
  destruct (find_entry k (ll c)); [discriminate | reflexivity].
Qed.

Lemma over_budget_false (mb nb : Z) :
  over_budget mb nb = false <-> mb = 0 \/ nb <= mb.
Proof.
  unfold over_budget. rewrite andb_false_iff, negb_false_iff, Z.eqb_eq, Z.ltb_ge. tauto.
Qed.

Lemma last_elem_of {A : Type} (l : list A) (x : A) : last l = Some x -> x ∈ l.
Proof. intros H. apply last_Some in H as [l' ->]. set_solver. Qed.

Lemma evict_loop_returns (fuel : nat) st c c' evs :
  lru_ok c -> evict_loop fuel st c = Some (c', evs) ->
  lru_ok c' /\ Forall evicted evs
  /\ (forall k', lru_view c' !! k' =
                 if bool_decide (k' ∈ map event_key evs) then None else lru_view c !! k')
  /\ maxBytes c' = maxBytes c
  /\ (maxBytes c' = 0 \/ nbytes c' <= maxBytes c').
Proof.
  revert c c' evs. induction fuel as [|fuel IH]; intros c c' evs Hok H; cbn [evict_loop] in H.
  - destruct (over_budget (maxBytes c) (nbytes c)) eqn:Hob; [discriminate |].
    injection H as <- <-. apply over_budget_false in Hob.
    split; [exact Hok | split; [constructor | split; [|split; [reflexivity | exact Hob]]]].
    intros k'. reflexivity.
  - destruct (over_budget (maxBytes c) (nbytes c)) eqn:Hob.
    + destruct (last (ll c)) as [ele|] eqn:El; [|discriminate].
      unfold removeEntry in H.
      match type of H with
      | match evict_loop _ _ ?c1 with _ => _ end = _ => set (c1' := c1) in *
      end.
      destruct (evict_loop fuel st c1') as [[c2 evs2]|] eqn:E2; [|discriminate].
      injection H as <- <-.
      assert (Hok1 : lru_ok c1') by (apply drop_key_ok, Hok).
      destruct (IH _ _ _ Hok1 E2) as (Hok2 & Hev & Hview & Hmax & Hb).
      split; [exact Hok2 | split; [constructor; [reflexivity | exact Hev] | split; [|split]]].
      * intros k'. rewrite Hview. cbn [map event_key fst].
        unfold c1', lru_view at 1. cbn [ll]. rewrite drop_key_view. fold (lru_view c).
        destruct (decide (k' = key ele)) as [->|Hne].
        -- rewrite lookup_delete_eq.
           rewrite (bool_decide_eq_true_2 (key ele ∈ key ele :: _)) by left.
           destruct (bool_decide _); reflexivity.
        -- rewrite lookup_delete_ne by congruence.
           destruct (bool_decide (k' ∈ map event_key evs2)) eqn:Eb.
           ++ apply bool_decide_eq_true in Eb.
              rewrite bool_decide_eq_true_2 by (right; exact Eb). reflexivity.
           ++ apply bool_decide_eq_false in Eb.
              rewrite bool_decide_eq_false_2; [reflexivity |].
              intros Hin. apply elem_of_cons in Hin as [?|?]; [congruence | contradiction].
      * rewrite Hmax. reflexivity.
      * exact Hb.
    + injection H as <- <-. apply over_budget_false in Hob.
      split; [exact Hok | split; [constructor | split; [|split; [reflexivity | exact Hob]]]].
      intros k'. reflexivity.
Qed.

Lemma lru_Add_returns st now c k v c' evs :
  lru_ok c -> Cache_Add st now c k v 0 = Some (c', evs) ->
  lru_ok c' /\ Forall evicted evs
  /\ (forall k', lru_view c' !! k' =
                 if bool_decide (k' ∈ map event_key evs) then None
                 else <[k := v]> (lru_view c) !! k')
  /\ maxBytes c' = maxBytes c
  /\ (maxBytes c' = 0 \/ nbytes c' <= maxBytes c').
Proof.
  intros Hok H. unfold Cache_Add in H. cbn [Z.ltb Z.compare] in H.
  match type of H with
  | evict_loop _ _ ?c1 = _ => set (c1' := c1) in *
  end.
  assert (H1 : lru_ok c1' /\ lru_view c1' = <[k := v]> (lru_view c) /\ maxBytes c1' = maxBytes c).
  { unfold c1'. destruct (find_entry k (ll c)) as [e|] eqn:E.
    - split; [|split; [|reflexivity]].
      + destruct (drop_key_ok k c (maxBytes c) (nbytes c) Hok) as [Hnd Hex]. cbn in *.
        split; cbn; constructor; auto using not_in_drop_key.
      + unfold lru_view. cbn [ll map list_to_map foldr key value].
        rewrite drop_key_view. apply insert_delete_eq.
    - split; [|split; [|reflexivity]].
      + destruct Hok as [Hnd Hex]. split; cbn; constructor; auto.
        pose proof (find_entry_view k (ll c)) as Hv. rewrite E in Hv. cbn in Hv.
        symmetry in Hv. apply not_elem_of_list_to_map_2 in Hv.
        rewrite <- list_fmap_compose in Hv. exact Hv.
      + reflexivity. }
  destruct H1 as (Hok1 & Hv1 & Hm1).
  destruct (evict_loop_returns _ _ _ _ _ Hok1 H) as (Hok' & Hev & Hview & Hmax & Hb).
  split; [exact Hok' | split; [exact Hev | split; [|split; [congruence | exact Hb]]]].
  intros k'. rewrite Hview, Hv1. reflexivity.
Qed.

Lemma evict_loop_fits (fuel : nat) st c :
  maxBytes c = 0 \/ nbytes c <= maxBytes c -> evict_loop fuel st c = Some (c, []).
Proof.
  intros H. apply over_budget_false in H. destruct fuel; cbn [evict_loop]; rewrite H; reflexivity.
Qed.

Lemma lru_Add_fits st now c k v :
  lru_ok c ->
  let delta := match lru_view c !! k with
               | Some old => types.Len st v - types.Len st old
               | None => len k + types.Len st v
               end in
  maxBytes c = 0 \/ nbytes c + delta <= maxBytes c ->
  exists c', Cache_Add st now c k v 0 = Some (c', [])
             /\ lru_ok c' /\ lru_view c' = <[k := v]> (lru_view c)
             /\ nbytes c' = nbytes c + delta
             /\ maxBytes c' = maxBytes c.
Proof.
  intros Hok delta Hfit. unfold Cache_Add. cbn [Z.ltb Z.compare].
  pose proof (find_entry_view k (ll c)) as Hv. fold (lru_view c) in Hv.
  unfold delta in *. clear delta. rewrite <- Hv in *.
  destruct (find_entry k (ll c)) as [e|] eqn:E; cbn [fmap option_fmap option_map] in *.
  - rewrite evict_loop_fits by exact Hfit. eexists. split; [reflexivity |].
    split; [|split; [|split; reflexivity]].
    + destruct (drop_key_ok k c (maxBytes c) (nbytes c) Hok) as [Hnd Hex]. cbn in *.
      split; cbn; constructor; auto using not_in_drop_key.
    + unfold lru_view. cbn [ll map list_to_map foldr key value].
      rewrite drop_key_view. apply insert_delete_eq.
  - rewrite evict_loop_fits by exact Hfit. eexists. split; [reflexivity |].
    split; [|split; [|split; reflexivity]].
    + destruct Hok as [Hnd Hex]. split; cbn; constructor; auto.
      pose proof (find_entry_view k (ll c)) as Hv'. rewrite E in Hv'. cbn in Hv'.
      symmetry in Hv'. apply not_elem_of_list_to_map_2 in Hv'.
      rewrite <- list_fmap_compose in Hv'. exact Hv'.
    + reflexivity.
Qed.

Lemma lru_ForEach_view c : lru_ok c -> Cache_ForEach c ≡ₚ map_to_list (lru_view c).
Proof.
  intros [Hnd _]. unfold Cache_ForEach, lru_view. symmetry. apply map_to_list_to_map.
  rewrite <- list_fmap_compose. exact Hnd.
Qed.

#[global, refine] Instance Cache_laws : CacheLaws Cache := {
  view := lru_view;
  cache_nbytes := nbytes;
  cache_maxBytes := maxBytes;
  ok := lru_ok;
}.
Proof.
  - exact lru_Peek_ok.
  - exact lru_Get_ok.
  - exact lru_Remove_present.
  - exact lru_Remove_absent.
  - exact lru_Add_returns.
  - exact lru_Add_fits.
  - exact lru_ForEach_view.
Defined.

(** The LRU [Add] always returns when the tracked total is within a
    non-negative budget beforehand: the loop stops at the latest when the
    list is empty, and then the total is what was tracked minus what was
    held, which is within the budget. *)
Definition held (st : store) (l : list entry) : Z :=
  foldr (fun e acc => len (key e) + types.Len st (value e) + acc) 0 l.

Lemma held_nonneg st l : 0 <= held st l.
Proof.
  unfold held. induction l as [|e l IH]; cbn [foldr]; [lia |].
  pose proof (len_nonneg (key e)). pose proof (Len_nonneg st (value e)). lia.
Qed.

Lemma drop_key_all (k : string) (l : list entry) :
  k ∉ map key l -> drop_key k l = l.
Proof.
  unfold drop_key. induction l as [|y l IH]; intros Hk; [reflexivity |].
  cbn [map] in Hk. apply not_elem_of_cons in Hk as [Hy Hk].
  rewrite filter_cons, decide_True by congruence. rewrite (IH Hk). reflexivity.
Qed.

Lemma held_drop_unique st (l : list entry) (e : entry) :
  NoDup (map key l) -> e ∈ l ->
  held st (drop_key (key e) l) = held st l - (len (key e) + types.Len st (value e)).
Proof.
  unfold drop_key. induction l as [|x l IH]; intros Hnd Hin; [inversion Hin |].
  cbn [map] in Hnd. apply NoDup_cons in Hnd as [Hx Hnd].
  rewrite filter_cons. apply elem_of_cons in Hin as [->|Hin].
  - rewrite decide_False by (intros H; apply H; reflexivity).
    pose proof (drop_key_all (key x) l Hx) as E. unfold drop_key in E.
    rewrite E. unfold held. cbn [foldr]. lia.
  - assert (Hne : key x <> key e).
    { intros E. apply Hx. rewrite E. apply list_elem_of_fmap. exists e. auto. }
    rewrite decide_True by exact Hne.
    pose proof (IH Hnd Hin) as IH'. unfold held in *. cbn [foldr]. lia.
Qed.

Lemma evict_loop_total st c :
  lru_ok c -> 0 <= maxBytes c -> nbytes c - held st (ll c) <= maxBytes c ->
  exists c' evs, evict_loop (length (ll c)) st c = Some (c', evs).
Proof.
  remember (length (ll c)) as n eqn:Hn. revert c Hn.
  induction n as [|n IH]; intros c Hn Hok Hmax Hheld.
  - destruct (ll c) eqn:El; [|discriminate]. cbn [held foldr] in Hheld.
    exists c, []. cbn [evict_loop].
    assert (E : over_budget (maxBytes c) (nbytes c) = false)
      by (apply over_budget_false; right; lia).
    rewrite E. reflexivity.
  - cbn [evict_loop]. destruct (over_budget (maxBytes c) (nbytes c)) eqn:Hob;
      [|eexists _, _; reflexivity].
    destruct (last (ll c)) as [ele|] eqn:El.
    2:{ apply last_None in El. rewrite El in Hn. discriminate. }
    unfold removeEntry.
    match goal with
    | |- context [evict_loop n st ?c1] => set (c1' := c1)
    end.
    pose proof (last_elem_of _ _ El) as Hin.
    destruct Hok as [Hnd Hex].
    assert (Hlen : n = length (ll c1')).
    { unfold c1'. cbn [ll]. apply last_Some in El as [l' El]. rewrite El in *.
      rewrite length_app in Hn. cbn in Hn.
      rewrite fmap_app in Hnd. apply NoDup_app in Hnd as (_ & Hdis & _).
      unfold drop_key. rewrite filter_app, filter_cons, filter_nil.
      rewrite decide_False by (intros H; apply H; reflexivity).
      rewrite app_nil_r.
      assert (Hk : key ele ∉ map key l').
      { intros Hk. apply (Hdis (key ele) Hk). apply list_elem_of_fmap.
        exists ele. split; [reflexivity | apply list_elem_of_singleton; reflexivity]. }
      pose proof (drop_key_all (key ele) l' Hk) as E. unfold drop_key in E.
      rewrite E. lia. }
    destruct (IH c1' Hlen) as (c' & evs & E).
    + apply (drop_key_ok (key ele) c), (conj Hnd Hex).
    + exact Hmax.
    + unfold c1'. cbn [nbytes ll maxBytes].
      rewrite (held_drop_unique st (ll c) ele Hnd Hin). lia.
    + rewrite E. eexists _, _. reflexivity.
Qed.

(** ** The LFU cache satisfies them *)

Definition lfu_view (c : LFUCache) : gmap string Value := lfu_value <$> items c.

Definition lfu_ok (c : LFUCache) : Prop :=
  forall k e, items c !! k = Some e -> lfu_expiresAt e = 0.

Lemma lfu_view_lookup c k : lfu_view c !! k = lfu_value <$> items c !! k.
Proof. unfold lfu_view. apply lookup_fmap. Qed.

Lemma lfu_Peek_ok st now c k :
  lfu_ok c -> LFU_Peek st now c k = (c, lfu_view c !! k, []).
Proof.
  intros Hok. unfold LFU_Peek. rewrite lfu_view_lookup.
  destruct (items c !! k) as [e|] eqn:E; [|reflexivity].
  rewrite (Hok k e E). reflexivity.
Qed.

Lemma increment_items c k ent :
  items (increment c k ent)
  = <[k := {| lfu_value := lfu_value ent; freq := freq ent + 1;
              lfu_expiresAt := lfu_expiresAt ent |}]> (items c).
Proof. unfold increment. destruct (bucket_remove _ _ _). reflexivity. Qed.

Lemma increment_bytes c k ent :
  lfu_nbytes (increment c k ent) = lfu_nbytes c
  /\ lfu_maxBytes (increment c k ent) = lfu_maxBytes c.
Proof. unfold increment. destruct (bucket_remove _ _ _). split; reflexivity. Qed.

Lemma lfu_Get_ok st now c k :
  lfu_ok c ->
  exists c', LFU_Get st now c k = (c', lfu_view c !! k, [])
             /\ lfu_ok c' /\ lfu_view c' = lfu_view c
             /\ lfu_nbytes c' = lfu_nbytes c /\ lfu_maxBytes c' = lfu_maxBytes c.
Proof.
  intros Hok. unfold LFU_Get. rewrite lfu_view_lookup.
  destruct (items c !! k) as [e|] eqn:E.
  - rewrite (Hok k e E). eexists. split; [reflexivity |].
    destruct (increment_bytes c k e) as [Hn Hm].
    split; [|split; [|split; assumption]].
    + intros k' e'. rewrite increment_items, lookup_insert.
      destruct (decide (k = k')); [intros [= <-]; cbn; eauto | apply Hok].
    + unfold lfu_view. rewrite increment_items, fmap_insert. cbn.
      apply insert_id. rewrite lookup_fmap, E. reflexivity.
  - exists c. auto.
Qed.

Lemma LFU_removeEntry_items st c k ent reason :
  items (LFU_removeEntry st c k ent reason).1 = delete k (items c)
  /\ lfu_nbytes (LFU_removeEntry st c k ent reason).1
     = lfu_nbytes c - (len k + types.Len st (lfu_value ent))
  /\ lfu_maxBytes (LFU_removeEntry st c k ent reason).1 = lfu_maxBytes c
  /\ (LFU_removeEntry st c k ent reason).2 = (k, lfu_value ent, reason).
Proof. unfold LFU_removeEntry. destruct (bucket_remove _ _ _). repeat split. Qed.

Lemma lfu_ok_delete c c' k :
  lfu_ok c -> items c' = delete k (items c) -> lfu_ok c'.
Proof.
  intros Hok E k' e'. rewrite E, lookup_delete.
  destruct (decide (k = k')); [discriminate | apply Hok].
Qed.

Lemma lfu_Remove_present st c k v :
  lfu_ok c -> lfu_view c !! k = Some v ->
  exists c', LFU_Remove st c k = (c', [(k, v, RemoveReasonDeleted)])
             /\ lfu_ok c' /\ lfu_view c' = delete k (lfu_view c)
             /\ lfu_nbytes c' = lfu_nbytes c - (len k + types.Len st v)
             /\ lfu_maxBytes c' = lfu_maxBytes c.
Proof.
  intros Hok Hv. unfold LFU_Remove. rewrite lfu_view_lookup in Hv.
  destruct (items c !! k) as [e|] eqn:E; [|discriminate]. injection Hv as Hv.
  destruct (LFU_removeEntry_items st c k e RemoveReasonDeleted) as (Hi & Hn & Hm & Hev).
  destruct (LFU_removeEntry st c k e RemoveReasonDeleted) as [c' ev]. cbn [fst snd] in *.
  exists c'. subst ev v. split; [reflexivity |].
  split; [exact (lfu_ok_delete c c' k Hok Hi) |].
  split; [unfold lfu_view; rewrite Hi, fmap_delete; reflexivity | auto].
Qed.

Lemma lfu_Remove_absent st c k :
  lfu_ok c -> lfu_view c !! k = None -> LFU_Remove st c k = (c, []).
Proof.
  intros _ Hv. unfold LFU_Remove. rewrite lfu_view_lookup in Hv.
  destruct (items c !! k); [discriminate | reflexivity].
Qed.

Lemma evictOne_returns st c c' ev :
  evictOne st c = Some (c', ev) ->
  exists k ent, items c !! k = Some ent
                /\ ev = (k, lfu_value ent, RemoveReasonEvicted)
                /\ items c' = delete k (items c)
                /\ lfu_nbytes c' = lfu_nbytes c - (len k + types.Len st (lfu_value ent))
                /\ lfu_maxBytes c' = lfu_maxBytes c.
Proof.
  unfold evictOne. destruct (bool_decide (size (items c) = 0%nat)); [discriminate |].
  destruct (scan_buckets _ _ _) as [bs m].
  destruct (bs !! m) as [b|]; [|discriminate].
  destruct (last b) as [k|]; [|discriminate].
  destruct (items c !! k) as [ent|] eqn:E; [|discriminate].
  intros H. injection H as H.
  match type of H with
  | LFU_removeEntry st ?cs k ent ?r = _ =>
      destruct (LFU_removeEntry_items st cs k ent r) as (Hi & Hn & Hm & Hev);
      rewrite H in Hi, Hn, Hm, Hev
  end.
  cbn [fst snd items lfu_nbytes lfu_maxBytes] in *.
  exists k, ent. auto.
Qed.

Lemma lfu_evict_loop_returns (fuel : nat) st c c' evs :
  lfu_ok c -> lfu_evict_loop fuel st c = Some (c', evs) ->
  lfu_ok c' /\ Forall evicted evs
  /\ (forall k', lfu_view c' !! k' =
                 if bool_decide (k' ∈ map event_key evs) then None else lfu_view c !! k')
  /\ lfu_maxBytes c' = lfu_maxBytes c
  /\ (lfu_maxBytes c' = 0 \/ lfu_nbytes c' <= lfu_maxBytes c').
Proof.
  assert (Hstop : forall c0, over_budget (lfu_maxBytes c0) (lfu_nbytes c0) = false ->
            lfu_ok c0 ->
            lfu_ok c0 /\ Forall evicted []
            /\ (forall k', lfu_view c0 !! k' =
                  if bool_decide (k' ∈ map event_key []) then None else lfu_view c0 !! k')
            /\ lfu_maxBytes c0 = lfu_maxBytes c0
            /\ (lfu_maxBytes c0 = 0 \/ lfu_nbytes c0 <= lfu_maxBytes c0)).
  { intros c0 Hob Hok0. apply over_budget_false in Hob.
    split; [exact Hok0 | split; [constructor | split; [|split; [reflexivity | exact Hob]]]].
    intros k'. reflexivity. }
  revert c c' evs. induction fuel as [|fuel IH]; intros c c' evs Hok H;
    cbn [lfu_evict_loop] in H.
  - destruct (over_budget (lfu_maxBytes c) (lfu_nbytes c)) eqn:Hob; [discriminate |].
    injection H as <- <-. auto.
  - destruct (over_budget (lfu_maxBytes c) (lfu_nbytes c)) eqn:Hob.
    2:{ injection H as <- <-. auto. }
    destruct (evictOne st c) as [[c1 ev]|] eqn:E1; [|discriminate].
    destruct (lfu_evict_loop fuel st c1) as [[c2 evs2]|] eqn:E2; [|discriminate].
    injection H as <- <-.
    destruct (evictOne_returns _ _ _ _ E1) as (k & ent & Hk & -> & Hi & Hn & Hm).
    assert (Hok1 : lfu_ok c1) by exact (lfu_ok_delete c c1 k Hok Hi).
    destruct (IH _ _ _ Hok1 E2) as (Hok2 & Hev & Hview & Hmax & Hb).
    split; [exact Hok2 | split; [constructor; [reflexivity | exact Hev] | split; [|split]]].
    + intros k'. rewrite Hview. cbn [map event_key fst].
      unfold lfu_view at 1. rewrite Hi, fmap_delete. fold (lfu_view c).
      destruct (decide (k' = k)) as [->|Hne].
      * rewrite lookup_delete_eq.
        rewrite (bool_decide_eq_true_2 (k ∈ k :: _)) by left.
        destruct (bool_decide _); reflexivity.
      * rewrite lookup_delete_ne by congruence.
        destruct (bool_decide (k' ∈ map event_key evs2)) eqn:Eb.
        -- apply bool_decide_eq_true in Eb.
           rewrite bool_decide_eq_true_2 by (right; exact Eb). reflexivity.
        -- apply bool_decide_eq_false in Eb.
           rewrite bool_decide_eq_false_2; [reflexivity |].
           intros Hin. apply elem_of_cons in Hin as [?|?]; [congruence | contradiction].
    + congruence.
    + exact Hb.
Qed.

Definition lfu_added (st : store) (c : LFUCache) (k : string) (v : Value) : LFUCache :=
  match items c !! k with
  | Some ent =>
      increment
        {| lfu_maxBytes := lfu_maxBytes c;
           lfu_nbytes := lfu_nbytes c + (types.Len st v - types.Len st (lfu_value ent));
           items := items c; buckets := buckets c; minFreq := minFreq c |}
        k {| lfu_value := v; freq := freq ent; lfu_expiresAt := 0 |}
  | None =>
      {| lfu_maxBytes := lfu_maxBytes c;
         lfu_nbytes := lfu_nbytes c + (len k + types.Len st v);
         items := <[k := {| lfu_value := v; freq := 1; lfu_expiresAt := 0 |}]> (items c);
         buckets := push_front 1 k (buckets c);
         minFreq := 1 |}
  end.

Lemma LFU_Add_unfold st now c k v :
  LFU_Add st now c k v 0
  = lfu_evict_loop (size (items (lfu_added st c k v))) st (lfu_added st c k v).
Proof. unfold LFU_Add, lfu_added. cbn [Z.ltb Z.compare]. reflexivity. Qed.

Lemma lfu_added_spec st c k v :
  lfu_ok c ->
  lfu_ok (lfu_added st c k v)
  /\ lfu_view (lfu_added st c k v) = <[k := v]> (lfu_view c)
  /\ lfu_maxBytes (lfu_added st c k v) = lfu_maxBytes c
  /\ lfu_nbytes (lfu_added st c k v)
     = lfu_nbytes c + match lfu_view c !! k with
                      | Some old => types.Len st v - types.Len st old
                      | None => len k + types.Len st v
                      end.
Proof.
  intros Hok. unfold lfu_added. rewrite lfu_view_lookup.
  destruct (items c !! k) as [ent|] eqn:E; cbn [fmap option_fmap option_map].
  - match goal with |- context [increment ?c0 k ?e0] =>
      pose proof (increment_items c0 k e0) as Hi;
      destruct (increment_bytes c0 k e0) as [Hn Hm];
      set (c1 := increment c0 k e0) in *
    end.
    cbn [items lfu_value freq lfu_expiresAt lfu_nbytes lfu_maxBytes] in *.
    split; [|split; [|split; assumption]].
    + intros k' e'. rewrite Hi, lookup_insert.
      destruct (decide (k = k')); [intros [= <-]; reflexivity | apply Hok].
    + unfold lfu_view. rewrite Hi, fmap_insert. reflexivity.
  - split; [|split; [|split; reflexivity]].
    + intros k' e'. cbn [items]. rewrite lookup_insert.
      destruct (decide (k = k')); [intros [= <-]; reflexivity | apply Hok].
    + unfold lfu_view. cbn [items]. rewrite fmap_insert. reflexivity.
Qed.

Lemma lfu_Add_returns st now c k v c' evs :
  lfu_ok c -> LFU_Add st now c k v 0 = Some (c', evs) ->
  lfu_ok c' /\ Forall evicted evs
  /\ (forall k', lfu_view c' !! k' =
                 if bool_decide (k' ∈ map event_key evs) then None
                 else <[k := v]> (lfu_view c) !! k')
  /\ lfu_maxBytes c' = lfu_maxBytes c
  /\ (lfu_maxBytes c' = 0 \/ lfu_nbytes c' <= lfu_maxBytes c').
Proof.
  intros Hok H. rewrite LFU_Add_unfold in H.
  destruct (lfu_added_spec st c k v Hok) as (Hok1 & Hv1 & Hm1 & _).
  destruct (lfu_evict_loop_returns _ _ _ _ _ Hok1 H) as (Hok' & Hev & Hview & Hmax & Hb).
  split; [exact Hok' | split; [exact Hev | split; [|split; [congruence | exact Hb]]]].
  intros k'. rewrite Hview, Hv1. reflexivity.
Qed.

Lemma lfu_evict_loop_fits (fuel : nat) st c :
  lfu_maxBytes c = 0 \/ lfu_nbytes c <= lfu_maxBytes c ->
  lfu_evict_loop fuel st c = Some (c, []).
Proof.
  intros H. apply over_budget_false in H.
  destruct fuel; cbn [lfu_evict_loop]; rewrite H; reflexivity.
Qed.

Lemma lfu_Add_fits st now c k v :
  lfu_ok c ->
  let delta := match lfu_view c !! k with
               | Some old => types.Len st v - types.Len st old
               | None => len k + types.Len st v
               end in
  lfu_maxBytes c = 0 \/ lfu_nbytes c + delta <= lfu_maxBytes c ->
  exists c', LFU_Add st now c k v 0 = Some (c', [])
             /\ lfu_ok c' /\ lfu_view c' = <[k := v]> (lfu_view c)
             /\ lfu_nbytes c' = lfu_nbytes c + delta
             /\ lfu_maxBytes c' = lfu_maxBytes c.
Proof.
  intros Hok delta Hfit. rewrite LFU_Add_unfold.
  destruct (lfu_added_spec st c k v Hok) as (Hok1 & Hv1 & Hm1 & Hn1).
  fold delta in Hn1.
  rewrite lfu_evict_loop_fits by (rewrite Hm1, Hn1; exact Hfit).
  eexists. split; [reflexivity | auto].
Qed.

Lemma lfu_ForEach_view c : lfu_ok c -> LFU_ForEach c ≡ₚ map_to_list (lfu_view c).
Proof.
  intros _. unfold LFU_ForEach, lfu_view. rewrite map_to_list_fmap.
  replace (map (fun kv => (kv.1, lfu_value kv.2)) (map_to_list (items c)))
    with (prod_map id lfu_value <$> map_to_list (items c)); [reflexivity |].
  apply map_ext. intros [k e]. reflexivity.
Qed.

#[global, refine] Instance LFUCache_laws : CacheLaws LFUCache := {
  view := lfu_view;
  cache_nbytes := lfu_nbytes;
  cache_maxBytes := lfu_maxBytes;
  ok := lfu_ok;
}.
Proof.
  - exact lfu_Peek_ok.
  - exact lfu_Get_ok.
  - exact lfu_Remove_present.
  - exact lfu_Remove_absent.
  - exact lfu_Add_returns.
  - exact lfu_Add_fits.
  - exact lfu_ForEach_view.
Defined.


(** ** Running requests

    A session is a list of commands, each with the clock reading at which
    the executor takes it from the queue.  The persistence commands are
    refused here (no snapshot file is configured). *)

Definition no_admin (name : string) : option resp.Reply :=
  Some (resp.MakeErrReply "ERR rdb is disabled (use --rdb to enable)").
Definition admin_ok (name : string) : resp.Reply := resp.OkReply.

Definition request {C : Type} (cmd : list string) : db.commandRequest C :=
  {| db.cmd := cmd; db.fn := None; db.noAof := false |}.

Fixpoint run {C : Type} {EC : EvictionCache C} (session : list (Z * list string))
    (d : db.StandaloneDB C) : option (list (option resp.Reply) * db.StandaloneDB C) :=
  match session with
  | [] => Some ([], d)
  | (now, cmd) :: rest =>
      match db.handle no_admin admin_ok now (request cmd) d with
      | Some (r, d') =>
          match run rest d' with
          | Some (rs, d'') => Some (r :: rs, d'')
          | None => None
          end
      | None => None
      end
  end.

(** The state a session leaves, from a given start. *)
Definition after {C : Type} {EC : EvictionCache C} (session : list (Z * list string))
    (d : db.StandaloneDB C) : db.StandaloneDB C :=
  match run session d with
  | Some (_, d') => d'
  | None => d
  end.

Definition replies {C : Type} {EC : EvictionCache C} (session : list (Z * list string))
    (d : db.StandaloneDB C) : option (list (option resp.Reply)) :=
  fst <$> run session d.

Definition second : Z := 10 ^ 9.


(** ** The core's steps over any cache that keeps the laws *)

Import resp db.

Section CoreFacts.

Context {C : Type} {EC : EvictionCache C} {CL : CacheLaws C}.

Implicit Types (db : StandaloneDB C) (k : string) (now : Z).

Lemma set_cache_id db : set_cache (cache db) db = db.
Proof. destruct db. reflexivity. Qed.

Lemma cache_Peek_eq db now k :
  ok (cache db) -> cache_Peek now k db = Some (view (cache db) !! k, db).
Proof.
  intros Hok. unfold cache_Peek. rewrite (Peek_ok _ _ _ _ Hok). cbn [fire fold_left].
  rewrite set_cache_id. reflexivity.
Qed.

Lemma cache_Get_eq db now k :
  ok (cache db) ->
  exists c', cache_Get now k db = Some (view (cache db) !! k, set_cache c' db)
             /\ ok c' /\ view c' = view (cache db)
             /\ cache_nbytes c' = cache_nbytes (cache db)
             /\ cache_maxBytes c' = cache_maxBytes (cache db).
Proof.
  intros Hok. destruct (Get_ok (objects db) (unix now) _ k Hok) as (c' & HG & H).
  exists c'. unfold cache_Get. rewrite HG. auto.
Qed.

Lemma cache_Remove_present_eq db k v :
  ok (cache db) -> view (cache db) !! k = Some v ->
  exists c', cache_Remove k db
             = Some (tt, onEvicted (set_cache c' db) (k, v, RemoveReasonDeleted))
             /\ ok c' /\ view c' = delete k (view (cache db))
             /\ cache_nbytes c' = cache_nbytes (cache db) - (len k + types.Len (objects db) v)
             /\ cache_maxBytes c' = cache_maxBytes (cache db).
Proof.
  intros Hok Hv. destruct (Remove_present (objects db) _ k v Hok Hv) as (c' & HR & H).
  exists c'. unfold cache_Remove. rewrite HR. auto.
Qed.

Lemma cache_Remove_absent_eq db k :
  ok (cache db) -> view (cache db) !! k = None -> cache_Remove k db = Some (tt, db).
Proof.
  intros Hok Hv. unfold cache_Remove. rewrite (Remove_absent _ _ _ Hok Hv).
  cbn [fire fold_left]. rewrite set_cache_id. reflexivity.
Qed.

(** The key is in the TTL table with an instant that has passed. *)
Definition is_past_due db now k : bool :=
  match ttlMap db !! k with
  | Some t => t <? now
  | None => false
  end.

Lemma past_due_eq db now k : past_due now k db = Some (is_past_due db now k, db).
Proof. reflexivity. Qed.

Lemma onEvicted_deleted db k v :
  onEvicted db (k, v, RemoveReasonDeleted)
  = set_ttlMap (delete k (ttlMap db)) (set_callbacks (callbacks db ++ [(k, v, RemoveReasonDeleted)]) db).
Proof. reflexivity. Qed.

(** A key the cache does not hold is reported missing by every lookup. *)
Definition missing db k : Prop :=
  view (cache db) !! k = None /\ ttlMap db !! k = None
  /\ forall now, cache_Peek now k db = Some (None, db).

Lemma gone_is_missing db k :
  ok (cache db) -> view (cache db) !! k = None -> ttlMap db !! k = None -> missing db k.
Proof.
  intros Hok Hv Ht. split; [exact Hv | split; [exact Ht |]].
  intros now. rewrite (cache_Peek_eq db now k Hok), Hv. reflexivity.
Qed.

(** What [pop], [hdel] and [srem] do once the last element is gone:
    [cache.Remove(key)] on the entry just read. *)
Lemma remove_after_get db now k v c1 (st' : types.store) :
  ok c1 -> view c1 !! k = Some v ->
  exists db', cache_Remove k (set_objects st' (set_cache c1 db)) = Some (tt, db')
              /\ ok (cache db') /\ missing db' k
              /\ aofHandler db' = aofHandler db.
Proof.
  intros Hok Hv.
  destruct (cache_Remove_present_eq (set_objects st' (set_cache c1 db)) k v Hok Hv)
    as (c2 & HR & Hok2 & Hv2 & _).
  eexists. split; [exact HR |]. rewrite onEvicted_deleted. cbn.
  split; [exact Hok2 | split; [|reflexivity]].
  apply gone_is_missing; cbn.
  - exact Hok2.
  - rewrite Hv2. apply lookup_delete_eq.
  - apply lookup_delete_eq.
Qed.

Lemma pop_last (name : string) take_end db now k (l : types.loc) (x : string) :
  ok (cache db) ->
  view (cache db) !! k = Some (types.ListData l) ->
  is_past_due db now k = false ->
  take_end (types.list_elems (objects db) l) = Some (x, []) ->
  exists db', pop name take_end now [name; k] db = Some (MakeBulkReply (Some x), db')
              /\ ok (cache db') /\ missing db' k.
Proof.
  intros Hok Hv Hdue Htake.
  destruct (cache_Get_eq db now k Hok) as (c1 & HG & Hok1 & Hv1 & _).
  destruct (remove_after_get db now k (types.ListData l) c1
              (<[l := types.ListObj []]> (objects db)) Hok1) as (db' & HR & Hok' & Hmiss & _).
  { rewrite Hv1. exact Hv. }
  exists db'. split; [|split; assumption].
  unfold pop, bind. rewrite HG, Hv. rewrite past_due_eq.
  change (is_past_due (set_cache c1 db) now k) with (is_past_due db now k). rewrite Hdue.
  unfold read_list, gets. cbn [objects set_cache]. rewrite Htake.
  unfold write_object, modify. cbn [objects set_cache]. rewrite HR. reflexivity.
Qed.


Lemma hdel_loop_lookup (fs : list string) (h : gmap string string) (count : Z) (f : string) :
  (hdel_loop fs h count).1 !! f = if bool_decide (f ∈ fs) then None else h !! f.
Proof.
  revert h count. induction fs as [|x fs IH]; intros h count; cbn [hdel_loop].
  - reflexivity.
  - destruct (h !! x) as [v|] eqn:E; rewrite IH.
    + destruct (decide (f = x)) as [->|Hne].
      * rewrite lookup_delete_eq. rewrite (bool_decide_eq_true_2 (x ∈ x :: fs)) by left.
        destruct (bool_decide _); reflexivity.
      * rewrite lookup_delete_ne by congruence.
        destruct (bool_decide (f ∈ fs)) eqn:Eb.
        -- apply bool_decide_eq_true in Eb.
           rewrite bool_decide_eq_true_2 by (right; exact Eb). reflexivity.
        -- apply bool_decide_eq_false in Eb. rewrite bool_decide_eq_false_2; [reflexivity |].
           intros Hin. apply elem_of_cons in Hin as [?|?]; [congruence | contradiction].
    + destruct (decide (f = x)) as [->|Hne].
      * rewrite (bool_decide_eq_true_2 (x ∈ x :: fs)) by left. rewrite E.
        destruct (bool_decide _); reflexivity.
      * destruct (bool_decide (f ∈ fs)) eqn:Eb.
        -- apply bool_decide_eq_true in Eb.
           rewrite bool_decide_eq_true_2 by (right; exact Eb). reflexivity.
        -- apply bool_decide_eq_false in Eb. rewrite bool_decide_eq_false_2; [reflexivity |].
           intros Hin. apply elem_of_cons in Hin as [?|?]; [congruence | contradiction].
Qed.

Lemma hdel_loop_all (fs : list string) (h : gmap string string) :
  (forall f, is_Some (h !! f) -> f ∈ fs) -> (hdel_loop fs h 0).1 = ∅.
Proof.
  intros Hall. apply map_eq. intros f. rewrite hdel_loop_lookup, lookup_empty.
  destruct (bool_decide (f ∈ fs)) eqn:Eb; [reflexivity |].
  apply bool_decide_eq_false in Eb. destruct (h !! f) eqn:E; [|reflexivity].
  exfalso. apply Eb, Hall. rewrite E. eauto.
Qed.

Lemma srem_loop_members (ms : list string) (s : gset string) (removed : Z) :
  (srem_loop ms s removed).1 = s ∖ list_to_set ms.
Proof.
  revert s removed. induction ms as [|m ms IH]; intros s removed; cbn [srem_loop list_to_set].
  - set_solver.
  - destruct (bool_decide (m ∈ s)) eqn:E; rewrite IH.
    + set_solver.
    + apply bool_decide_eq_false in E. set_solver.
Qed.

Lemma getHash_present db now k (h : types.loc) :
  ok (cache db) -> view (cache db) !! k = Some (types.HashData h) ->
  is_past_due db now k = false ->
  exists c1, getHash now k db = Some (Some h, set_cache c1 db)
             /\ ok c1 /\ view c1 = view (cache db).
Proof.
  intros Hok Hv Hdue. destruct (cache_Get_eq db now k Hok) as (c1 & HG & Hok1 & Hv1 & _).
  exists c1. split; [|auto]. unfold getHash, bind. rewrite HG, Hv, past_due_eq.
  change (is_past_due (set_cache c1 db) now k) with (is_past_due db now k). rewrite Hdue.
  reflexivity.
Qed.

Lemma getSet_present db now k (s : types.loc) :
  ok (cache db) -> view (cache db) !! k = Some (types.SetData s) ->
  is_past_due db now k = false ->
  exists c1, getSet now k db = Some (Some s, set_cache c1 db)
             /\ ok c1 /\ view c1 = view (cache db).
Proof.
  intros Hok Hv Hdue. destruct (cache_Get_eq db now k Hok) as (c1 & HG & Hok1 & Hv1 & _).
  exists c1. split; [|auto]. unfold getSet, bind. rewrite HG, Hv, past_due_eq.
  change (is_past_due (set_cache c1 db) now k) with (is_past_due db now k). rewrite Hdue.
  reflexivity.
Qed.

Lemma hdel_last (name : string) db now k (h : types.loc) (f : string) (fs : list string) :
  ok (cache db) ->
  view (cache db) !! k = Some (types.HashData h) ->
  is_past_due db now k = false ->
  (forall f', is_Some (types.hash_fields (objects db) h !! f') -> f' ∈ f :: fs) ->
  exists db' count, hdel now (name :: k :: f :: fs) db = Some (MakeIntReply count, db')
                    /\ ok (cache db') /\ missing db' k.
Proof.
  intros Hok Hv Hdue Hall.
  destruct (getHash_present db now k h Hok Hv Hdue) as (c1 & HG & Hok1 & Hv1).
  pose proof (hdel_loop_all (f :: fs) _ Hall) as Hempty.
  destruct (hdel_loop (f :: fs) (types.hash_fields (objects db) h) 0) as [fields' count] eqn:El.
  cbn [fst] in Hempty. subst fields'.
  destruct (remove_after_get db now k (types.HashData h) c1
              (<[h := types.HashObj ∅]> (objects db)) Hok1) as (db' & HR & Hok' & Hmiss & _).
  { rewrite Hv1. exact Hv. }
  exists db', count. split; [|split; assumption].
  unfold hdel, bind. rewrite HG.
  unfold read_hash, gets. cbn [objects set_cache]. rewrite El.
  unfold write_object, modify. cbn [objects set_cache].
  rewrite bool_decide_eq_true_2 by apply map_size_empty.
  rewrite HR. reflexivity.
Qed.

Lemma srem_last (name : string) db now k (s : types.loc) (m : string) (ms : list string) :
  ok (cache db) ->
  view (cache db) !! k = Some (types.SetData s) ->
  is_past_due db now k = false ->
  (forall m', m' ∈ types.set_members (objects db) s -> m' ∈ m :: ms) ->
  exists db' count, srem now (name :: k :: m :: ms) db = Some (MakeIntReply count, db')
                    /\ ok (cache db') /\ missing db' k.
Proof.
  intros Hok Hv Hdue Hall.
  destruct (getSet_present db now k s Hok Hv Hdue) as (c1 & HG & Hok1 & Hv1).
  pose proof (srem_loop_members (m :: ms) (types.set_members (objects db) s) 0) as Hres.
  assert (Hempty : types.set_members (objects db) s ∖ list_to_set (m :: ms) = (∅ : gset string)).
  { apply set_eq. intros x. rewrite elem_of_difference, elem_of_list_to_set.
    split; [intros [Hx Hn]; exfalso; apply Hn, Hall, Hx | set_solver]. }
  rewrite Hempty in Hres.
  destruct (srem_loop (m :: ms) (types.set_members (objects db) s) 0) as [ms' count] eqn:El.
  cbn [fst] in Hres. subst ms'.
  destruct (remove_after_get db now k (types.SetData s) c1
              (<[s := types.SetObj ∅]> (objects db)) Hok1) as (db' & HR & Hok' & Hmiss & _).
  { rewrite Hv1. exact Hv. }
  exists db', count. split; [|split; assumption].
  unfold srem, bind. rewrite HG.
  unfold read_set, gets. cbn [objects set_cache]. rewrite El.
  unfold write_object, modify. cbn [objects set_cache].
  rewrite bool_decide_eq_true_2 by apply size_empty.
  rewrite HR. reflexivity.
Qed.

(** C10. A write that removes the last element of a container removes the
    key: after LPOP or RPOP of the only element of a list, HDEL of all the
    fields a hash has, or SREM of all the members a set has, the key is in
    neither the keyspace nor the TTL table, and a lookup of it finds
    nothing. *)
Theorem last_element_removes_key db now k (name : string) :
  ok (cache db) ->
  is_past_due db now k = false ->
  (forall l x,
      view (cache db) !! k = Some (types.ListData l) ->
      types.list_elems (objects db) l = [x] ->
      (exists db', lpop now [name; k] db = Some (MakeBulkReply (Some x), db')
                   /\ ok (cache db') /\ missing db' k)
      /\ (exists db', rpop now [name; k] db = Some (MakeBulkReply (Some x), db')
                      /\ ok (cache db') /\ missing db' k))
  /\ (forall h f fs,
         view (cache db) !! k = Some (types.HashData h) ->
         (forall f', is_Some (types.hash_fields (objects db) h !! f') -> f' ∈ f :: fs) ->
         exists db' count, hdel now (name :: k :: f :: fs) db = Some (MakeIntReply count, db')
                           /\ ok (cache db') /\ missing db' k)
  /\ (forall s m ms,
         view (cache db) !! k = Some (types.SetData s) ->
         (forall m', m' ∈ types.set_members (objects db) s -> m' ∈ m :: ms) ->
         exists db' count, srem now (name :: k :: m :: ms) db = Some (MakeIntReply count, db')
                           /\ ok (cache db') /\ missing db' k).
Proof.
  intros Hok Hdue. split; [|split].
  - intros l x Hv Hl. split.
    + apply (pop_last name take_front db now k l x Hok Hv Hdue). rewrite Hl. reflexivity.
    + apply (pop_last name take_back db now k l x Hok Hv Hdue). rewrite Hl. reflexivity.
  - intros h f fs Hv Hall. exact (hdel_last name db now k h f fs Hok Hv Hdue Hall).
  - intros s m ms Hv Hall. exact (srem_last name db now k s m ms Hok Hv Hdue Hall).
Qed.

End CoreFacts.

(** A list with one element and a TTL of 100 seconds, in an LRU core. *)
Definition one_element_list : StandaloneDB Cache :=
  after [(0, ["RPUSH"; "l"; "a"]); (0, ["EXPIRE"; "l"; "100"])]%string
        (NewStandaloneDB_lru 0 true).

Lemma last_element_removes_key_witness :
  exists db', lpop second ["LPOP"; "l"]%string one_element_list
              = Some (MakeBulkReply (Some "a"%string), db')
              /\ ok (cache db') /\ missing db' "l".
Proof.
  assert (Hok : ok (cache one_element_list)).
  { split; vm_compute; repeat constructor. inversion 1. }
  destruct (last_element_removes_key one_element_list second "l" "LPOP" Hok eq_refl)
    as (H & _ & _).
  destruct (H 1%positive "a"%string eq_refl eq_refl) as [H1 _]. exact H1.
Defined.


(** ** LRANGE *)

Lemma clamp_range_max_min (size start stop : Z) :
  clamp_range size start stop
  = (Z.max 0 (if start <? 0 then size + start else start),
     Z.min (size - 1) (if stop <? 0 then size + stop else stop)).
Proof.
  unfold clamp_range. f_equal.
  - destruct (_ <? 0) eqn:E in |- *; [apply Z.ltb_lt in E | apply Z.ltb_ge in E]; lia.
  - destruct (size <=? _) eqn:E; [apply Z.leb_le in E | apply Z.leb_gt in E]; lia.
Qed.

Lemma lrange_loop_inside (es : list string) (i start stop : Z) :
  start <= i <= stop + 1 ->
  lrange_loop es i start stop = map Some (take (Z.to_nat (stop - i + 1)) es).
Proof.
  revert i. induction es as [|e es IH]; intros i Hi; cbn [lrange_loop].
  - rewrite take_nil. reflexivity.
  - destruct (Z.ltb_spec stop i) as [Hgt|Hle].
    + replace (stop - i + 1) with 0 by lia.
      destruct (Z.leb_spec i stop); [lia |]. rewrite andb_false_r. reflexivity.
    + destruct (Z.leb_spec start i); [|lia]. destruct (Z.leb_spec i stop); [|lia].
      cbn [andb app]. rewrite IH by lia.
      replace (Z.to_nat (stop - i + 1)) with (S (Z.to_nat (stop - (i + 1) + 1))) by lia.
      reflexivity.
Qed.

Lemma lrange_loop_before (es : list string) (i start stop : Z) :
  i <= start <= stop ->
  lrange_loop es i start stop
  = map Some (take (Z.to_nat (stop - start + 1)) (drop (Z.to_nat (start - i)) es)).
Proof.
  revert i. induction es as [|e es IH]; intros i Hi.
  - rewrite drop_nil, take_nil. reflexivity.
  - destruct (Z.eq_dec i start) as [->|Hne].
    + replace (start - start) with 0 by lia. cbn [Z.to_nat drop].
      apply lrange_loop_inside. lia.
    + cbn [lrange_loop].
      destruct (Z.leb_spec start i); [lia |]. destruct (Z.ltb_spec stop i); [lia |].
      cbn [andb app]. rewrite IH by lia.
      replace (Z.to_nat (start - i)) with (S (Z.to_nat (start - (i + 1)))) by lia.
      reflexivity.
Qed.

(** C8.  For a list key, LRANGE counts negative indices
    from the end, raises [start] to 0 and lowers [stop] to [size - 1], and
    answers with the elements from [start] to [stop]; when [start > stop]
    after clamping the answer is the nil multi-bulk reply, whose bytes are
    [*-1\r\n]. *)
Theorem lrange_clamps_then_nil {C : Type} {EC : EvictionCache C} {CL : CacheLaws C}
    (d : StandaloneDB C) (now : Z) (name k a2 a3 : string) (l : loc) (start stop : Z) :
  ok (cache d) ->
  view (cache d) !! k = Some (ListData l) ->
  is_past_due d now k = false ->
  Atoi a2 = Some start -> Atoi a3 = Some stop ->
  let es := list_elems (objects d) l in
  let size := Z.of_nat (length es) in
  let start' := Z.max 0 (if start <? 0 then size + start else start) in
  let stop' := Z.min (size - 1) (if stop <? 0 then size + stop else stop) in
  exists d' r,
    lrange now [name; k; a2; a3] d = Some (r, d')
    /\ objects d' = objects d /\ ttlMap d' = ttlMap d /\ view (cache d') = view (cache d)
    /\ (start' <= stop' ->
        r = MakeMultiBulkReply
              (Some (map Some (take (Z.to_nat (stop' - start' + 1)) (drop (Z.to_nat start') es)))))
    /\ (stop' < start' ->
        r = MakeMultiBulkReply None /\ ToBytes r = "*-1" +:+ CRLF).
Proof.
  intros Hok Hv Hdue Ha2 Ha3 es size start' stop'.
  destruct (cache_Get_eq d now k Hok) as (c1 & HG & Hok1 & Hv1 & _).
  unfold lrange, bind. rewrite Ha2, Ha3, HG, Hv, past_due_eq.
  change (is_past_due (set_cache c1 d) now k) with (is_past_due d now k). rewrite Hdue.
  unfold read_list, gets. cbn [objects set_cache]. fold es. fold size.
  rewrite clamp_range_max_min. fold start' stop'.
  destruct (Z.ltb_spec stop' start') as [Hlt|Hge].
  - eexists _, _. split; [reflexivity |]. cbn [objects ttlMap cache set_cache].
    split; [reflexivity | split; [reflexivity | split; [exact Hv1 |]]].
    split; [lia | intros _; split; reflexivity].
  - eexists _, _. split; [reflexivity |]. cbn [objects ttlMap cache set_cache].
    split; [reflexivity | split; [reflexivity | split; [exact Hv1 |]]].
    split; [|lia]. intros _. f_equal. f_equal.
    rewrite (lrange_loop_before es 0 start' stop') by lia.
    replace (start' - 0) with start' by lia. reflexivity.
Qed.

(** Three elements, in an LRU core. *)
Definition three_element_list : StandaloneDB Cache :=
  after [(0, ["RPUSH"; "l"; "a"; "b"; "c"])]%string (NewStandaloneDB_lru 0 true).

Lemma lrange_clamps_then_nil_witness :
  exists d' r,
    lrange 0 ["LRANGE"; "l"; "-2"; "100"]%string three_element_list = Some (r, d')
    /\ r = MakeMultiBulkReply (Some [Some "b"; Some "c"]%string).
Proof.
  assert (Hok : ok (cache three_element_list)).
  { split; vm_compute; repeat constructor. inversion 1. }
  destruct (lrange_clamps_then_nil three_element_list 0 "LRANGE" "l" "-2" "100"
              1%positive (-2) 100 Hok eq_refl eq_refl eq_refl eq_refl)
    as (d' & r & Hrun & _ & _ & _ & Hin & _).
  exists d', r. split; [exact Hrun |]. apply Hin. vm_compute. discriminate.
Defined.

(** The claim as stated fails: the reply to an empty range is not the empty
    array [*0\r\n]. *)
Lemma lrange_empty_range_is_not_empty_array :
  exists r,
    replies [(0, ["RPUSH"; "l"; "a"; "b"; "c"]); (0, ["LRANGE"; "l"; "2"; "1"])]%string
            (NewStandaloneDB_lru 0 true)
    = Some [Some (MakeIntReply 3); Some r]
    /\ ToBytes r = "*-1" +:+ CRLF
    /\ ToBytes r <> ToBytes (MakeMultiBulkReply (Some []))
    /\ ToBytes (MakeMultiBulkReply (Some [])) = "*0" +:+ CRLF.
Proof.
  exists (MakeMultiBulkReply None).
  split; [vm_compute; reflexivity |].
  split; [reflexivity | split; [discriminate | reflexivity]].
Qed.


(** ** What every step of the core does to the callback record, the
       per-step eviction list and the append log *)

#[global] Instance evicted_dec (ev : event) : Decision (evicted ev).
Proof. unfold evicted. apply _. Defined.

Definition evicted_keys (evs : list event) : list string :=
  map event_key (filter evicted evs).

Lemma evicted_keys_app (e1 e2 : list event) :
  evicted_keys (e1 ++ e2) = evicted_keys e1 ++ evicted_keys e2.
Proof. unfold evicted_keys. rewrite filter_app, map_app. reflexivity. Qed.

Section Frame.

Context {C : Type} {EC : EvictionCache C} {CL : CacheLaws C}.

Implicit Types (d : StandaloneDB C).

(** [d'] comes after [d]: callbacks [evs] were made, the eviction list grew
    by the keys evicted among them, and [own] was appended to the log. *)
Definition extends d d' (evs : list event) (own : list (list string)) : Prop :=
  callbacks d' = callbacks d ++ evs
  /\ evictedKeys d' = evictedKeys d ++ evicted_keys evs
  /\ aofHandler d' = (fun log => log ++ own) <$> aofHandler d.

(** A step keeps the cache well-formed and extends the state; a quiet step
    ([q = true]) evicts nothing. *)
Definition steps (q : bool) {A : Type} (m : M C A) : Prop :=
  forall d a d', ok (cache d) -> m d = Some (a, d') ->
                 ok (cache d')
                 /\ exists evs own, extends d d' evs own
                                    /\ (q = true -> evicted_keys evs = []).

Lemma steps_weaken (q : bool) {A : Type} (m : M C A) : steps true m -> steps q m.
Proof.
  intros H d a d' Hok E. destruct (H d a d' Hok E) as (Hok' & evs & own & He & Hq).
  split; [exact Hok' |]. exists evs, own. split; [exact He | intros _; apply Hq; reflexivity].
Qed.

Lemma extends_refl d : extends d d [] [].
Proof.
  unfold extends. rewrite !app_nil_r. split; [|split]; try reflexivity.
  destruct (aofHandler d); cbn; [rewrite app_nil_r|]; reflexivity.
Qed.

Lemma extends_trans d1 d2 d3 e1 o1 e2 o2 :
  extends d1 d2 e1 o1 -> extends d2 d3 e2 o2 -> extends d1 d3 (e1 ++ e2) (o1 ++ o2).
Proof.
  intros (Hc1 & He1 & Ha1) (Hc2 & He2 & Ha2). unfold extends.
  rewrite Hc2, Hc1, He2, He1, Ha2, Ha1, evicted_keys_app, !app_assoc.
  split; [|split]; try reflexivity.
  destruct (aofHandler d1); cbn; [rewrite app_assoc|]; reflexivity.
Qed.

Lemma steps_ret (q : bool) {A : Type} (a : A) : steps q (ret a).
Proof.
  intros d a' d' Hok H. injection H as <- <-. split; [exact Hok |].
  exists [], []. split; [apply extends_refl | reflexivity].
Qed.

Lemma steps_gets (q : bool) {A : Type} (f : StandaloneDB C -> A) : steps q (gets f).
Proof.
  intros d a' d' Hok H. injection H as <- <-. split; [exact Hok |].
  exists [], []. split; [apply extends_refl | reflexivity].
Qed.

Lemma steps_bind (q : bool) {A B : Type} (m : M C A) (f : A -> M C B) :
  steps q m -> (forall a, steps q (f a)) -> steps q (bind m f).
Proof.
  intros Hm Hf d b d' Hok H. unfold bind in H.
  destruct (m d) as [[a d1]|] eqn:E; [|discriminate].
  destruct (Hm _ _ _ Hok E) as (Hok1 & e1 & o1 & H1 & Hq1).
  destruct (Hf a _ _ _ Hok1 H) as (Hok2 & e2 & o2 & H2 & Hq2).
  split; [exact Hok2 |]. exists (e1 ++ e2), (o1 ++ o2).
  split; [exact (extends_trans _ _ _ _ _ _ _ H1 H2) |].
  intros Hq. rewrite evicted_keys_app, (Hq1 Hq), (Hq2 Hq). reflexivity.
Qed.

Lemma fire_fields (evs : list event) d :
  cache (fire evs d) = cache d
  /\ objects (fire evs d) = objects d
  /\ extends d (fire evs d) evs [].
Proof.
  revert d. induction evs as [|ev evs IH]; intros d; cbn [fire fold_left].
  - split; [reflexivity | split; [reflexivity | apply extends_refl]].
  - fold (fire evs (onEvicted d ev)).
    destruct (IH (onEvicted d ev)) as (Hc & Ho & He).
    assert (H1 : cache (onEvicted d ev) = cache d /\ objects (onEvicted d ev) = objects d
                 /\ extends d (onEvicted d ev) [ev] []).
    { destruct ev as [[k v] reason]. unfold onEvicted, extends, evicted_keys.
      rewrite filter_cons, filter_nil.
      destruct (decide (reason = RemoveReasonEvicted)) as [->|Hne].
      - rewrite decide_True by reflexivity. cbn.
        split; [reflexivity | split; [reflexivity | split; [reflexivity | split]]];
          [reflexivity |].
        destruct (aofHandler d); cbn; [rewrite app_nil_r |]; reflexivity.
      - rewrite decide_False by exact Hne. cbn.
        split; [reflexivity | split; [reflexivity | split; [reflexivity | split]]];
          [rewrite app_nil_r; reflexivity |].
        destruct (aofHandler d); cbn; [rewrite app_nil_r |]; reflexivity. }
    destruct H1 as (Hc1 & Ho1 & He1).
    split; [congruence | split; [congruence |]].
    exact (extends_trans _ _ _ _ _ _ _ He1 He).
Qed.

Lemma fire_ttlMap (evs : list event) d (k : string) :
  ttlMap (fire evs d) !! k
  = if bool_decide (k ∈ map event_key evs) then None else ttlMap d !! k.
Proof.
  revert d. induction evs as [|ev evs IH]; intros d; cbn [fire fold_left].
  - reflexivity.
  - fold (fire evs (onEvicted d ev)). rewrite IH.
    assert (Ht : ttlMap (onEvicted d ev) = delete (event_key ev) (ttlMap d)).
    { destruct ev as [[k' v] reason]. unfold onEvicted.
      destruct (decide (reason = RemoveReasonEvicted)); reflexivity. }
    rewrite Ht. cbn [map].
    destruct (decide (k = event_key ev)) as [->|Hne].
    + rewrite (bool_decide_eq_true_2 (event_key ev ∈ event_key ev :: _)) by left.
      rewrite lookup_delete_eq. destruct (bool_decide _); reflexivity.
    + rewrite lookup_delete_ne by congruence.
      destruct (bool_decide (k ∈ map event_key evs)) eqn:Eb.
      * apply bool_decide_eq_true in Eb.
        rewrite bool_decide_eq_true_2 by (right; exact Eb). reflexivity.
      * apply bool_decide_eq_false in Eb. rewrite bool_decide_eq_false_2; [reflexivity |].
        intros Hin. apply elem_of_cons in Hin as [?|?]; [congruence | contradiction].
Qed.

Lemma extends_set_cache d c : extends d (set_cache c d) [] [].
Proof. apply (extends_refl d). Qed.

Lemma steps_cache_Get (q : bool) now k : steps q (cache_Get now k).
Proof.
  intros d a d' Hok H. destruct (cache_Get_eq d now k Hok) as (c1 & HG & Hok1 & _).
  rewrite HG in H. injection H as <- <-. split; [exact Hok1 |].
  exists [], []. split; [apply extends_set_cache | reflexivity].
Qed.

Lemma steps_cache_Peek (q : bool) now k : steps q (cache_Peek now k).
Proof.
  intros d a d' Hok H. rewrite (cache_Peek_eq d now k Hok) in H. injection H as <- <-.
  split; [exact Hok |]. exists [], []. split; [apply extends_refl | reflexivity].
Qed.

Lemma steps_cache_Remove (q : bool) k : steps q (cache_Remove k).
Proof.
  intros d a d' Hok H. destruct (view (cache d) !! k) as [v|] eqn:Ev.
  - destruct (cache_Remove_present_eq d k v Hok Ev) as (c1 & HR & Hok1 & _).
    rewrite HR in H. injection H as _ <-.
    destruct (fire_fields [(k, v, RemoveReasonDeleted)] (set_cache c1 d)) as (Hc & _ & He).
    cbn [fire fold_left] in Hc, He.
    split; [exact Hok1 |]. eexists _, _. split; [exact He | reflexivity].
  - rewrite (cache_Remove_absent_eq d k Hok Ev) in H. injection H as _ <-.
    split; [exact Hok |]. exists [], []. split; [apply extends_refl | reflexivity].
Qed.

Lemma steps_cache_Add now k v : steps false (cache_Add now k v).
Proof.
  intros d a d' Hok H. unfold cache_Add in H.
  destruct (Add (objects d) (unix now) (cache d) k v 0) as [[c1 evs]|] eqn:E; [|discriminate].
  injection H as _ <-.
  destruct (Add_returns _ _ _ _ _ _ _ Hok E) as (Hok1 & _).
  destruct (fire_fields evs (set_cache c1 d)) as (Hc & _ & He).
  split; [rewrite Hc; exact Hok1 |]. eexists _, _. split; [exact He | discriminate].
Qed.

Lemma steps_AddAof (q : bool) (args : list string) : steps q (AddAof args).
Proof.
  intros d a d' Hok H. unfold AddAof, modify in H. injection H as _ <-.
  destruct (aofHandler d) as [log|] eqn:E.
  - split; [exact Hok |]. exists [], [args]. unfold extends. cbn.
    rewrite E, !app_nil_r. auto.
  - split; [exact Hok |]. exists [], []. split; [apply extends_refl | reflexivity].
Qed.

Lemma steps_set_ttlMap (q : bool) (f : StandaloneDB C -> gmap string Z) :
  steps q (modify (fun d => set_ttlMap (f d) d)).
Proof.
  intros d a d' Hok H. injection H as _ <-. split; [exact Hok |].
  exists [], []. split; [apply (extends_refl d) | reflexivity].
Qed.

Lemma steps_new_object (q : bool) (o : object) : steps q (new_object o).
Proof.
  intros d a d' Hok H. unfold new_object, alloc in H. injection H as <- <-.
  split; [exact Hok |]. exists [], []. split; [apply (extends_refl d) | reflexivity].
Qed.

Lemma steps_write_object (q : bool) (l : loc) (o : object) : steps q (write_object l o).
Proof.
  intros d a d' Hok H. injection H as _ <-. split; [exact Hok |].
  exists [], []. split; [apply (extends_refl d) | reflexivity].
Qed.

End Frame.

(** Every command is a composition of the steps above. *)
Ltac steps_tac :=
  repeat first
    [ apply steps_ret | apply steps_gets | apply steps_cache_Get | apply steps_cache_Peek
    | apply steps_cache_Remove | apply steps_cache_Add | apply steps_AddAof
    | apply steps_set_ttlMap | apply steps_new_object | apply steps_write_object
    | assumption
    | apply steps_bind; [|intros ?]
    | match goal with
      | |- steps _ (match ?x with _ => _ end) => destruct x
      end ].

Section Commands.

Context {C : Type} {EC : EvictionCache C} {CL : CacheLaws C}.
Context (admin_refused : string -> option Reply) (admin_reply : string -> Reply).

Local Abbreviation steps q := (@steps C EC CL q _).

Lemma steps_past_due q now k : steps q (past_due now k).
Proof. apply steps_gets. Qed.

Lemma steps_read_list q (l : loc) : steps q (read_list l).
Proof. apply steps_gets. Qed.
Lemma steps_read_hash q (l : loc) : steps q (read_hash l).
Proof. apply steps_gets. Qed.
Lemma steps_read_set q (l : loc) : steps q (read_set l).
Proof. apply steps_gets. Qed.

Ltac cmd_steps :=
  repeat first
    [ apply steps_past_due | apply steps_read_list | apply steps_read_hash
    | apply steps_read_set | progress steps_tac ].



























Lemma steps_purge_loop q now l : steps q (purge_loop now l).
Proof.
  induction l as [|[k t] l IH]; cbn [purge_loop]; cmd_steps; exact IH.
Qed.

Lemma steps_snapshotEntries q now : steps q (snapshotEntries now).
Proof.
  unfold snapshotEntries, purgeExpiredAll. cmd_steps; apply steps_purge_loop.
Qed.





Lemma AddAof_eq (d : StandaloneDB C) (log : list (list string)) (args : list string) :
  aofHandler d = Some log ->
  AddAof args d = Some (tt, set_aofHandler (Some (log ++ [args])) d).
Proof. intros H. unfold AddAof, modify. rewrite H. reflexivity. Qed.

(** [appendAof] appends to the log and touches nothing else; for a command
    of the write table what it appends is the command as received. *)
Lemma appendAof_eq (d : StandaloneDB C) (log : list (list string)) cmd res :
  aofHandler d = Some log ->
  exists own, appendAof cmd res d = Some (tt, set_aofHandler (Some (log ++ own)) d)
              /\ (isWriteCommand cmd = true -> own = [cmd]).
Proof.
  intros Hlog.
  assert (Hnone : ret tt d = Some (tt, set_aofHandler (Some (log ++ [])) d)).
  { rewrite app_nil_r, <- Hlog. destruct d. reflexivity. }
  unfold appendAof. destruct cmd as [|name rest].
  { exists []. split; [exact Hnone | discriminate]. }
  cbn [isWriteCommand].
  destruct (String.eqb (ToLower name) "expire") eqn:E1.
  { apply String.eqb_eq in E1. rewrite E1.
    destruct res as [[| |[|[| |]|] | |]|]; try (exists []; split; [exact Hnone | discriminate]).
    destruct rest as [|k rest]; [exists []; split; [exact Hnone | discriminate] |].
    unfold bind, gets. destruct (ttlMap d !! k) as [t|];
      eexists; (split; [apply AddAof_eq; exact Hlog | discriminate]). }
  destruct (String.eqb (ToLower name) "persist") eqn:E2.
  { apply String.eqb_eq in E2. rewrite E2.
    destruct res as [[| |[|[| |]|] | |]|]; try (exists []; split; [exact Hnone | discriminate]).
    eexists. split; [apply AddAof_eq; exact Hlog | discriminate]. }
  destruct (bool_decide (ToLower name ∈ writeCommands)) eqn:E3.
  - eexists. split; [apply AddAof_eq; exact Hlog | reflexivity].
  - exists []. split; [exact Hnone | discriminate].
Qed.

Lemma append_DELs_eq (d : StandaloneDB C) (log : list (list string)) (keys : list string) :
  aofHandler d = Some log ->
  append_DELs keys d = Some (tt, set_aofHandler (Some (log ++ map DEL_record keys)) d).
Proof.
  revert d log. induction keys as [|k keys IH]; intros d log Hlog; cbn [append_DELs map].
  - rewrite app_nil_r, <- Hlog. destruct d. reflexivity.
  - unfold bind. rewrite (AddAof_eq d log _ Hlog).
    rewrite (IH (set_aofHandler (Some (log ++ [DEL_record k])) d)
               (log ++ [DEL_record k]) eq_refl). cbn.
    rewrite <- app_assoc. reflexivity.
Qed.


End Commands.

(** An LRU core with a 20-byte budget that already holds a 12-byte key. *)
Definition nearly_full : StandaloneDB Cache :=
  after [(0, ["SET"; "k1"; "0123456789"])]%string (NewStandaloneDB_lru 20 true).

Definition nearly_full_next : StandaloneDB Cache :=
  after [(0, ["SET"; "k2"; "abcdefghij"])]%string nearly_full.


(** In that step the key [k1] is evicted and its [DEL] follows the [SET]. *)
Example nearly_full_next_log :
  aofHandler nearly_full_next
  = Some [["SET"; "k1"; "0123456789"]; ["SET"; "k2"; "abcdefghij"]; ["DEL"; "k1"]]%string
  /\ evictedKeys nearly_full_next = ["k1"]%string.
Proof. split; vm_compute; reflexivity. Qed.


(** ** EXPIRE and the append log *)

Section Expire.

Context {C : Type} {EC : EvictionCache C} {CL : CacheLaws C}.
Context (admin_refused : string -> option Reply) (admin_reply : string -> Reply).

Lemma execInternal_expire now (name : string) (rest : list string) :
  ToLower name = "expire" ->
  execInternal (C := C) admin_refused admin_reply now (name :: rest)
  = bind (expire now (name :: rest)) (fun r => ret (Some r)).
Proof. intros H. unfold execInternal. rewrite H. reflexivity. Qed.

Lemma appendAof_expire (name : string) (rest : list string) (res : option Reply) :
  ToLower name = "expire" ->
  appendAof (C := C) (name :: rest) res
  = match res, rest with
    | Some (IntReply 1), k :: _ =>
        bind (gets (fun d => ttlMap d !! k))
             (fun t => match t with
                       | Some expireAt => AddAof ["PEXPIREAT"; k; FormatInt (UnixMilli expireAt)]
                       | None => AddAof (DEL_record k)
                       end)
    | _, _ => ret tt
    end.
Proof. intros H. unfold appendAof. rewrite H. reflexivity. Qed.

(** What the log holds after an EXPIRE, by the outcome of the command. *)
Definition expire_outcome (d d' : StandaloneDB C) (now : Z) (k a2 : string)
    (log : list (list string)) (res : option Reply) : Prop :=
  match ParseInt a2, view (cache d) !! k with
  | None, _ => res = Some not_an_integer /\ aofHandler d' = Some log
  | Some _, None => res = Some (MakeIntReply 0) /\ aofHandler d' = Some log
  | Some seconds, Some _ =>
      res = Some (MakeIntReply 1)
      /\ if seconds <=? 0 then
           ttlMap d' !! k = None /\ view (cache d') !! k = None
           /\ aofHandler d' = Some (log ++ [DEL_record k])
         else
           let expireAt := now + seconds_to_duration seconds in
           ttlMap d' !! k = Some expireAt /\ view (cache d') = view (cache d)
           /\ aofHandler d'
              = Some (log ++ [["PEXPIREAT"; k; FormatInt (UnixMilli expireAt)]])
  end.

(** C2. EXPIRE key seconds with the append log open always returns, and:
    when it returns 1 and the key has a TTL entry afterwards, the entry is
    the instant [now + seconds] computed at execution and the one record
    appended is [PEXPIREAT key unix_ms] of that instant; when it returns 1
    with [seconds <= 0] the key is gone and the one record appended is
    [DEL key]; when it returns 0 (the key is absent) nothing is appended. *)
Theorem expire_is_logged_as_absolute_instant (d : StandaloneDB C) (now : Z)
    (name k a2 : string) (log : list (list string)) :
  ok (cache d) ->
  aofHandler d = Some log ->
  ToLower name = "expire" ->
  exists res d',
    handle admin_refused admin_reply now
           {| cmd := [name; k; a2]; fn := None; noAof := false |} d = Some (res, d')
    /\ expire_outcome d d' now k a2 log res.
Proof.
  intros Hok Hlog Hname. unfold handle, bind, expire_outcome.
  cbn [modify fn db.cmd noAof negb andb].
  rewrite (execInternal_expire now name [k; a2] Hname). unfold bind, expire. unfold bind.
  destruct (ParseInt a2) as [seconds|] eqn:Ep.
  2:{ cbn [ret gets aofHandler set_evictedKeys].
      change (isError (Some not_an_integer)) with true. rewrite andb_false_r.
      cbn [ret]. eexists _, _. split; [reflexivity |]. cbn. auto. }
  rewrite (cache_Peek_eq (set_evictedKeys [] d) now k Hok). cbn [cache set_evictedKeys].
  destruct (view (cache d) !! k) as [v|] eqn:Ev.
  2:{ cbn [ret gets aofHandler set_evictedKeys]. rewrite Hlog.
      rewrite bool_decide_eq_true_2 by discriminate. cbn [andb isError MakeIntReply negb].
      rewrite (appendAof_expire name [k; a2] _ Hname). cbn.
      eexists _, _. split; [reflexivity |]. cbn. auto. }
  destruct (Z.leb_spec seconds 0) as [Hle|Hgt].
  - destruct (cache_Remove_present_eq (set_evictedKeys [] d) k v Hok Ev)
      as (c1 & HR & Hok1 & Hv1 & _).
    rewrite HR. rewrite onEvicted_deleted.
    cbn [ret gets aofHandler set_evictedKeys set_ttlMap set_callbacks set_cache].
    rewrite Hlog. rewrite bool_decide_eq_true_2 by discriminate.
    cbn [andb isError MakeIntReply negb].
    rewrite (appendAof_expire name [k; a2] _ Hname). unfold bind, gets, MakeIntReply.
    cbn [ttlMap set_ttlMap]. rewrite lookup_delete_eq.
    unfold AddAof, modify.
    cbn [aofHandler set_ttlMap set_callbacks set_cache set_evictedKeys]. rewrite Hlog.
    cbn [evictedKeys set_aofHandler set_ttlMap set_callbacks set_cache set_evictedKeys
         append_DELs ret].
    eexists _, _. split; [reflexivity |]. cbn.
    split; [reflexivity | split; [apply lookup_delete_eq | split; [|reflexivity]]].
    rewrite Hv1. apply lookup_delete_eq.
  - unfold modify.
    cbn [ret gets aofHandler set_evictedKeys set_ttlMap].
    rewrite Hlog. rewrite bool_decide_eq_true_2 by discriminate.
    cbn [andb isError MakeIntReply negb].
    rewrite (appendAof_expire name [k; a2] _ Hname). unfold bind, gets, MakeIntReply.
    cbn [ttlMap set_ttlMap set_evictedKeys]. rewrite lookup_insert_eq.
    unfold AddAof, modify.
    cbn [aofHandler set_ttlMap set_callbacks set_cache set_evictedKeys]. rewrite Hlog.
    cbn [evictedKeys set_aofHandler set_ttlMap set_evictedKeys append_DELs ret].
    eexists _, _. split; [reflexivity |]. cbn.
    split; [reflexivity | split; [apply lookup_insert_eq | split; reflexivity]].
Qed.

End Expire.

(** A string key in an LRU core with the append log open. *)
Definition one_string_key : StandaloneDB Cache :=
  after [(0, ["SET"; "k"; "v"])]%string (NewStandaloneDB_lru 0 true).

Lemma expire_is_logged_as_absolute_instant_witness :
  exists res d',
    handle no_admin admin_ok (5 * second)
           {| cmd := ["EXPIRE"; "k"; "10"]%string; fn := None; noAof := false |}
           one_string_key = Some (res, d')
    /\ res = Some (MakeIntReply 1)
    /\ ttlMap d' !! "k"%string = Some (15 * second)
    /\ aofHandler d'
       = Some [["SET"; "k"; "v"]; ["PEXPIREAT"; "k"; "15000"]]%string.
Proof.
  assert (Hok : ok (cache one_string_key)).
  { split; vm_compute; repeat constructor. inversion 1. }
  destruct (expire_is_logged_as_absolute_instant no_admin admin_ok one_string_key
              (5 * second) "EXPIRE" "k" "10" [["SET"; "k"; "v"]]%string Hok eq_refl eq_refl)
    as (res & d' & Hrun & Hout).
  exists res, d'. split; [exact Hrun |].
  unfold expire_outcome in Hout.
  change (ParseInt "10") with (Some 10) in Hout.
  change (view (cache one_string_key) !! "k"%string) with (Some (StringData "v")) in Hout.
  destruct Hout as (Hres & Httl & _ & Hlog).
  split; [exact Hres | split; [exact Httl | exact Hlog]].
Defined.


(** ** The TTL entry of a key under the write commands *)

Section TtlFrame.

Context {C : Type} {EC : EvictionCache C} {CL : CacheLaws C}.
Context (admin_refused : string -> option Reply) (admin_reply : string -> Reply).

Implicit Types (d : StandaloneDB C).

(** What is left of the core after [handle]: the log steps touch neither
    the cache nor the TTL table. *)
Lemma handle_execInternal d d' now (cmd : list string) (b : bool) res :
  handle admin_refused admin_reply now {| cmd := cmd; fn := None; noAof := b |} d
  = Some (res, d') ->
  exists d1, execInternal admin_refused admin_reply now cmd (set_evictedKeys [] d)
             = Some (res, d1)
             /\ cache d' = cache d1 /\ ttlMap d' = ttlMap d1.
Proof.
  intros H. unfold handle, bind in H. cbn [modify fn db.cmd noAof] in H.
  destruct (execInternal admin_refused admin_reply now cmd (set_evictedKeys [] d))
    as [[res1 d1]|] eqn:Eexec; [|discriminate].
  unfold gets in H.
  destruct (aofHandler d1) as [log|] eqn:Elog.
  2:{ rewrite bool_decide_eq_false_2 in H by (intros Hn; apply Hn; reflexivity).
      rewrite andb_false_r in H. cbn in H. injection H as <- <-. eauto. }
  destruct (negb b && bool_decide (Some log <> None) && negb (isError res1)).
  - destruct (appendAof_eq d1 log cmd res1 Elog) as (own & Happ & _).
    rewrite Happ in H. cbn [evictedKeys set_aofHandler] in H.
    rewrite (append_DELs_eq (set_aofHandler (Some (log ++ own)) d1) (log ++ own)
               (evictedKeys d1) eq_refl) in H.
    cbn in H. injection H as <- <-. eauto.
  - cbn in H. injection H as <- <-. eauto.
Qed.

Section Key.

Variables (now : Z) (k : string) (v : Value) (t0 : option Z).

(** The key holds [v] and its TTL entry is [t0]. *)
Definition holding d : Prop :=
  ok (cache d) /\ view (cache d) !! k = Some v /\ ttlMap d !! k = t0.

(** The TTL entry is [t0] if the key is still there, and gone with it. *)
Definition kept d : Prop :=
  ok (cache d)
  /\ ttlMap d !! k = match view (cache d) !! k with Some _ => t0 | None => None end.

Lemma held_kept d : holding d -> kept d.
Proof. intros (Hok & Hv & Ht). split; [exact Hok |]. rewrite Hv. exact Ht. Qed.

(** [m] keeps the key as it is and returns a result in [Q]; [m] settles:
    it leaves the key with its entry or without both. *)
Definition keeps {A : Type} (m : M C A) (Q : A -> Prop) : Prop :=
  forall d a d', holding d -> m d = Some (a, d') -> holding d' /\ Q a.
Definition settles {A : Type} (m : M C A) : Prop :=
  forall d a d', holding d -> m d = Some (a, d') -> kept d'.

Lemma keeps_ret {A : Type} (a : A) (Q : A -> Prop) : Q a -> keeps (ret a) Q.
Proof. intros HQ d a' d' Hh H. injection H as <- <-. auto. Qed.

Lemma keeps_gets {A : Type} (f : StandaloneDB C -> A) : keeps (gets f) (fun _ => True).
Proof. intros d a' d' Hh H. injection H as _ <-. auto. Qed.

Lemma keeps_bind {A B : Type} (m : M C A) (f : A -> M C B) Q R :
  keeps m Q -> (forall a, Q a -> keeps (f a) R) -> keeps (bind m f) R.
Proof.
  intros Hm Hf d b d' Hh H. unfold bind in H.
  destruct (m d) as [[a d1]|] eqn:E; [|discriminate].
  destruct (Hm _ _ _ Hh E) as (Hh1 & HQ). exact (Hf a HQ _ _ _ Hh1 H).
Qed.

Lemma settles_ret {A : Type} (a : A) : settles (ret a).
Proof. intros d a' d' Hh H. injection H as _ <-. apply held_kept, Hh. Qed.

Lemma settles_bind {A B : Type} (m : M C A) (f : A -> M C B) Q :
  keeps m Q -> (forall a, Q a -> settles (f a)) -> settles (bind m f).
Proof.
  intros Hm Hf d b d' Hh H. unfold bind in H.
  destruct (m d) as [[a d1]|] eqn:E; [|discriminate].
  destruct (Hm _ _ _ Hh E) as (Hh1 & HQ). exact (Hf a HQ _ _ _ Hh1 H).
Qed.

Lemma settles_then_ret {A B : Type} (m : M C A) (g : A -> B) :
  settles m -> settles (bind m (fun a => ret (g a))).
Proof.
  intros Hm d b' d' Hh H. unfold bind in H.
  destruct (m d) as [[a d1]|] eqn:E; [|discriminate].
  injection H as _ <-. exact (Hm _ _ _ Hh E).
Qed.

Lemma keeps_settles {A : Type} (m : M C A) Q : keeps m Q -> settles m.
Proof. intros Hm d a d' Hh H. apply held_kept. exact (proj1 (Hm _ _ _ Hh H)). Qed.

Lemma keeps_cache_Get now' : keeps (cache_Get now' k) (fun r => r = Some v).
Proof.
  intros d a d' (Hok & Hv & Ht) H.
  destruct (cache_Get_eq d now' k Hok) as (c1 & HG & Hok1 & Hv1 & _).
  rewrite HG in H. injection H as <- <-.
  split; [|exact Hv]. split; [exact Hok1 | split; [|exact Ht]].
  cbn [cache set_cache]. rewrite Hv1. exact Hv.
Qed.

Lemma keeps_new_object o : keeps (new_object o) (fun _ => True).
Proof. intros d a d' Hh H. injection H as _ <-. auto. Qed.

Lemma keeps_write_object l o : keeps (write_object l o) (fun _ => True).
Proof. intros d a d' Hh H. injection H as _ <-. auto. Qed.

Lemma keeps_AddAof args : keeps (AddAof args) (fun _ => True).
Proof.
  intros d a d' Hh H. unfold AddAof, modify in H.
  destruct (aofHandler d); injection H as _ <-; auto.
Qed.

Lemma settles_cache_Remove : settles (cache_Remove k).
Proof.
  intros d a d' (Hok & Hv & Ht) H.
  destruct (cache_Remove_present_eq d k v Hok Hv) as (c1 & HR & Hok1 & Hv1 & _).
  rewrite HR in H. injection H as _ <-.
  split; cbn; [exact Hok1 |]. rewrite Hv1, !lookup_delete_eq. reflexivity.
Qed.

Lemma settles_cache_Add v' : settles (cache_Add now k v').
Proof.
  intros d a d' (Hok & Hv & Ht) H. unfold cache_Add in H.
  destruct (Add (objects d) (unix now) (cache d) k v' 0) as [[c1 evs]|] eqn:EA;
    [|discriminate].
  injection H as _ <-.
  destruct (Add_returns _ _ _ _ _ _ _ Hok EA) as (Hok1 & _ & Hview & _).
  destruct (fire_fields evs (set_cache c1 d)) as (Hc & _ & _).
  unfold kept. rewrite Hc, fire_ttlMap. cbn [cache set_cache ttlMap].
  split; [exact Hok1 |]. rewrite (Hview k).
  destruct (bool_decide (k ∈ map event_key evs)); [reflexivity |].
  rewrite lookup_insert_eq. exact Ht.
Qed.

Hypothesis Hdue : match t0 with Some t => t <? now | None => false end = false.

Lemma keeps_past_due : keeps (past_due now k) (fun due => due = false).
Proof.
  intros d a d' Hh H. injection H as <- <-. split; [exact Hh |].
  destruct Hh as (_ & _ & ->). exact Hdue.
Qed.

Lemma settles_push (name : string) pushAll (n : string) (args : list string) :
  settles (push name pushAll now (n :: k :: args)).
Proof.
  unfold push. destruct args as [|a args]; [apply settles_ret |].
  apply (settles_bind _ _ (fun r => r = match v with
                                        | ListData l => inl l
                                        | _ => inr WRONGTYPE
                                        end)).
  - unfold getListForWrite. eapply keeps_bind; [apply keeps_cache_Get |].
    intros r ->. eapply keeps_bind; [apply keeps_past_due |].
    intros due ->. destruct v; apply keeps_ret; reflexivity.
  - intros r ->. destruct v; try apply settles_ret.
    eapply settles_bind; [apply keeps_gets |]. intros es _.
    eapply settles_bind; [apply keeps_write_object |]. intros _ _.
    apply settles_then_ret, settles_cache_Add.
Qed.

Lemma settles_pop (name : string) take_end (n : string) (args : list string) :
  settles (pop name take_end now (n :: k :: args)).
Proof.
  unfold pop. destruct args as [|a args]; [|apply settles_ret].
  eapply settles_bind; [apply keeps_cache_Get |]. intros r ->.
  eapply settles_bind; [apply keeps_past_due |]. intros due ->.
  destruct v; try apply settles_ret.
  eapply settles_bind; [apply keeps_gets |]. intros es _.
  destruct (take_end es) as [[x es']|]; [|apply settles_ret].
  eapply settles_bind; [apply keeps_write_object |]. intros _ _.
  apply settles_then_ret.
  destruct es'; [apply settles_cache_Remove | apply settles_cache_Add].
Qed.

Lemma keeps_getHash :
  keeps (getHash now k) (fun r => r = match v with HashData h => Some h | _ => None end).
Proof.
  unfold getHash. eapply keeps_bind; [apply keeps_cache_Get |].
  intros r ->. eapply keeps_bind; [apply keeps_past_due |].
  intros due ->. destruct v; apply keeps_ret; reflexivity.
Qed.

Lemma keeps_getSet :
  keeps (getSet now k) (fun r => r = match v with SetData s => Some s | _ => None end).
Proof.
  unfold getSet. eapply keeps_bind; [apply keeps_cache_Get |].
  intros r ->. eapply keeps_bind; [apply keeps_past_due |].
  intros due ->. destruct v; apply keeps_ret; reflexivity.
Qed.

Lemma settles_wrong_type_or is_type (absent : Reply) :
  settles (wrong_type_or now k is_type absent).
Proof.
  unfold wrong_type_or. eapply settles_bind; [apply keeps_cache_Get |].
  intros r ->. destruct (is_type v); apply settles_ret.
Qed.

Lemma settles_hset_store (fv : list string) (h : loc) : settles (hset_store now k fv h).
Proof.
  unfold hset_store. eapply settles_bind; [apply keeps_gets |]. intros fields _.
  destruct (hset_loop fv fields 0) as [fields' count].
  eapply settles_bind; [apply keeps_write_object |]. intros _ _.
  apply settles_then_ret, settles_cache_Add.
Qed.

Lemma settles_hset (n : string) (args : list string) : settles (hset now (n :: k :: args)).
Proof.
  unfold hset. destruct args as [|f [|val rest]]; try apply settles_ret.
  destruct (Nat.even _); [|apply settles_ret].
  eapply settles_bind; [apply keeps_getHash |]. intros r ->.
  destruct v as [str|l|h|s] eqn:Ev; try apply settles_hset_store.
  all: eapply settles_bind; [apply keeps_new_object |]; intros h _.
  all: eapply settles_bind; [apply keeps_cache_Get |]; intros r ->; rewrite Ev.
  all: eapply settles_bind; [apply keeps_past_due |]; intros due ->; apply settles_ret.
Qed.

Lemma settles_hdel (n : string) (args : list string) : settles (hdel now (n :: k :: args)).
Proof.
  unfold hdel. destruct args as [|f rest]; [apply settles_ret |].
  eapply settles_bind; [apply keeps_getHash |]. intros r ->.
  destruct v as [str|l|h|s]; try apply settles_wrong_type_or.
  eapply settles_bind; [apply keeps_gets |]. intros fields _.
  destruct (hdel_loop (f :: rest) fields 0) as [fields' count].
  eapply settles_bind; [apply keeps_write_object |]. intros _ _.
  apply settles_then_ret.
  destruct (bool_decide _); [apply settles_cache_Remove | apply settles_cache_Add].
Qed.

Lemma settles_sadd_store (members : list string) (s : loc) :
  settles (sadd_store now k members (Some s)).
Proof.
  unfold sadd_store. eapply settles_bind; [apply (keeps_ret s (fun _ => True)); exact I |].
  intros s' _. eapply settles_bind; [apply keeps_gets |]. intros ms _.
  destruct (sadd_loop members ms 0) as [ms' added].
  eapply settles_bind; [apply keeps_write_object |]. intros _ _.
  apply settles_then_ret.
  destruct (_ || _); [apply settles_cache_Add | apply settles_ret].
Qed.

Lemma settles_sadd (n : string) (args : list string) : settles (sadd now (n :: k :: args)).
Proof.
  unfold sadd. destruct args as [|m rest]; [apply settles_ret |].
  eapply settles_bind; [apply keeps_getSet |]. intros r ->.
  destruct v as [str|l|h|s] eqn:Ev; try apply settles_sadd_store.
  all: eapply settles_bind; [apply keeps_cache_Get |]; intros r ->; rewrite Ev.
  all: eapply settles_bind; [apply keeps_past_due |]; intros due ->; apply settles_ret.
Qed.

Lemma settles_srem (n : string) (args : list string) : settles (srem now (n :: k :: args)).
Proof.
  unfold srem. destruct args as [|m rest]; [apply settles_ret |].
  eapply settles_bind; [apply keeps_getSet |]. intros r ->.
  destruct v as [str|l|h|s]; try apply settles_wrong_type_or.
  eapply settles_bind; [apply keeps_gets |]. intros ms _.
  destruct (srem_loop (m :: rest) ms 0) as [ms' removed].
  eapply settles_bind; [apply keeps_write_object |]. intros _ _.
  apply settles_then_ret.
  destruct (bool_decide _); [apply settles_cache_Remove | apply settles_cache_Add].
Qed.

End Key.

(** The write commands on containers. *)
Definition container_writes : list string :=
  ["lpush"; "rpush"; "lpop"; "rpop"; "hset"; "hdel"; "sadd"; "srem"].

Lemma settles_execInternal now k v t0 (name : string) (args : list string) :
  match t0 with Some t => t <? now | None => false end = false ->
  ToLower name ∈ container_writes ->
  settles k v t0 (execInternal admin_refused admin_reply now (name :: k :: args)).
Proof.
  intros Hdue Hname. unfold execInternal, container_writes in *.
  repeat (apply elem_of_cons in Hname as [->|Hname]);
    [.. | apply elem_of_nil in Hname; contradiction].
  all: cbn [String.eqb Ascii.eqb Bool.eqb].
  all: apply (settles_then_ret k v t0 _ Some).
  - apply settles_push, Hdue.
  - apply settles_push, Hdue.
  - apply settles_pop, Hdue.
  - apply settles_pop, Hdue.
  - apply settles_hset, Hdue.
  - apply settles_hdel, Hdue.
  - apply settles_sadd, Hdue.
  - apply settles_srem, Hdue.
Qed.

(** C6. [SET k v] leaves no TTL entry for [k].  A container write
    ([LPUSH], [RPUSH], [LPOP], [RPOP], [HSET], [HDEL], [SADD], [SREM]) on a
    key that exists and is not past-due leaves its TTL entry as it was
    whenever the key is still there afterwards, and leaves no entry when the
    command removed the key (its last element went, or it was evicted). *)
Theorem set_clears_ttl_and_container_writes_keep_it (d d' : StandaloneDB C) (now : Z)
    (name k : string) (args : list string) (b : bool) (res : option Reply) :
  ok (cache d) ->
  handle admin_refused admin_reply now
         {| cmd := name :: k :: args; fn := None; noAof := b |} d = Some (res, d') ->
  (ToLower name = "set" -> length args = 1%nat -> ttlMap d' !! k = None)
  /\ (ToLower name ∈ container_writes ->
      view (cache d) !! k <> None ->
      is_past_due d now k = false ->
      ttlMap d' !! k = match view (cache d') !! k with
                       | Some _ => ttlMap d !! k
                       | None => None
                       end).
Proof.
  intros Hok H.
  destruct (handle_execInternal d d' now _ b res H) as (d1 & Hexec & Hc & Ht).
  rewrite Hc, Ht. split.
  - intros Hname Hlen. destruct args as [|val [|? ?]]; try discriminate.
    unfold execInternal in Hexec. rewrite Hname in Hexec.
    cbn [String.eqb Ascii.eqb Bool.eqb] in Hexec. unfold bind, set in Hexec.
    unfold bind in Hexec.
    destruct (cache_Add now k (StringData val) (set_evictedKeys [] d)) as [[u d2]|];
      [|discriminate].
    cbn in Hexec. injection Hexec as _ <-. cbn. apply lookup_delete_eq.
  - intros Hname Hv Hdue.
    destruct (view (cache d) !! k) as [v|] eqn:Ev; [|contradiction].
    destruct (settles_execInternal now k v (ttlMap d !! k) name args Hdue Hname
                (set_evictedKeys [] d) res d1) as (_ & Hkept).
    + split; [exact Hok | split; [exact Ev | reflexivity]].
    + exact Hexec.
    + exact Hkept.
Qed.

End TtlFrame.

(** A two-element list with a TTL, under LRU. *)
Definition two_element_list : StandaloneDB Cache :=
  after [(0, ["RPUSH"; "l"; "a"; "b"]); (0, ["EXPIRE"; "l"; "100"])]%string
        (NewStandaloneDB_lru 0 false).

Lemma set_clears_ttl_and_container_writes_keep_it_witness :
  ttlMap (after [(second, ["SET"; "l"; "v"])]%string two_element_list) !! "l"%string = None
  /\ ttlMap (after [(second, ["LPOP"; "l"])]%string two_element_list) !! "l"%string
     = Some (100 * second).
Proof.
  assert (Hok : ok (cache two_element_list)).
  { split; vm_compute; repeat constructor. inversion 1. }
  assert (Hset : handle no_admin admin_ok second
                        {| cmd := ["SET"; "l"; "v"]%string; fn := None; noAof := false |}
                        two_element_list
                 = Some (Some OkReply,
                         after [(second, ["SET"; "l"; "v"])]%string two_element_list)).
  { vm_compute. reflexivity. }
  assert (Hpop : handle no_admin admin_ok second
                        {| cmd := ["LPOP"; "l"]%string; fn := None; noAof := false |}
                        two_element_list
                 = Some (Some (MakeBulkReply (Some "a"%string)),
                         after [(second, ["LPOP"; "l"])]%string two_element_list)).
  { vm_compute. reflexivity. }
  split.
  - apply (proj1 (set_clears_ttl_and_container_writes_keep_it no_admin admin_ok
                    _ _ _ _ _ _ _ _ Hok Hset)); reflexivity.
  - rewrite (proj2 (set_clears_ttl_and_container_writes_keep_it no_admin admin_ok
                      _ _ _ _ _ _ _ _ Hok Hpop)).
    + vm_compute. reflexivity.
    + vm_compute. set_solver.
    + vm_compute. discriminate.
    + vm_compute. reflexivity.
Defined.

(** The entry does not survive the command that takes the last element. *)
Lemma lpop_of_last_element_drops_ttl :
  ttlMap one_element_list !! "l"%string = Some (100 * second)
  /\ view (cache one_element_list) !! "l"%string <> None
  /\ is_past_due one_element_list second "l" = false
  /\ ttlMap (after [(second, ["LPOP"; "l"])]%string one_element_list) !! "l"%string = None.
Proof. repeat split; vm_compute; discriminate || reflexivity. Qed.


(** ** Lazy expiration on the paths that only peek *)

(** [del], [expire], [pexpireat] and [persist] resolve the key with [Peek]
    and never look at the TTL table, unlike [get], [ttl] and the container
    helpers.  A key whose instant has passed and that the sampling sweep has
    not met yet is therefore still present for them. *)

Definition expired_then (cmd : list string) : list (Z * list string) :=
  [(0, ["SET"; "k"; "v"]); (0, ["EXPIRE"; "k"; "1"]);
   (second + 1, cmd); (second + 2, ["GET"; "k"])]%string.

(** C5. With the key [k] one nanosecond past its instant: [PERSIST k]
    answers 1 and the following [GET k] returns the value, [EXPIRE k 100]
    answers 1 and the key is readable again, and [DEL k] counts the key as
    deleted (1, not 0); under LRU and under LFU alike.  On the same state
    [GET k] itself answers the nil bulk. *)
Theorem peeking_commands_skip_lazy_expiration :
  replies (expired_then ["PERSIST"; "k"]%string) (NewStandaloneDB_lru 0 true)
  = Some [Some OkReply; Some (MakeIntReply 1); Some (MakeIntReply 1);
          Some (MakeBulkReply (Some "v"%string))]
  /\ replies (expired_then ["PERSIST"; "k"]%string) (NewStandaloneDB_lfu 0 true)
     = Some [Some OkReply; Some (MakeIntReply 1); Some (MakeIntReply 1);
             Some (MakeBulkReply (Some "v"%string))]
  /\ replies (expired_then ["EXPIRE"; "k"; "100"]%string) (NewStandaloneDB_lru 0 true)
     = Some [Some OkReply; Some (MakeIntReply 1); Some (MakeIntReply 1);
             Some (MakeBulkReply (Some "v"%string))]
  /\ replies (expired_then ["DEL"; "k"]%string) (NewStandaloneDB_lru 0 true)
     = Some [Some OkReply; Some (MakeIntReply 1); Some (MakeIntReply 1);
             Some NullBulkReply]
  /\ replies (expired_then ["GET"; "k"]%string) (NewStandaloneDB_lru 0 true)
     = Some [Some OkReply; Some (MakeIntReply 1); Some NullBulkReply;
             Some NullBulkReply].
Proof. repeat split; vm_compute; reflexivity. Qed.

(** ** Tracked bytes and shared containers *)

(** The sum of the size estimates of the entries a cache holds. *)
Definition entries_size {C : Type} {EC : EvictionCache C} (st : store) (c : C) : Z :=
  foldr (fun kv acc => len kv.1 + types.Len st kv.2 + acc) 0 (ForEach c).

Definition two_pushes : list (Z * list string) :=
  [(0, ["LPUSH"; "l"; "a"]); (0, ["LPUSH"; "l"; "b"])]%string.

Definition push_then_pop : list (Z * list string) :=
  [(0, ["RPUSH"; "l"; "a"]); (0, ["LPOP"; "l"])]%string.

(** C7. The list commands mutate the container the cache already holds and
    add the same object again, so [Add] sees no size change: after two
    one-element pushes the tracked total is still the 18 bytes of the first
    push while the entry is estimated at 35; and after a push and a pop of
    the only element the cache is empty with 17 bytes still tracked.  LRU and
    LFU agree. *)
Theorem tracked_total_misses_container_growth :
  (let d := after two_pushes (NewStandaloneDB_lru 100 false) in
   nbytes (cache d) = 18 /\ entries_size (objects d) (cache d) = 35)
  /\ (let d := after two_pushes (NewStandaloneDB_lfu 100 false) in
      lfu_nbytes (cache d) = 18 /\ entries_size (objects d) (cache d) = 35)
  /\ (let d := after push_then_pop (NewStandaloneDB_lru 100 false) in
      nbytes (cache d) = 17 /\ ForEach (cache d) = [])
  /\ (let d := after push_then_pop (NewStandaloneDB_lfu 100 false) in
      lfu_nbytes (cache d) = 17 /\ ForEach (cache d) = []).
Proof. repeat split; vm_compute; reflexivity. Qed.


(** ** Snapshot, restore, snapshot *)

(** *** Sorting entries with distinct keys *)

#[local] Instance key_le_trans : Transitive rdb.key_le.
Proof. intros a b c. unfold rdb.key_le. apply transitivity. Qed.

#[local] Instance key_le_total : Total rdb.key_le.
Proof. intros a b. unfold rdb.key_le. apply total, _. Qed.

Lemma NoDup_map_inj {A B : Type} (f : A -> B) (l : list A) (x y : A) :
  NoDup (map f l) -> x ∈ l -> y ∈ l -> f x = f y -> x = y.
Proof.
  induction l as [|a l IH]; intros Hnd Hx Hy Hf; [inversion Hx |].
  cbn [map] in Hnd. apply NoDup_cons in Hnd as [Ha Hnd].
  apply elem_of_cons in Hx as [->|Hx]; apply elem_of_cons in Hy as [->|Hy].
  - reflexivity.
  - exfalso. apply Ha. rewrite Hf. apply (list_elem_of_fmap_2 f), Hy.
  - exfalso. apply Ha. rewrite <- Hf. apply (list_elem_of_fmap_2 f), Hx.
  - exact (IH Hnd Hx Hy Hf).
Qed.

(** Sorting by key does not depend on the order the entries come in. *)
Lemma sort_entries_unique (l1 l2 : list rdb.Entry) :
  NoDup (map rdb.Key l1) -> l1 ≡ₚ l2 -> rdb.sort_entries l1 = rdb.sort_entries l2.
Proof.
  intros Hnd Hp. unfold rdb.sort_entries.
  apply (Sorted_unique_strong rdb.key_le).
  - intros x1 x2 H1 H2 H12 H21.
    rewrite merge_sort_Permutation in H1. rewrite merge_sort_Permutation, <- Hp in H2.
    apply (NoDup_map_inj rdb.Key l1 x1 x2 Hnd H1 H2).
    unfold rdb.key_le in *. apply (anti_symm String.le); assumption.
  - apply Sorted_merge_sort, _.
  - apply Sorted_merge_sort, _.
  - rewrite !merge_sort_Permutation. exact Hp.
Qed.

(** *** The file, but for the creation time *)

Definition writable (e : rdb.Entry) : Prop :=
  1 <= rdb.Type_ e <= 4.

Lemma write_entries_some (l : list rdb.Entry) :
  Forall writable l -> exists body, rdb.write_entries l = Some body.
Proof.
  induction 1 as [|e l He _ [body IH]]; cbn [rdb.write_entries]; [eauto |].
  rewrite IH. unfold rdb.write_entry, rdb.write_body, writable in *.
  unfold rdb.TypeString, rdb.TypeList, rdb.TypeHash, rdb.TypeSet.
  destruct (Z.eqb_spec (rdb.Type_ e) 1); [eauto |].
  destruct (Z.eqb_spec (rdb.Type_ e) 2); [eauto |].
  destruct (Z.eqb_spec (rdb.Type_ e) 3); [eauto |].
  destruct (Z.eqb_spec (rdb.Type_ e) 4); [eauto | lia].
Qed.

(** What [SaveToWriter] writes after the header and the creation time. *)
Lemma SaveToWriter_payload (entries : list rdb.Entry) :
  Forall writable entries ->
  exists payload, forall createdAt,
    rdb.SaveToWriter createdAt entries
    = Some (rdb.magicHeader +:+ rdb.writeInt64 createdAt +:+ payload).
Proof.
  intros Hw. unfold rdb.SaveToWriter.
  destruct (write_entries_some (rdb.sort_entries entries)) as [body Hb].
  { unfold rdb.sort_entries. rewrite merge_sort_Permutation. exact Hw. }
  rewrite Hb. eexists. intros createdAt. reflexivity.
Qed.

(** *** The entries of a snapshot *)

(** The deep copy made of one value, with [ms] its expiry. *)
Definition entry_of (k : string) (ms : Z) (st : store) (v : Value) : rdb.Entry :=
  match v with
  | StringData b => mkEntry k rdb.TypeString ms b [] ∅ []
  | ListData l => mkEntry k rdb.TypeList ms "" (list_elems st l) ∅ []
  | HashData h => mkEntry k rdb.TypeHash ms "" [] (hash_fields st h) []
  | SetData s =>
      mkEntry k rdb.TypeSet ms "" [] ∅ (rdb.sort_strings (elements (set_members st s)))
  end.

(** The bytes an entry takes in the cache once restored. *)
Definition entry_bytes (e : rdb.Entry) : Z :=
  len (rdb.Key e)
  + (if rdb.Type_ e =? rdb.TypeString then len (rdb.String_ e)
     else if rdb.Type_ e =? rdb.TypeList then ListData_Len (rdb.List e)
     else if rdb.Type_ e =? rdb.TypeHash then HashData_Len (rdb.Hash e)
     else SetData_Len (list_to_set (rdb.Set_ e))).

Definition entries_bytes (entries : list rdb.Entry) : Z :=
  foldr (fun e acc => entry_bytes e + acc) 0 entries.

(** The locations a value names are in use. *)
Definition allocated (st : store) (v : Value) : Prop :=
  match v with
  | StringData _ => True
  | ListData l | HashData l | SetData l => is_Some (st !! l)
  end.

Lemma entry_of_Key k ms st v : rdb.Key (entry_of k ms st v) = k.
Proof. destruct v; reflexivity. Qed.

Lemma entry_of_ms k ms st v : rdb.ExpireAtUnixMs (entry_of k ms st v) = ms.
Proof. destruct v; reflexivity. Qed.

Lemma entry_of_writable k ms st v : writable (entry_of k ms st v).
Proof.
  destruct v; unfold writable; cbn;
    unfold rdb.TypeString, rdb.TypeList, rdb.TypeHash, rdb.TypeSet; lia.
Qed.

Lemma new_loc_fresh (st : store) : st !! new_loc st = None.
Proof. apply not_elem_of_dom. unfold new_loc. apply is_fresh. Qed.

Lemma store_lookup_insert (st : store) (l : loc) (o : object) : <[l := o]> st !! l = Some o.
Proof. apply lookup_insert_eq. Qed.

Lemma entry_of_frame k ms (st : store) (l : loc) (o : object) v :
  allocated st v -> st !! l = None -> entry_of k ms (<[l := o]> st) v = entry_of k ms st v.
Proof.
  intros Ha Hl.
  destruct v as [b|l0|l0|l0]; [reflexivity | ..]; cbn in Ha;
    (assert (Hne : l <> l0) by (intros ->; rewrite Hl in Ha; destruct Ha; discriminate));
    cbn [entry_of]; unfold list_elems, hash_fields, set_members;
    rewrite (lookup_insert_ne st l l0 o Hne); reflexivity.
Qed.

Lemma entry_bytes_nonneg (e : rdb.Entry) : 0 <= entry_bytes e.
Proof.
  unfold entry_bytes. pose proof (len_nonneg (rdb.Key e)).
  pose proof (len_nonneg (rdb.String_ e)).
  pose proof (Len_nonneg {[1%positive := ListObj (rdb.List e)]} (ListData 1%positive)
              : 0 <= ListData_Len (rdb.List e)).
  pose proof (Len_nonneg {[1%positive := HashObj (rdb.Hash e)]} (HashData 1%positive)
              : 0 <= HashData_Len (rdb.Hash e)).
  pose proof (Len_nonneg {[1%positive := SetObj (list_to_set (rdb.Set_ e))]}
                         (SetData 1%positive)
              : 0 <= SetData_Len (list_to_set (rdb.Set_ e))).
  repeat destruct (_ =? _); lia.
Qed.

Lemma entries_bytes_nonneg (l : list rdb.Entry) : 0 <= entries_bytes l.
Proof.
  induction l as [|e l IH]; cbn; [lia |]. pose proof (entry_bytes_nonneg e).
  fold (entries_bytes l). lia.
Qed.

Lemma allocated_insert (st : store) (l : loc) (o : object) v :
  allocated st v -> allocated (<[l := o]> st) v.
Proof.
  destruct v as [b|l0|l0|l0]; unfold allocated; [auto | ..];
    intros H; apply lookup_insert_is_Some'; right; exact H.
Qed.

Section Snapshot.

Context {C : Type} {EC : EvictionCache C} {CL : CacheLaws C}.

Implicit Types (d : StandaloneDB C).

Lemma snapshot_entry_eq d now k v :
  snapshot_entry d now (k, v)
  = match ttlMap d !! k with
    | None => Some (entry_of k 0 (objects d) v)
    | Some t => if t <=? now then None else Some (entry_of k (UnixMilli t) (objects d) v)
    end.
Proof. unfold snapshot_entry. destruct (ttlMap d !! k); destruct v; reflexivity. Qed.

(** **** Clearing the cache *)

Lemma remove_all_listed (l : list (string * Value)) d :
  ok (cache d) ->
  NoDup (map fst l) ->
  (forall k v, (k, v) ∈ l -> view (cache d) !! k = Some v) ->
  exists d', remove_all (map fst l) d = Some (tt, d')
             /\ ok (cache d')
             /\ (forall k, view (cache d') !! k
                           = if bool_decide (k ∈ map fst l) then None
                             else view (cache d) !! k)
             /\ objects d' = objects d
             /\ cache_maxBytes (cache d') = cache_maxBytes (cache d)
             /\ cache_nbytes (cache d')
                = cache_nbytes (cache d)
                  - foldr (fun kv acc => len kv.1 + types.Len (objects d) kv.2 + acc) 0 l.
Proof.
  revert d. induction l as [|[k v] l IH]; intros d Hok Hnd Hin; cbn [map fst remove_all foldr].
  - exists d. split; [reflexivity | split; [exact Hok |]].
    split; [intros k; reflexivity | split; [reflexivity | split; [reflexivity | lia]]].
  - apply NoDup_cons in Hnd as [Hk Hnd].
    destruct (cache_Remove_present_eq d k v Hok (Hin k v ltac:(left)))
      as (c1 & HR & Hok1 & Hv1 & Hn1 & Hm1).
    rewrite onEvicted_deleted in HR. unfold bind. rewrite HR.
    match goal with |- context [remove_all _ ?s] => destruct (IH s) as (d' & HR' & Hok' & Hv' & Ho' & Hm' & Hn') end.
    + exact Hok1.
    + exact Hnd.
    + intros k' v' Hin'. cbn [cache set_ttlMap set_callbacks set_cache]. rewrite Hv1.
      rewrite lookup_delete_ne.
      * apply Hin. right. exact Hin'.
      * intros <-. apply Hk. apply (list_elem_of_fmap_2 fst) in Hin'. exact Hin'.
    + exists d'. split; [exact HR' | split; [exact Hok' |]].
      cbn [cache objects set_ttlMap set_callbacks set_cache] in Hv', Ho', Hm', Hn'.
      split; [|split; [exact Ho' | split; [congruence |]]].
      * intros k'. rewrite Hv', Hv1.
        destruct (decide (k' = k)) as [->|Hne].
        -- rewrite (bool_decide_eq_true_2 (k ∈ k :: _)) by left.
           rewrite lookup_delete_eq. destruct (bool_decide _); reflexivity.
        -- rewrite lookup_delete_ne by congruence.
           destruct (bool_decide (k' ∈ map fst l)) eqn:Eb.
           ++ apply bool_decide_eq_true in Eb.
              rewrite bool_decide_eq_true_2 by (right; exact Eb). reflexivity.
           ++ apply bool_decide_eq_false in Eb. rewrite bool_decide_eq_false_2; [reflexivity |].
              intros H. apply elem_of_cons in H as [?|?]; [congruence | contradiction].
      * rewrite Hn', Hn1. cbn [fst snd]. lia.
Qed.

(** [applySnapshot] up to its loop: the cache is empty, the TTL table is
    empty, and the bytes tracked are what was tracked less the estimates
    of the entries taken out. *)
Lemma applySnapshot_clears now (entries : list rdb.Entry) d :
  ok (cache d) ->
  exists d0, applySnapshot now entries d = apply_loop now entries d0
             /\ ok (cache d0)
             /\ view (cache d0) = ∅
             /\ ttlMap d0 = ∅
             /\ cache_maxBytes (cache d0) = cache_maxBytes (cache d)
             /\ cache_nbytes (cache d0)
                = cache_nbytes (cache d) - entries_size (objects d) (cache d).
Proof.
  intros Hok. pose proof (ForEach_view (cache d) Hok) as Hp.
  destruct (remove_all_listed (ForEach (cache d)) d Hok) as (d' & HR & Hok' & Hv' & Ho' & Hm' & Hn').
  - rewrite Hp. apply NoDup_fst_map_to_list.
  - intros k v Hin. rewrite Hp in Hin. apply elem_of_map_to_list in Hin. exact Hin.
  - exists (set_ttlMap ∅ d'). unfold applySnapshot, bind, gets, modify.
    change (map fst (ForEach (cache d))) with (map fst (ForEach (cache d))).
    rewrite HR. split; [reflexivity |]. cbn [cache ttlMap set_ttlMap].
    split; [exact Hok' | split; [|split; [reflexivity | split; [exact Hm' | exact Hn']]]].
    apply map_eq. intros k. rewrite Hv', lookup_empty.
    destruct (bool_decide (k ∈ map fst (ForEach (cache d)))) eqn:Eb; [reflexivity |].
    apply bool_decide_eq_false in Eb.
    destruct (view (cache d) !! k) as [v|] eqn:Ev; [exfalso | reflexivity].
    apply Eb. apply (list_elem_of_fmap_2 fst (ForEach (cache d)) (k, v)).
    rewrite Hp. apply elem_of_map_to_list. exact Ev.
Qed.

(** **** Restoring the entries *)

Lemma omap_ext_in {A B : Type} (f g : A -> option B) (l : list A) :
  (forall x, x ∈ l -> f x = g x) -> omap f l = omap g l.
Proof.
  induction l as [|x l IH]; intros H; [reflexivity |]. cbn.
  rewrite (H x) by left. rewrite IH by (intros y Hy; apply H; right; exact Hy).
  reflexivity.
Qed.

Section Restore.

Variables (now2 now3 : Z).

(** The expiry of an entry is unset, or ahead of both the restore and the
    second snapshot. *)
Definition ahead (e : rdb.Entry) : Prop :=
  let ms := rdb.ExpireAtUnixMs e in
  ms = 0 \/ (0 < ms /\ UnixMilli now2 < ms /\ now3 < time_UnixMilli ms).

(** The core holds the entries [done], and a snapshot at [now3] would
    return them. *)
Definition restored d (done : list rdb.Entry) : Prop :=
  ok (cache d)
  /\ (forall k, k ∉ map rdb.Key done -> view (cache d) !! k = None /\ ttlMap d !! k = None)
  /\ (forall k t, ttlMap d !! k = Some t -> now3 < t)
  /\ (forall k v, view (cache d) !! k = Some v -> allocated (objects d) v)
  /\ omap (snapshot_entry d now3) (map_to_list (view (cache d))) ≡ₚ done.

Lemma restored_alloc d done (o : object) :
  restored d done ->
  restored (set_objects (<[new_loc (objects d) := o]> (objects d)) d) done.
Proof.
  intros (Hok & Hnone & Httl & Hal & Hperm).
  split; [exact Hok | split; [exact Hnone | split; [exact Httl | split]]].
  - intros k v Hv. cbn [cache objects set_objects] in *. specialize (Hal k v Hv).
    apply allocated_insert, Hal.
  - rewrite <- Hperm. cbn [cache set_objects].
    erewrite omap_ext_in; [reflexivity |].
    intros [k v] Hin. apply elem_of_map_to_list in Hin.
    rewrite !snapshot_entry_eq. cbn [ttlMap objects set_objects].
    pose proof (fun ms => entry_of_frame k ms _ _ o v (Hal k v Hin)
                            (new_loc_fresh (objects d))) as Hf.
    destruct (ttlMap d !! k) as [t|]; [destruct (t <=? now3) |]; rewrite ?Hf; reflexivity.
Qed.

Definition set_ttl (k : string) (ms : Z) : M C unit :=
  if 0 <? ms
  then modify (fun db => set_ttlMap (<[k := time_UnixMilli ms]> (ttlMap db)) db)
  else ret tt.

Lemma UnixMilli_time_UnixMilli ms : UnixMilli (time_UnixMilli ms) = ms.
Proof. unfold UnixMilli, time_UnixMilli. apply Z.div_mul. discriminate. Qed.

Lemma restored_add d done (k : string) (v : Value) (ms : Z) :
  restored d done ->
  k ∉ map rdb.Key done ->
  allocated (objects d) v ->
  ahead (entry_of k ms (objects d) v) ->
  cache_maxBytes (cache d) = 0
  \/ cache_nbytes (cache d) + (len k + types.Len (objects d) v) <= cache_maxBytes (cache d) ->
  exists d', bind (cache_Add now2 k v) (fun _ => set_ttl k ms) d = Some (tt, d')
             /\ restored d' (entry_of k ms (objects d) v :: done)
             /\ cache_maxBytes (cache d') = cache_maxBytes (cache d)
             /\ cache_nbytes (cache d')
                = cache_nbytes (cache d) + (len k + types.Len (objects d) v).
Proof.
  intros (Hok & Hnone & Httl & Hal & Hperm) Hk Hv Hahead Hfit.
  destruct (Hnone k Hk) as [Hvk Htk].
  destruct (Add_fits (objects d) (unix now2) (cache d) k v Hok) as (c1 & HA & Hok1 & Hv1 & Hn1 & Hm1).
  { rewrite Hvk. exact Hfit. }
  rewrite Hvk in Hn1.
  unfold ahead in Hahead. rewrite entry_of_ms in Hahead.
  set (d1 := set_cache c1 d).
  set (d' := if 0 <? ms then set_ttlMap (<[k := time_UnixMilli ms]> (ttlMap d1)) d1 else d1).
  assert (Hrun : bind (cache_Add now2 k v) (fun _ => set_ttl k ms) d = Some (tt, d')).
  { unfold bind, cache_Add. rewrite HA. cbn [fire fold_left]. fold d1.
    unfold set_ttl, d'. destruct (0 <? ms); reflexivity. }
  assert (Hc : cache d' = c1) by (unfold d'; destruct (0 <? ms); reflexivity).
  assert (Ho : objects d' = objects d) by (unfold d'; destruct (0 <? ms); reflexivity).
  assert (Ht : forall k', ttlMap d' !! k'
                          = if decide (k' = k)
                            then (if 0 <? ms then Some (time_UnixMilli ms) else None)
                            else ttlMap d !! k').
  { intros k'. unfold d'. destruct (decide (k' = k)) as [->|Hne].
    - destruct (0 <? ms); cbn; [apply lookup_insert_eq | exact Htk].
    - destruct (0 <? ms); cbn; [apply lookup_insert_ne; congruence | reflexivity]. }
  exists d'. split; [exact Hrun |]. rewrite Hc. split; [|split; [exact Hm1 | exact Hn1]].
  split; [rewrite Hc; exact Hok1 |]. rewrite Hc, Ho, Hv1. split; [|split; [|split]].
  - intros k' Hk'. cbn [map] in Hk'. apply not_elem_of_cons in Hk' as [Hne Hk'].
    rewrite entry_of_Key in Hne. rewrite lookup_insert_ne by congruence.
    rewrite Ht. destruct (decide (k' = k)); [contradiction |]. exact (Hnone k' Hk').
  - intros k' t. rewrite Ht. destruct (decide (k' = k)) as [->|Hne]; [|apply Httl].
    destruct (Z.ltb_spec 0 ms); [|discriminate]. intros [= <-]. lia.
  - intros k' v'. destruct (decide (k' = k)) as [->|Hne].
    + rewrite lookup_insert_eq. intros [= <-]. exact Hv.
    + rewrite lookup_insert_ne by congruence. apply Hal.
  - rewrite (map_to_list_insert _ _ _ Hvk). cbn [omap list_omap].
    assert (Hnew : snapshot_entry d' now3 (k, v) = Some (entry_of k ms (objects d) v)).
    { rewrite snapshot_entry_eq, Ht, Ho. rewrite decide_True by reflexivity.
      destruct (Z.ltb_spec 0 ms) as [Hpos|Hnp].
      - destruct (Z.leb_spec (time_UnixMilli ms) now3); [lia |].
        rewrite UnixMilli_time_UnixMilli. reflexivity.
      - assert (ms = 0) as -> by lia. reflexivity. }
    change (omap (snapshot_entry d' now3) ((k, v) :: map_to_list (view (cache d))))
      with (match snapshot_entry d' now3 (k, v) with
            | Some y => y :: omap (snapshot_entry d' now3) (map_to_list (view (cache d)))
            | None => omap (snapshot_entry d' now3) (map_to_list (view (cache d)))
            end).
    rewrite Hnew. apply Permutation_skip. rewrite <- Hperm.
    erewrite omap_ext_in; [reflexivity |].
    intros [k' v'] Hin. apply elem_of_map_to_list in Hin.
    rewrite !snapshot_entry_eq, Ht, Ho.
    destruct (decide (k' = k)) as [->|Hne]; [congruence | reflexivity].
Qed.

Lemma restored_object d done (k : string) (ms : Z) (o : object) (mk : loc -> Value)
    (e : rdb.Entry) :
  let l := new_loc (objects d) in
  let st1 := <[l := o]> (objects d) in
  restored d done ->
  k ∉ map rdb.Key done ->
  allocated st1 (mk l) ->
  entry_of k ms st1 (mk l) = e ->
  len k + types.Len st1 (mk l) = entry_bytes e ->
  ahead e ->
  cache_maxBytes (cache d) = 0
  \/ cache_nbytes (cache d) + entry_bytes e <= cache_maxBytes (cache d) ->
  exists d', bind (new_object o)
                  (fun l => bind (cache_Add now2 k (mk l)) (fun _ => set_ttl k ms)) d
             = Some (tt, d')
             /\ restored d' (e :: done)
             /\ cache_maxBytes (cache d') = cache_maxBytes (cache d)
             /\ cache_nbytes (cache d') = cache_nbytes (cache d) + entry_bytes e.
Proof.
  intros l st1 Hres Hk Hal He Hb Hahead Hfit.
  pose proof (restored_alloc d done o Hres) as Hres1. fold l st1 in Hres1.
  destruct (restored_add (set_objects st1 d) done k (mk l) ms Hres1 Hk) as (d' & Hrun & H).
  - exact Hal.
  - cbn [objects set_objects]. rewrite He. exact Hahead.
  - cbn [objects set_objects cache]. rewrite Hb. exact Hfit.
  - exists d'. split.
    + unfold bind at 1. unfold new_object, alloc. fold l st1. exact Hrun.
    + cbn [objects set_objects cache] in H. rewrite He, Hb in H. exact H.
Qed.

Lemma ahead_not_skipped (e : rdb.Entry) :
  ahead e ->
  (0 <? rdb.ExpireAtUnixMs e) && (rdb.ExpireAtUnixMs e <=? UnixMilli now2) = false.
Proof.
  unfold ahead. intros [->|(H1 & H2 & _)]; [reflexivity |].
  apply andb_false_iff. right. apply Z.leb_gt. exact H2.
Qed.

(** One turn of the loop of [applySnapshot] on an entry a snapshot made. *)
Lemma apply_entry_restores d done (k : string) (ms : Z) (st0 : store) (v0 : Value) :
  let e := entry_of k ms st0 v0 in
  restored d done ->
  k ∉ map rdb.Key done ->
  ahead e ->
  cache_maxBytes (cache d) = 0
  \/ cache_nbytes (cache d) + entry_bytes e <= cache_maxBytes (cache d) ->
  exists d', apply_entry now2 e d = Some (tt, d')
             /\ restored d' (e :: done)
             /\ cache_maxBytes (cache d') = cache_maxBytes (cache d)
             /\ cache_nbytes (cache d') = cache_nbytes (cache d) + entry_bytes e.
Proof.
  intros e Hres Hk Hahead Hfit. unfold apply_entry.
  rewrite (ahead_not_skipped e Hahead).
  assert (Hms : rdb.ExpireAtUnixMs e = ms) by apply entry_of_ms.
  assert (Hkey : rdb.Key e = k) by apply entry_of_Key.
  rewrite Hms, Hkey. fold (set_ttl k ms).
  destruct v0 as [b|l0|h0|s0]; subst e; cbn [entry_of mkEntry rdb.Type_ rdb.String_
    rdb.List rdb.Hash rdb.Set_ Z.eqb rdb.TypeString rdb.TypeList rdb.TypeHash rdb.TypeSet
    Pos.eqb].
  - destruct (restored_add d done k (StringData b) ms Hres Hk I Hahead) as (d' & Hrun & H).
    + exact Hfit.
    + exists d'. split; [exact Hrun | exact H].
  - apply (restored_object d done k ms _ ListData); try assumption.
    + unfold allocated. rewrite store_lookup_insert. eauto.
    + cbn [entry_of]. unfold list_elems. rewrite store_lookup_insert. reflexivity.
    + cbn [types.Len]. unfold list_elems. rewrite store_lookup_insert. reflexivity.
  - apply (restored_object d done k ms _ HashData); try assumption.
    + unfold allocated. rewrite store_lookup_insert. eauto.
    + cbn [entry_of]. unfold hash_fields. rewrite store_lookup_insert. reflexivity.
    + cbn [types.Len]. unfold hash_fields. rewrite store_lookup_insert. reflexivity.
  - apply (restored_object d done k ms _ SetData); try assumption.
    + unfold allocated. rewrite store_lookup_insert. eauto.
    + cbn [entry_of]. unfold set_members at 1. rewrite store_lookup_insert.
      f_equal. unfold rdb.sort_strings.
      rewrite list_to_set_perm_L by apply merge_sort_Permutation.
      rewrite list_to_set_elements_L. reflexivity.
    + cbn [types.Len]. unfold set_members at 1. rewrite store_lookup_insert. reflexivity.
Qed.

Lemma apply_loop_restores (entries : list rdb.Entry) d done :
  restored d done ->
  Forall (fun e => exists k ms st v, e = entry_of k ms st v) entries ->
  Forall ahead entries ->
  NoDup (map rdb.Key (entries ++ done)) ->
  cache_maxBytes (cache d) = 0
  \/ cache_nbytes (cache d) + entries_bytes entries <= cache_maxBytes (cache d) ->
  exists d', apply_loop now2 entries d = Some (tt, d')
             /\ restored d' (rev entries ++ done).
Proof.
  revert d done. induction entries as [|e entries IH]; intros d done Hres Hent Hah Hnd Hfit.
  - exists d. split; [reflexivity | exact Hres].
  - apply Forall_cons in Hent as [(k & ms & st & v & ->) Hent].
    apply Forall_cons in Hah as [Hah1 Hah].
    cbn [app map] in Hnd. apply NoDup_cons in Hnd as [Hk Hnd].
    rewrite entry_of_Key in Hk. cbn [entries_bytes foldr] in Hfit.
    fold (entries_bytes entries) in Hfit.
    destruct (apply_entry_restores d done k ms st v Hres) as (d1 & Hrun & Hres1 & Hm1 & Hn1).
    + intros Hin. apply Hk. rewrite map_app. apply elem_of_app. right. exact Hin.
    + exact Hah1.
    + destruct Hfit as [?|?]; [left; assumption | right].
      pose proof (entries_bytes_nonneg entries). lia.
    + destruct (IH d1 (entry_of k ms st v :: done) Hres1 Hent Hah) as (d' & Hrun' & Hres').
      * rewrite map_app in *. cbn [map]. rewrite entry_of_Key.
        apply NoDup_app in Hnd as (Hnd1 & Hdis & Hnd2).
        apply NoDup_app. split; [exact Hnd1 | split].
        -- intros x Hx Hx'. apply elem_of_cons in Hx' as [->|Hx'].
           ++ apply Hk. apply elem_of_app. left. exact Hx.
           ++ exact (Hdis x Hx Hx').
        -- apply NoDup_cons. split; [|exact Hnd2].
           intros Hin. apply Hk. apply elem_of_app. right. exact Hin.
      * rewrite Hm1, Hn1. destruct Hfit as [?|?]; [left; assumption | right; lia].
      * exists d'. cbn [apply_loop]. unfold bind. rewrite Hrun.
        split; [exact Hrun' |]. cbn [rev]. rewrite <- app_assoc. exact Hres'.
Qed.

End Restore.

(** **** The two snapshots *)

Lemma purge_loop_ahead now (l : list (string * Z)) d :
  (forall k t, (k, t) ∈ l -> now < t) -> purge_loop now l d = Some (tt, d).
Proof.
  induction l as [|[k t] l IH]; intros H; cbn [purge_loop]; [reflexivity |].
  unfold bind. destruct (Z.leb_spec t now) as [Hle|_].
  - specialize (H k t ltac:(left)). lia.
  - cbn [ret]. apply IH. intros k' t' Hin. apply (H k' t'). right. exact Hin.
Qed.

Lemma NoDup_omap_keys (f : string * Value -> option rdb.Entry) (l : list (string * Value)) :
  (forall kv e, f kv = Some e -> rdb.Key e = kv.1) ->
  NoDup (map fst l) -> NoDup (map rdb.Key (omap f l)).
Proof.
  intros Hf. induction l as [|kv l IH]; intros Hnd; [constructor |].
  cbn [map] in Hnd. apply NoDup_cons in Hnd as [Hk Hnd].
  change (omap f (kv :: l)) with (match f kv with Some y => y :: omap f l | None => omap f l end).
  destruct (f kv) as [e|] eqn:E; [|exact (IH Hnd)].
  cbn [map]. apply NoDup_cons. split; [|exact (IH Hnd)].
  intros Hin. apply Hk. rewrite <- (Hf kv e E).
  apply list_elem_of_fmap in Hin as (e' & He' & Hin').
  apply list_elem_of_omap in Hin' as (kv' & Hkv' & E').
  rewrite He', (Hf kv' e' E'). apply (list_elem_of_fmap_2 fst), Hkv'.
Qed.

Lemma snapshot_entry_Key d now kv e : snapshot_entry d now kv = Some e -> rdb.Key e = kv.1.
Proof.
  destruct kv as [k v]. rewrite snapshot_entry_eq.
  destruct (ttlMap d !! k) as [t|]; [destruct (t <=? now) |]; intros [= <-];
    apply entry_of_Key.
Qed.

Lemma snapshot_entry_shape d now kv e :
  snapshot_entry d now kv = Some e -> exists k ms st v, e = entry_of k ms st v.
Proof.
  destruct kv as [k v]. rewrite snapshot_entry_eq.
  destruct (ttlMap d !! k) as [t|]; [destruct (t <=? now) |]; intros [= <-]; eauto.
Qed.

(** What [snapshotEntries] returns once the past-due keys are swept. *)
Lemma snapshotEntries_eq now d (entries : list rdb.Entry) d1 :
  ok (cache d) ->
  snapshotEntries now d = Some (entries, d1) ->
  ok (cache d1)
  /\ entries = rdb.sort_entries (omap (snapshot_entry d1 now) (ForEach (cache d1))).
Proof.
  intros Hok H. split.
  - exact (proj1 (steps_snapshotEntries true now d entries d1 Hok H)).
  - unfold snapshotEntries, bind in H.
    destruct (purgeExpiredAll now d) as [[u d1']|]; [|discriminate].
    injection H as <- <-. reflexivity.
Qed.

(** [snapshotEntries] always returns. *)
Lemma snapshotEntries_returns now d :
  exists entries d1, snapshotEntries now d = Some (entries, d1).
Proof.
  unfold snapshotEntries, purgeExpiredAll, bind, gets.
  assert (H : forall l d0, exists d1, purge_loop now l d0 = Some (tt, d1)).
  { induction l as [|[k t] l IH]; intros d0; cbn [purge_loop]; [eauto |].
    unfold bind. destruct (t <=? now).
    - unfold cache_Remove. destruct (Remove _ _ _) as [c evs]. apply IH.
    - apply IH. }
  destruct (H (map_to_list (ttlMap d)) d) as [d1 ->]. eauto.
Qed.

(** C3. A snapshot that is restored into a core where it fits the byte
    budget, with no expiry passing before the second snapshot is taken,
    comes back as the same list of entries; and the two files written from
    them are the same after the header and the creation time, whatever the
    clock read at each save. *)
Theorem snapshot_restore_snapshot_same_payload (d d1 dA : StandaloneDB C)
    (now1 now2 now3 : Z) (entries : list rdb.Entry) :
  ok (cache d) ->
  ok (cache dA) ->
  snapshotEntries now1 d = Some (entries, d1) ->
  Forall (ahead now2 now3) entries ->
  cache_maxBytes (cache dA) = 0
  \/ cache_nbytes (cache dA) - entries_size (objects dA) (cache dA) + entries_bytes entries
     <= cache_maxBytes (cache dA) ->
  exists d2 entries2 d3 payload,
    applySnapshot now2 entries dA = Some (tt, d2)
    /\ snapshotEntries now3 d2 = Some (entries2, d3)
    /\ entries2 = entries
    /\ forall createdAt1 createdAt2,
         rdb.SaveToWriter createdAt1 entries
         = Some (rdb.magicHeader +:+ rdb.writeInt64 createdAt1 +:+ payload)
         /\ rdb.SaveToWriter createdAt2 entries2
            = Some (rdb.magicHeader +:+ rdb.writeInt64 createdAt2 +:+ payload).
Proof.
  intros Hok HokA H1 Hahead Hfit.
  destruct (snapshotEntries_eq now1 d entries d1 Hok H1) as [Hok1 HE].
  set (L1 := omap (snapshot_entry d1 now1) (ForEach (cache d1))) in HE.
  assert (Hperm1 : entries ≡ₚ L1).
  { rewrite HE. unfold rdb.sort_entries. apply merge_sort_Permutation. }
  assert (Hshape1 : Forall (fun e => exists k ms st v, e = entry_of k ms st v) L1).
  { apply Forall_forall. intros e He. apply list_elem_of_omap in He as (kv & _ & He).
    exact (snapshot_entry_shape _ _ _ _ He). }
  assert (Hnd1 : NoDup (map rdb.Key L1)).
  { apply NoDup_omap_keys; [apply snapshot_entry_Key |].
    rewrite (ForEach_view _ Hok1). apply NoDup_fst_map_to_list. }
  destruct (applySnapshot_clears now2 entries dA HokA)
    as (d0 & Hclear & Hok0 & Hv0 & Ht0 & Hm0 & Hn0).
  destruct (apply_loop_restores now2 now3 entries d0 []) as (d2 & Hloop & Hres).
  - split; [exact Hok0 |]. rewrite Hv0, Ht0.
    split; [intros k _; rewrite !lookup_empty; auto |].
    split; [intros k t; rewrite lookup_empty; discriminate |].
    split; [intros k v; rewrite lookup_empty; discriminate |].
    rewrite map_to_list_empty. reflexivity.
  - rewrite Hperm1. exact Hshape1.
  - exact Hahead.
  - rewrite app_nil_r, Hperm1. exact Hnd1.
  - rewrite Hm0, Hn0. exact Hfit.
  - rewrite app_nil_r in Hres. destruct Hres as (Hok2 & _ & Httl2 & _ & Hperm2).
    assert (Hpurge : purgeExpiredAll now3 d2 = Some (tt, d2)).
    { unfold purgeExpiredAll, bind, gets. apply purge_loop_ahead.
      intros k t Hin. apply elem_of_map_to_list in Hin. exact (Httl2 k t Hin). }
    assert (Hwr : Forall writable entries).
    { rewrite Hperm1. eapply Forall_impl; [exact Hshape1 |].
      intros e (k & ms & st & v & ->). apply entry_of_writable. }
    destruct (SaveToWriter_payload entries Hwr) as [payload Hsave].
    exists d2, entries, d2, payload.
    split; [rewrite Hclear; exact Hloop |].
    split; [|split; [reflexivity | intros c1 c2; split; apply Hsave]].
    unfold snapshotEntries, bind. rewrite Hpurge. unfold gets. do 2 f_equal.
    rewrite HE. symmetry. apply sort_entries_unique; [exact Hnd1 |].
    rewrite (ForEach_view _ Hok2), Hperm2, Permutation_rev, Hperm1. reflexivity.
Qed.

End Snapshot.

(** A keyspace with one key of each type, one of them with a TTL. *)
Definition sample_keyspace : StandaloneDB Cache :=
  after [(0, ["SET"; "s"; "v"]); (0, ["RPUSH"; "l"; "a"; "b"]); (0, ["HSET"; "h"; "f"; "x"]);
         (0, ["SADD"; "m"; "b"; "a"]); (0, ["EXPIRE"; "l"; "100"])]%string
        (NewStandaloneDB_lru 0 false).

Definition sample_snapshot : option (list rdb.Entry * StandaloneDB Cache) :=
  Eval vm_compute in snapshotEntries second sample_keyspace.

Definition sample_entries : list rdb.Entry :=
  match sample_snapshot with Some (entries, _) => entries | None => [] end.

Definition sample_swept : StandaloneDB Cache :=
  match sample_snapshot with Some (_, d1) => d1 | None => sample_keyspace end.

Lemma sample_keyspace_ok : ok (cache sample_keyspace).
Proof.
  split.
  - apply (bool_decide_unpack _). vm_compute. exact I.
  - vm_compute. repeat constructor.
Qed.

Lemma snapshot_restore_snapshot_same_payload_witness :
  exists d2 entries2 d3 payload,
    applySnapshot (2 * second) sample_entries (NewStandaloneDB_lru 0 false) = Some (tt, d2)
    /\ snapshotEntries (3 * second) d2 = Some (entries2, d3)
    /\ entries2 = sample_entries
    /\ forall createdAt1 createdAt2,
         rdb.SaveToWriter createdAt1 sample_entries
         = Some (rdb.magicHeader +:+ rdb.writeInt64 createdAt1 +:+ payload)
         /\ rdb.SaveToWriter createdAt2 entries2
            = Some (rdb.magicHeader +:+ rdb.writeInt64 createdAt2 +:+ payload).
Proof.
  apply (snapshot_restore_snapshot_same_payload sample_keyspace sample_swept
           (NewStandaloneDB_lru 0 false) second (2 * second) (3 * second) sample_entries).
  - exact sample_keyspace_ok.
  - split; vm_compute; constructor.
  - vm_compute. reflexivity.
  - repeat constructor; unfold ahead; vm_compute;
      first [left; reflexivity | right; repeat split; reflexivity].
  - right. vm_compute. discriminate.
Defined.

Definition sample_restored : StandaloneDB Cache :=
  match applySnapshot (2 * second) sample_entries (NewStandaloneDB_lru 0 false) with
  | Some (_, d2) => d2
  | None => NewStandaloneDB_lru 0 false
  end.

(** The claim as stated fails: the creation time is part of the file, so
    the file saved after the restore differs from the first one as soon as
    the clock has moved by a millisecond. *)
Lemma two_saves_differ_in_creation_time :
  applySnapshot (2 * second) sample_entries (NewStandaloneDB_lru 0 false)
  = Some (tt, sample_restored)
  /\ snapshotEntries (3 * second) sample_restored = Some (sample_entries, sample_restored)
  /\ is_Some (rdb.SaveToWriter (UnixMilli second) sample_entries)
  /\ rdb.SaveToWriter (UnixMilli second) sample_entries
     <> rdb.SaveToWriter (UnixMilli (3 * second)) sample_entries.
Proof.
  split; [vm_compute; reflexivity |].
  split; [vm_compute; reflexivity |].
  split; [vm_compute; eauto | vm_compute; discriminate].
Qed.


(** ** The LRU cache: order of eviction and termination of [Add] *)

(** The cache right after [Add] has placed the entry, before it evicts. *)
Definition lru_added (st : store) (c : Cache) (k : string) (v : Value) : Cache :=
  match find_entry k (ll c) with
  | Some kv =>
      {| maxBytes := maxBytes c;
         nbytes := nbytes c + (types.Len st v - types.Len st (value kv));
         ll := {| key := k; value := v; expiresAt := 0 |} :: drop_key k (ll c) |}
  | None =>
      {| maxBytes := maxBytes c;
         nbytes := nbytes c + (len k + types.Len st v);
         ll := {| key := k; value := v; expiresAt := 0 |} :: ll c |}
  end.

Lemma Cache_Add_unfold st now c k v :
  Cache_Add st now c k v 0
  = evict_loop (length (ll (lru_added st c k v))) st (lru_added st c k v).
Proof. unfold Cache_Add, lru_added. destruct (find_entry k (ll c)); reflexivity. Qed.

Lemma lru_added_ok st c k v : lru_ok c -> lru_ok (lru_added st c k v).
Proof.
  intros Hok. unfold lru_added. destruct (find_entry k (ll c)) as [e|] eqn:E.
  - destruct (drop_key_ok k c (maxBytes c) (nbytes c) Hok) as [Hnd Hex]. cbn in *.
    split; cbn; constructor; auto using not_in_drop_key.
  - destruct Hok as [Hnd Hex]. split; cbn; constructor; auto.
    pose proof (find_entry_view k (ll c)) as Hv. rewrite E in Hv. cbn in Hv.
    symmetry in Hv. apply not_elem_of_list_to_map_2 in Hv.
    rewrite <- list_fmap_compose in Hv. exact Hv.
Qed.

Lemma lru_added_keys st c k v :
  map key (ll (lru_added st c k v)) = k :: filter (fun k' => k' <> k) (map key (ll c)).
Proof.
  unfold lru_added. destruct (find_entry k (ll c)) as [e|] eqn:E; cbn [ll map key].
  - rewrite drop_key_keys. reflexivity.
  - f_equal. rewrite <- drop_key_keys, (drop_key_absent k (ll c) E). reflexivity.
Qed.

(** What the byte total tracks beyond the estimates of the entries held. *)
Definition drift (st : store) (c : Cache) : Z := nbytes c - held st (ll c).

Lemma lru_added_drift st c k v : lru_ok c -> drift st (lru_added st c k v) = drift st c.
Proof.
  intros [Hnd _]. unfold drift, lru_added.
  destruct (find_entry k (ll c)) as [e|] eqn:E; cbn [nbytes ll].
  - apply find_entry_key in E as [Hk Hin]. subst k.
    change (held st ({| key := key e; value := v; expiresAt := 0 |} :: drop_key (key e) (ll c)))
      with (len (key e) + types.Len st v + held st (drop_key (key e) (ll c))).
    rewrite (held_drop_unique st (ll c) e Hnd Hin). lia.
  - change (held st ({| key := k; value := v; expiresAt := 0 |} :: ll c))
      with (len k + types.Len st v + held st (ll c)). lia.
Qed.

Lemma drop_last_key (l : list entry) (e : entry) :
  NoDup (map key (l ++ [e])) -> drop_key (key e) (l ++ [e]) = l.
Proof.
  intros Hnd. rewrite map_app in Hnd. apply NoDup_app in Hnd as (_ & Hdis & _).
  unfold drop_key. rewrite filter_app, filter_cons, filter_nil.
  rewrite decide_False by (intros H; apply H; reflexivity). rewrite app_nil_r.
  apply (drop_key_all (key e) l). intros Hin. apply (Hdis (key e) Hin). cbn. left.
Qed.

Lemma evict_loop_order (fuel : nat) st c c' evs :
  lru_ok c -> evict_loop fuel st c = Some (c', evs) ->
  map key (ll c) = map key (ll c') ++ rev (map event_key evs).
Proof.
  revert c c' evs. induction fuel as [|fuel IH]; intros c c' evs Hok H; cbn [evict_loop] in H.
  - destruct (over_budget (maxBytes c) (nbytes c)); [discriminate |].
    injection H as <- <-. cbn. rewrite app_nil_r. reflexivity.
  - destruct (over_budget (maxBytes c) (nbytes c)).
    2:{ injection H as <- <-. cbn. rewrite app_nil_r. reflexivity. }
    destruct (last (ll c)) as [ele|] eqn:El; [|discriminate].
    apply last_Some in El as [l0 El].
    unfold removeEntry in H.
    match type of H with
    | match evict_loop _ _ ?c1 with _ => _ end = _ =>
        destruct (evict_loop fuel st c1) as [[c'' evs']|] eqn:E1; [|discriminate];
        pose proof (IH c1 c'' evs') as IH'
    end.
    injection H as <- <-.
    assert (Hd : drop_key (key ele) (ll c) = l0).
    { rewrite El. apply drop_last_key. rewrite <- El. exact (proj1 Hok). }
    cbn [ll] in IH'. rewrite Hd in IH'.
    rewrite El, map_app. cbn [map rev event_key fst].
    rewrite IH'.
    + rewrite <- app_assoc. reflexivity.
    + destruct (drop_key_ok (key ele) c (maxBytes c)
                  (nbytes c - (len (key ele) + types.Len st (value ele))) Hok) as [H1 H2].
      split; cbn in *; rewrite <- Hd; assumption.
    + rewrite <- Hd. exact E1.
Qed.

(** [Add] evicts from the least recently used end: the keys that stay are
    the most recently used ones in their order, the new key first, and the
    callbacks name the others from the least recently used upwards. *)
Theorem lru_Add_evicts_least_recently_used st now (c c' : Cache) (k : string) (v : Value)
    (evs : list event) :
  lru_ok c ->
  Cache_Add st now c k v 0 = Some (c', evs) ->
  k :: filter (fun k' => k' <> k) (map key (ll c))
  = map key (ll c') ++ rev (map event_key evs).
Proof.
  intros Hok H. rewrite Cache_Add_unfold in H. rewrite <- (lru_added_keys st c k v).
  exact (evict_loop_order _ st _ c' evs (lru_added_ok st c k v Hok) H).
Qed.

Definition three_keys : Cache :=
  {| maxBytes := 10; nbytes := 9;
     ll := [ {| key := "c"; value := StringData "zz"; expiresAt := 0 |};
             {| key := "b"; value := StringData "yy"; expiresAt := 0 |};
             {| key := "a"; value := StringData "xx"; expiresAt := 0 |} ] |}.

Lemma three_keys_ok : lru_ok three_keys.
Proof.
  split.
  - apply (bool_decide_unpack _). vm_compute. exact I.
  - repeat constructor.
Qed.

Lemma lru_Add_evicts_least_recently_used_witness :
  exists c' evs,
    Cache_Add ∅ 0 three_keys "b" (StringData "wwwwwwww") 0 = Some (c', evs)
    /\ ["b"; "c"; "a"]%string = map key (ll c') ++ rev (map event_key evs)
    /\ map event_key evs = ["a"; "c"]%string.
Proof.
  destruct (Cache_Add ∅ 0 three_keys "b" (StringData "wwwwwwww") 0) as [[c' evs]|] eqn:E;
    [|vm_compute in E; discriminate].
  exists c', evs. split; [reflexivity |]. split.
  - exact (lru_Add_evicts_least_recently_used ∅ 0 three_keys c' "b" (StringData "wwwwwwww")
             evs three_keys_ok E).
  - vm_compute in E. injection E as <- <-. reflexivity.
Defined.

Lemma evict_loop_drift (fuel : nat) st c c' evs :
  lru_ok c -> evict_loop fuel st c = Some (c', evs) -> drift st c' = drift st c.
Proof.
  revert c c' evs. induction fuel as [|fuel IH]; intros c c' evs Hok H; cbn [evict_loop] in H.
  - destruct (over_budget (maxBytes c) (nbytes c)); [discriminate |].
    injection H as <- <-. reflexivity.
  - destruct (over_budget (maxBytes c) (nbytes c)).
    2:{ injection H as <- <-. reflexivity. }
    destruct (last (ll c)) as [ele|] eqn:El; [|discriminate].
    pose proof (last_elem_of _ _ El) as Hin.
    unfold removeEntry in H.
    match type of H with
    | match evict_loop _ _ ?c1 with _ => _ end = _ =>
        destruct (evict_loop fuel st c1) as [[c'' evs']|] eqn:E1; [|discriminate];
        pose proof (IH c1 c'' evs') as IH'
    end.
    injection H as <- <-. rewrite IH'.
    + unfold drift. cbn [nbytes ll].
      rewrite (held_drop_unique st (ll c) ele (proj1 Hok) Hin). lia.
    + apply (drop_key_ok (key ele) c), Hok.
    + exact E1.
Qed.

Lemma evict_loop_total_drift st c :
  lru_ok c -> drift st c <= maxBytes c ->
  exists c' evs, evict_loop (length (ll c)) st c = Some (c', evs).
Proof.
  unfold drift. remember (length (ll c)) as n eqn:Hn. revert c Hn.
  induction n as [|n IH]; intros c Hn Hok Hheld.
  - destruct (ll c) eqn:El; [|discriminate]. cbn [held foldr] in Hheld.
    exists c, []. cbn [evict_loop].
    assert (E : over_budget (maxBytes c) (nbytes c) = false)
      by (apply over_budget_false; right; lia).
    rewrite E. reflexivity.
  - cbn [evict_loop]. destruct (over_budget (maxBytes c) (nbytes c)) eqn:Hob;
      [|eexists _, _; reflexivity].
    destruct (last (ll c)) as [ele|] eqn:El.
    2:{ apply last_None in El. rewrite El in Hn. discriminate. }
    pose proof (last_elem_of _ _ El) as Hin.
    unfold removeEntry.
    match goal with
    | |- context [evict_loop n st ?c1] => set (c1' := c1)
    end.
    assert (Hlen : n = length (ll c1')).
    { unfold c1'. cbn [ll]. apply last_Some in El as [l' El].
      rewrite (f_equal (drop_key (key ele)) El), drop_last_key
        by (rewrite <- El; exact (proj1 Hok)).
      rewrite El, length_app in Hn. cbn in Hn. lia. }
    destruct (IH c1' Hlen) as (c' & evs & E).
    + apply (drop_key_ok (key ele) c), Hok.
    + unfold c1'. cbn [nbytes ll maxBytes].
      rewrite (held_drop_unique st (ll c) ele (proj1 Hok) Hin). lia.
    + rewrite E. eexists _, _. reflexivity.
Qed.

(** [Add] returns exactly when the budget is 0 or the bytes tracked beyond
    the estimates of the entries held are within the budget; otherwise its
    eviction loop empties the cache and then spins.  In particular a cache
    made with a negative budget hangs on its first [Add], and a cache with a
    positive budget whose tracked total is within it never hangs. *)
Theorem lru_Add_returns_iff_drift_fits st now (c : Cache) (k : string) (v : Value) :
  lru_ok c ->
  (exists c' evs, Cache_Add st now c k v 0 = Some (c', evs))
  <-> (maxBytes c = 0 \/ nbytes c - held st (ll c) <= maxBytes c).
Proof.
  intros Hok. rewrite Cache_Add_unfold.
  pose proof (lru_added_ok st c k v Hok) as Hok1.
  pose proof (lru_added_drift st c k v Hok) as Hd. fold (drift st c).
  assert (Hm : maxBytes (lru_added st c k v) = maxBytes c).
  { unfold lru_added. destruct (find_entry k (ll c)); reflexivity. }
  split.
  - intros (c' & evs & H).
    destruct (evict_loop_returns _ _ _ _ _ Hok1 H) as (_ & _ & _ & Hmax & Hb).
    pose proof (evict_loop_drift _ _ _ _ _ Hok1 H) as Hd'.
    destruct Hb as [Hz|Hle]; [left; congruence | right].
    rewrite <- Hd, <- Hd', <- Hm, <- Hmax. unfold drift.
    pose proof (held_nonneg st (ll c')). lia.
  - intros [Hz|Hle].
    + destruct (ll (lru_added st c k v)) eqn:El; cbn [length evict_loop];
        rewrite (proj2 (over_budget_false _ _)) by (left; congruence); eauto.
    + apply evict_loop_total_drift; [exact Hok1 |]. rewrite Hd, Hm. exact Hle.
Qed.

Lemma lru_Add_returns_iff_drift_fits_witness :
  Cache_Add ∅ 0 (New (-1)) "k" (StringData "v") 0 = None
  /\ exists c' evs, Cache_Add ∅ 0 three_keys "d" (StringData "vv") 0 = Some (c', evs).
Proof.
  split.
  - destruct (Cache_Add ∅ 0 (New (-1)) "k" (StringData "v") 0) as [[c' evs]|] eqn:E;
      [exfalso | reflexivity].
    assert (Hok : lru_ok (New (-1))) by (split; constructor).
    destruct (proj1 (lru_Add_returns_iff_drift_fits ∅ 0 (New (-1)) "k" (StringData "v") Hok))
      as [H|H]; [eauto | discriminate H | vm_compute in H; apply H; reflexivity].
  - apply (proj2 (lru_Add_returns_iff_drift_fits ∅ 0 three_keys "d" (StringData "vv")
                    three_keys_ok)).
    right. vm_compute. discriminate.
Defined.





(** ** Under LRU no command hangs *)

(** The LRU cache of the core is well-formed, has a positive budget and
    tracks no more than the budget. *)
Definition within_budget (d : StandaloneDB Cache) : Prop :=
  lru_ok (cache d) /\ 0 < maxBytes (cache d) /\ nbytes (cache d) <= maxBytes (cache d).

(** [m] returns from every such state, in such a state. *)
Definition runs {A : Type} (m : M Cache A) : Prop :=
  forall d, within_budget d -> exists a d', m d = Some (a, d') /\ within_budget d'.

Lemma runs_ret {A : Type} (a : A) : runs (ret a).
Proof. intros d H. exists a, d. auto. Qed.

Lemma runs_gets {A : Type} (f : StandaloneDB Cache -> A) : runs (gets f).
Proof. intros d H. exists (f d), d. auto. Qed.

Lemma runs_bind {A B : Type} (m : M Cache A) (f : A -> M Cache B) :
  runs m -> (forall a, runs (f a)) -> runs (bind m f).
Proof.
  intros Hm Hf d H. destruct (Hm d H) as (a & d1 & E & H1).
  destruct (Hf a d1 H1) as (b & d2 & E2 & H2).
  exists b, d2. unfold bind. rewrite E. auto.
Qed.

Lemma runs_cache_Get now k : runs (cache_Get now k).
Proof.
  intros d (Hok & Hpos & Hle). change (ok (cache d)) in Hok.
  destruct (cache_Get_eq d now k Hok) as (c1 & HG & Hok1 & _ & Hn & Hm).
  eexists _, _. split; [exact HG |].
  change (nbytes c1 = nbytes (cache d)) in Hn. change (maxBytes c1 = maxBytes (cache d)) in Hm.
  unfold within_budget. cbn [cache set_cache].
  split; [exact Hok1 | split; lia].
Qed.

Lemma runs_cache_Peek now k : runs (cache_Peek now k).
Proof.
  intros d H. eexists _, _.
  split; [exact (cache_Peek_eq d now k (proj1 H : ok (cache d))) | exact H].
Qed.

Lemma runs_cache_Remove k : runs (cache_Remove k).
Proof.
  intros d (Hok & Hpos & Hle). change (ok (cache d)) in Hok.
  destruct (view (cache d) !! k) as [v|] eqn:Ev.
  - destruct (cache_Remove_present_eq d k v Hok Ev) as (c1 & HR & Hok1 & _ & Hn & Hm).
    eexists _, _. split; [exact HR |]. rewrite onEvicted_deleted.
    change (nbytes c1 = nbytes (cache d) - (len k + types.Len (objects d) v)) in Hn.
    change (maxBytes c1 = maxBytes (cache d)) in Hm.
    unfold within_budget. cbn [cache set_cache set_ttlMap set_callbacks].
    pose proof (len_nonneg k). pose proof (Len_nonneg (objects d) v).
    split; [exact Hok1 | split; lia].
  - eexists _, _. split; [exact (cache_Remove_absent_eq d k Hok Ev) |].
    split; [exact Hok | split; assumption].
Qed.

Lemma runs_cache_Add now k v : runs (cache_Add now k v).
Proof.
  intros d (Hok & Hpos & Hle). unfold cache_Add.
  change (Add (objects d) (unix now) (cache d) k v 0)
    with (Cache_Add (objects d) (unix now) (cache d) k v 0).
  destruct (Cache_Add (objects d) (unix now) (cache d) k v 0) as [[c1 evs]|] eqn:E.
  - destruct (lru_Add_returns _ _ _ _ _ _ _ Hok E) as (Hok1 & _ & _ & Hm & Hb).
    eexists _, _. split; [reflexivity |].
    destruct (fire_fields evs (set_cache c1 d)) as (Hc & _ & _).
    unfold within_budget. rewrite Hc. cbn [cache set_cache].
    split; [exact Hok1 | split; lia].
  - exfalso. rewrite Cache_Add_unfold in E.
    destruct (evict_loop_total_drift (objects d) (lru_added (objects d) (cache d) k v))
      as (c' & evs & E').
    + apply lru_added_ok, Hok.
    + rewrite lru_added_drift by exact Hok. unfold drift.
      pose proof (held_nonneg (objects d) (ll (cache d))).
      assert (maxBytes (lru_added (objects d) (cache d) k v) = maxBytes (cache d))
        by (unfold lru_added; destruct (find_entry k (ll (cache d))); reflexivity).
      lia.
    + congruence.
Qed.

Lemma runs_AddAof (args : list string) : runs (AddAof args).
Proof.
  intros d H. unfold AddAof, modify. eexists _, _. split; [reflexivity |].
  destruct (aofHandler d); exact H.
Qed.

Lemma runs_set_ttlMap (f : StandaloneDB Cache -> gmap string Z) :
  runs (modify (fun d => set_ttlMap (f d) d)).
Proof. intros d H. eexists _, _. split; [reflexivity | exact H]. Qed.

Lemma runs_new_object (o : object) : runs (new_object o).
Proof. intros d H. eexists _, _. split; [reflexivity | exact H]. Qed.

Lemma runs_write_object (l : loc) (o : object) : runs (write_object l o).
Proof. intros d H. eexists _, _. split; [reflexivity | exact H]. Qed.

Ltac runs_tac :=
  repeat first
    [ apply runs_ret | apply runs_gets | apply runs_cache_Get | apply runs_cache_Peek
    | apply runs_cache_Remove | apply runs_cache_Add | apply runs_AddAof
    | apply runs_set_ttlMap | apply runs_new_object | apply runs_write_object
    | assumption
    | apply runs_bind; [|intros ?]
    | match goal with
      | |- runs (match ?x with _ => _ end) => destruct x
      end ].

Section Commands.

Context (admin_refused : string -> option Reply) (admin_reply : string -> Reply).

Lemma runs_del_loop now keys deleted : runs (del_loop now keys deleted).
Proof.
  revert deleted. induction keys as [|k keys IH]; intros deleted; cbn [del_loop];
    runs_tac; apply IH.
Qed.

Lemma runs_purge_loop now l : runs (purge_loop now l).
Proof. induction l as [|[k t] l IH]; cbn [purge_loop]; runs_tac. Qed.

Lemma runs_getHash now k : runs (getHash now k).
Proof. unfold getHash, past_due. runs_tac. Qed.

Lemma runs_getSet now k : runs (getSet now k).
Proof. unfold getSet, past_due. runs_tac. Qed.

Lemma runs_hset_store now k fv h : runs (hset_store now k fv h).
Proof. unfold hset_store, read_hash. runs_tac. Qed.

Lemma runs_sadd_store now k members s : runs (sadd_store now k members s).
Proof. unfold sadd_store, read_set. runs_tac. Qed.

Lemma runs_wrong_type_or now k is_type absent : runs (wrong_type_or now k is_type absent).
Proof. unfold wrong_type_or. runs_tac. Qed.

Lemma runs_command now (cmd : list string) :
  runs (execInternal admin_refused admin_reply now cmd).
Proof.
  unfold execInternal. destruct cmd as [|name rest]; [apply runs_ret |].
  apply runs_bind; [|intros ?; apply runs_ret].
  repeat match goal with
         | |- runs (if ?b then _ else _) => destruct b
         end;
    unfold set, get, del, lpush, rpush, push, getListForWrite, lpop, rpop, pop, llen, lrange,
      hset, hget, hgetall, hdel, sadd, srem, scard, smembers, expire, pexpireat, ttl,
      persist, admin, snapshotEntries, purgeExpiredAll, past_due, read_list, read_hash,
      read_set;
    repeat first
      [ apply runs_del_loop | apply runs_purge_loop | apply runs_getHash | apply runs_getSet
      | apply runs_hset_store | apply runs_sadd_store | apply runs_wrong_type_or
      | progress runs_tac ].
Qed.

Lemma runs_append_DELs keys : runs (append_DELs keys).
Proof. induction keys as [|k keys IH]; cbn [append_DELs]; runs_tac. Qed.

Lemma runs_appendAof cmd res : runs (appendAof cmd res).
Proof. unfold appendAof. runs_tac. Qed.

(** With the LRU cache every command returns: from a core whose cache is
    within its positive budget, [handle] produces a reply and leaves such a
    core again; and the core that [NewStandaloneDBWithConfig] makes is one. *)
Theorem lru_core_answers_every_command (d : StandaloneDB Cache) (now : Z)
    (cmd : list string) (noaof : bool) :
  within_budget d ->
  exists res d',
    handle admin_refused admin_reply now {| cmd := cmd; fn := None; noAof := noaof |} d
    = Some (res, d')
    /\ within_budget d'.
Proof.
  revert d. change (runs (handle admin_refused admin_reply now
                            {| cmd := cmd; fn := None; noAof := noaof |})).
  unfold handle. cbn [fn db.cmd noAof].
  apply runs_bind; [intros d H; eexists _, _; split; [reflexivity | exact H] |]. intros _.
  apply runs_bind; [apply runs_command |]. intros res.
  apply runs_bind; [apply runs_gets |]. intros h.
  apply runs_bind; [|intros _; apply runs_ret].
  destruct (_ && _); [|apply runs_ret].
  apply runs_bind; [apply runs_appendAof |]. intros _.
  apply runs_bind; [apply runs_gets |]. intros keys. apply runs_append_DELs.
Qed.

End Commands.

Lemma new_core_within_budget (MaxBytes : Z) (aof : bool) :
  within_budget (NewStandaloneDB_lru MaxBytes aof).
Proof.
  unfold within_budget, NewStandaloneDB_lru, new_db, budget, DefaultMaxBytes. cbn.
  split; [split; constructor |].
  destruct (Z.leb_spec MaxBytes 0); lia.
Qed.

Lemma lru_core_answers_every_command_witness :
  exists res d',
    handle no_admin admin_ok 0
           {| cmd := ["LPUSH"; "l"; "a"]%string; fn := None; noAof := false |}
           (NewStandaloneDB_lru 10 true)
    = Some (res, d')
    /\ within_budget d'.
Proof.
  exact (lru_core_answers_every_command no_admin admin_ok (NewStandaloneDB_lru 10 true) 0
           ["LPUSH"; "l"; "a"]%string false (new_core_within_budget 10 true)).
Defined.


(** ** Commands over the keyspace *)

Section Keyspace.

Context {C : Type} {EC : EvictionCache C} {CL : CacheLaws C}.
Context (admin_refused : string -> option Reply) (admin_reply : string -> Reply).

Implicit Types (d : StandaloneDB C).

(** A command taken from the queue answers what [execInternal] answers, and
    the log steps that follow leave cache, TTL table and objects alone. *)
Lemma handle_from_execInternal d d1 now (cmd : list string) (b : bool) res :
  execInternal admin_refused admin_reply now cmd (set_evictedKeys [] d) = Some (res, d1) ->
  exists d', handle admin_refused admin_reply now {| cmd := cmd; fn := None; noAof := b |} d
             = Some (res, d')
             /\ cache d' = cache d1 /\ ttlMap d' = ttlMap d1 /\ objects d' = objects d1.
Proof.
  intros H. unfold handle, bind. cbn [modify fn db.cmd noAof]. rewrite H. unfold gets.
  destruct (aofHandler d1) as [log|] eqn:Elog.
  2:{ rewrite bool_decide_eq_false_2 by (intros Hn; apply Hn; reflexivity).
      rewrite andb_false_r. cbn. eauto. }
  destruct (negb b && bool_decide (Some log <> None) && negb (isError res)).
  - destruct (appendAof_eq d1 log cmd res Elog) as (own & Happ & _).
    rewrite Happ. cbn [evictedKeys set_aofHandler].
    rewrite (append_DELs_eq (set_aofHandler (Some (log ++ own)) d1) (log ++ own)
               (evictedKeys d1) eq_refl).
    cbn. eauto.
  - cbn. eauto.
Qed.

(** The entry fits: adding [v] under [k] keeps the tracked total within the
    budget. *)
Definition fits d (k : string) (v : Value) : Prop :=
  cache_maxBytes (cache d) = 0
  \/ cache_nbytes (cache d)
     + match view (cache d) !! k with
       | Some old => types.Len (objects d) v - types.Len (objects d) old
       | None => len k + types.Len (objects d) v
       end
     <= cache_maxBytes (cache d).

Lemma cache_Add_fits_eq d now k v :
  ok (cache d) -> fits d k v ->
  exists c1, cache_Add now k v d = Some (tt, set_cache c1 d)
             /\ ok c1 /\ view c1 = <[k := v]> (view (cache d))
             /\ cache_maxBytes c1 = cache_maxBytes (cache d).
Proof.
  intros Hok Hfit.
  destruct (Add_fits (objects d) (unix now) (cache d) k v Hok Hfit)
    as (c1 & HA & Hok1 & Hv1 & _ & Hm1).
  exists c1. unfold cache_Add. rewrite HA. cbn [fire fold_left]. auto.
Qed.

(** [SET k v] followed by [GET k]: when the entry fits the budget, [SET]
    answers OK, the key has no expiry afterwards, and [GET] at any later
    time answers the value. *)
Theorem get_after_set_returns_the_value d (now now' : Z) (nset nget k v : string)
    (b b' : bool) :
  ok (cache d) ->
  ToLower nset = "set" ->
  ToLower nget = "get" ->
  fits d k (StringData v) ->
  exists d1 d2,
    handle admin_refused admin_reply now {| cmd := [nset; k; v]; fn := None; noAof := b |} d
    = Some (Some OkReply, d1)
    /\ ttlMap d1 !! k = None
    /\ handle admin_refused admin_reply now' {| cmd := [nget; k]; fn := None; noAof := b' |} d1
       = Some (Some (MakeBulkReply (Some v)), d2)
    /\ view (cache d2) !! k = Some (StringData v).
Proof.
  intros Hok Hset Hget Hfit.
  destruct (cache_Add_fits_eq (set_evictedKeys [] d) now k (StringData v) Hok Hfit)
    as (c1 & HA & Hok1 & Hv1 & _).
  destruct (handle_from_execInternal d
              (set_ttlMap (delete k (ttlMap d)) (set_cache c1 (set_evictedKeys [] d)))
              now [nset; k; v] b (Some OkReply)) as (d1 & H1 & Hc1 & Ht1 & _).
  { unfold execInternal. rewrite Hset. cbn [String.eqb Ascii.eqb Bool.eqb].
    unfold bind, set. unfold bind. rewrite HA. reflexivity. }
  cbn [cache ttlMap set_ttlMap set_cache] in Hc1, Ht1.
  assert (Hok1' : ok (cache (set_evictedKeys [] d1))) by (cbn; rewrite Hc1; exact Hok1).
  destruct (cache_Get_eq (set_evictedKeys [] d1) now' k Hok1') as (c2 & HG & Hok2 & Hv2 & _).
  cbn [cache set_evictedKeys] in HG, Hv2. rewrite Hc1, Hv1, lookup_insert_eq in HG.
  destruct (handle_from_execInternal d1 (set_cache c2 (set_evictedKeys [] d1))
              now' [nget; k] b' (Some (MakeBulkReply (Some v)))) as (d2 & H2 & Hc2 & _).
  { unfold execInternal. rewrite Hget. cbn [String.eqb Ascii.eqb Bool.eqb].
    unfold bind, get. unfold bind. rewrite HG. rewrite past_due_eq.
    unfold is_past_due. cbn [ttlMap set_cache set_evictedKeys].
    rewrite Ht1, lookup_delete_eq. reflexivity. }
  exists d1, d2. split; [exact H1 |].
  split; [rewrite Ht1; apply lookup_delete_eq |].
  split; [exact H2 |]. rewrite Hc2. cbn [cache set_cache].
  rewrite Hv2, Hc1, Hv1. apply lookup_insert_eq.
Qed.

(** **** DEL *)

Lemma del_loop_removes now (keys : list string) d (deleted : Z) :
  ok (cache d) ->
  exists d',
    del_loop now keys deleted d
    = Some (deleted + Z.of_nat (size (view (cache d))) - Z.of_nat (size (view (cache d'))), d')
    /\ ok (cache d')
    /\ (forall k, view (cache d') !! k
                  = if bool_decide (k ∈ keys) then None else view (cache d) !! k)
    /\ (forall k, ttlMap d' !! k
                  = if bool_decide (k ∈ keys) && bool_decide (is_Some (view (cache d) !! k))
                    then None else ttlMap d !! k)
    /\ objects d' = objects d.
Proof.
  revert d deleted. induction keys as [|k keys IH]; intros d deleted Hok; cbn [del_loop].
  - exists d. split; [unfold ret; do 2 f_equal; lia |].
    split; [exact Hok | split; [|split; [|reflexivity]]]; intros k; reflexivity.
  - unfold bind. rewrite (cache_Peek_eq d now k Hok).
    destruct (view (cache d) !! k) as [v|] eqn:Ev.
    + destruct (cache_Remove_present_eq d k v Hok Ev) as (c1 & HR & Hok1 & Hv1 & _).
      rewrite HR, onEvicted_deleted.
      match goal with
      | |- context [del_loop now keys _ ?s] =>
          destruct (IH s (deleted + 1) Hok1) as (d' & Hrun & Hok' & Hv' & Ht' & Ho')
      end.
      exists d'. rewrite Hrun.
      cbn [cache ttlMap objects set_ttlMap set_callbacks set_cache] in Hv', Ht', Ho' |- *.
      split.
      { do 2 f_equal. rewrite Hv1.
        assert (Hs : size (view (cache d)) = S (size (delete k (view (cache d))))).
        { rewrite <- (insert_id (view (cache d)) k v Ev) at 1.
          rewrite <- insert_delete_eq. apply map_size_insert_None, lookup_delete_eq. }
        lia. }
      split; [exact Hok' | split; [|split; [|exact Ho']]].
      * intros k'. rewrite Hv', Hv1.
        destruct (decide (k' = k)) as [->|Hne].
        -- rewrite (bool_decide_eq_true_2 (k ∈ k :: keys)) by left.
           rewrite lookup_delete_eq. destruct (bool_decide _); reflexivity.
        -- rewrite lookup_delete_ne by congruence.
           rewrite (bool_decide_ext (k' ∈ k :: keys) (k' ∈ keys)); [reflexivity |].
           rewrite elem_of_cons. tauto.
      * intros k'. rewrite Ht', Hv1.
        destruct (decide (k' = k)) as [->|Hne].
        -- rewrite (bool_decide_eq_true_2 (k ∈ k :: keys)) by left.
           rewrite Ev, (bool_decide_eq_true_2 (is_Some (Some v))) by eauto.
           rewrite !lookup_delete_eq. destruct (_ && _); reflexivity.
        -- rewrite !lookup_delete_ne by congruence.
           rewrite (bool_decide_ext (k' ∈ k :: keys) (k' ∈ keys)); [reflexivity |].
           rewrite elem_of_cons. tauto.
    + destruct (IH d deleted Hok) as (d' & Hrun & Hok' & Hv' & Ht' & Ho').
      exists d'. rewrite Hrun. split; [reflexivity |].
      split; [exact Hok' | split; [|split; [|exact Ho']]].
      * intros k'. rewrite Hv'.
        destruct (decide (k' = k)) as [->|Hne].
        -- rewrite (bool_decide_eq_true_2 (k ∈ k :: keys)) by left.
           rewrite Ev. destruct (bool_decide _); reflexivity.
        -- rewrite (bool_decide_ext (k' ∈ k :: keys) (k' ∈ keys)); [reflexivity |].
           rewrite elem_of_cons. tauto.
      * intros k'. rewrite Ht'.
        destruct (decide (k' = k)) as [->|Hne].
        -- rewrite Ev, (bool_decide_eq_false_2 (is_Some None)) by (intros [? ?]; discriminate).
           rewrite !andb_false_r. reflexivity.
        -- rewrite (bool_decide_ext (k' ∈ k :: keys) (k' ∈ keys)); [reflexivity |].
           rewrite elem_of_cons. tauto.
Qed.

(** [DEL k1 k2 ...] always returns; afterwards none of the keys named is in
    the keyspace, every other key is as it was, the keys removed have lost
    their expiry, and the integer answered is the number of keys that left
    the keyspace (a key named twice counts once, a missing key not at all). *)
Theorem del_removes_and_counts d (now : Z) (name k1 : string) (keys : list string) (b : bool) :
  ok (cache d) ->
  ToLower name = "del" ->
  exists d',
    handle admin_refused admin_reply now
           {| cmd := name :: k1 :: keys; fn := None; noAof := b |} d
    = Some (Some (MakeIntReply (Z.of_nat (size (view (cache d)))
                                - Z.of_nat (size (view (cache d'))))), d')
    /\ (forall k, view (cache d') !! k
                  = if bool_decide (k ∈ k1 :: keys) then None else view (cache d) !! k)
    /\ (forall k, k ∈ k1 :: keys -> is_Some (view (cache d) !! k) -> ttlMap d' !! k = None)
    /\ (forall k, k ∉ k1 :: keys -> ttlMap d' !! k = ttlMap d !! k).
Proof.
  intros Hok Hname.
  destruct (del_loop_removes now (k1 :: keys) (set_evictedKeys [] d) 0 Hok)
    as (d1 & Hrun & Hok1 & Hv1 & Ht1 & _).
  cbn [cache ttlMap set_evictedKeys] in Hrun, Hv1, Ht1.
  destruct (handle_from_execInternal d d1 now (name :: k1 :: keys) b
              (Some (MakeIntReply (Z.of_nat (size (view (cache d)))
                                   - Z.of_nat (size (view (cache d1)))))))
    as (d' & H & Hc & Ht & _).
  { unfold execInternal. rewrite Hname. cbn [String.eqb Ascii.eqb Bool.eqb].
    unfold bind at 1. unfold del. unfold bind at 1. rewrite Hrun. cbn [ret].
    do 3 f_equal; lia. }
  exists d'. rewrite Hc, Ht. split; [exact H | split; [exact Hv1 | split]].
  - intros k Hin Hsome. rewrite Ht1.
    rewrite (bool_decide_eq_true_2 _ Hin), (bool_decide_eq_true_2 _ Hsome). reflexivity.
  - intros k Hnin. rewrite Ht1. rewrite (bool_decide_eq_false_2 _ Hnin). reflexivity.
Qed.

End Keyspace.

Lemma get_after_set_returns_the_value_witness :
  exists d1 d2,
    handle no_admin admin_ok 0
           {| cmd := ["SET"; "k"; "v"]%string; fn := None; noAof := false |}
           (NewStandaloneDB_lru 0 true)
    = Some (Some OkReply, d1)
    /\ ttlMap d1 !! "k"%string = None
    /\ handle no_admin admin_ok second
              {| cmd := ["get"; "k"]%string; fn := None; noAof := false |} d1
       = Some (Some (MakeBulkReply (Some "v"%string)), d2)
    /\ view (cache d2) !! "k"%string = Some (StringData "v").
Proof.
  apply (get_after_set_returns_the_value no_admin admin_ok (NewStandaloneDB_lru 0 true)
           0 second "SET" "get" "k" "v" false false).
  - split; constructor.
  - reflexivity.
  - reflexivity.
  - right. vm_compute. discriminate.
Defined.

Lemma del_removes_and_counts_witness :
  exists d',
    handle no_admin admin_ok second
           {| cmd := ["DEL"; "l"; "nokey"; "l"]%string; fn := None; noAof := false |}
           two_element_list
    = Some (Some (MakeIntReply (Z.of_nat (size (view (cache two_element_list)))
                                - Z.of_nat (size (view (cache d'))))), d')
    /\ view (cache d') !! "l"%string = None
    /\ ttlMap d' !! "l"%string = None.
Proof.
  assert (Hok : ok (cache two_element_list)).
  { split; vm_compute; repeat constructor. inversion 1. }
  destruct (del_removes_and_counts no_admin admin_ok two_element_list second "DEL" "l"
              ["nokey"; "l"]%string false Hok eq_refl) as (d' & H & Hv & Ht & _).
  exists d'. split; [exact H | split].
  - rewrite Hv. reflexivity.
  - apply Ht; [left | vm_compute; eauto].
Defined.


(** ** Expiries belong to keys of the keyspace *)

Section Expiries.

Context {C : Type} {EC : EvictionCache C} {CL : CacheLaws C}.
Context (admin_refused : string -> option Reply) (admin_reply : string -> Reply).

Implicit Types (d : StandaloneDB C).

(** Every key with an entry in the TTL table is held by the cache. *)
Definition expiries_held d : Prop :=
  ok (cache d) /\ forall k, is_Some (ttlMap d !! k) -> is_Some (view (cache d) !! k).

Definition preserves {A : Type} (m : M C A) : Prop :=
  forall d a d', expiries_held d -> m d = Some (a, d') -> expiries_held d'.

Lemma preserves_ret {A : Type} (a : A) : preserves (ret a).
Proof. intros d a' d' H E. injection E as _ <-. exact H. Qed.

Lemma preserves_gets {A : Type} (f : StandaloneDB C -> A) : preserves (gets f).
Proof. intros d a' d' H E. injection E as _ <-. exact H. Qed.

Lemma preserves_bind {A B : Type} (m : M C A) (f : A -> M C B) :
  preserves m -> (forall a, preserves (f a)) -> preserves (bind m f).
Proof.
  intros Hm Hf d b d' H E. unfold bind in E.
  destruct (m d) as [[a d1]|] eqn:E1; [|discriminate].
  exact (Hf a d1 b d' (Hm d a d1 H E1) E).
Qed.

Lemma preserves_cache_Get now k : preserves (cache_Get now k).
Proof.
  intros d a d' (Hok & Hsub) E.
  destruct (cache_Get_eq d now k Hok) as (c1 & HG & Hok1 & Hv1 & _).
  rewrite HG in E. injection E as _ <-. split; [exact Hok1 |].
  cbn [cache set_cache ttlMap]. rewrite Hv1. exact Hsub.
Qed.

Lemma preserves_cache_Peek now k : preserves (cache_Peek now k).
Proof.
  intros d a d' H E. rewrite (cache_Peek_eq d now k (proj1 H)) in E.
  injection E as _ <-. exact H.
Qed.

Lemma preserves_cache_Remove k : preserves (cache_Remove k).
Proof.
  intros d a d' (Hok & Hsub) E. destruct (view (cache d) !! k) as [v|] eqn:Ev.
  - destruct (cache_Remove_present_eq d k v Hok Ev) as (c1 & HR & Hok1 & Hv1 & _).
    rewrite HR, onEvicted_deleted in E. injection E as _ <-.
    split; [exact Hok1 |]. cbn [cache ttlMap set_ttlMap set_callbacks set_cache].
    intros k'. rewrite Hv1. destruct (decide (k' = k)) as [->|Hne].
    + rewrite lookup_delete_eq. intros [? ?]. discriminate.
    + rewrite !lookup_delete_ne by congruence. apply Hsub.
  - rewrite (cache_Remove_absent_eq d k Hok Ev) in E. injection E as _ <-.
    split; assumption.
Qed.

Lemma preserves_cache_Add now k v : preserves (cache_Add now k v).
Proof.
  intros d a d' (Hok & Hsub) E. unfold cache_Add in E.
  destruct (Add (objects d) (unix now) (cache d) k v 0) as [[c1 evs]|] eqn:EA;
    [|discriminate].
  injection E as _ <-.
  destruct (Add_returns _ _ _ _ _ _ _ Hok EA) as (Hok1 & _ & Hview & _).
  destruct (fire_fields evs (set_cache c1 d)) as (Hc & _ & _).
  unfold expiries_held. rewrite Hc. cbn [cache set_cache]. split; [exact Hok1 |].
  intros k'. rewrite fire_ttlMap, Hview. cbn [ttlMap set_cache].
  destruct (bool_decide (k' ∈ map event_key evs)); [intros [? ?]; discriminate |].
  intros Ht. destruct (decide (k' = k)) as [->|Hne].
  - rewrite lookup_insert_eq. eauto.
  - rewrite lookup_insert_ne by congruence. exact (Hsub k' Ht).
Qed.

Lemma preserves_AddAof (args : list string) : preserves (AddAof args).
Proof.
  intros d a d' H E. unfold AddAof, modify in E. injection E as _ <-.
  destruct (aofHandler d); exact H.
Qed.

Lemma preserves_forget (k : string) :
  preserves (modify (fun d => set_ttlMap (delete k (ttlMap d)) d)).
Proof.
  intros d a d' (Hok & Hsub) E. injection E as _ <-. split; [exact Hok |].
  cbn [cache ttlMap set_ttlMap]. intros k'. destruct (decide (k' = k)) as [->|Hne].
  - rewrite lookup_delete_eq. intros [? ?]. discriminate.
  - rewrite lookup_delete_ne by congruence. apply Hsub.
Qed.

Lemma preserves_new_object (o : object) : preserves (new_object o).
Proof. intros d a d' H E. unfold new_object, alloc in E. injection E as _ <-. exact H. Qed.

Lemma preserves_write_object (l : loc) (o : object) : preserves (write_object l o).
Proof. intros d a d' H E. injection E as _ <-. exact H. Qed.

(** The two places that write an expiry do it for a key just seen by
    [Peek]. *)
Lemma preserves_peek_then_set now (k : string) (t : Z) (cond : bool) {A : Type} (a0 a1 : A)
    (other : M C A) :
  preserves other ->
  preserves (bind (cache_Peek now k)
               (fun val => match val with
                           | None => ret a0
                           | Some _ =>
                               if cond then other
                               else bind (modify (fun d => set_ttlMap (<[k := t]> (ttlMap d)) d))
                                         (fun _ => ret a1)
                           end)).
Proof.
  intros Hother d a d' (Hok & Hsub) E. unfold bind in E.
  rewrite (cache_Peek_eq d now k Hok) in E.
  destruct (view (cache d) !! k) as [v|] eqn:Ev.
  - destruct cond; [exact (Hother d a d' (conj Hok Hsub) E) |].
    injection E as _ <-. split; [exact Hok |].
    cbn [cache ttlMap set_ttlMap]. intros k'. destruct (decide (k' = k)) as [->|Hne].
    + intros _. rewrite Ev. eauto.
    + rewrite lookup_insert_ne by congruence. apply Hsub.
  - injection E as _ <-. split; assumption.
Qed.

End Expiries.

Ltac preserves_tac :=
  repeat first
    [ apply preserves_ret | apply preserves_gets | apply preserves_cache_Get
    | apply preserves_cache_Peek | apply preserves_cache_Remove | apply preserves_cache_Add
    | apply preserves_AddAof | apply preserves_forget | apply preserves_new_object
    | apply preserves_write_object
    | assumption
    | apply preserves_bind; [|intros ?]
    | match goal with
      | |- preserves (match ?x with _ => _ end) => destruct x
      end ].

Section ExpiriesOfCommands.

Context {C : Type} {EC : EvictionCache C} {CL : CacheLaws C}.
Context (admin_refused : string -> option Reply) (admin_reply : string -> Reply).

Lemma preserves_del_loop now keys deleted : preserves (C := C) (del_loop now keys deleted).
Proof.
  revert deleted. induction keys as [|k keys IH]; intros deleted; cbn [del_loop];
    preserves_tac; apply IH.
Qed.

Lemma preserves_purge_loop now l : preserves (C := C) (purge_loop now l).
Proof. induction l as [|[k t] l IH]; cbn [purge_loop]; preserves_tac. Qed.

Lemma preserves_getHash now k : preserves (C := C) (getHash now k).
Proof. unfold getHash, past_due. preserves_tac. Qed.

Lemma preserves_getSet now k : preserves (C := C) (getSet now k).
Proof. unfold getSet, past_due. preserves_tac. Qed.

Lemma preserves_hset_store now k fv h : preserves (C := C) (hset_store now k fv h).
Proof. unfold hset_store, read_hash. preserves_tac. Qed.

Lemma preserves_sadd_store now k members s : preserves (C := C) (sadd_store now k members s).
Proof. unfold sadd_store, read_set. preserves_tac. Qed.

Lemma preserves_wrong_type_or now k is_type absent :
  preserves (C := C) (wrong_type_or now k is_type absent).
Proof. unfold wrong_type_or. preserves_tac. Qed.

Lemma preserves_expire now args : preserves (C := C) (expire now args).
Proof.
  unfold expire. destruct args as [|? [|k [|a2 [|? ?]]]]; try apply preserves_ret.
  destruct (ParseInt a2) as [seconds|]; [|apply preserves_ret].
  apply preserves_peek_then_set. preserves_tac.
Qed.

Lemma preserves_pexpireat now args : preserves (C := C) (pexpireat now args).
Proof.
  unfold pexpireat. destruct args as [|? [|k [|a2 [|? ?]]]]; try apply preserves_ret.
  destruct (ParseInt a2) as [ms|]; [|apply preserves_ret].
  apply preserves_peek_then_set. preserves_tac.
Qed.

Lemma preserves_execInternal now (cmd : list string) :
  preserves (execInternal admin_refused admin_reply now cmd).
Proof.
  unfold execInternal. destruct cmd as [|name rest]; [apply preserves_ret |].
  apply preserves_bind; [|intros ?; apply preserves_ret].
  repeat match goal with
         | |- preserves (if ?b then _ else _) => destruct b
         end;
    try apply preserves_expire; try apply preserves_pexpireat;
    unfold set, get, del, lpush, rpush, push, getListForWrite, lpop, rpop, pop, llen, lrange,
      hset, hget, hgetall, hdel, sadd, srem, scard, smembers, ttl,
      persist, admin, snapshotEntries, purgeExpiredAll, past_due, read_list, read_hash,
      read_set;
    repeat first
      [ apply preserves_del_loop | apply preserves_purge_loop | apply preserves_getHash
      | apply preserves_getSet | apply preserves_hset_store | apply preserves_sadd_store
      | apply preserves_wrong_type_or | progress preserves_tac ].
Qed.

(** Whatever the command, if every key with an expiry was in the keyspace
    before, it is so afterwards: a key that leaves the keyspace (deleted,
    expired, emptied or evicted) takes its expiry with it, and an expiry is
    only ever set on a key that is there. *)
Theorem expiries_stay_within_the_keyspace (d d' : StandaloneDB C) (now : Z)
    (cmd : list string) (b : bool) (res : option Reply) :
  expiries_held d ->
  handle admin_refused admin_reply now {| cmd := cmd; fn := None; noAof := b |} d
  = Some (res, d') ->
  expiries_held d'.
Proof.
  intros Hd H.
  destruct (handle_execInternal admin_refused admin_reply d d' now cmd b res H)
    as (d1 & Hexec & Hc & Ht).
  unfold expiries_held. rewrite Hc, Ht.
  exact (preserves_execInternal now cmd (set_evictedKeys [] d) res d1 Hd Hexec).
Qed.

End ExpiriesOfCommands.

Lemma expiries_stay_within_the_keyspace_witness :
  expiries_held (after [(second, ["LPOP"; "l"])]%string one_element_list).
Proof.
  assert (Hd : expiries_held one_element_list).
  { split; [split; vm_compute; repeat constructor; inversion 1 |].
    intros k Hk. destruct (decide (k = "l"%string)) as [->|Hne]; [vm_compute; eauto |].
    exfalso. revert Hk. unfold one_element_list.
    change (ttlMap _) with ({["l"%string := 100 * second]} : gmap string Z).
    rewrite lookup_singleton_ne by congruence. intros [? ?]. discriminate. }
  apply (expiries_stay_within_the_keyspace no_admin admin_ok one_element_list _ second
           ["LPOP"; "l"]%string false (Some (MakeBulkReply (Some "a"%string))) Hd).
  vm_compute. reflexivity.
Defined.


(** ** Expiry commands in sequence *)

Section ExpirySequences.

Context {C : Type} {EC : EvictionCache C} {CL : CacheLaws C}.
Context (admin_refused : string -> option Reply) (admin_reply : string -> Reply).

Implicit Types (d : StandaloneDB C).

Lemma wrap64_small (z : Z) : int64_min <= z <= int64_max -> wrap64 z = z.
Proof.
  unfold wrap64, int64_min, int64_max. intros H.
  rewrite Z.mod_small by lia. lia.
Qed.

(** [EXPIRE k s] followed by [TTL k]: with [s] positive on a key of the
    keyspace, [EXPIRE] answers 1; [TTL] asked before the instant answers the
    whole seconds left, which is [s] when asked at once, and asked at the
    instant or later it answers -2 and the key is gone.  [s] is kept below
    [2 ^ 22] seconds, where the floating-point [Seconds()] of the source is
    exact to the nanosecond. *)
Theorem ttl_after_expire_counts_down d (now now' : Z) (nexp nttl k a2 : string)
    (seconds : Z) (v : Value) (b b' : bool) :
  ok (cache d) ->
  ToLower nexp = "expire" ->
  ToLower nttl = "ttl" ->
  view (cache d) !! k = Some v ->
  ParseInt a2 = Some seconds ->
  0 < seconds <= 2 ^ 22 ->
  now <= now' ->
  exists d1 r d2,
    handle admin_refused admin_reply now {| cmd := [nexp; k; a2]; fn := None; noAof := b |} d
    = Some (Some (MakeIntReply 1), d1)
    /\ handle admin_refused admin_reply now' {| cmd := [nttl; k]; fn := None; noAof := b' |} d1
       = Some (Some (MakeIntReply r), d2)
    /\ (now' < now + seconds * 10 ^ 9 ->
        r = (now + seconds * 10 ^ 9 - now') / 10 ^ 9 /\ 0 <= r <= seconds
        /\ view (cache d2) !! k = Some v)
    /\ (now' = now -> r = seconds)
    /\ (now + seconds * 10 ^ 9 <= now' ->
        r = -2 /\ view (cache d2) !! k = None /\ ttlMap d2 !! k = None).
Proof.
  intros Hok Hexp Httl Hv Hp Hs Hnow.
  assert (Hdur : seconds_to_duration seconds = seconds * 10 ^ 9).
  { unfold seconds_to_duration. apply wrap64_small. unfold int64_min, int64_max. lia. }
  set (t := now + seconds * 10 ^ 9).
  destruct (handle_from_execInternal admin_refused admin_reply d
              (set_ttlMap (<[k := t]> (ttlMap d)) (set_evictedKeys [] d))
              now [nexp; k; a2] b (Some (MakeIntReply 1))) as (d1 & H1 & Hc1 & Ht1 & _).
  { unfold execInternal. rewrite Hexp. cbn [String.eqb Ascii.eqb Bool.eqb].
    unfold bind at 1. unfold expire. rewrite Hp. unfold bind at 1.
    rewrite (cache_Peek_eq (set_evictedKeys [] d) now k Hok). cbn [cache set_evictedKeys].
    rewrite Hv. destruct (Z.leb_spec seconds 0); [lia |].
    rewrite Hdur. reflexivity. }
  cbn [cache ttlMap set_ttlMap set_evictedKeys] in Hc1, Ht1.
  assert (Hok1 : ok (cache (set_evictedKeys [] d1))) by (cbn; rewrite Hc1; exact Hok).
  assert (Hv1 : view (cache (set_evictedKeys [] d1)) !! k = Some v)
    by (cbn; rewrite Hc1; exact Hv).
  assert (Hexec : forall r dd,
            ttl now' [nttl; k] (set_evictedKeys [] d1) = Some (MakeIntReply r, dd) ->
            execInternal admin_refused admin_reply now' [nttl; k] (set_evictedKeys [] d1)
            = Some (Some (MakeIntReply r), dd)).
  { intros r dd E. unfold execInternal. rewrite Httl. cbn [String.eqb Ascii.eqb Bool.eqb].
    unfold bind. rewrite E. reflexivity. }
  assert (Httl_run : ttl now' [nttl; k] (set_evictedKeys [] d1)
                     = (let dur := time_Until now' t in
                        if dur <=? 0
                        then bind (cache_Remove k) (fun _ => ret (MakeIntReply (-2)))
                        else ret (MakeIntReply (dur / 10 ^ 9))) (set_evictedKeys [] d1)).
  { unfold ttl, bind. rewrite (cache_Peek_eq _ now' k Hok1), Hv1. unfold gets.
    cbn [ttlMap set_evictedKeys]. rewrite Ht1, lookup_insert_eq. reflexivity. }
  destruct (Z.lt_ge_cases now' t) as [Hlt|Hge].
  - assert (Hu : time_Until now' t = t - now').
    { unfold time_Until, int64_min, int64_max in *. unfold t. nia. }
    destruct (handle_from_execInternal admin_refused admin_reply d1 (set_evictedKeys [] d1)
                now' [nttl; k] b' (Some (MakeIntReply ((t - now') / 10 ^ 9))))
      as (d2 & H2 & Hc2 & _).
    { apply Hexec. rewrite Httl_run. cbv zeta. rewrite Hu.
      destruct (Z.leb_spec (t - now') 0); [lia | reflexivity]. }
    exists d1, ((t - now') / 10 ^ 9), d2.
    split; [exact H1 | split; [exact H2 | split; [|split]]].
    + intros _. split; [reflexivity |]. split.
      * split; [apply Z.div_pos; lia |].
        apply Z.div_le_upper_bound; [lia |]. unfold t. lia.
      * rewrite Hc2. exact Hv1.
    + intros ->. unfold t. replace (now + seconds * 10 ^ 9 - now) with (seconds * 10 ^ 9) by lia.
      apply Z.div_mul. discriminate.
    + intros Hle. unfold t in Hlt. lia.
  - assert (Hu : time_Until now' t <= 0).
    { unfold time_Until, int64_min, int64_max. lia. }
    destruct (cache_Remove_present_eq (set_evictedKeys [] d1) k v Hok1 Hv1)
      as (c2 & HR & Hok2 & Hv2 & _).
    rewrite onEvicted_deleted in HR.
    match type of HR with _ = Some (_, ?s) => set (dR := s) in * end.
    destruct (handle_from_execInternal admin_refused admin_reply d1 dR
                now' [nttl; k] b' (Some (MakeIntReply (-2)))) as (d2 & H2 & Hc2 & Ht2 & _).
    { apply Hexec. rewrite Httl_run. cbv zeta.
      destruct (Z.leb_spec (time_Until now' t) 0); [|lia].
      unfold bind. rewrite HR. reflexivity. }
    exists d1, (-2), d2.
    split; [exact H1 | split; [exact H2 | split; [|split]]].
    + intros Hlt. unfold t in Hge. lia.
    + intros ->. unfold t in Hge. lia.
    + intros _. split; [reflexivity |]. rewrite Hc2, Ht2. unfold dR.
      cbn [cache ttlMap set_ttlMap set_callbacks set_cache set_evictedKeys].
      rewrite Hv2. split; apply lookup_delete_eq.
Qed.

(** The record [PEXPIREAT key ms] that the log holds for an expiry at the
    instant [t], replayed on a core that holds the key: the expiry it sets
    is [t] rounded down to the millisecond, so never later than [t] and less
    than a millisecond earlier; and when that instant has passed at replay
    the key is removed instead. *)
Theorem logged_expiry_replays_without_extension d (now' t : Z) (name k : string)
    (v : Value) (b : bool) :
  ok (cache d) ->
  ToLower name = "pexpireat" ->
  view (cache d) !! k = Some v ->
  in_int64 (UnixMilli t) = true ->
  let t' := time_UnixMilli (UnixMilli t) in
  exists d',
    handle admin_refused admin_reply now'
           {| cmd := [name; k; FormatInt (UnixMilli t)]; fn := None; noAof := b |} d
    = Some (Some (MakeIntReply 1), d')
    /\ t - 10 ^ 6 < t' <= t
    /\ (now' < t' -> ttlMap d' !! k = Some t' /\ view (cache d') = view (cache d))
    /\ (t' <= now' -> ttlMap d' !! k = None /\ view (cache d') !! k = None).
Proof.
  intros Hok Hname Hv Hin t'.
  assert (Hround : t - 10 ^ 6 < t' <= t).
  { unfold t', time_UnixMilli, UnixMilli.
    pose proof (Z.mul_div_le t (10 ^ 6) ltac:(lia)).
    pose proof (Z.mul_succ_div_gt t (10 ^ 6) ltac:(lia)). lia. }
  assert (Hexec : forall r dd,
            (if t' <=? now' then bind (cache_Remove k) (fun _ => ret (MakeIntReply 1))
             else bind (modify (fun db => set_ttlMap (<[k := t']> (ttlMap db)) db))
                       (fun _ => ret (MakeIntReply 1))) (set_evictedKeys [] d) = Some (r, dd) ->
            execInternal admin_refused admin_reply now' [name; k; FormatInt (UnixMilli t)]
                         (set_evictedKeys [] d) = Some (Some r, dd)).
  { intros r dd E. unfold execInternal. rewrite Hname. cbn [String.eqb Ascii.eqb Bool.eqb].
    unfold bind at 1. unfold pexpireat. rewrite (ParseInt_FormatInt _ Hin).
    unfold bind at 1. rewrite (cache_Peek_eq (set_evictedKeys [] d) now' k Hok).
    cbn [cache set_evictedKeys]. rewrite Hv. fold t'. rewrite E. reflexivity. }
  destruct (Z.leb_spec t' now') as [Hle|Hgt].
  - destruct (cache_Remove_present_eq (set_evictedKeys [] d) k v Hok Hv)
      as (c2 & HR & Hok2 & Hv2 & _).
    rewrite onEvicted_deleted in HR.
    match type of HR with _ = Some (_, ?s) => set (dR := s) in * end.
    destruct (handle_from_execInternal admin_refused admin_reply d dR now'
                [name; k; FormatInt (UnixMilli t)] b (Some (MakeIntReply 1)))
      as (d' & H & Hc & Ht & _).
    { apply Hexec. unfold bind. rewrite HR. reflexivity. }
    exists d'. split; [exact H | split; [exact Hround | split]].
    + intros Hlt. lia.
    + intros _. rewrite Hc, Ht. unfold dR.
      cbn [cache ttlMap set_ttlMap set_callbacks set_cache set_evictedKeys].
      rewrite Hv2. split; apply lookup_delete_eq.
  - destruct (handle_from_execInternal admin_refused admin_reply d
                (set_ttlMap (<[k := t']> (ttlMap d)) (set_evictedKeys [] d)) now'
                [name; k; FormatInt (UnixMilli t)] b (Some (MakeIntReply 1)))
      as (d' & H & Hc & Ht & _).
    { apply Hexec. reflexivity. }
    exists d'. split; [exact H | split; [exact Hround | split]].
    + intros _. rewrite Hc, Ht. cbn. split; [apply lookup_insert_eq | reflexivity].
    + intros Hle. lia.
Qed.

End ExpirySequences.

Lemma ttl_after_expire_counts_down_witness :
  exists d1 r d2,
    handle no_admin admin_ok 0
           {| cmd := ["EXPIRE"; "k"; "10"]%string; fn := None; noAof := false |} one_string_key
    = Some (Some (MakeIntReply 1), d1)
    /\ handle no_admin admin_ok (3 * second + 1)
              {| cmd := ["TTL"; "k"]%string; fn := None; noAof := false |} d1
       = Some (Some (MakeIntReply r), d2)
    /\ r = 6.
Proof.
  assert (Hok : ok (cache one_string_key)).
  { split; vm_compute; repeat constructor. inversion 1. }
  destruct (ttl_after_expire_counts_down no_admin admin_ok one_string_key 0 (3 * second + 1)
              "EXPIRE" "TTL" "k" "10" 10 (StringData "v") false false Hok
              eq_refl eq_refl eq_refl eq_refl) as (d1 & r & d2 & H1 & H2 & Hr & _).
  - vm_compute. split; [reflexivity | discriminate].
  - vm_compute. discriminate.
  - exists d1, r, d2. split; [exact H1 | split; [exact H2 |]].
    destruct Hr as (-> & _); [vm_compute; reflexivity | vm_compute; reflexivity].
Defined.

Lemma logged_expiry_replays_without_extension_witness :
  exists d',
    handle no_admin admin_ok second
           {| cmd := ["PEXPIREAT"; "k"; "15000"]%string; fn := None; noAof := true |}
           one_string_key
    = Some (Some (MakeIntReply 1), d')
    /\ ttlMap d' !! "k"%string = Some (15 * second).
Proof.
  assert (Hok : ok (cache one_string_key)).
  { split; vm_compute; repeat constructor. inversion 1. }
  destruct (logged_expiry_replays_without_extension no_admin admin_ok one_string_key second
              (15 * second + 999) "PEXPIREAT" "k" (StringData "v") true Hok
              eq_refl eq_refl eq_refl) as (d' & H & _ & Hlive & _).
  exists d'. split; [exact H |]. apply Hlive. vm_compute. reflexivity.
Defined.


(** ** A command on a key of another type *)

Inductive kind : Type := KString | KList | KHash | KSet.

Definition kind_of (v : Value) : kind :=
  match v with
  | StringData _ => KString
  | ListData _ => KList
  | HashData _ => KHash
  | SetData _ => KSet
  end.

(** The type a command asserts of the value under its key. *)
Definition expects (commandName : string) : option kind :=
  if String.eqb commandName "get" then Some KString
  else if String.eqb commandName "lpush" then Some KList
  else if String.eqb commandName "rpush" then Some KList
  else if String.eqb commandName "lpop" then Some KList
  else if String.eqb commandName "rpop" then Some KList
  else if String.eqb commandName "lrange" then Some KList
  else if String.eqb commandName "llen" then Some KList
  else if String.eqb commandName "hset" then Some KHash
  else if String.eqb commandName "hget" then Some KHash
  else if String.eqb commandName "hgetall" then Some KHash
  else if String.eqb commandName "hdel" then Some KHash
  else if String.eqb commandName "sadd" then Some KSet
  else if String.eqb commandName "srem" then Some KSet
  else if String.eqb commandName "smembers" then Some KSet
  else if String.eqb commandName "scard" then Some KSet
  else None.

Section TypeErrors.

Context {C : Type} {EC : EvictionCache C} {CL : CacheLaws C}.
Context (admin_refused : string -> option Reply) (admin_reply : string -> Reply).

Implicit Types (d : StandaloneDB C).

(** [m] returns, leaves the key with its value and expiry, writes nothing
    to the log, and its result is in [Q]. *)
Definition stays (k : string) (v : Value) (t0 : option Z) {A : Type} (m : M C A)
    (Q : A -> Prop) : Prop :=
  forall d, holding k v t0 d ->
            exists a d', m d = Some (a, d') /\ holding k v t0 d'
                         /\ aofHandler d' = aofHandler d /\ Q a.

Lemma stays_ret k v t0 {A : Type} (a : A) : stays k v t0 (ret a) (fun r => r = a).
Proof. intros d H. exists a, d. auto. Qed.

Lemma stays_error k v t0 (r : Reply) :
  isError (Some r) = true -> stays k v t0 (ret r) (fun r => isError (Some r) = true).
Proof. intros Hr d H. exists r, d. auto. Qed.

Lemma stays_gets k v t0 {A : Type} (f : StandaloneDB C -> A) :
  stays k v t0 (gets f) (fun _ => True).
Proof. intros d H. exists (f d), d. auto. Qed.

Lemma stays_bind k v t0 {A B : Type} (m : M C A) (f : A -> M C B) Q R :
  stays k v t0 m Q -> (forall a, Q a -> stays k v t0 (f a) R) -> stays k v t0 (bind m f) R.
Proof.
  intros Hm Hf d H. destruct (Hm d H) as (a & d1 & E & H1 & Hl1 & HQ).
  destruct (Hf a HQ d1 H1) as (b & d2 & E2 & H2 & Hl2 & HR).
  exists b, d2. unfold bind. rewrite E. split; [exact E2 |].
  split; [exact H2 | split; [congruence | exact HR]].
Qed.

Lemma stays_cache_Get k v t0 now : stays k v t0 (cache_Get now k) (fun r => r = Some v).
Proof.
  intros d (Hok & Hv & Ht).
  destruct (cache_Get_eq d now k Hok) as (c1 & HG & Hok1 & Hv1 & _).
  eexists _, _. split; [exact HG |]. split; [|split; [reflexivity | exact Hv]].
  split; [exact Hok1 | split; [|exact Ht]]. cbn [cache set_cache]. rewrite Hv1. exact Hv.
Qed.

Lemma stays_past_due k v t0 now :
  match t0 with Some t => t <? now | None => false end = false ->
  stays k v t0 (past_due now k) (fun due => due = false).
Proof.
  intros Hdue d H. eexists _, _. split; [reflexivity |].
  split; [exact H | split; [reflexivity |]]. destruct H as (_ & _ & ->). exact Hdue.
Qed.

Lemma stays_new_object k v t0 (o : object) : stays k v t0 (new_object o) (fun _ => True).
Proof. intros d H. eexists _, _. split; [reflexivity |]. auto. Qed.

End TypeErrors.

Ltac stays_tac Hdue :=
  repeat first
    [ apply stays_error; reflexivity
    | apply stays_ret
    | eapply stays_bind; [apply stays_cache_Get | intros ? ->; cbv beta iota]
    | eapply stays_bind; [apply stays_past_due; exact Hdue | intros ? ->; cbv beta iota]
    | eapply stays_bind; [apply stays_gets | intros ? _; cbv beta iota]
    | eapply stays_bind; [apply stays_new_object | intros ? _; cbv beta iota]
    | eapply stays_bind; [solve [stays_tac Hdue] | intros ? ->; cbv beta iota]
    | match goal with
      | |- stays _ _ _ (match ?x with _ => _ end) _ => destruct x
      | |- stays _ _ _ (if ?x then _ else _) _ => destruct x
      | |- stays _ _ _ (let '(_, _) := ?x in _) _ => destruct x
      end ].

Section TypeErrorsOfCommands.

Context {C : Type} {EC : EvictionCache C} {CL : CacheLaws C}.
Context (admin_refused : string -> option Reply) (admin_reply : string -> Reply).

Lemma handle_of_error (d d1 : StandaloneDB C) now (cmd : list string) (b : bool) res :
  execInternal admin_refused admin_reply now cmd (set_evictedKeys [] d) = Some (res, d1) ->
  isError res = true ->
  handle admin_refused admin_reply now {| cmd := cmd; fn := None; noAof := b |} d
  = Some (res, d1).
Proof.
  intros H He. unfold handle, bind. cbn [modify fn db.cmd noAof]. rewrite H. unfold gets.
  rewrite He. cbn [negb]. rewrite andb_false_r. reflexivity.
Qed.

Lemma wrong_type_command now (name k : string) (args : list string) (v : Value)
    (t0 : option Z) (K : kind) :
  match t0 with Some t => t <? now | None => false end = false ->
  expects (ToLower name) = Some K ->
  kind_of v <> K ->
  stays k v t0 (execInternal admin_refused admin_reply now (name :: k :: args))
        (fun res => isError res = true).
Proof.
  intros Hdue Hexp Hkind. unfold execInternal.
  eapply stays_bind with (Q := fun r => isError (Some r) = true);
    [|intros r Hr; intros d Hd; exists (Some r), d; auto].
  unfold expects in Hexp.
  repeat match type of Hexp with
         | (if String.eqb ?a ?b then _ else _) = _ =>
             let E := fresh "E" in
             destruct (String.eqb a b) eqn:E;
             [apply String.eqb_eq in E; rewrite E; clear E;
              cbn [String.eqb Ascii.eqb Bool.eqb]; injection Hexp as <- |]
         end;
    try discriminate Hexp.
  all: destruct v as [str|l|h|s]; try (exfalso; apply Hkind; reflexivity).
  all: unfold get, lpush, rpush, push, getListForWrite, lpop, rpop, pop, llen, lrange,
         hset, hget, hgetall, hdel, getHash, sadd, srem, scard, smembers, getSet,
         wrong_type_or.
  all: stays_tac Hdue.
Qed.

(** A command that asserts a type ([GET] a string, the list commands a
    list, the hash commands a hash, the set commands a set), sent for a live
    key that holds a value of another type, always answers an error; the key
    keeps its value and its expiry, and nothing is appended to the log. *)
Theorem wrong_type_is_refused (d : StandaloneDB C) (now : Z) (name k : string)
    (args : list string) (v : Value) (K : kind) (b : bool) :
  ok (cache d) ->
  view (cache d) !! k = Some v ->
  is_past_due d now k = false ->
  expects (ToLower name) = Some K ->
  kind_of v <> K ->
  exists res d',
    handle admin_refused admin_reply now
           {| cmd := name :: k :: args; fn := None; noAof := b |} d = Some (res, d')
    /\ isError res = true
    /\ view (cache d') !! k = Some v
    /\ ttlMap d' !! k = ttlMap d !! k
    /\ aofHandler d' = aofHandler d.
Proof.
  intros Hok Hv Hdue Hexp Hkind.
  destruct (wrong_type_command now name k args v (ttlMap d !! k) K Hdue Hexp Hkind
              (set_evictedKeys [] d)) as (res & d1 & Hexec & (_ & Hv1 & Ht1) & Hl1 & Herr).
  { split; [exact Hok | split; [exact Hv | reflexivity]]. }
  exists res, d1. split; [exact (handle_of_error d d1 now _ b res Hexec Herr) |].
  split; [exact Herr | split; [exact Hv1 | split; [exact Ht1 | exact Hl1]]].
Qed.

End TypeErrorsOfCommands.

Lemma wrong_type_is_refused_witness :
  exists res d',
    handle no_admin admin_ok 0
           {| cmd := ["LPUSH"; "k"; "x"]%string; fn := None; noAof := false |} one_string_key
    = Some (res, d')
    /\ isError res = true
    /\ view (cache d') !! "k"%string = Some (StringData "v")
    /\ ttlMap d' !! "k"%string = ttlMap one_string_key !! "k"%string
    /\ aofHandler d' = aofHandler one_string_key.
Proof.
  apply (wrong_type_is_refused no_admin admin_ok one_string_key 0 "LPUSH" "k" ["x"]%string
           (StringData "v") KList false).
  - split; vm_compute; repeat constructor. inversion 1.
  - reflexivity.
  - reflexivity.
  - reflexivity.
  - discriminate.
Defined.


(** ** Lists: the order the pushes give *)

Lemma PushFront_all_rev (values es : list string) : PushFront_all values es = rev values ++ es.
Proof.
  unfold PushFront_all. revert es. induction values as [|v values IH]; intros es; cbn.
  - reflexivity.
  - rewrite IH, <- app_assoc. reflexivity.
Qed.

Lemma PushBack_all_app (values es : list string) : PushBack_all values es = es ++ values.
Proof.
  unfold PushBack_all. revert es. induction values as [|v values IH]; intros es; cbn.
  - rewrite app_nil_r. reflexivity.
  - rewrite IH, <- app_assoc. reflexivity.
Qed.

Section Lists.

Context {C : Type} {EC : EvictionCache C} {CL : CacheLaws C}.
Context (admin_refused : string -> option Reply) (admin_reply : string -> Reply).

Implicit Types (d : StandaloneDB C).

(** The elements of the list under [k]; none when the key is missing. *)
Definition list_at d (k : string) : list string :=
  match view (cache d) !! k with
  | Some (ListData l) => list_elems (objects d) l
  | _ => []
  end.

(** The key is missing or holds a list. *)
Definition list_or_missing d (k : string) : Prop :=
  match view (cache d) !! k with
  | Some (ListData _) | None => True
  | Some _ => False
  end.

Lemma push_run (name : string) pushAll d now (n k x : string) (xs : list string) :
  ok (cache d) ->
  list_or_missing d k ->
  is_past_due d now k = false ->
  let es' := pushAll (x :: xs) (list_at d k) in
  cache_maxBytes (cache d) = 0
  \/ cache_nbytes (cache d) + (len k + ListData_Len es') <= cache_maxBytes (cache d) ->
  exists d1 l,
    push name pushAll now (n :: k :: x :: xs) d
    = Some (MakeIntReply (Z.of_nat (length es')), d1)
    /\ ok (cache d1)
    /\ view (cache d1) !! k = Some (ListData l)
    /\ list_elems (objects d1) l = es'
    /\ ttlMap d1 = ttlMap d.
Proof.
  intros Hok Hlm Hdue es' Hroom.
  destruct (cache_Get_eq d now k Hok) as (c1 & HG & Hok1 & Hv1 & Hn1 & Hm1).
  unfold push, bind, getListForWrite. unfold bind. rewrite HG.
  unfold list_or_missing in Hlm. unfold list_at in es'.
  destruct (view (cache d) !! k) as [[b|l|h|s]|] eqn:Ev; try contradiction.
  - rewrite past_due_eq.
    change (is_past_due (set_cache c1 d) now k) with (is_past_due d now k). rewrite Hdue.
    cbn [ret]. unfold read_list, gets, write_object, modify.
    cbn [objects set_cache set_objects].
    fold es'.
    set (st' := <[l := ListObj es']> (objects d)).
    set (dw := set_objects st' (set_cache c1 d)).
    destruct (cache_Add_fits_eq dw now k (ListData l)) as (c2 & HA & Hok2 & Hv2 & _).
    + exact Hok1.
    + unfold fits, dw. cbn [cache objects set_objects set_cache].
      rewrite Hv1, Ev, Hn1, Hm1.
      destruct Hroom as [?|Hroom]; [left; assumption | right].
      pose proof (len_nonneg k).
      pose proof (Len_nonneg st' (ListData l)). cbn [types.Len] in *.
      assert (Hl : list_elems st' l = es')
        by (unfold list_elems, st'; rewrite store_lookup_insert; reflexivity).
      rewrite Hl in *. lia.
    + rewrite HA. exists (set_cache c2 dw), l.
      split; [reflexivity |]. cbn [cache objects ttlMap set_cache set_objects dw].
      split; [exact Hok2 | split; [rewrite Hv2; apply lookup_insert_eq | split]].
      * unfold dw, list_elems, st'. cbn [objects set_objects set_cache].
        rewrite store_lookup_insert. reflexivity.
      * reflexivity.
  - unfold new_object, alloc. cbn [ret]. unfold read_list, gets, write_object, modify.
    cbn [objects set_cache set_objects].
    set (l := new_loc (objects d)).
    assert (Hel : list_elems (<[l := ListObj []]> (objects d)) l = []).
    { unfold list_elems. rewrite store_lookup_insert. reflexivity. }
    rewrite Hel. fold es'.
    set (st' := <[l := ListObj es']> (<[l := ListObj []]> (objects d))).
    set (dw := set_objects st' (set_objects (<[l := ListObj []]> (objects d)) (set_cache c1 d))).
    assert (Hl : list_elems st' l = es')
      by (unfold list_elems, st'; rewrite store_lookup_insert; reflexivity).
    destruct (cache_Add_fits_eq dw now k (ListData l)) as (c2 & HA & Hok2 & Hv2 & _).
    + exact Hok1.
    + unfold fits, dw. cbn [cache objects set_objects set_cache].
      rewrite Hv1, Ev, Hn1, Hm1. cbn [types.Len]. rewrite Hl. exact Hroom.
    + rewrite HA. exists (set_cache c2 dw), l.
      split; [reflexivity |]. cbn [cache objects ttlMap set_cache set_objects dw].
      split; [exact Hok2 | split; [rewrite Hv2; apply lookup_insert_eq | split]].
      * exact Hl.
      * reflexivity.
Qed.

Lemma lrange_all d now (n k : string) (l : loc) :
  ok (cache d) ->
  view (cache d) !! k = Some (ListData l) ->
  is_past_due d now k = false ->
  list_elems (objects d) l <> [] ->
  exists d',
    lrange now [n; k; "0"; "-1"] d
    = Some (MakeMultiBulkReply (Some (map Some (list_elems (objects d) l))), d')
    /\ cache_maxBytes (cache d') = cache_maxBytes (cache d).
Proof.
  intros Hok Hv Hdue Hne.
  destruct (cache_Get_eq d now k Hok) as (c1 & HG & Hok1 & Hv1 & Hn1 & Hm1).
  unfold lrange. change (Atoi "0") with (Some 0). change (Atoi "-1") with (Some (-1)).
  unfold bind. rewrite HG, Hv, past_due_eq.
  change (is_past_due (set_cache c1 d) now k) with (is_past_due d now k). rewrite Hdue.
  unfold read_list, gets. cbn [objects set_cache].
  set (es := list_elems (objects d) l) in *.
  rewrite clamp_range_max_min.
  assert (Hlen : 0 < Z.of_nat (length es)) by (destruct es; [contradiction | cbn; lia]).
  change (0 <? 0) with false. change (-1 <? 0) with true. cbv iota.
  replace (Z.max 0 0) with 0 by reflexivity.
  replace (Z.min (Z.of_nat (length es) - 1) (Z.of_nat (length es) + -1))
    with (Z.of_nat (length es) - 1) by lia.
  destruct (Z.ltb_spec (Z.of_nat (length es) - 1) 0); [lia |].
  rewrite lrange_loop_inside by lia.
  replace (Z.to_nat (Z.of_nat (length es) - 1 - 0 + 1)) with (length es) by lia.
  rewrite firstn_all. eexists. split; [reflexivity | exact Hm1].
Qed.

(** [LPUSH] and [RPUSH] followed by [LRANGE key 0 -1]: on a key that is
    missing or holds a list, with room in the budget for the resulting list,
    the push answers the new length, and the range then answers the whole
    list: for [RPUSH] the old elements followed by the new ones in argument
    order, for [LPUSH] the new ones in reverse argument order followed by
    the old elements. *)
Theorem lrange_after_push_shows_the_order d (now now' : Z) (npush nrange k x : string)
    (xs new : list string) (b b' : bool) :
  ok (cache d) ->
  list_or_missing d k ->
  is_past_due d now k = false ->
  is_past_due d now' k = false ->
  (ToLower npush = "lpush" /\ new = rev (x :: xs) ++ list_at d k)
  \/ (ToLower npush = "rpush" /\ new = list_at d k ++ x :: xs) ->
  ToLower nrange = "lrange" ->
  cache_maxBytes (cache d) = 0
  \/ cache_nbytes (cache d) + (len k + ListData_Len new) <= cache_maxBytes (cache d) ->
  exists d1 d2,
    handle admin_refused admin_reply now
           {| cmd := npush :: k :: x :: xs; fn := None; noAof := b |} d
    = Some (Some (MakeIntReply (Z.of_nat (length new))), d1)
    /\ handle admin_refused admin_reply now'
              {| cmd := [nrange; k; "0"; "-1"]; fn := None; noAof := b' |} d1
       = Some (Some (MakeMultiBulkReply (Some (map Some new))), d2).
Proof.
  intros Hok Hlm Hdue Hdue' Hpush Hrange Hroom.
  assert (Hrun : exists dd l,
             execInternal admin_refused admin_reply now (npush :: k :: x :: xs)
                          (set_evictedKeys [] d)
             = Some (Some (MakeIntReply (Z.of_nat (length new))), dd)
             /\ ok (cache dd) /\ view (cache dd) !! k = Some (ListData l)
             /\ list_elems (objects dd) l = new /\ ttlMap dd = ttlMap d).
  { destruct Hpush as [[Hn ->]|[Hn ->]].
    - rewrite <- PushFront_all_rev in Hroom |- *.
      destruct (push_run "lpush" PushFront_all (set_evictedKeys [] d) now npush k x xs
                  Hok Hlm Hdue Hroom) as (dd & l & H & Hrest).
      exists dd, l. split; [|exact Hrest].
      unfold execInternal. rewrite Hn. cbn [String.eqb Ascii.eqb Bool.eqb].
      unfold bind, lpush. rewrite H. reflexivity.
    - rewrite <- PushBack_all_app in Hroom |- *.
      destruct (push_run "rpush" PushBack_all (set_evictedKeys [] d) now npush k x xs
                  Hok Hlm Hdue Hroom) as (dd & l & H & Hrest).
      exists dd, l. split; [|exact Hrest].
      unfold execInternal. rewrite Hn. cbn [String.eqb Ascii.eqb Bool.eqb].
      unfold bind, rpush. rewrite H. reflexivity. }
  destruct Hrun as (dd & l & Hexec & Hokd & Hvd & Hld & Htd).
  destruct (handle_from_execInternal admin_refused admin_reply d dd now _ b _ Hexec)
    as (d1 & H1 & Hc1 & Ht1 & Ho1).
  assert (Hne : new <> []).
  { destruct Hpush as [[_ ->]|[_ ->]]; [cbn [rev]|]; intros E;
      apply app_eq_nil in E as [E1 E2]; try discriminate.
    apply app_eq_nil in E1 as [_ E1]. discriminate. }
  destruct (lrange_all (set_evictedKeys [] d1) now' nrange k l) as (dr & Hr & _).
  - cbn. rewrite Hc1. exact Hokd.
  - cbn. rewrite Hc1. exact Hvd.
  - unfold is_past_due in *. cbn [ttlMap set_evictedKeys]. rewrite Ht1, Htd. exact Hdue'.
  - cbn [objects set_evictedKeys]. rewrite Ho1, Hld. exact Hne.
  - cbn [objects set_evictedKeys] in Hr. rewrite Ho1, Hld in Hr.
    destruct (handle_from_execInternal admin_refused admin_reply d1 dr now'
                [nrange; k; "0"; "-1"] b' (Some (MakeMultiBulkReply (Some (map Some new)))))
      as (d2 & H2 & _).
    { unfold execInternal. rewrite Hrange. cbn [String.eqb Ascii.eqb Bool.eqb].
      unfold bind. rewrite Hr. reflexivity. }
    exists d1, d2. split; [exact H1 | exact H2].
Qed.

End Lists.

Lemma lrange_after_push_shows_the_order_witness :
  exists d1 d2,
    handle no_admin admin_ok second
           {| cmd := ["LPUSH"; "l"; "x"; "y"]%string; fn := None; noAof := false |}
           two_element_list
    = Some (Some (MakeIntReply 4), d1)
    /\ handle no_admin admin_ok second
              {| cmd := ["LRANGE"; "l"; "0"; "-1"]%string; fn := None; noAof := false |} d1
       = Some (Some (MakeMultiBulkReply (Some [Some "y"; Some "x"; Some "a"; Some "b"]%string)),
               d2).
Proof.
  assert (Hok : ok (cache two_element_list)).
  { split; vm_compute; repeat constructor. inversion 1. }
  apply (lrange_after_push_shows_the_order no_admin admin_ok two_element_list second second
           "LPUSH" "LRANGE" "l" "x" ["y"]%string ["y"; "x"; "a"; "b"]%string false false Hok).
  - vm_compute. exact I.
  - reflexivity.
  - reflexivity.
  - left. split; reflexivity.
  - reflexivity.
  - right. vm_compute. discriminate.
Defined.


(** ** Sets: what SADD counts *)

Lemma sadd_loop_union (members : list string) (s : gset string) (added : Z) :
  sadd_loop members s added
  = (s ∪ list_to_set members,
     added + Z.of_nat (size (s ∪ list_to_set members)) - Z.of_nat (size s)).
Proof.
  revert s added. induction members as [|m members IH]; intros s added; cbn [sadd_loop].
  - cbn [list_to_set]. rewrite (right_id_L ∅ (∪)). f_equal. lia.
  - cbn [list_to_set foldr]. destruct (decide (m ∈ s)) as [Hin|Hnin].
    + rewrite bool_decide_eq_true_2 by exact Hin. rewrite IH.
      assert (E : s ∪ ({[m]} ∪ list_to_set members) = s ∪ list_to_set members)
        by set_solver.
      rewrite E. reflexivity.
    + rewrite bool_decide_eq_false_2 by exact Hnin. rewrite IH.
      assert (E : s ∪ ({[m]} ∪ list_to_set members) = {[m]} ∪ s ∪ list_to_set members)
        by set_solver.
      rewrite E. f_equal.
      assert (Hs : size ({[m]} ∪ s) = S (size s)).
      { rewrite size_union by set_solver. rewrite size_singleton. reflexivity. }
      lia.
Qed.

Section Sets.

Context {C : Type} {EC : EvictionCache C} {CL : CacheLaws C}.
Context (admin_refused : string -> option Reply) (admin_reply : string -> Reply).

Implicit Types (d : StandaloneDB C).

(** The members of the set under [k]; none when the key is missing. *)
Definition set_at d (k : string) : gset string :=
  match view (cache d) !! k with
  | Some (SetData s) => set_members (objects d) s
  | _ => ∅
  end.

Definition set_or_missing d (k : string) : Prop :=
  match view (cache d) !! k with
  | Some (SetData _) | None => True
  | Some _ => False
  end.

Lemma sadd_run d now (n k m : string) (ms : list string) :
  ok (cache d) ->
  set_or_missing d k ->
  is_past_due d now k = false ->
  let new := set_at d k ∪ list_to_set (m :: ms) in
  cache_maxBytes (cache d) = 0
  \/ cache_nbytes (cache d) + (len k + SetData_Len new) <= cache_maxBytes (cache d) ->
  exists d1 s,
    sadd now (n :: k :: m :: ms) d
    = Some (MakeIntReply (Z.of_nat (size new) - Z.of_nat (size (set_at d k))), d1)
    /\ ok (cache d1)
    /\ view (cache d1) !! k = Some (SetData s)
    /\ set_members (objects d1) s = new
    /\ ttlMap d1 = ttlMap d.
Proof.
  intros Hok Hsm Hdue new Hroom.
  destruct (cache_Get_eq d now k Hok) as (c1 & HG & Hok1 & Hv1 & Hn1 & Hm1).
  unfold sadd, bind, getSet. unfold bind. rewrite HG.
  unfold set_or_missing in Hsm. unfold set_at in new, Hroom |- *.
  destruct (view (cache d) !! k) as [[b|l|h|s]|] eqn:Ev; try contradiction.
  - rewrite past_due_eq.
    change (is_past_due (set_cache c1 d) now k) with (is_past_due d now k). rewrite Hdue.
    cbn [ret]. unfold sadd_store, bind, read_set, gets, write_object, modify. cbn [ret].
    cbn [objects set_cache set_objects]. rewrite sadd_loop_union. fold new.
    cbv beta iota. cbn [objects set_cache set_objects].
    set (st' := <[s := SetObj new]> (objects d)).
    set (dw := set_objects st' (set_cache c1 d)).
    assert (Hl : set_members st' s = new)
      by (unfold set_members, st'; rewrite store_lookup_insert; reflexivity).
    replace (0 + Z.of_nat (size new) - Z.of_nat (size (set_members (objects d) s)))
      with (Z.of_nat (size new) - Z.of_nat (size (set_members (objects d) s))) by lia.
    destruct (_ || _).
    + destruct (cache_Add_fits_eq dw now k (SetData s)) as (c2 & HA & Hok2 & Hv2 & _).
      * exact Hok1.
      * unfold fits, dw. cbn [cache objects set_objects set_cache].
        rewrite Hv1, Ev, Hn1, Hm1.
        destruct Hroom as [?|Hroom]; [left; assumption | right].
        pose proof (len_nonneg k).
        pose proof (Len_nonneg st' (SetData s)). cbn [types.Len] in *.
        rewrite Hl in *. lia.
      * rewrite HA. exists (set_cache c2 dw), s.
        split; [reflexivity |]. cbn [cache objects ttlMap set_cache set_objects dw].
        split; [exact Hok2 | split; [rewrite Hv2; apply lookup_insert_eq | split]];
          [exact Hl | reflexivity].
    + exists dw, s. split; [reflexivity |]. unfold dw.
      cbn [cache objects ttlMap set_cache set_objects].
      split; [exact Hok1 | split; [rewrite Hv1; exact Ev | split]];
        [exact Hl | reflexivity].
  - cbn [ret].
    destruct (cache_Get_eq (set_cache c1 d) now k Hok1) as (c1' & HG' & Hok1' & Hv1' & Hn1' & Hm1').
    cbn [cache set_cache] in Hv1', Hn1', Hm1'.
    rewrite HG'. cbn [cache set_cache]. rewrite Hv1, Ev.
    unfold sadd_store, bind, new_object, alloc, read_set, gets, write_object, modify.
    cbn [ret objects set_cache set_objects].
    set (s := new_loc (objects d)).
    assert (Hel : set_members (<[s := SetObj ∅]> (objects d)) s = ∅).
    { unfold set_members. rewrite store_lookup_insert. reflexivity. }
    rewrite Hel, sadd_loop_union. fold new.
    cbv beta iota. cbn [objects set_cache set_objects].
    set (st' := <[s := SetObj new]> (<[s := SetObj ∅]> (objects d))).
    set (dw := set_objects st' (set_objects (<[s := SetObj ∅]> (objects d))
                                            (set_cache c1' (set_cache c1 d)))).
    assert (Hl : set_members st' s = new)
      by (unfold set_members, st'; rewrite store_lookup_insert; reflexivity).
    assert (Hpos : 0 < Z.of_nat (size new)).
    { assert (m ∈ new) by (unfold new; set_solver).
      destruct (size new) eqn:Es; [|lia].
      apply size_empty_inv in Es. set_solver. }
    rewrite size_empty.
    replace (0 + Z.of_nat (size new) - Z.of_nat 0) with (Z.of_nat (size new)) by lia.
    replace (Z.of_nat (size new) - Z.of_nat 0) with (Z.of_nat (size new)) by lia.
    destruct (Z.ltb_spec 0 (Z.of_nat (size new))); [|lia]. cbn [orb].
    destruct (cache_Add_fits_eq dw now k (SetData s)) as (c2 & HA & Hok2 & Hv2 & _).
    + exact Hok1'.
    + unfold fits, dw. cbn [cache objects set_objects set_cache].
      rewrite Hv1', Hv1, Ev, Hn1', Hn1, Hm1', Hm1. cbn [types.Len]. rewrite Hl. exact Hroom.
    + rewrite HA. exists (set_cache c2 dw), s.
      split; [reflexivity |]. cbn [cache objects ttlMap set_cache set_objects dw].
      split; [exact Hok2 | split; [rewrite Hv2; apply lookup_insert_eq | split]];
        [exact Hl | reflexivity].
Qed.

(** [SADD] followed by [SCARD]: on a key that is missing or holds a set,
    with room in the budget for the resulting set, [SADD] answers the number
    of members that were not in the set yet, a member named twice counting
    once, and [SCARD] then answers the size before plus that number. *)
Theorem scard_after_sadd_adds_the_new_members d (now now' : Z) (nadd ncard k m : string)
    (ms : list string) (b b' : bool) :
  ok (cache d) ->
  set_or_missing d k ->
  is_past_due d now k = false ->
  is_past_due d now' k = false ->
  ToLower nadd = "sadd" ->
  ToLower ncard = "scard" ->
  let old := set_at d k in
  let new := old ∪ list_to_set (m :: ms) in
  cache_maxBytes (cache d) = 0
  \/ cache_nbytes (cache d) + (len k + SetData_Len new) <= cache_maxBytes (cache d) ->
  exists d1 d2,
    handle admin_refused admin_reply now
           {| cmd := nadd :: k :: m :: ms; fn := None; noAof := b |} d
    = Some (Some (MakeIntReply (Z.of_nat (size (new ∖ old)))), d1)
    /\ set_at d1 k = new
    /\ handle admin_refused admin_reply now' {| cmd := [ncard; k]; fn := None; noAof := b' |} d1
       = Some (Some (MakeIntReply (Z.of_nat (size old) + Z.of_nat (size (new ∖ old)))), d2).
Proof.
  intros Hok Hsm Hdue Hdue' Hadd Hcard old new Hroom.
  assert (Hsize : Z.of_nat (size new) = Z.of_nat (size old) + Z.of_nat (size (new ∖ old))).
  { assert (E : new = old ∪ new ∖ old).
    { apply set_eq. intros x. unfold new. destruct (decide (x ∈ old)); set_solver. }
    rewrite E at 1. rewrite size_union by set_solver. lia. }
  destruct (sadd_run (set_evictedKeys [] d) now nadd k m ms Hok Hsm Hdue Hroom)
    as (dd & s & Hrun & Hokd & Hvd & Hsd & Htd).
  change (set_at (set_evictedKeys [] d) k) with old in Hrun, Hsd. fold new in Hrun, Hsd.
  destruct (handle_from_execInternal admin_refused admin_reply d dd now
              (nadd :: k :: m :: ms) b (Some (MakeIntReply (Z.of_nat (size (new ∖ old))))))
    as (d1 & H1 & Hc1 & Ht1 & Ho1).
  { unfold execInternal. rewrite Hadd. cbn [String.eqb Ascii.eqb Bool.eqb].
    unfold bind. rewrite Hrun. unfold ret. do 4 f_equal. lia. }
  assert (Hat : set_at d1 k = new).
  { unfold set_at. rewrite Hc1, Hvd, Ho1. exact Hsd. }
  assert (Hok1 : ok (cache (set_evictedKeys [] d1))) by (cbn; rewrite Hc1; exact Hokd).
  destruct (cache_Get_eq (set_evictedKeys [] d1) now' k Hok1) as (c2 & HG & _).
  cbn [cache set_evictedKeys] in HG. rewrite Hc1, Hvd in HG.
  destruct (handle_from_execInternal admin_refused admin_reply d1
              (set_cache c2 (set_evictedKeys [] d1)) now' [ncard; k] b'
              (Some (MakeIntReply (Z.of_nat (size old) + Z.of_nat (size (new ∖ old))))))
    as (d2 & H2 & _).
  { unfold execInternal. rewrite Hcard. cbn [String.eqb Ascii.eqb Bool.eqb].
    unfold bind at 1. unfold scard, getSet. unfold bind. rewrite HG, past_due_eq.
    unfold is_past_due in *. cbn [ttlMap set_cache set_evictedKeys].
    rewrite Ht1, Htd. cbn [ttlMap set_evictedKeys]. rewrite Hdue'.
    cbn [ret]. unfold read_set, gets. cbn [objects set_cache set_evictedKeys ret].
    rewrite Ho1, Hsd, Hsize. reflexivity. }
  exists d1, d2. split; [exact H1 | split; [exact Hat | exact H2]].
Qed.

End Sets.

Lemma scard_after_sadd_adds_the_new_members_witness :
  exists d1 d2,
    handle no_admin admin_ok second
           {| cmd := ["SADD"; "m"; "a"; "c"; "c"]%string; fn := None; noAof := false |}
           sample_keyspace
    = Some (Some (MakeIntReply 1), d1)
    /\ handle no_admin admin_ok second
              {| cmd := ["SCARD"; "m"]%string; fn := None; noAof := false |} d1
       = Some (Some (MakeIntReply 3), d2).
Proof.
  destruct (scard_after_sadd_adds_the_new_members no_admin admin_ok sample_keyspace second
              second "SADD" "SCARD" "m" "a" ["c"; "c"]%string false false sample_keyspace_ok)
    as (d1 & d2 & H1 & _ & H2).
  - vm_compute. exact I.
  - reflexivity.
  - reflexivity.
  - reflexivity.
  - reflexivity.
  - right. vm_compute. discriminate.
  - exists d1, d2. split.
    + rewrite H1. reflexivity.
    + rewrite H2. reflexivity.
Defined.


(** ** Hashes: what HSET writes *)

(** The arguments of an [HSET] for a list of pairs, and the hash that
    results: a pair named later in the command wins over an earlier one and
    over the field's old value. *)
Definition pair_args (pairs : list (string * string)) : list string :=
  concat (map (fun p => [p.1; p.2]) pairs).

Definition hash_with (pairs : list (string * string)) (old : gmap string string)
  : gmap string string :=
  list_to_map (reverse pairs) ∪ old.

Lemma hset_loop_pairs (pairs : list (string * string)) (h : gmap string string) (count : Z) :
  hset_loop (pair_args pairs) h count
  = (hash_with pairs h, count + Z.of_nat (size (hash_with pairs h)) - Z.of_nat (size h)).
Proof.
  revert h count. induction pairs as [|[f v] pairs IH]; intros h count.
  - cbn. unfold hash_with. cbn. rewrite (left_id_L ∅ (∪)). f_equal. lia.
  - change (pair_args ((f, v) :: pairs)) with (f :: v :: pair_args pairs).
    cbn [hset_loop]. rewrite IH.
    assert (E : hash_with pairs (<[f := v]> h) = hash_with ((f, v) :: pairs) h).
    { unfold hash_with. rewrite reverse_cons, list_to_map_app. cbn [list_to_map foldr].
      cbn [fst snd]. rewrite insert_empty, <- (assoc_L (∪)), <- insert_union_singleton_l.
      reflexivity. }
    rewrite E. f_equal. rewrite map_size_insert.
    destruct (h !! f); unfold id; lia.
Qed.

Lemma pair_args_even (n k : string) (pairs : list (string * string)) :
  Nat.even (length (n :: k :: pair_args pairs)) = true.
Proof.
  cbn [length]. induction pairs as [|[f v] pairs IH]; [reflexivity |].
  change (pair_args ((f, v) :: pairs)) with (f :: v :: pair_args pairs).
  cbn [length]. exact IH.
Qed.

Section Hashes.

Context {C : Type} {EC : EvictionCache C} {CL : CacheLaws C}.
Context (admin_refused : string -> option Reply) (admin_reply : string -> Reply).

Implicit Types (d : StandaloneDB C).

(** The fields of the hash under [k]; none when the key is missing. *)
Definition hash_at d (k : string) : gmap string string :=
  match view (cache d) !! k with
  | Some (HashData h) => hash_fields (objects d) h
  | _ => ∅
  end.

Definition hash_or_missing d (k : string) : Prop :=
  match view (cache d) !! k with
  | Some (HashData _) | None => True
  | Some _ => False
  end.

Lemma hset_run d now (n k : string) (p : string * string) (ps : list (string * string)) :
  ok (cache d) ->
  hash_or_missing d k ->
  is_past_due d now k = false ->
  let new := hash_with (p :: ps) (hash_at d k) in
  cache_maxBytes (cache d) = 0
  \/ cache_nbytes (cache d) + (len k + HashData_Len new) <= cache_maxBytes (cache d) ->
  exists d1 h,
    hset now (n :: k :: pair_args (p :: ps)) d
    = Some (MakeIntReply (Z.of_nat (size new) - Z.of_nat (size (hash_at d k))), d1)
    /\ ok (cache d1)
    /\ view (cache d1) !! k = Some (HashData h)
    /\ hash_fields (objects d1) h = new
    /\ ttlMap d1 = ttlMap d.
Proof.
  intros Hok Hhm Hdue new Hroom.
  pose proof (pair_args_even n k (p :: ps)) as Heven.
  destruct p as [f v].
  change (pair_args ((f, v) :: ps)) with (f :: v :: pair_args ps) in *.
  set (fv := f :: v :: pair_args ps) in *.
  destruct (cache_Get_eq d now k Hok) as (c1 & HG & Hok1 & Hv1 & Hn1 & Hm1).
  unfold hset. unfold fv at 1. fold fv. rewrite Heven.
  unfold bind, getHash. unfold bind. rewrite HG.
  unfold hash_or_missing in Hhm. unfold hash_at in new, Hroom |- *.
  destruct (view (cache d) !! k) as [[b|l|h|s]|] eqn:Ev; try contradiction.
  - rewrite past_due_eq.
    change (is_past_due (set_cache c1 d) now k) with (is_past_due d now k). rewrite Hdue.
    cbn [ret]. unfold hset_store, bind, read_hash, gets, write_object, modify. cbn [ret].
    cbn [objects set_cache set_objects].
    change fv with (pair_args ((f, v) :: ps)). rewrite hset_loop_pairs. fold new.
    cbv beta iota. cbn [objects set_cache set_objects].
    set (st' := <[h := HashObj new]> (objects d)).
    set (dw := set_objects st' (set_cache c1 d)).
    assert (Hl : hash_fields st' h = new)
      by (unfold hash_fields, st'; rewrite store_lookup_insert; reflexivity).
    replace (0 + Z.of_nat (size new) - Z.of_nat (size (hash_fields (objects d) h)))
      with (Z.of_nat (size new) - Z.of_nat (size (hash_fields (objects d) h))) by lia.
    destruct (cache_Add_fits_eq dw now k (HashData h)) as (c2 & HA & Hok2 & Hv2 & _).
    + exact Hok1.
    + unfold fits, dw. cbn [cache objects set_objects set_cache].
      rewrite Hv1, Ev, Hn1, Hm1.
      destruct Hroom as [?|Hroom]; [left; assumption | right].
      pose proof (len_nonneg k).
      pose proof (Len_nonneg st' (HashData h)). cbn [types.Len] in *.
      rewrite Hl in *. lia.
    + rewrite HA. exists (set_cache c2 dw), h.
      split; [reflexivity |]. cbn [cache objects ttlMap set_cache set_objects dw].
      split; [exact Hok2 | split; [rewrite Hv2; apply lookup_insert_eq | split]];
        [exact Hl | reflexivity].
  - cbn [ret]. unfold new_object, alloc. cbn [objects set_cache set_objects].
    set (h := new_loc (objects d)).
    set (st0 := <[h := HashObj ∅]> (objects d)).
    destruct (cache_Get_eq (set_objects st0 (set_cache c1 d)) now k Hok1)
      as (c1' & HG' & Hok1' & Hv1' & Hn1' & Hm1').
    cbn [cache set_cache set_objects] in Hv1', Hn1', Hm1', HG'.
    rewrite HG'. rewrite Hv1, Ev.
    unfold hset_store, bind, read_hash, gets, write_object, modify.
    cbn [ret objects set_cache set_objects].
    assert (Hel : hash_fields st0 h = ∅).
    { unfold hash_fields, st0. rewrite store_lookup_insert. reflexivity. }
    rewrite Hel. change fv with (pair_args ((f, v) :: ps)). rewrite hset_loop_pairs. fold new.
    cbv beta iota. cbn [objects set_cache set_objects].
    set (st' := <[h := HashObj new]> st0).
    set (dw := set_objects st' (set_cache c1' (set_objects st0 (set_cache c1 d)))).
    assert (Hl : hash_fields st' h = new)
      by (unfold hash_fields, st'; rewrite store_lookup_insert; reflexivity).
    rewrite map_size_empty.
    replace (0 + Z.of_nat (size new) - Z.of_nat 0)
      with (Z.of_nat (size new) - Z.of_nat 0) by lia.
    destruct (cache_Add_fits_eq dw now k (HashData h)) as (c2 & HA & Hok2 & Hv2 & _).
    + exact Hok1'.
    + unfold fits, dw. cbn [cache objects set_objects set_cache].
      rewrite Hv1', Hv1, Ev, Hn1', Hn1, Hm1', Hm1. cbn [types.Len]. rewrite Hl. exact Hroom.
    + rewrite HA. exists (set_cache c2 dw), h.
      split; [reflexivity |]. cbn [cache objects ttlMap set_cache set_objects dw].
      split; [exact Hok2 | split; [rewrite Hv2; apply lookup_insert_eq | split]];
        [exact Hl | reflexivity].
Qed.

(** [HSET] followed by [HGET]: on a key that is missing or holds a hash,
    with room in the budget for the resulting hash, [HSET] answers the
    number of fields that were not in the hash yet, and [HGET] of a field
    then answers the value that the last pair naming the field gave it, the
    value the field had before when no pair names it, and the nil bulk when
    the field is in neither. *)
Theorem hget_after_hset_returns_the_last_value d (now now' : Z) (nset nget k field : string)
    (p : string * string) (ps : list (string * string)) (b b' : bool) :
  ok (cache d) ->
  hash_or_missing d k ->
  is_past_due d now k = false ->
  is_past_due d now' k = false ->
  ToLower nset = "hset" ->
  ToLower nget = "hget" ->
  let old := hash_at d k in
  let new := list_to_map (reverse (p :: ps)) ∪ old in
  cache_maxBytes (cache d) = 0
  \/ cache_nbytes (cache d) + (len k + HashData_Len new) <= cache_maxBytes (cache d) ->
  exists d1 d2,
    handle admin_refused admin_reply now
           {| cmd := nset :: k :: concat (map (fun q => [q.1; q.2]) (p :: ps));
              fn := None; noAof := b |} d
    = Some (Some (MakeIntReply (Z.of_nat (size new) - Z.of_nat (size old))), d1)
    /\ hash_at d1 k = new
    /\ handle admin_refused admin_reply now'
              {| cmd := [nget; k; field]; fn := None; noAof := b' |} d1
       = Some (Some (MakeBulkReply (new !! field)), d2).
Proof.
  intros Hok Hhm Hdue Hdue' Hset Hget old new Hroom.
  destruct (hset_run (set_evictedKeys [] d) now nset k p ps Hok Hhm Hdue Hroom)
    as (dd & h & Hrun & Hokd & Hvd & Hsd & Htd).
  change (hash_at (set_evictedKeys [] d) k) with old in Hrun, Hsd.
  change (hash_with (p :: ps) old) with new in Hrun, Hsd.
  destruct (handle_from_execInternal admin_refused admin_reply d dd now
              (nset :: k :: pair_args (p :: ps)) b
              (Some (MakeIntReply (Z.of_nat (size new) - Z.of_nat (size old)))))
    as (d1 & H1 & Hc1 & Ht1 & Ho1).
  { unfold execInternal. rewrite Hset. cbn [String.eqb Ascii.eqb Bool.eqb].
    unfold bind. rewrite Hrun. reflexivity. }
  assert (Hat : hash_at d1 k = new).
  { unfold hash_at. rewrite Hc1, Hvd, Ho1. exact Hsd. }
  assert (Hok1 : ok (cache (set_evictedKeys [] d1))) by (cbn; rewrite Hc1; exact Hokd).
  destruct (cache_Get_eq (set_evictedKeys [] d1) now' k Hok1) as (c2 & HG & _).
  cbn [cache set_evictedKeys] in HG. rewrite Hc1, Hvd in HG.
  destruct (handle_from_execInternal admin_refused admin_reply d1
              (set_cache c2 (set_evictedKeys [] d1)) now' [nget; k; field] b'
              (Some (MakeBulkReply (new !! field))))
    as (d2 & H2 & _).
  { unfold execInternal. rewrite Hget. cbn [String.eqb Ascii.eqb Bool.eqb].
    unfold bind at 1. unfold hget, getHash. unfold bind. rewrite HG, past_due_eq.
    unfold is_past_due in *. cbn [ttlMap set_cache set_evictedKeys].
    rewrite Ht1, Htd. cbn [ttlMap set_evictedKeys]. rewrite Hdue'.
    cbn [ret]. unfold read_hash, gets. cbn [objects set_cache set_evictedKeys ret].
    rewrite Ho1, Hsd. destruct (new !! field); reflexivity. }
  exists d1, d2. split; [exact H1 | split; [exact Hat | exact H2]].
Qed.

End Hashes.

Lemma hget_after_hset_returns_the_last_value_witness :
  exists d1 d2,
    handle no_admin admin_ok second
           {| cmd := ["HSET"; "h"; "f"; "y"; "g"; "1"; "g"; "2"]%string; fn := None;
              noAof := false |}
           sample_keyspace
    = Some (Some (MakeIntReply 1), d1)
    /\ handle no_admin admin_ok second
              {| cmd := ["HGET"; "h"; "g"]%string; fn := None; noAof := false |} d1
       = Some (Some (MakeBulkReply (Some "2"%string)), d2).
Proof.
  destruct (hget_after_hset_returns_the_last_value no_admin admin_ok sample_keyspace second
              second "HSET" "HGET" "h" "g" ("f", "y")%string
              [("g", "1"); ("g", "2")]%string false false sample_keyspace_ok)
    as (d1 & d2 & H1 & _ & H2).
  - vm_compute. exact I.
  - reflexivity.
  - reflexivity.
  - reflexivity.
  - reflexivity.
  - right. vm_compute. discriminate.
  - exists d1, d2. split.
    + etransitivity; [exact H1 |]. vm_compute. reflexivity.
    + etransitivity; [exact H2 |]. vm_compute. reflexivity.
Defined.


(** ** The stream loop *)

(** Every read leaves less than it was given, so the fuel of [parse0] is
    never what ends the loop. *)
Lemma ReadBytes_LF_shorter (s line rest : string) :
  ReadBytes_LF s = Some (line, rest) -> (String.length rest < String.length s)%nat.
Proof.
  revert line. induction s as [|c s IH]; intros line H; [discriminate |].
  cbn [ReadBytes_LF] in H. destruct (Ascii.eqb c LF).
  - injection H as _ <-. cbn. lia.
  - destruct (ReadBytes_LF s) as [[l r]|] eqn:E; [|discriminate].
    injection H as _ <-. specialize (IH _ eq_refl). cbn. lia.
Qed.

Lemma ReadFull_shorter (n : nat) (s b rest : string) :
  ReadFull n s = Some (b, rest) -> (String.length rest <= String.length s)%nat.
Proof.
  revert s b. induction n as [|n IH]; intros s b H; cbn [ReadFull] in H.
  - injection H as _ <-. lia.
  - destruct s as [|c s]; [discriminate |].
    destruct (ReadFull n s) as [[b' r]|] eqn:E; [|discriminate].
    injection H as _ <-. specialize (IH _ _ E). cbn. lia.
Qed.

Lemma readLine_shorter (input line rest : string) :
  readLine input = Ok (line, rest) -> (String.length rest < String.length input)%nat.
Proof.
  unfold readLine. destruct (ReadBytes_LF input) as [[l r]|] eqn:E; [|discriminate].
  destruct (_ && _); [|discriminate]. intros H. injection H as _ <-.
  eapply ReadBytes_LF_shorter, E.
Qed.

Lemma parseBulk_shorter (header input : string) (arg : option string) (rest : string) :
  parseBulk header input = Ok (arg, rest) -> (String.length rest <= String.length input)%nat.
Proof.
  unfold parseBulk. destruct (Atoi _) as [n|]; [|discriminate].
  destruct (n =? -1); [intros H; injection H as _ <-; lia |].
  destruct (n + 2 <? 0); [discriminate |].
  destruct (ReadFull _ input) as [[body r]|] eqn:E; [|discriminate].
  destruct (byte_at body n); [|discriminate].
  destruct (byte_at body (n + 1)); [|discriminate].
  destruct (_ && _); [|discriminate].
  intros H. injection H as _ <-. eapply ReadFull_shorter, E.
Qed.

Lemma parseArray_loop_shorter (k : nat) (input : string) (acc lines : list (option string))
    (rest : string) :
  parseArray_loop k input acc = Ok (lines, rest) ->
  (String.length rest <= String.length input)%nat.
Proof.
  revert input acc. induction k as [|k IH]; intros input acc H; cbn [parseArray_loop] in H.
  - injection H as _ <-. lia.
  - destruct (readLine input) as [[line r]| |] eqn:E; [|discriminate..].
    apply readLine_shorter in E.
    destruct line as [|c line]; [discriminate |].
    destruct (Ascii.eqb c "$"); [|discriminate].
    destruct (parseBulk _ r) as [[arg r']| |] eqn:E'; [|discriminate..].
    apply parseBulk_shorter in E'. apply IH in H. lia.
Qed.

Lemma parseLine_shorter (line input : string) (r : option Reply) (rest : string) :
  parseLine line input = Ok (r, rest) -> (String.length rest <= String.length input)%nat.
Proof.
  unfold parseLine. destruct line as [|c body]; [discriminate |].
  destruct (Ascii.eqb c "*").
  { unfold parseArray. destruct (Atoi _) as [n|]; [|discriminate].
    destruct (n =? -1); [intros H; injection H as _ <-; lia |].
    destruct (n <? 0); [discriminate |].
    destruct (parseArray_loop _ input []) as [[lines r']| |] eqn:E; [|discriminate..].
    intros H. injection H as _ <-. eapply parseArray_loop_shorter, E. }
  destruct (Ascii.eqb c "$").
  { destruct (parseBulk _ input) as [[arg r']| |] eqn:E; [|discriminate..].
    intros H. injection H as _ <-. eapply parseBulk_shorter, E. }
  destruct (Ascii.eqb c "+"); [intros H; injection H as _ <-; lia |].
  destruct (Ascii.eqb c "-"); [intros H; injection H as _ <-; lia |].
  destruct (Ascii.eqb c ":"); [|discriminate].
  destruct (ParseInt body); [|discriminate].
  intros H; injection H as _ <-; lia.
Qed.

Lemma parse0_loop_fuel (fuel fuel' : nat) (input : string) :
  (String.length input < fuel)%nat -> (String.length input < fuel')%nat ->
  parse0_loop fuel input = parse0_loop fuel' input.
Proof.
  revert fuel' input. induction fuel as [|fuel IH]; intros fuel' input H H'; [lia |].
  destruct fuel' as [|fuel']; [lia |]. cbn [parse0_loop].
  destruct (readLine input) as [[line r]| |] eqn:E; [|reflexivity..].
  apply readLine_shorter in E.
  destruct (parseLine line r) as [[x r']| |] eqn:E'; [|reflexivity..].
  apply parseLine_shorter in E'.
  rewrite (IH fuel' r') by lia. reflexivity.
Qed.

(** The loop of [parse0], one round at a time. *)
Lemma parse0_round (input : string) :
  parse0 input
  = match readLine input with
    | Err e => if String.eqb e "EOF" then ([], false) else ([PayloadErr e], false)
    | Panic => ([], true)
    | Ok (line, rest) =>
        match parseLine line rest with
        | Err e => ([PayloadErr e], false)
        | Panic => ([], true)
        | Ok (r, rest') => let '(ps, panicked) := parse0 rest' in (Data r :: ps, panicked)
        end
    end.
Proof.
  unfold parse0 at 1. cbn [parse0_loop].
  destruct (readLine input) as [[line r]| |] eqn:E; [|reflexivity..].
  apply readLine_shorter in E.
  destruct (parseLine line r) as [[x r']| |] eqn:E'; [|reflexivity..].
  apply parseLine_shorter in E'.
  unfold parse0. rewrite (parse0_loop_fuel (String.length input) (S (String.length r')) r') by lia.
  reflexivity.
Qed.

Lemma parse0_reply (input : string) (r : option Reply) (rest : string) :
  Parse input = Ok (r, rest) ->
  parse0 input = (Data r :: (parse0 rest).1, (parse0 rest).2).
Proof.
  intros H. rewrite parse0_round. unfold Parse in H.
  destruct (readLine input) as [[line r0]| |]; [|discriminate..].
  rewrite H. destruct (parse0 rest). reflexivity.
Qed.

Lemma parse0_panic (input : string) : Parse input = Panic -> parse0 input = ([], true).
Proof.
  intros H. rewrite parse0_round. unfold Parse in H.
  destruct (readLine input) as [[line r0]| |]; [|discriminate | reflexivity].
  rewrite H. reflexivity.
Qed.

Lemma parse0_no_line (tail : string) : no_LF tail = true -> parse0 tail = ([], false).
Proof.
  intros H. rewrite parse0_round. unfold readLine.
  assert (E : ReadBytes_LF tail = None).
  { induction tail as [|c s IH]; [reflexivity |].
    cbn [no_LF] in H. apply andb_true_iff in H as [Hc Hs]. apply negb_true_iff in Hc.
    cbn [ReadBytes_LF]. rewrite Hc, (IH Hs). reflexivity. }
  rewrite E. reflexivity.
Qed.

(** What a peer may send: a well-formed reply or the nil array.  The nil
    array arrives as the nil pointer. *)
Definition sendable (r : Reply) : bool :=
  match r with
  | MultiBulkReply None => true
  | _ => well_formed r
  end.

Definition received (r : Reply) : option Reply :=
  match r with
  | MultiBulkReply None => None
  | _ => Some r
  end.

Definition stream_bytes (rs : list Reply) (tail : string) : string :=
  fold_right (fun r acc => ToBytes r +:+ acc) tail rs.

Lemma Parse_header (c : ascii) (body rest : string) :
  no_LF (String c body) = true ->
  Parse (String c body +:+ CRLF +:+ rest) = parseLine (String c body) rest.
Proof. intros H. unfold Parse. rewrite (readLine_line _ _ H). reflexivity. Qed.

Ltac header c body :=
  match goal with
  | |- context [Parse (String c EmptyString +:+ body +:+ CRLF +:+ ?r)] =>
      change (String c EmptyString +:+ body +:+ CRLF +:+ r)
        with (String c body +:+ CRLF +:+ r);
      rewrite (Parse_header c body r)
  end.

Lemma Parse_serialized (r : Reply) (rest : string) :
  sendable r = true -> Parse (ToBytes r +:+ rest) = Ok (received r, rest).
Proof.
  intros Hs.
  destruct r as [s|s|c|[a|]|[args|]]; cbn [sendable well_formed] in Hs;
    cbn [ToBytes received]; rewrite ?append_assoc.
  - header "+"%char s; [reflexivity | exact Hs].
  - header "-"%char s; [reflexivity | exact Hs].
  - header ":"%char (FormatInt c); [|apply no_LF_FormatInt].
    cbn [parseLine].
    change (Ascii.eqb ":" "*") with false. change (Ascii.eqb ":" "$") with false.
    change (Ascii.eqb ":" "+") with false. change (Ascii.eqb ":" "-") with false.
    change (Ascii.eqb ":" ":") with true. cbv iota.
    rewrite (ParseInt_FormatInt _ Hs). reflexivity.
  - header "$"%char (Itoa (len a)); [|apply no_LF_FormatInt].
    cbn [parseLine].
    change (Ascii.eqb "$" "*") with false. change (Ascii.eqb "$" "$") with true.
    cbv iota.
    change (String "$"%char (Itoa (len a))) with ("$" +:+ Itoa (len a)).
    rewrite (parseBulk_some a _ Hs). reflexivity.
  - reflexivity.
  - apply andb_true_iff in Hs as [Hn Hargs].
    header "*"%char (Itoa (Z.of_nat (length args))); [|apply no_LF_FormatInt].
    cbn [parseLine]. change (Ascii.eqb "*" "*") with true. cbv iota.
    unfold parseArray.
    change (tail (String "*"%char (Itoa (Z.of_nat (length args)))))
      with (Itoa (Z.of_nat (length args))).
    rewrite (Atoi_Itoa _ Hn).
    destruct (Z.eqb_spec (Z.of_nat (length args)) (-1)) as [E|_]; [lia |].
    destruct (Z.ltb_spec (Z.of_nat (length args)) 0) as [E|_]; [lia |].
    rewrite Nat2Z.id, (parseArray_loop_bulks args rest [] Hargs). reflexivity.
  - reflexivity.
Qed.

Lemma parse0_stream (rs : list Reply) (tail : string) :
  forallb sendable rs = true ->
  parse0 (stream_bytes rs tail)
  = (map (fun r => Data (received r)) rs ++ (parse0 tail).1, (parse0 tail).2).
Proof.
  induction rs as [|r rs IH]; intros H.
  - cbn [stream_bytes fold_right map app]. destruct (parse0 tail); reflexivity.
  - cbn [forallb] in H. apply andb_true_iff in H as [Hr Hrs].
    change (stream_bytes (r :: rs) tail) with (ToBytes r +:+ stream_bytes rs tail).
    rewrite (parse0_reply _ _ _ (Parse_serialized r _ Hr)), (IH Hrs). reflexivity.
Qed.

(** Pipelining: the bytes of any number of replies written one after the
    other (each well-formed, or the nil array) come out of [ParseStream] as
    one payload per reply, in order, with no error; the nil array arrives as
    a nil pointer.  Bytes after the last reply that hold no line feed, a line
    cut short, are dropped without a payload, and the channel is closed. *)
Theorem ParseStream_splits_a_pipeline (rs : list Reply) (tail : string) :
  forallb sendable rs = true ->
  no_LF tail = true ->
  ParseStream (stream_bytes rs tail) = (map (fun r => Data (received r)) rs, false).
Proof.
  intros Hrs Ht. unfold ParseStream.
  rewrite (parse0_stream rs tail Hrs), (parse0_no_line tail Ht), app_nil_r. reflexivity.
Qed.

Lemma ParseStream_splits_a_pipeline_witness :
  ParseStream (stream_bytes [MakeMultiBulkReply (Some [Some "PING"]);
                             MakeMultiBulkReply None;
                             MakeIntReply (-7);
                             MakeMultiBulkReply (Some [Some "GET"; Some "k"])]%string
                            "*2")
  = ([Data (Some (MakeMultiBulkReply (Some [Some "PING"])));
      Data None;
      Data (Some (MakeIntReply (-7)));
      Data (Some (MakeMultiBulkReply (Some [Some "GET"; Some "k"])))]%string, false).
Proof.
  exact (ParseStream_splits_a_pipeline
           [MakeMultiBulkReply (Some [Some "PING"]); MakeMultiBulkReply None;
            MakeIntReply (-7); MakeMultiBulkReply (Some [Some "GET"; Some "k"])]%string
           "*2" eq_refl eq_refl).
Defined.

(** A negative length other than -1 in the header of a bulk string or of an
    array is not rejected: the parser panics on it ([make] with a negative
    size, or an index below 0), after delivering the replies that came
    before.  Nothing recovers the panic. *)
Theorem ParseStream_panics_on_negative_length (rs : list Reply) (n : Z) (rest : string) :
  forallb sendable rs = true ->
  in_int64 n = true -> n < -1 ->
  ParseStream (stream_bytes rs ("$" +:+ Itoa n +:+ CRLF +:+ rest))
  = (map (fun r => Data (received r)) rs, true)
  /\ ParseStream (stream_bytes rs ("*" +:+ Itoa n +:+ CRLF +:+ rest))
     = (map (fun r => Data (received r)) rs, true).
Proof.
  intros Hrs Hn Hneg. unfold ParseStream. rewrite !(parse0_stream rs _ Hrs).
  assert (Hb : parse0 ("$" +:+ Itoa n +:+ CRLF +:+ rest) = ([], true)).
  { apply parse0_panic.
    change ("$" +:+ Itoa n +:+ CRLF +:+ rest) with (String "$" (Itoa n) +:+ CRLF +:+ rest).
    rewrite (Parse_header "$" (Itoa n)) by apply no_LF_FormatInt.
    cbn [parseLine].
    change (Ascii.eqb "$" "*") with false. change (Ascii.eqb "$" "$") with true.
    cbv iota. unfold parseBulk.
    change (tail (String "$"%char (Itoa n))) with (Itoa n). rewrite (Atoi_Itoa _ Hn).
    destruct (Z.eqb_spec n (-1)) as [E|_]; [lia |].
    destruct (Z.ltb_spec (n + 2) 0) as [_|Hge]; [reflexivity |].
    assert (n = -2) as -> by lia. reflexivity. }
  assert (Ha : parse0 ("*" +:+ Itoa n +:+ CRLF +:+ rest) = ([], true)).
  { apply parse0_panic.
    change ("*" +:+ Itoa n +:+ CRLF +:+ rest) with (String "*" (Itoa n) +:+ CRLF +:+ rest).
    rewrite (Parse_header "*" (Itoa n)) by apply no_LF_FormatInt.
    cbn [parseLine]. change (Ascii.eqb "*" "*") with true. cbv iota. unfold parseArray.
    change (tail (String "*"%char (Itoa n))) with (Itoa n). rewrite (Atoi_Itoa _ Hn).
    destruct (Z.eqb_spec n (-1)) as [E|_]; [lia |].
    destruct (Z.ltb_spec n 0) as [_|Hge]; [reflexivity | lia]. }
  rewrite Hb, Ha, app_nil_r. split; reflexivity.
Qed.

Lemma ParseStream_panics_on_negative_length_witness :
  ParseStream ("+OK" +:+ CRLF +:+ "$-2" +:+ CRLF) = ([Data (Some OkReply)], true)
  /\ ParseStream ("+OK" +:+ CRLF +:+ "*-5" +:+ CRLF) = ([Data (Some OkReply)], true).
Proof.
  split.
  - apply (ParseStream_panics_on_negative_length [OkReply] (-2) ""); [reflexivity.. | lia].
  - apply (ParseStream_panics_on_negative_length [OkReply] (-5) ""); [reflexivity.. | lia].
Defined.

(** An array that announces elements and continues with an empty line makes
    the parser panic too: the element loop indexes the first byte of the
    line it read without looking at its length. *)
Theorem ParseStream_panics_on_empty_element (rs : list Reply) (n : Z) (rest : string) :
  forallb sendable rs = true ->
  in_int64 n = true -> 0 < n ->
  ParseStream (stream_bytes rs ("*" +:+ Itoa n +:+ CRLF +:+ CRLF +:+ rest))
  = (map (fun r => Data (received r)) rs, true).
Proof.
  intros Hrs Hn Hpos. unfold ParseStream. rewrite (parse0_stream rs _ Hrs).
  assert (Ha : parse0 ("*" +:+ Itoa n +:+ CRLF +:+ CRLF +:+ rest) = ([], true)).
  { apply parse0_panic.
    change ("*" +:+ Itoa n +:+ CRLF +:+ CRLF +:+ rest)
      with (String "*" (Itoa n) +:+ CRLF +:+ CRLF +:+ rest).
    rewrite (Parse_header "*" (Itoa n)) by apply no_LF_FormatInt.
    cbn [parseLine]. change (Ascii.eqb "*" "*") with true. cbv iota. unfold parseArray.
    change (tail (String "*"%char (Itoa n))) with (Itoa n). rewrite (Atoi_Itoa _ Hn).
    destruct (Z.eqb_spec n (-1)) as [E|_]; [lia |].
    destruct (Z.ltb_spec n 0) as [E|_]; [lia |].
    destruct (Z.to_nat n) as [|k] eqn:Ek; [lia |].
    cbn [parseArray_loop].
    change (CRLF +:+ rest) with ("" +:+ CRLF +:+ rest).
    rewrite (readLine_line "" rest eq_refl). reflexivity. }
  rewrite Ha, app_nil_r. reflexivity.
Qed.

Lemma ParseStream_panics_on_empty_element_witness :
  ParseStream ("*1" +:+ CRLF +:+ CRLF) = ([], true).
Proof.
  apply (ParseStream_panics_on_empty_element [] 1 ""); [reflexivity.. | lia].
Defined.


(** ** The hash ring and the router's dispatch *)

(** The hash [NodeForKey] settles on: the entry of the sorted slice at the
    index [sort.Search] returns, or the first entry when there is none. *)
Definition selected (hs : list Z) (h : Z) : option Z :=
  match hs with
  | [] => None
  | _ =>
      let idx := cluster.Search_ge hs h in
      hs !! (if bool_decide (idx = length hs) then O else idx)
  end.

(** The clockwise successor of [h] among [hs]: the least hash not below
    [h], or the least hash of all when every one is below. *)
Definition successor (hs : list Z) (h x : Z) : Prop :=
  x ∈ hs
  /\ ((h <= x /\ forall y, y ∈ hs -> h <= y -> x <= y)
      \/ ((forall y, y ∈ hs -> y < h) /\ forall y, y ∈ hs -> x <= y)).

Lemma Search_ge_le (hs : list Z) (h : Z) : (cluster.Search_ge hs h <= length hs)%nat.
Proof.
  induction hs as [|x hs IH]; cbn [cluster.Search_ge length]; [lia |].
  destruct (h <=? x); lia.
Qed.

Lemma Search_ge_before (hs : list Z) (h : Z) (j : nat) (y : Z) :
  hs !! j = Some y -> (j < cluster.Search_ge hs h)%nat -> y < h.
Proof.
  revert j. induction hs as [|x hs IH]; intros j Hj Hlt; [discriminate |].
  cbn [cluster.Search_ge] in Hlt. destruct (Z.leb_spec h x) as [Hle|Hgt]; [lia |].
  destruct j as [|j]; cbn in Hj.
  - injection Hj as <-. lia.
  - apply (IH j Hj). lia.
Qed.

Lemma Search_ge_at (hs : list Z) (h : Z) :
  (cluster.Search_ge hs h < length hs)%nat ->
  exists x, hs !! cluster.Search_ge hs h = Some x /\ h <= x.
Proof.
  induction hs as [|x hs IH]; cbn [cluster.Search_ge length]; [lia |].
  destruct (Z.leb_spec h x) as [Hle|Hgt]; intros Hlt.
  - exists x. split; [reflexivity | exact Hle].
  - apply IH. lia.
Qed.

Lemma sorted_lookup_le (hs : list Z) (i j : nat) (a b : Z) :
  StronglySorted Z.le hs -> hs !! i = Some a -> hs !! j = Some b -> (i <= j)%nat -> a <= b.
Proof.
  intros Hs. revert i j. induction Hs as [|x hs Hs IH Hall]; intros i j Hi Hj Hij.
  - discriminate.
  - destruct i as [|i], j as [|j]; cbn in Hi, Hj; try lia.
    + injection Hi as <-. injection Hj as <-. lia.
    + injection Hi as <-. rewrite Forall_forall in Hall.
      apply Hall. eapply list_elem_of_lookup_2, Hj.
    + apply (IH i j Hi Hj). lia.
Qed.

Lemma selected_member (hs : list Z) (h : Z) :
  hs <> [] -> exists x, selected hs h = Some x /\ x ∈ hs.
Proof.
  intros Hne. unfold selected. destruct hs as [|x0 hs0] eqn:E; [congruence |].
  rewrite <- E in *. clear Hne.
  assert (Hlen : (0 < length hs)%nat) by (rewrite E; cbn; lia).
  pose proof (Search_ge_le hs h) as Hle.
  destruct (lookup_lt_is_Some_2 hs
              (if bool_decide (cluster.Search_ge hs h = length hs) then O
               else cluster.Search_ge hs h)) as [x Hx].
  { case_bool_decide; lia. }
  exists x. split; [exact Hx | eapply list_elem_of_lookup_2, Hx].
Qed.

Lemma selected_successor (hs : list Z) (h x : Z) :
  Sorted Z.le hs -> selected hs h = Some x -> successor hs h x.
Proof.
  intros Hs Hsel.
  assert (Hss : StronglySorted Z.le hs).
  { apply Sorted_StronglySorted; [|exact Hs]. intros a b c. apply Z.le_trans. }
  unfold selected in Hsel. destruct hs as [|x0 hs0] eqn:E; [discriminate |].
  rewrite <- E in *.
  assert (Hlen : (0 < length hs)%nat) by (rewrite E; cbn; lia).
  pose proof (Search_ge_le hs h) as Hle.
  split; [case_bool_decide; eapply list_elem_of_lookup_2, Hsel |].
  case_bool_decide as Hidx.
  - right.
    assert (Hall : forall y, y ∈ hs -> y < h).
    { intros y Hy. apply list_elem_of_lookup_1 in Hy as [j Hj].
      apply (Search_ge_before hs h j y Hj). rewrite Hidx. eapply lookup_lt_Some, Hj. }
    split; [exact Hall |].
    intros y Hy. apply list_elem_of_lookup_1 in Hy as [j Hj].
    apply (sorted_lookup_le hs 0 j x y Hss Hsel Hj). lia.
  - left. destruct (Search_ge_at hs h) as (x' & Hx' & Hge); [lia |].
    rewrite Hsel in Hx'. injection Hx' as <-.
    split; [exact Hge |].
    intros y Hy Hhy. apply list_elem_of_lookup_1 in Hy as [j Hj].
    destruct (le_lt_dec (cluster.Search_ge hs h) j) as [Hij|Hji].
    + apply (sorted_lookup_le hs _ j x y Hss Hsel Hj Hij).
    + pose proof (Search_ge_before hs h j y Hj Hji). lia.
Qed.

Lemma successor_unique (hs : list Z) (h x x' : Z) :
  successor hs h x -> successor hs h x' -> x = x'.
Proof.
  intros [Hx [[Hge Hmin]|[Hall Hmin]]] [Hx' [[Hge' Hmin']|[Hall' Hmin']]].
  - pose proof (Hmin _ Hx' Hge'). pose proof (Hmin' _ Hx Hge). lia.
  - pose proof (Hall' _ Hx). lia.
  - pose proof (Hall _ Hx'). lia.
  - pose proof (Hmin _ Hx'). pose proof (Hmin' _ Hx). lia.
Qed.

Lemma successor_subset (hs hs' : list Z) (h x : Z) :
  (forall y, y ∈ hs' -> y ∈ hs) -> x ∈ hs' -> successor hs h x -> successor hs' h x.
Proof.
  intros Hsub Hx' [Hx [[Hge Hmin]|[Hall Hmin]]]; (split; [exact Hx' |]).
  - left. split; [exact Hge |]. intros y Hy. apply Hmin, Hsub, Hy.
  - right. split; intros y Hy; [apply Hall | apply Hmin]; apply Hsub, Hy.
Qed.

(** The node a hash maps to after the insertions of [NewRing]: that of the
    last pair with the hash. *)
Definition insert_pair (m : gmap Z string) (p : Z * string) : gmap Z string :=
  <[p.1 := p.2]> m.

Lemma table_lookup (pairs : list (Z * string)) (m : gmap Z string) (x : Z) :
  fold_left insert_pair pairs m !! x
  = match last (filter (fun p => p.1 = x) pairs) with
    | Some p => Some p.2
    | None => m !! x
    end.
Proof.
  revert m. induction pairs as [|p pairs IH]; intros m; [reflexivity |].
  cbn [fold_left]. rewrite IH, filter_cons. unfold insert_pair.
  destruct (decide (p.1 = x)) as [E|E].
  - rewrite last_cons. destruct (last (filter _ pairs)); [reflexivity |].
    rewrite <- E, lookup_insert_eq. reflexivity.
  - destruct (last (filter _ pairs)); [reflexivity |].
    rewrite lookup_insert_ne by exact E. reflexivity.
Qed.

Lemma last_filter_kept {A : Type} (P : A -> Prop) `{forall a, Decision (P a)}
    (l : list A) (a : A) :
  last l = Some a -> P a -> last (filter P l) = Some a.
Proof.
  intros Hl Ha. apply last_Some in Hl as [l' ->].
  rewrite filter_app, filter_cons, filter_nil.
  destruct (decide (P a)); [|contradiction]. apply last_snoc.
Qed.

Lemma filter_filter_comm {A : Type} (P Q : A -> Prop)
    `{forall a, Decision (P a)} `{forall a, Decision (Q a)} (l : list A) :
  filter P (filter Q l) = filter Q (filter P l).
Proof.
  induction l as [|a l IH]; [reflexivity |].
  rewrite !filter_cons.
  destruct (decide (Q a)), (decide (P a)); rewrite ?filter_cons;
    repeat (destruct (decide _); try contradiction); rewrite IH; reflexivity.
Qed.

Section RingFacts.

Context (ChecksumIEEE : string -> Z).

Local Abbreviation NewRing := (cluster.NewRing ChecksumIEEE).
Local Abbreviation NodeForKey := (cluster.NodeForKey ChecksumIEEE).
Local Abbreviation vnode_hashes := (cluster.vnode_hashes ChecksumIEEE).

Definition ring_pairs (nodes : list string) (vnodes : Z) : list (Z * string) :=
  concat (map (fun node => vnode_hashes node (if vnodes <=? 0 then 160 else vnodes)) nodes).

Lemma NodeForKey_selected (nodes : list string) (vnodes : Z) (key : string) :
  NodeForKey (NewRing nodes vnodes) key
  = match selected (merge_sort Z.le (map fst (ring_pairs nodes vnodes))) (ChecksumIEEE key) with
    | Some x => default "" (fold_left insert_pair (ring_pairs nodes vnodes) ∅ !! x)
    | None => ""
    end.
Proof.
  unfold cluster.NodeForKey, cluster.NewRing, selected. cbn [cluster.sortedHashes cluster.hashToNode].
  fold (ring_pairs nodes vnodes).
  destruct (merge_sort Z.le (map fst (ring_pairs nodes vnodes))); reflexivity.
Qed.

Lemma ring_pairs_node (nodes : list string) (vnodes : Z) (p : Z * string) :
  p ∈ ring_pairs nodes vnodes -> p.2 ∈ nodes.
Proof.
  unfold ring_pairs. induction nodes as [|node nodes IH]; cbn [map concat]; intros H.
  - inversion H.
  - apply elem_of_app in H as [H|H]; [|right; exact (IH H)].
    unfold cluster.vnode_hashes in H. apply list_elem_of_fmap in H as (i & -> & _). left.
Qed.

Lemma ring_pairs_nonempty (nodes : list string) (vnodes : Z) :
  nodes <> [] -> ring_pairs nodes vnodes <> [].
Proof.
  destruct nodes as [|node nodes]; [congruence |]. intros _.
  unfold ring_pairs. cbn [map concat]. unfold cluster.vnode_hashes.
  assert (Hpos : 0 < (if vnodes <=? 0 then 160 else vnodes)).
  { destruct (Z.leb_spec vnodes 0); lia. }
  destruct (Z.to_nat (if vnodes <=? 0 then 160 else vnodes)) as [|n] eqn:E; [lia |].
  cbn. discriminate.
Qed.

Lemma ring_pairs_filter (nodes : list string) (vnodes : Z) (gone : string) :
  ring_pairs (filter (fun n => n <> gone) nodes) vnodes
  = filter (fun p => p.2 <> gone) (ring_pairs nodes vnodes).
Proof.
  unfold ring_pairs. induction nodes as [|node nodes IH]; [reflexivity |].
  rewrite filter_cons. cbn [map concat]. rewrite filter_app, <- IH.
  set (vn := if vnodes <=? 0 then 160 else vnodes).
  assert (Hall : forall l (n : string),
             filter (fun p : Z * string => p.2 <> gone) (map (fun i : nat => (l i, n)) (seq 0 (Z.to_nat vn)))
             = if decide (n <> gone) then map (fun i : nat => (l i, n)) (seq 0 (Z.to_nat vn)) else []).
  { intros l n. induction (seq 0 (Z.to_nat vn)) as [|i more IHs].
    - destruct (decide (n <> gone)); reflexivity.
    - cbn [map]. rewrite filter_cons, IHs. cbn [snd].
      destruct (decide (n <> gone)); reflexivity. }
  unfold cluster.vnode_hashes. rewrite Hall.
  destruct (decide (node <> gone)); reflexivity.
Qed.

Lemma sorted_hashes (pairs : list (Z * string)) :
  Sorted Z.le (merge_sort Z.le (map fst pairs)).
Proof. apply (Sorted_merge_sort Z.le). Qed.

Lemma sorted_hashes_member (pairs : list (Z * string)) (x : Z) :
  x ∈ merge_sort Z.le (map fst pairs) <-> exists p, p ∈ pairs /\ p.1 = x.
Proof.
  rewrite (merge_sort_Permutation Z.le (map fst pairs)).
  change (map fst pairs) with (fst <$> pairs). rewrite list_elem_of_fmap.
  split; intros (p & H1 & H2); exists p; auto.
Qed.

Lemma owner_of_hash (pairs : list (Z * string)) (x : Z) :
  x ∈ merge_sort Z.le (map fst pairs) ->
  exists p, last (filter (fun p => p.1 = x) pairs) = Some p /\ p ∈ pairs /\ p.1 = x.
Proof.
  intros Hx. apply sorted_hashes_member in Hx as (p & Hp & Hpx).
  destruct (last (filter (fun p => p.1 = x) pairs)) as [q|] eqn:E.
  - exists q. split; [reflexivity |].
    apply last_Some_elem_of in E. apply list_elem_of_filter in E as [E1 E2]. auto.
  - apply last_None in E.
    assert (Hin : p ∈ filter (fun p => p.1 = x) pairs) by (apply list_elem_of_filter; auto).
    rewrite E in Hin. inversion Hin.
Qed.

(** [NodeForKey] on a ring built from a non-empty list of nodes names one
    of these nodes, whatever the hash function and however many virtual
    nodes are asked for. *)
Theorem NodeForKey_names_a_node (nodes : list string) (vnodes : Z) (key : string) :
  nodes <> [] -> NodeForKey (NewRing nodes vnodes) key ∈ nodes.
Proof.
  intros Hne. rewrite NodeForKey_selected.
  destruct (selected_member (merge_sort Z.le (map fst (ring_pairs nodes vnodes)))
                            (ChecksumIEEE key)) as (x & Hsel & Hx).
  { intros E. apply (ring_pairs_nonempty nodes vnodes Hne).
    pose proof (merge_sort_Permutation Z.le (map fst (ring_pairs nodes vnodes))) as Hp.
    rewrite E in Hp. apply Permutation_nil_l in Hp. symmetry in Hp.
    apply (fmap_nil_inv fst) in Hp. exact Hp. }
  rewrite Hsel, table_lookup.
  destruct (owner_of_hash _ x Hx) as (p & -> & Hp & _).
  cbn [default]. eapply ring_pairs_node, Hp.
Qed.

(** Taking a node out of the list moves only the keys that node owned: a
    key that [NodeForKey] gave to another node is given to the same node by
    the ring built without the node taken out.  This holds for every hash
    function, also when virtual nodes of different nodes share a hash. *)
Theorem removing_a_node_moves_only_its_keys (nodes : list string) (vnodes : Z)
    (gone key : string) :
  NodeForKey (NewRing nodes vnodes) key <> gone ->
  NodeForKey (NewRing (filter (fun n => n <> gone) nodes) vnodes) key
  = NodeForKey (NewRing nodes vnodes) key.
Proof.
  rewrite !NodeForKey_selected, ring_pairs_filter.
  set (pairs := ring_pairs nodes vnodes). set (h := ChecksumIEEE key).
  set (pairs' := filter (fun p : Z * string => p.2 <> gone) pairs).
  destruct (selected (merge_sort Z.le (map fst pairs)) h) as [x|] eqn:Hsel.
  - intros Hn.
    assert (Hx : x ∈ merge_sort Z.le (map fst pairs)).
    { destruct (selected_member (merge_sort Z.le (map fst pairs)) h) as (x' & Hx' & Hin).
      - intros E. rewrite E in Hsel. discriminate.
      - congruence. }
    destruct (owner_of_hash pairs x Hx) as (p & Hlast & Hp & Hpx).
    rewrite table_lookup, Hlast in Hn |- *. cbn [default] in Hn |- *.
    assert (Hlast' : last (filter (fun p => p.1 = x) pairs') = Some p).
    { unfold pairs'. rewrite filter_filter_comm.
      apply (last_filter_kept (fun p : Z * string => p.2 <> gone)); assumption. }
    assert (Hx' : x ∈ merge_sort Z.le (map fst pairs')).
    { apply sorted_hashes_member. exists p. split; [|exact Hpx].
      apply list_elem_of_filter. auto. }
    destruct (selected_member (merge_sort Z.le (map fst pairs')) h) as (x' & Hsel' & _).
    { intros E. rewrite E in Hx'. inversion Hx'. }
    assert (x' = x) as ->.
    { apply (successor_unique (merge_sort Z.le (map fst pairs')) h).
      - apply selected_successor; [apply sorted_hashes | exact Hsel'].
      - apply (successor_subset (merge_sort Z.le (map fst pairs))); [| exact Hx' |].
        + intros y Hy. apply sorted_hashes_member in Hy as (q & Hq & Hqy).
          apply sorted_hashes_member. exists q. split; [|exact Hqy].
          apply list_elem_of_filter in Hq as [_ Hq]. exact Hq.
        + apply selected_successor; [apply sorted_hashes | exact Hsel]. }
    rewrite Hsel', table_lookup, Hlast'. reflexivity.
  - intros _.
    assert (Hnil : merge_sort Z.le (map fst pairs) = []).
    { destruct (merge_sort Z.le (map fst pairs)) as [|a l] eqn:E; [reflexivity |].
      destruct (selected_member (a :: l) h) as (x & Hx & _); [discriminate | congruence]. }
    assert (Hp : pairs = []).
    { pose proof (merge_sort_Permutation Z.le (map fst pairs)) as H.
      rewrite Hnil in H. apply Permutation_nil_l in H. symmetry in H.
      apply (fmap_nil_inv fst) in H. exact H. }
    unfold pairs'. rewrite Hp. reflexivity.
Qed.

End RingFacts.

(** A hash function for the examples: the first byte of the text. *)
Definition first_byte (s : string) : Z :=
  match s with
  | EmptyString => 0
  | String c _ => Z.of_N (N_of_ascii c)
  end.

Lemma NodeForKey_names_a_node_witness :
  cluster.NodeForKey first_byte (cluster.NewRing first_byte ["n1"; "m2"; "k3"]%string 3) "mykey"
  ∈ ["n1"; "m2"; "k3"]%string.
Proof. apply NodeForKey_names_a_node. discriminate. Defined.

Lemma removing_a_node_moves_only_its_keys_witness :
  cluster.NodeForKey first_byte
    (cluster.NewRing first_byte (filter (fun n => n <> "k3") ["n1"; "m2"; "k3"])%string 3) "mykey"
  = "m2"%string.
Proof.
  rewrite (removing_a_node_moves_only_its_keys first_byte ["n1"; "m2"; "k3"]%string 3 "k3" "mykey").
  - vm_compute. reflexivity.
  - vm_compute. discriminate.
Defined.

Section ExecFacts.

Context (ChecksumIEEE : string -> Z)
        (localExec : list string -> option resp.Reply)
        (peerDo : string -> list string -> option resp.Reply + string)
        (completion_order : list (string * list string) -> list (string * list string)).

Local Abbreviation Exec := (cluster.Exec ChecksumIEEE localExec peerDo completion_order).
Local Abbreviation execDel := (cluster.execDel ChecksumIEEE localExec peerDo completion_order).

(** What the router makes of the local answer to a DEL. *)
Definition del_answer (reply : option resp.Reply) : resp.Reply :=
  match reply with
  | Some (resp.ErrorReply s) => resp.ErrorReply s
  | Some (resp.IntReply c) => resp.IntReply (wrap64 c)
  | _ => resp.MakeErrReply "ERR cluster: DEL unexpected reply"
  end.

Lemma one_group (r : cluster.Router) (keys : list string) :
  keys <> [] ->
  (forall k, cluster.owner ChecksumIEEE r k = cluster.localAddr r) ->
  cluster.group_keys ChecksumIEEE r keys = {[cluster.localAddr r := keys]}.
Proof.
  intros Hne Hown. apply map_eq. intros node.
  rewrite (group_keys_lookup ChecksumIEEE r keys node). unfold group_of, keys_of.
  destruct (decide (node = cluster.localAddr r)) as [->|Hn].
  - rewrite lookup_singleton_eq.
    assert (E : filter (fun k => cluster.owner ChecksumIEEE r k = cluster.localAddr r) keys = keys).
    { clear Hne. induction keys as [|k keys IH]; [reflexivity |].
      rewrite filter_cons. destruct (decide _) as [_|Hk]; [rewrite IH; reflexivity |].
      destruct (Hk (Hown k)). }
    rewrite E. destruct keys; [congruence | reflexivity].
  - rewrite lookup_singleton_ne by congruence.
    assert (E : filter (fun k => cluster.owner ChecksumIEEE r k = node) keys = []).
    { clear Hne. induction keys as [|k keys IH]; [reflexivity |].
      rewrite filter_cons. destruct (decide _) as [Hk|_]; [|exact IH].
      rewrite Hown in Hk. congruence. }
    rewrite E. reflexivity.
Qed.

(** A cluster of one node is transparent.  With the ring built from the
    node's own address alone, [Router.Exec] forwards nothing: every command
    but DEL gets the local database's reply to that same command, and a DEL
    with keys gets the local reply to [DEL] over the same keys: the count
    when it fits in 64 bits, the error when it is one. *)
Theorem one_node_cluster_answers_locally (addr : string) (vnodes : Z)
    (name : string) (args : list string) :
  (forall l, completion_order l ≡ₚ l) ->
  let r := {| cluster.localAddr := addr;
              cluster.ring := cluster.NewRing ChecksumIEEE [addr] vnodes |} in
  (ToLower name <> "del"%string -> Exec r (name :: args) = localExec (name :: args))
  /\ (ToLower name = "del"%string -> args <> [] ->
      Exec r (name :: args) = Some (del_answer (localExec ("DEL"%string :: args)))).
Proof.
  intros Hperm r.
  assert (Hnode : forall key, cluster.NodeForKey ChecksumIEEE (cluster.ring r) key = addr).
  { intros key.
    pose proof (NodeForKey_names_a_node ChecksumIEEE [addr] vnodes key) as H.
    apply list_elem_of_singleton in H; [exact H | discriminate]. }
  split.
  - intros Hname. unfold cluster.Exec.
    destruct (String.eqb_spec (ToLower name) "ping") as [_|_]; [reflexivity |].
    destruct (String.eqb_spec (ToLower name) "del") as [E|_]; [contradiction |].
    destruct args as [|key args]; [reflexivity |].
    rewrite Hnode. cbn [cluster.localAddr r].
    rewrite (bool_decide_eq_true_2 (addr = addr)) by reflexivity.
    rewrite orb_true_r. reflexivity.
  - intros Hname Hargs. unfold cluster.Exec.
    destruct (String.eqb_spec (ToLower name) "ping") as [E|_]; [rewrite Hname in E; discriminate |].
    destruct (String.eqb_spec (ToLower name) "del") as [_|E]; [|contradiction].
    f_equal. unfold cluster.execDel.
    destruct args as [|key args]; [congruence |].
    rewrite (one_group r (key :: args)); [| discriminate |].
    + rewrite map_to_list_singleton.
      pose proof (Hperm [(cluster.localAddr r, key :: args)]) as Hp.
      apply Permutation_singleton_r in Hp. rewrite Hp.
      cbn [map cluster.del_group]. rewrite bool_decide_eq_true_2 by reflexivity.
      unfold cluster.subCmd, del_answer.
      destruct (localExec ("DEL"%string :: key :: args)) as [[s|s|c|a|a]|];
        reflexivity.
    + intros k. unfold cluster.owner. rewrite Hnode. cbn [cluster.localAddr r].
      destruct (bool_decide (addr = "")); reflexivity.
Qed.

End ExecFacts.

Lemma one_node_cluster_answers_locally_witness :
  let localExec := fun cmd : list string =>
    Some (resp.MakeIntReply (Z.of_nat (length cmd) - 1)) in
  let peerDo := fun (_ : string) (_ : list string) =>
    inr "unreachable"%string : option resp.Reply + string in
  let r := {| cluster.localAddr := "n1"%string;
              cluster.ring := cluster.NewRing first_byte ["n1"%string] 0 |} in
  cluster.Exec first_byte localExec peerDo (fun l => l) r ["del"; "a"; "b"]%string
  = Some (resp.MakeIntReply 2)
  /\ cluster.Exec first_byte localExec peerDo (fun l => l) r ["GET"; "a"]%string
     = Some (resp.MakeIntReply 1).
Proof.
  intros localExec peerDo r.
  split.
  - destruct (one_node_cluster_answers_locally first_byte localExec peerDo (fun l => l)
                "n1" 0 "del" ["a"; "b"]%string (fun l => Permutation_refl l)) as [_ H].
    exact (eq_trans (H eq_refl ltac:(discriminate)) eq_refl).
  - destruct (one_node_cluster_answers_locally first_byte localExec peerDo (fun l => l)
                "n1" 0 "GET" ["a"]%string (fun l => Permutation_refl l)) as [H _].
    exact (H ltac:(vm_compute; discriminate)).
Defined.


(** ** Loading a dump *)

Lemma le_bytes_length (n : nat) (v : Z) : String.length (rdb.le_bytes n v) = n.
Proof. revert v. induction n as [|n IH]; intros v; cbn; [|rewrite IH]; reflexivity. Qed.

Lemma le_value_le_bytes (n : nat) (v : Z) :
  rdb.le_value (rdb.le_bytes n v) = v mod 256 ^ Z.of_nat n.
Proof.
  revert v. induction n as [|n IH]; intros v.
  - cbn. rewrite Z.mod_1_r. reflexivity.
  - cbn [rdb.le_bytes rdb.le_value]. rewrite IH.
    rewrite N_ascii_embedding.
    + rewrite Z2N.id by (apply Z.mod_pos_bound; lia).
      rewrite Nat2Z.inj_succ, Z.pow_succ_r by lia.
      rewrite Z.rem_mul_r by lia. reflexivity.
    + assert (0 <= v mod 256 < 256) by (apply Z.mod_pos_bound; lia). lia.
Qed.

Lemma ReadFull_append (a rest : string) :
  ReadFull (String.length a) (a +:+ rest) = Some (a, rest).
Proof.
  induction a as [|c a IH]; [reflexivity |].
  change (String c a +:+ rest) with (String c (a +:+ rest)).
  cbn [String.length ReadFull]. rewrite IH. reflexivity.
Qed.

Lemma ReadFull_le_bytes (n : nat) (v : Z) (rest : string) :
  ReadFull n (rdb.le_bytes n v +:+ rest) = Some (rdb.le_bytes n v, rest).
Proof.
  pose proof (ReadFull_append (rdb.le_bytes n v) rest) as H.
  rewrite le_bytes_length in H. exact H.
Qed.

Lemma readUint8_written (v : Z) (rest : string) :
  rdb.readUint8 (rdb.writeUint8 v +:+ rest) = Some (v mod 256, rest).
Proof.
  unfold rdb.readUint8, rdb.writeUint8. rewrite ReadFull_le_bytes, le_value_le_bytes.
  reflexivity.
Qed.

Lemma readUint32_written (v : Z) (rest : string) :
  rdb.readUint32 (rdb.writeUint32 v +:+ rest) = Some (v mod 2 ^ 32, rest).
Proof.
  unfold rdb.readUint32, rdb.writeUint32. rewrite ReadFull_le_bytes, le_value_le_bytes.
  reflexivity.
Qed.

Lemma readInt64_written (v : Z) (rest : string) :
  rdb.readInt64 (rdb.writeInt64 v +:+ rest)
  = Some (if 2 ^ 63 <=? v mod 2 ^ 64 then v mod 2 ^ 64 - 2 ^ 64 else v mod 2 ^ 64, rest).
Proof.
  unfold rdb.readInt64, rdb.writeInt64. rewrite ReadFull_le_bytes, le_value_le_bytes.
  reflexivity.
Qed.

Lemma readInt64_int64 (v : Z) (rest : string) :
  in_int64 v = true -> rdb.readInt64 (rdb.writeInt64 v +:+ rest) = Some (v, rest).
Proof.
  intros H. rewrite readInt64_written. do 2 f_equal.
  unfold in_int64, int64_min, int64_max in H.
  apply andb_true_iff in H as [H1 H2]. apply Z.leb_le in H1, H2.
  destruct (Z.ltb_spec v 0) as [Hneg|Hpos].
  - assert (E : v mod 2 ^ 64 = v + 2 ^ 64).
    { symmetry. apply (Z.mod_unique v (2 ^ 64) (-1)); lia. }
    rewrite E. destruct (Z.leb_spec (2 ^ 63) (v + 2 ^ 64)); lia.
  - rewrite Z.mod_small by lia. destruct (Z.leb_spec (2 ^ 63) v); lia.
Qed.

(** A length that a [uint32] holds. *)
Definition short (s : string) : bool := len s <? 2 ^ 32.

Lemma short_length (s : string) :
  short s = true -> len s mod 2 ^ 32 = len s /\ Z.to_nat (len s) = String.length s.
Proof.
  unfold short, len. intros H. apply Z.ltb_lt in H.
  split; [apply Z.mod_small; lia | lia].
Qed.

Lemma readString_written (s rest : string) :
  short s = true -> rdb.readString (rdb.writeString s +:+ rest) = Some (s, rest).
Proof.
  intros H. destruct (short_length s H) as [Hm Hn].
  unfold rdb.readString, rdb.writeString. rewrite append_assoc, readUint32_written, Hm.
  destruct (Z.eqb_spec (len s) 0) as [E|_].
  - destruct s; [reflexivity | discriminate E].
  - rewrite Hn. apply ReadFull_append.
Qed.

Lemma readBytes_written (b rest : string) :
  short b = true -> rdb.readBytes (rdb.writeBytes b +:+ rest) = Some (b, rest).
Proof. apply readString_written. Qed.

Lemma concat_map_cons {A : Type} (f : A -> string) (x : A) (l : list A) :
  rdb.concat_map f (x :: l) = f x +:+ rdb.concat_map f l.
Proof. reflexivity. Qed.

Lemma read_list_elems_written (l : list string) (rest : string) (acc : list string) :
  forallb short l = true ->
  rdb.read_list_elems (length l) (rdb.concat_map rdb.writeBytes l +:+ rest) acc
  = Some (acc ++ l, rest).
Proof.
  revert acc. induction l as [|b l IH]; intros acc H.
  - cbn. rewrite app_nil_r. reflexivity.
  - cbn [forallb] in H. apply andb_true_iff in H as [Hb Hl].
    rewrite concat_map_cons, append_assoc. cbn [length rdb.read_list_elems].
    rewrite (readBytes_written b _ Hb), (IH _ Hl), <- app_assoc. reflexivity.
Qed.

Lemma read_set_members_written (l : list string) (rest : string) (acc : list string) :
  forallb short l = true ->
  rdb.read_set_members (length l) (rdb.concat_map rdb.writeString l +:+ rest) acc
  = Some (acc ++ l, rest).
Proof.
  revert acc. induction l as [|b l IH]; intros acc H.
  - cbn. rewrite app_nil_r. reflexivity.
  - cbn [forallb] in H. apply andb_true_iff in H as [Hb Hl].
    rewrite concat_map_cons, append_assoc. cbn [length rdb.read_set_members].
    rewrite (readString_written b _ Hb), (IH _ Hl), <- app_assoc. reflexivity.
Qed.

Definition put_field (h : gmap string string) (acc : gmap string string) (field : string)
  : gmap string string :=
  <[field := default "" (h !! field)]> acc.

Lemma read_hash_pairs_written (h : gmap string string) (fields : list string)
    (rest : string) (acc : gmap string string) :
  forallb (fun field => short field && short (default "" (h !! field))) fields = true ->
  rdb.read_hash_pairs (length fields)
    (rdb.concat_map (fun field =>
       rdb.writeString field +:+ rdb.writeBytes (default "" (h !! field))) fields +:+ rest) acc
  = Some (fold_left (put_field h) fields acc, rest).
Proof.
  revert acc. induction fields as [|f fields IH]; intros acc H; [reflexivity |].
  cbn [forallb] in H. apply andb_true_iff in H as [Hf Hfs].
  apply andb_true_iff in Hf as [Hf Hv].
  rewrite concat_map_cons, !append_assoc. cbn [length rdb.read_hash_pairs].
  rewrite (readString_written f _ Hf), (readBytes_written _ _ Hv), (IH _ Hfs).
  reflexivity.
Qed.

Lemma put_fields_lookup (h : gmap string string) (fields : list string)
    (acc : gmap string string) (k : string) :
  fold_left (put_field h) fields acc !! k
  = if decide (k ∈ fields) then Some (default "" (h !! k)) else acc !! k.
Proof.
  revert acc. induction fields as [|f fields IH]; intros acc.
  - cbn. destruct (decide (k ∈ [])) as [H|_]; [inversion H | reflexivity].
  - cbn [fold_left]. rewrite IH. unfold put_field.
    destruct (decide (k ∈ fields)) as [Hin|Hout].
    + destruct (decide (k ∈ f :: fields)) as [_|Hn]; [reflexivity |].
      destruct Hn. right. exact Hin.
    + destruct (decide (k = f)) as [->|Hne].
      * rewrite lookup_insert_eq.
        destruct (decide (f ∈ f :: fields)) as [_|Hn]; [reflexivity |].
        destruct Hn. left.
      * rewrite lookup_insert_ne by congruence.
        destruct (decide (k ∈ f :: fields)) as [Hin|_]; [|reflexivity].
        apply elem_of_cons in Hin as [E|Hin]; [congruence | contradiction].
Qed.

Lemma put_fields_all (h : gmap string string) :
  fold_left (put_field h) (rdb.sort_strings (map fst (map_to_list h))) ∅ = h.
Proof.
  apply map_eq. intros k. rewrite put_fields_lookup, lookup_empty.
  assert (Hk : k ∈ rdb.sort_strings (map fst (map_to_list h)) <-> is_Some (h !! k)).
  { unfold rdb.sort_strings. rewrite (merge_sort_Permutation String.le).
    change (map fst (map_to_list h)) with (fst <$> map_to_list h).
    rewrite list_elem_of_fmap. split.
    - intros ([k' v] & -> & Hin). apply elem_of_map_to_list in Hin. eauto.
    - intros [v Hv]. exists (k, v). split; [reflexivity |].
      apply elem_of_map_to_list. exact Hv. }
  destruct (decide (k ∈ _)) as [Hin|Hout].
  - apply Hk in Hin as [v Hv]. rewrite Hv. reflexivity.
  - destruct (h !! k) as [v|] eqn:E; [|reflexivity].
    destruct Hout. apply Hk. eauto.
Qed.

(** An entry whose lengths and counts a dump can hold: the file stores each
    as a [uint32], and the expiry as an [int64]. *)
Definition count_ok {A : Type} (l : list A) : bool := Z.of_nat (length l) <? 2 ^ 32.

Definition storable (e : rdb.Entry) : bool :=
  short (rdb.Key e) && in_int64 (rdb.ExpireAtUnixMs e)
  && (if rdb.Type_ e =? rdb.TypeString then short (rdb.String_ e)
      else if rdb.Type_ e =? rdb.TypeList then
        count_ok (rdb.List e) && forallb short (rdb.List e)
      else if rdb.Type_ e =? rdb.TypeHash then
        count_ok (map_to_list (rdb.Hash e))
        && forallb (fun p => short p.1 && short p.2) (map_to_list (rdb.Hash e))
      else count_ok (rdb.Set_ e) && forallb short (rdb.Set_ e)).

(** What a dump keeps of an entry: the fields of its type, a set's members
    in ascending order. *)
Definition kept_fields (e : rdb.Entry) : rdb.Entry :=
  {| rdb.Key := rdb.Key e;
     rdb.Type_ := rdb.Type_ e;
     rdb.ExpireAtUnixMs := rdb.ExpireAtUnixMs e;
     rdb.String_ := if rdb.Type_ e =? rdb.TypeString then rdb.String_ e else "";
     rdb.List := if rdb.Type_ e =? rdb.TypeList then rdb.List e else [];
     rdb.Hash := if rdb.Type_ e =? rdb.TypeHash then rdb.Hash e else ∅;
     rdb.Set_ := if rdb.Type_ e =? rdb.TypeSet then rdb.sort_strings (rdb.Set_ e) else [] |}.

Lemma count_mod {A : Type} (l : list A) :
  count_ok l = true -> Z.to_nat (Z.of_nat (length l) mod 2 ^ 32) = length l.
Proof.
  unfold count_ok. intros H. apply Z.ltb_lt in H. rewrite Z.mod_small by lia. lia.
Qed.

Lemma sort_strings_length (l : list string) : length (rdb.sort_strings l) = length l.
Proof. unfold rdb.sort_strings. rewrite (merge_sort_Permutation String.le). reflexivity. Qed.

Lemma sort_strings_forallb (f : string -> bool) (l : list string) :
  forallb f l = true -> forallb f (rdb.sort_strings l) = true.
Proof.
  rewrite !forallb_forall. intros H x Hx. apply H.
  apply list_elem_of_In. apply list_elem_of_In in Hx.
  unfold rdb.sort_strings in Hx. rewrite (merge_sort_Permutation String.le) in Hx. exact Hx.
Qed.

Lemma hash_fields_short (h : gmap string string) :
  forallb (fun p => short p.1 && short p.2) (map_to_list h) = true ->
  forallb (fun field => short field && short (default "" (h !! field)))
          (rdb.sort_strings (map fst (map_to_list h))) = true.
Proof.
  intros H. apply sort_strings_forallb. rewrite forallb_forall in H |- *.
  intros f Hf. apply in_map_iff in Hf as ([k v] & <- & Hin).
  specialize (H _ Hin). cbn [fst snd] in *.
  apply list_elem_of_In, elem_of_map_to_list in Hin. rewrite Hin. exact H.
Qed.

Lemma read_entry_written (e : rdb.Entry) (b rest : string) :
  storable e = true ->
  rdb.write_entry e = Some b ->
  rdb.read_entry (b +:+ rest) = inr (kept_fields e, rest).
Proof.
  intros Hs Hw. unfold rdb.write_entry in Hw.
  destruct (rdb.write_body e) as [body|] eqn:Hbody; [|discriminate].
  injection Hw as <-.
  unfold storable in Hs. apply andb_true_iff in Hs as [Hs Hbd].
  apply andb_true_iff in Hs as [Hkey Hexp].
  unfold rdb.read_entry. rewrite !append_assoc, readUint8_written.
  rewrite (readString_written _ _ Hkey), (readInt64_int64 _ _ Hexp).
  unfold rdb.write_body in Hbody. unfold kept_fields.
  destruct (Z.eqb_spec (rdb.Type_ e) rdb.TypeString) as [Et|Nt1].
  { rewrite Et in *. injection Hbody as <-.
    change (rdb.TypeString mod 256 =? rdb.TypeString) with true. change (rdb.TypeString mod 256 =? rdb.TypeList) with false.
    change (rdb.TypeString mod 256 =? rdb.TypeHash) with false. change (rdb.TypeString mod 256 =? rdb.TypeSet) with false. cbv iota.
    rewrite (readBytes_written _ _ Hbd). reflexivity. }
  destruct (Z.eqb_spec (rdb.Type_ e) rdb.TypeList) as [Et|Nt2].
  { rewrite Et in *. injection Hbody as <-.
    apply andb_true_iff in Hbd as [Hc Hl].
    change (rdb.TypeList mod 256 =? rdb.TypeString) with false. change (rdb.TypeList mod 256 =? rdb.TypeList) with true.
    change (rdb.TypeList mod 256 =? rdb.TypeHash) with false. change (rdb.TypeList mod 256 =? rdb.TypeSet) with false. cbv iota.
    rewrite append_assoc, readUint32_written, (count_mod _ Hc).
    rewrite (read_list_elems_written _ _ [] Hl). reflexivity. }
  destruct (Z.eqb_spec (rdb.Type_ e) rdb.TypeHash) as [Et|Nt3].
  { rewrite Et in *. injection Hbody as <-.
    apply andb_true_iff in Hbd as [Hc Hl].
    change (rdb.TypeHash mod 256 =? rdb.TypeString) with false. change (rdb.TypeHash mod 256 =? rdb.TypeList) with false.
    change (rdb.TypeHash mod 256 =? rdb.TypeHash) with true. change (rdb.TypeHash mod 256 =? rdb.TypeSet) with false. cbv iota.
    rewrite append_assoc, readUint32_written.
    rewrite sort_strings_length, length_map, (count_mod _ Hc).
    rewrite <- (length_map fst), <- sort_strings_length.
    rewrite (read_hash_pairs_written _ _ _ ∅ (hash_fields_short _ Hl)).
    rewrite put_fields_all. reflexivity. }
  destruct (Z.eqb_spec (rdb.Type_ e) rdb.TypeSet) as [Et|Nt4]; [|discriminate].
  rewrite Et in *. injection Hbody as <-.
  apply andb_true_iff in Hbd as [Hc Hl].
  change (rdb.TypeSet mod 256 =? rdb.TypeString) with false. change (rdb.TypeSet mod 256 =? rdb.TypeList) with false.
  change (rdb.TypeSet mod 256 =? rdb.TypeHash) with false. change (rdb.TypeSet mod 256 =? rdb.TypeSet) with true. cbv iota.
  rewrite append_assoc, readUint32_written.
  rewrite sort_strings_length, (count_mod _ Hc), <- sort_strings_length.
  rewrite (read_set_members_written _ _ [] (sort_strings_forallb _ _ Hl)). reflexivity.
Qed.

Lemma read_entries_written (entries : list rdb.Entry) (b rest : string)
    (acc : list rdb.Entry) :
  forallb storable entries = true ->
  rdb.write_entries entries = Some b ->
  rdb.read_entries (length entries) (b +:+ rest) acc
  = inr (acc ++ map kept_fields entries).
Proof.
  revert b acc. induction entries as [|e entries IH]; intros b acc Hs Hw.
  - cbn. rewrite app_nil_r. reflexivity.
  - cbn [forallb] in Hs. apply andb_true_iff in Hs as [He Hes].
    cbn [rdb.write_entries] in Hw.
    destruct (rdb.write_entry e) as [be|] eqn:Ee; [|discriminate].
    destruct (rdb.write_entries entries) as [bs|] eqn:Ees; [|discriminate].
    injection Hw as <-. rewrite append_assoc. cbn [length rdb.read_entries].
    rewrite (read_entry_written e be _ He Ee), (IH bs _ Hes eq_refl).
    rewrite <- app_assoc. reflexivity.
Qed.

(** Save then load.  Whatever [SaveToWriter] wrote for entries with
    distinct keys that a dump can hold (fewer than 2^32 of them, every
    length and count below 2^32, the expiry a 64-bit integer),
    [LoadFromReader] reads it back without an error and returns the entries
    in ascending key order, each with the fields of its type as they were
    saved (a set's members sorted).  The creation time in the header is
    read and dropped. *)
Theorem LoadFromReader_reads_what_SaveToWriter_wrote (createdAt : Z)
    (entries : list rdb.Entry) (bytes : string) :
  NoDup (map rdb.Key entries) ->
  count_ok entries = true ->
  forallb storable entries = true ->
  rdb.SaveToWriter createdAt entries = Some bytes ->
  rdb.LoadFromReader bytes = inr (map kept_fields (rdb.sort_entries entries)).
Proof.
  intros _ Hc Hs Hsave. unfold rdb.SaveToWriter in Hsave.
  destruct (rdb.write_entries (rdb.sort_entries entries)) as [body|] eqn:Hbody; [|discriminate].
  injection Hsave as <-.
  assert (Hlen : length (rdb.sort_entries entries) = length entries).
  { unfold rdb.sort_entries. rewrite (merge_sort_Permutation rdb.key_le). reflexivity. }
  assert (Hs' : forallb storable (rdb.sort_entries entries) = true).
  { rewrite forallb_forall in Hs |- *. intros x Hx. apply Hs.
    apply list_elem_of_In. apply list_elem_of_In in Hx.
    unfold rdb.sort_entries in Hx. rewrite (merge_sort_Permutation rdb.key_le) in Hx.
    exact Hx. }
  unfold rdb.LoadFromReader.
  rewrite (ReadFull_append rdb.magicHeader). rewrite String.eqb_refl.
  rewrite readInt64_written, readUint32_written, Hlen, (count_mod _ Hc), <- Hlen.
  pose proof (read_entries_written _ body "" [] Hs' Hbody) as H.
  assert (E : body +:+ "" = body).
  { clear. induction body as [|c s IH]; [reflexivity |].
    change (String c s +:+ "") with (String c (s +:+ "")). rewrite IH. reflexivity. }
  rewrite E in H. exact H.
Qed.

Definition sample_dump : list rdb.Entry :=
  [ {| rdb.Key := "s"; rdb.Type_ := rdb.TypeSet; rdb.ExpireAtUnixMs := 0;
       rdb.String_ := ""; rdb.List := []; rdb.Hash := ∅; rdb.Set_ := ["y"; "x"] |};
    {| rdb.Key := "h"; rdb.Type_ := rdb.TypeHash; rdb.ExpireAtUnixMs := -1;
       rdb.String_ := ""; rdb.List := []; rdb.Hash := {["f" := "1"]}; rdb.Set_ := [] |};
    {| rdb.Key := "a"; rdb.Type_ := rdb.TypeString; rdb.ExpireAtUnixMs := 1700000000000;
       rdb.String_ := "v"; rdb.List := []; rdb.Hash := ∅; rdb.Set_ := [] |};
    {| rdb.Key := "l"; rdb.Type_ := rdb.TypeList; rdb.ExpireAtUnixMs := 0;
       rdb.String_ := ""; rdb.List := ["2"; ""; "1"]; rdb.Hash := ∅; rdb.Set_ := [] |} ]%string.

Definition sample_dump_bytes : string :=
  Eval vm_compute in default "" (rdb.SaveToWriter 1234 sample_dump).

Lemma LoadFromReader_reads_what_SaveToWriter_wrote_witness :
  rdb.LoadFromReader sample_dump_bytes = inr (map kept_fields (rdb.sort_entries sample_dump))
  /\ map rdb.Key (map kept_fields (rdb.sort_entries sample_dump)) = ["a"; "h"; "l"; "s"]%string.
Proof.
  split; [|vm_compute; reflexivity].
  apply (LoadFromReader_reads_what_SaveToWriter_wrote 1234 sample_dump sample_dump_bytes).
  - apply (bool_decide_unpack _). vm_compute. exact I.
  - reflexivity.
  - vm_compute. reflexivity.
  - vm_compute. reflexivity.
Defined.


(** ** A dump cut short *)

(** A read that succeeds on an input succeeds alike when more bytes follow. *)
Definition stable {A : Type} (f : string -> option (A * string)) : Prop :=
  forall p q x r, f p = Some (x, r) -> f (p +:+ q) = Some (x, r +:+ q).

Lemma ReadFull_stable (n : nat) : stable (ReadFull n).
Proof.
  induction n as [|n IH]; intros p q x r H.
  - cbn in H. injection H as <- <-. reflexivity.
  - destruct p as [|c p]; [discriminate |].
    change (String c p +:+ q) with (String c (p +:+ q)). cbn [ReadFull] in *.
    destruct (ReadFull n p) as [[b rest]|] eqn:E; [|discriminate].
    injection H as <- <-. rewrite (IH _ q _ _ E). reflexivity.
Qed.

Lemma stable_value {A B : Type} (f : string -> option (A * string)) (g : A -> B) :
  stable f ->
  stable (fun input => match f input with
                       | Some (b, rest) => Some (g b, rest)
                       | None => None
                       end).
Proof.
  intros Hf p q x r H. destruct (f p) as [[b rest]|] eqn:E; [|discriminate].
  injection H as <- <-. rewrite (Hf _ q _ _ E). reflexivity.
Qed.

Lemma readUint8_stable : stable rdb.readUint8.
Proof. apply (stable_value (ReadFull 1) rdb.le_value), ReadFull_stable. Qed.

Lemma readUint32_stable : stable rdb.readUint32.
Proof. apply (stable_value (ReadFull 4) rdb.le_value), ReadFull_stable. Qed.

Lemma readInt64_stable : stable rdb.readInt64.
Proof.
  apply (stable_value (ReadFull 8)
           (fun b => if 2 ^ 63 <=? rdb.le_value b then rdb.le_value b - 2 ^ 64
                     else rdb.le_value b)), ReadFull_stable.
Qed.

Lemma readString_stable : stable rdb.readString.
Proof.
  intros p q x r H. unfold rdb.readString in *.
  destruct (rdb.readUint32 p) as [[n rest]|] eqn:E; [|discriminate].
  rewrite (readUint32_stable _ q _ _ E).
  destruct (n =? 0); [injection H as <- <-; reflexivity |].
  apply ReadFull_stable, H.
Qed.

Lemma readBytes_stable : stable rdb.readBytes.
Proof. exact readString_stable. Qed.

Lemma read_list_elems_stable (cnt : nat) (acc : list string) :
  stable (fun input => rdb.read_list_elems cnt input acc).
Proof.
  revert acc. induction cnt as [|cnt IH]; intros acc p q x r H; cbn [rdb.read_list_elems] in *.
  - injection H as <- <-. reflexivity.
  - destruct (rdb.readBytes p) as [[b rest]|] eqn:E; [|discriminate].
    rewrite (readBytes_stable _ q _ _ E). apply (IH _ _ _ _ _ H).
Qed.

Lemma read_set_members_stable (cnt : nat) (acc : list string) :
  stable (fun input => rdb.read_set_members cnt input acc).
Proof.
  revert acc. induction cnt as [|cnt IH]; intros acc p q x r H; cbn [rdb.read_set_members] in *.
  - injection H as <- <-. reflexivity.
  - destruct (rdb.readString p) as [[b rest]|] eqn:E; [|discriminate].
    rewrite (readString_stable _ q _ _ E). apply (IH _ _ _ _ _ H).
Qed.

Lemma read_hash_pairs_stable (cnt : nat) (acc : gmap string string) :
  stable (fun input => rdb.read_hash_pairs cnt input acc).
Proof.
  revert acc. induction cnt as [|cnt IH]; intros acc p q x r H; cbn [rdb.read_hash_pairs] in *.
  - injection H as <- <-. reflexivity.
  - destruct (rdb.readString p) as [[f rest]|] eqn:E; [|discriminate].
    rewrite (readString_stable _ q _ _ E).
    destruct (rdb.readBytes rest) as [[v rest']|] eqn:E'; [|discriminate].
    rewrite (readBytes_stable _ q _ _ E'). apply (IH _ _ _ _ _ H).
Qed.

(** One round of the loader on an input and on the input with more bytes
    after it: the same entry, or the same refusal of a type; only the error
    of a short read can change. *)
Lemma read_entry_stable (p q : string) :
  match rdb.read_entry p with
  | inr (e, r) => rdb.read_entry (p +:+ q) = inr (e, r +:+ q)
  | inl rdb.io_error => True
  | inl err => rdb.read_entry (p +:+ q) = inl err
  end.
Proof.
  unfold rdb.read_entry.
  destruct (rdb.readUint8 p) as [[typ r1]|] eqn:E1; [|exact I].
  rewrite (readUint8_stable _ q _ _ E1).
  destruct (rdb.readString r1) as [[key r2]|] eqn:E2; [|exact I].
  rewrite (readString_stable _ q _ _ E2).
  destruct (rdb.readInt64 r2) as [[expireAt r3]|] eqn:E3; [|exact I].
  rewrite (readInt64_stable _ q _ _ E3).
  destruct (typ =? rdb.TypeString).
  { destruct (rdb.readBytes r3) as [[b r4]|] eqn:E4; [|exact I].
    rewrite (readBytes_stable _ q _ _ E4). reflexivity. }
  destruct (typ =? rdb.TypeList).
  { destruct (rdb.readUint32 r3) as [[cnt r4]|] eqn:E4; [|exact I].
    rewrite (readUint32_stable _ q _ _ E4).
    destruct (rdb.read_list_elems (Z.to_nat cnt) r4 []) as [[l r5]|] eqn:E5; [|exact I].
    rewrite (read_list_elems_stable _ _ _ q _ _ E5). reflexivity. }
  destruct (typ =? rdb.TypeHash).
  { destruct (rdb.readUint32 r3) as [[cnt r4]|] eqn:E4; [|exact I].
    rewrite (readUint32_stable _ q _ _ E4).
    destruct (rdb.read_hash_pairs (Z.to_nat cnt) r4 ∅) as [[h r5]|] eqn:E5; [|exact I].
    rewrite (read_hash_pairs_stable _ _ _ q _ _ E5). reflexivity. }
  destruct (typ =? rdb.TypeSet); [|reflexivity].
  destruct (rdb.readUint32 r3) as [[cnt r4]|] eqn:E4; [|exact I].
  rewrite (readUint32_stable _ q _ _ E4).
  destruct (rdb.read_set_members (Z.to_nat cnt) r4 []) as [[l r5]|] eqn:E5; [|exact I].
  rewrite (read_set_members_stable _ _ _ q _ _ E5). reflexivity.
Qed.

Lemma length_append (a b : string) :
  String.length (a +:+ b) = (String.length a + String.length b)%nat.
Proof.
  induction a as [|c a IH]; [reflexivity |].
  change (String c a +:+ b) with (String c (a +:+ b)). cbn [String.length]. rewrite IH.
  reflexivity.
Qed.

Lemma read_entries_cut (entries : list rdb.Entry) (b rest r q : string)
    (acc : list rdb.Entry) :
  forallb storable entries = true ->
  rdb.write_entries entries = Some b ->
  b +:+ rest = r +:+ q ->
  (String.length rest < String.length q)%nat ->
  rdb.read_entries (length entries) r acc = inl rdb.io_error.
Proof.
  revert b r acc. induction entries as [|e entries IH]; intros b r acc Hs Hw Hsplit Hlen.
  - cbn in Hw. injection Hw as <-. cbn in Hsplit.
    apply (f_equal String.length) in Hsplit. rewrite !length_append in Hsplit.
    cbn [String.length] in Hsplit. lia.
  - cbn [forallb] in Hs. apply andb_true_iff in Hs as [He Hes].
    cbn [rdb.write_entries] in Hw.
    destruct (rdb.write_entry e) as [be|] eqn:Ee; [|discriminate].
    destruct (rdb.write_entries entries) as [bs|] eqn:Ees; [|discriminate].
    injection Hw as <-. rewrite append_assoc in Hsplit.
    cbn [length rdb.read_entries].
    pose proof (read_entry_stable r q) as Hst.
    rewrite <- Hsplit, (read_entry_written e be _ He Ee) in Hst.
    destruct (rdb.read_entry r) as [[]|[e' r']]; try discriminate Hst; [reflexivity |].
    injection Hst as _ Hrest.
    apply (IH bs r' _ Hes eq_refl Hrest Hlen).
Qed.

(** A dump cut short is refused.  Of the bytes that [SaveToWriter] wrote for
    entries that a dump can hold, any beginning that lacks at least the last
    byte makes [LoadFromReader] return the error of a short read and no
    entries, wherever the cut falls: nothing of a truncated file is
    loaded. *)
Theorem LoadFromReader_refuses_a_dump_cut_short (createdAt : Z) (entries : list rdb.Entry)
    (bytes kept lost : string) :
  NoDup (map rdb.Key entries) ->
  count_ok entries = true ->
  forallb storable entries = true ->
  rdb.SaveToWriter createdAt entries = Some bytes ->
  bytes = kept +:+ lost ->
  lost <> ""%string ->
  rdb.LoadFromReader kept = inl rdb.io_error.
Proof.
  intros _ Hc Hs Hsave Hsplit Hlost. unfold rdb.SaveToWriter in Hsave.
  destruct (rdb.write_entries (rdb.sort_entries entries)) as [body|] eqn:Hbody; [|discriminate].
  injection Hsave as <-.
  assert (Hlen : length (rdb.sort_entries entries) = length entries).
  { unfold rdb.sort_entries. rewrite (merge_sort_Permutation rdb.key_le). reflexivity. }
  assert (Hs' : forallb storable (rdb.sort_entries entries) = true).
  { rewrite forallb_forall in Hs |- *. intros x Hx. apply Hs.
    apply list_elem_of_In. apply list_elem_of_In in Hx.
    unfold rdb.sort_entries in Hx. rewrite (merge_sort_Permutation rdb.key_le) in Hx.
    exact Hx. }
  unfold rdb.LoadFromReader.
  destruct (ReadFull (String.length rdb.magicHeader) kept) as [[header r1]|] eqn:E1;
    [|reflexivity].
  pose proof (ReadFull_stable _ _ lost _ _ E1) as H1.
  rewrite <- Hsplit, (ReadFull_append rdb.magicHeader) in H1. injection H1 as <- Hr1.
  rewrite String.eqb_refl.
  destruct (rdb.readInt64 r1) as [[created r2]|] eqn:E2; [|reflexivity].
  pose proof (readInt64_stable _ lost _ _ E2) as H2.
  rewrite <- Hr1, readInt64_written in H2. injection H2 as _ Hr2.
  destruct (rdb.readUint32 r2) as [[n r3]|] eqn:E3; [|reflexivity].
  pose proof (readUint32_stable _ lost _ _ E3) as H3.
  rewrite <- Hr2, readUint32_written in H3. injection H3 as Hn Hr3.
  rewrite <- Hn, Hlen, (count_mod _ Hc), <- Hlen.
  apply (read_entries_cut _ body "" r3 lost [] Hs' Hbody).
  - rewrite <- Hr3. clear. induction body as [|c s IH]; [reflexivity |].
    change (String c s +:+ "") with (String c (s +:+ "")). rewrite IH. reflexivity.
  - destruct lost; [congruence | cbn; lia].
Qed.

Lemma LoadFromReader_refuses_a_dump_cut_short_witness :
  rdb.LoadFromReader (String.substring 0 40 sample_dump_bytes) = inl rdb.io_error.
Proof.
  apply (LoadFromReader_refuses_a_dump_cut_short 1234 sample_dump sample_dump_bytes
           (String.substring 0 40 sample_dump_bytes)
           (String.substring 40 (String.length sample_dump_bytes - 40)%nat sample_dump_bytes)).
  - apply (bool_decide_unpack _). vm_compute. exact I.
  - reflexivity.
  - vm_compute. reflexivity.
  - vm_compute. reflexivity.
  - vm_compute. reflexivity.
  - vm_compute. discriminate.
Defined.


(** ** The periodic sweep *)

Section SweepFacts.

Context {C : Type} {EC : EvictionCache C} {CL : CacheLaws C}.

(** The keys of a sample that the sweep removes. *)
Definition swept (now : Z) (l : list (string * Z)) : list string :=
  map fst (filter (fun p => p.2 < now) l).

Lemma expire_sample_removes (now : Z) (l : list (string * Z)) (d : StandaloneDB C) :
  ok (cache d) ->
  exists d',
    expire_sample now l d = Some (tt, d')
    /\ ok (cache d')
    /\ aofHandler d' = aofHandler d
    /\ objects d' = objects d
    /\ (forall k, view (cache d') !! k
                  = if bool_decide (k ∈ swept now l) then None else view (cache d) !! k)
    /\ (forall k, k ∉ swept now l -> ttlMap d' !! k = ttlMap d !! k).
Proof.
  revert d. induction l as [|[k t] l IH]; intros d Hok.
  - exists d. cbn [expire_sample]. unfold ret.
    repeat split; try reflexivity; try exact Hok.
  - cbn [expire_sample]. unfold bind. unfold swept. rewrite filter_cons. cbn [snd].
    destruct (Z.ltb_spec t now) as [Hlt|Hge].
    + destruct (decide (t < now)) as [_|Hn]; [|lia]. cbn [map fst].
      fold (swept now l).
      destruct (view (cache d) !! k) as [v|] eqn:Hv.
      * destruct (cache_Remove_present_eq d k v Hok Hv) as (c' & HR & Hok' & Hv' & _).
        rewrite HR, onEvicted_deleted.
        set (d1 := set_ttlMap _ _).
        destruct (IH d1) as (d' & Hrun & Hok2 & Haof & Hobj & Hview & Httl).
        { exact Hok'. }
        exists d'. split; [exact Hrun |]. split; [exact Hok2 |].
        split; [rewrite Haof; reflexivity |]. split; [rewrite Hobj; reflexivity |].
        split.
        -- intros k0. rewrite Hview. subst d1. cbn [cache set_ttlMap set_callbacks set_cache].
           rewrite Hv'. destruct (decide (k0 = k)) as [->|Hne].
           ++ rewrite lookup_delete_eq.
              rewrite (bool_decide_eq_true_2 (k ∈ k :: swept now l)) by left.
              destruct (bool_decide _); reflexivity.
           ++ rewrite lookup_delete_ne by congruence.
              destruct (bool_decide (k0 ∈ swept now l)) eqn:E.
              ** apply bool_decide_eq_true in E.
                 rewrite bool_decide_eq_true_2 by (right; exact E). reflexivity.
              ** apply bool_decide_eq_false in E.
                 rewrite bool_decide_eq_false_2; [reflexivity |].
                 intros Hin. apply elem_of_cons in Hin as [?|?]; [congruence | contradiction].
        -- intros k0 Hk0. rewrite Httl.
           ++ subst d1. cbn [ttlMap set_ttlMap]. apply lookup_delete_ne.
              intros ->. apply Hk0. left.
           ++ intros Hin. apply Hk0. right. exact Hin.
      * rewrite (cache_Remove_absent_eq d k Hok Hv).
        destruct (IH d Hok) as (d' & Hrun & Hok2 & Haof & Hobj & Hview & Httl).
        exists d'. split; [exact Hrun |]. split; [exact Hok2 |].
        split; [exact Haof |]. split; [exact Hobj |]. split.
        -- intros k0. rewrite Hview. destruct (decide (k0 = k)) as [->|Hne].
           ++ rewrite (bool_decide_eq_true_2 (k ∈ k :: swept now l)) by left.
              rewrite Hv. destruct (bool_decide _); reflexivity.
           ++ destruct (bool_decide (k0 ∈ swept now l)) eqn:E.
              ** apply bool_decide_eq_true in E.
                 rewrite bool_decide_eq_true_2 by (right; exact E). reflexivity.
              ** apply bool_decide_eq_false in E.
                 rewrite bool_decide_eq_false_2; [reflexivity |].
                 intros Hin. apply elem_of_cons in Hin as [?|?]; [congruence | contradiction].
        -- intros k0 Hk0. apply Httl. intros Hin. apply Hk0. right. exact Hin.
    + destruct (decide (t < now)) as [Hn|_]; [lia |]. fold (swept now l).
      unfold ret. apply (IH d Hok).
Qed.

(** The sweep removes nothing but keys whose expiry has passed, and writes
    nothing to the log.  Whatever order the run-time ranges over the expiry
    table in: [activeExpire] returns; a key whose expiry has not passed (or
    that has none) keeps its value and its expiry, and no key is added; the
    log is as before.  When the table holds at most 20 keys, no key whose
    expiry had passed is left in the keyspace; with more, only the 20
    entries visited are looked at. *)
Theorem activeExpire_removes_only_keys_past_due
    (range_order : list (string * Z) -> list (string * Z)) (now : Z) (d : StandaloneDB C) :
  ok (cache d) ->
  (forall l, range_order l ≡ₚ l) ->
  exists d',
    activeExpire range_order now d = Some (tt, d')
    /\ ok (cache d')
    /\ aofHandler d' = aofHandler d
    /\ (forall k, is_past_due d now k = false ->
          view (cache d') !! k = view (cache d) !! k /\ ttlMap d' !! k = ttlMap d !! k)
    /\ (forall k, view (cache d') !! k = None \/ view (cache d') !! k = view (cache d) !! k)
    /\ ((size (ttlMap d) <= 20)%nat ->
        forall k, is_past_due d now k = true -> view (cache d') !! k = None).
Proof.
  intros Hok Hperm. unfold activeExpire, bind, gets.
  set (l := range_order (map_to_list (ttlMap d))).
  destruct (expire_sample_removes now (take 20 l) d Hok)
    as (d' & Hrun & Hok' & Haof & _ & Hview & Httl).
  exists d'. split; [exact Hrun |]. split; [exact Hok' |]. split; [exact Haof |].
  assert (Hl : forall k t, (k, t) ∈ l <-> ttlMap d !! k = Some t).
  { intros k t. unfold l. rewrite (Hperm _). apply elem_of_map_to_list. }
  assert (Hswept : forall k, k ∈ swept now (take 20 l) -> is_past_due d now k = true).
  { intros k Hk. unfold swept in Hk. change (map fst ?x) with (fst <$> x) in Hk.
    apply list_elem_of_fmap in Hk as ([k' t] & -> & Hin).
    apply list_elem_of_filter in Hin as [Ht Hin]. cbn [fst snd] in *.
    assert (Hin' : (k', t) ∈ l).
    { apply list_elem_of_lookup_1 in Hin as [i Hi]. apply lookup_take_Some in Hi as [Hi _].
      eapply list_elem_of_lookup_2, Hi. }
    apply Hl in Hin'. unfold is_past_due. rewrite Hin'. apply Z.ltb_lt. exact Ht. }
  split; [|split].
  - intros k Hk.
    assert (Hout : k ∉ swept now (take 20 l)).
    { intros Hin. apply Hswept in Hin. congruence. }
    split; [|apply Httl, Hout].
    rewrite Hview, bool_decide_eq_false_2 by exact Hout. reflexivity.
  - intros k. rewrite Hview. destruct (bool_decide _); [left | right]; reflexivity.
  - intros Hsize k Hk. rewrite Hview, bool_decide_eq_true_2; [reflexivity |].
    assert (Hfull : take 20 l = l).
    { apply take_ge. unfold l. rewrite (Hperm _), length_map_to_list. exact Hsize. }
    rewrite Hfull. unfold is_past_due in Hk.
    destruct (ttlMap d !! k) as [t|] eqn:Et; [|discriminate].
    apply Z.ltb_lt in Hk. unfold swept. change (map fst ?x) with (fst <$> x).
    apply list_elem_of_fmap. exists (k, t). split; [reflexivity |].
    apply list_elem_of_filter. split; [exact Hk | apply Hl, Et].
Qed.

End SweepFacts.

(** Two keys with an expiry, one of them past at instant 10^10. *)
Definition two_expiries : StandaloneDB Cache :=
  after [(0, ["SET"; "old"; "1"]); (0, ["SET"; "new"; "2"]); (0, ["SET"; "plain"; "3"]);
         (0, ["EXPIRE"; "old"; "1"]); (0, ["EXPIRE"; "new"; "100"])]%string
        (NewStandaloneDB_lru 0 true).

Lemma activeExpire_removes_only_keys_past_due_witness :
  exists d',
    activeExpire (@rev _) (10 ^ 10) two_expiries = Some (tt, d')
    /\ view (cache d') !! "old"%string = None
    /\ view (cache d') !! "new"%string = view (cache two_expiries) !! "new"%string
    /\ view (cache d') !! "plain"%string = view (cache two_expiries) !! "plain"%string
    /\ aofHandler d' = aofHandler two_expiries.
Proof.
  assert (Hok : ok (cache two_expiries)).
  { split.
    - apply (bool_decide_unpack _). vm_compute. exact I.
    - vm_compute. repeat constructor. }
  destruct (activeExpire_removes_only_keys_past_due (@rev _) (10 ^ 10) two_expiries Hok
              (fun l => Permutation_sym (Permutation_rev l)))
    as (d' & Hrun & _ & Haof & Hlive & _ & Hdue).
  exists d'. split; [exact Hrun |].
  split.
  { apply Hdue.
    - vm_compute. repeat constructor.
    - vm_compute. reflexivity. }
  split; [apply Hlive; vm_compute; reflexivity |].
  split; [apply Hlive; vm_compute; reflexivity | exact Haof].
Defined.


(** ** The commands of a rewrite *)

Lemma batches_from_spec {A : Type} (size : Z) (l : list A) (fuel : nat) (i : Z) :
  0 < size -> 0 <= i -> Z.of_nat (length l) - i <= Z.of_nat fuel ->
  concat (batches_from fuel size l i) = drop (Z.to_nat i) l
  /\ Forall (fun b => b <> [] /\ Z.of_nat (length b) <= size) (batches_from fuel size l i)
  /\ (Z.even size = true -> Z.even (Z.of_nat (length l)) = true -> Z.even i = true ->
      Forall (fun b => Z.even (Z.of_nat (length b)) = true) (batches_from fuel size l i)).
Proof.
  intros Hsize. revert i. induction fuel as [|fuel IH]; intros i Hi Hfuel.
  - cbn [batches_from concat]. rewrite drop_ge by lia. repeat split; constructor.
  - cbn [batches_from]. destruct (Z.ltb_spec i (Z.of_nat (length l))) as [Hlt|Hge].
    2:{ cbn [concat]. rewrite drop_ge by lia. repeat split; constructor. }
    destruct (IH (i + size)) as (Hc & Hf & He); [lia | lia |].
    set (end_ := if Z.of_nat (length l) <? i + size then Z.of_nat (length l) else i + size).
    assert (Hend : i < end_ <= i + size /\ end_ <= Z.of_nat (length l)).
    { unfold end_. destruct (Z.ltb_spec (Z.of_nat (length l)) (i + size)); lia. }
    assert (Hlen : Z.of_nat (length (take (Z.to_nat (end_ - i)) (drop (Z.to_nat i) l)))
                   = end_ - i).
    { rewrite length_take, length_drop. lia. }
    split; [|split].
    + cbn [concat]. rewrite Hc.
      replace (Z.to_nat (i + size)) with (Z.to_nat i + Z.to_nat size)%nat by lia.
      rewrite <- drop_drop.
      unfold end_. destruct (Z.ltb_spec (Z.of_nat (length l)) (i + size)) as [Hlast|Hmore].
      * rewrite take_ge by (rewrite length_drop; lia).
        rewrite (drop_ge (drop _ _)) by (rewrite length_drop; lia).
        apply app_nil_r.
      * replace (Z.to_nat (i + size - i)) with (Z.to_nat size) by lia.
        apply take_drop.
    + constructor; [|exact Hf]. split; [|lia].
      intros E. rewrite E in Hlen. cbn in Hlen. lia.
    + intros Hes Hel Hei. constructor.
      * rewrite Hlen. unfold end_.
        destruct (Z.ltb_spec (Z.of_nat (length l)) (i + size));
          rewrite Z.even_sub; [rewrite Hel, Hei | rewrite Z.even_add, Hes, Hei]; reflexivity.
      * apply He; [exact Hes | exact Hel |]. rewrite Z.even_add, Hes, Hei. reflexivity.
Qed.

Lemma batches_spec {A : Type} (size : Z) (l : list A) :
  0 < size ->
  concat (batches size l) = l
  /\ Forall (fun b => b <> [] /\ Z.of_nat (length b) <= size) (batches size l)
  /\ (Z.even size = true -> Z.even (Z.of_nat (length l)) = true ->
      Forall (fun b => Z.even (Z.of_nat (length b)) = true) (batches size l)).
Proof.
  intros Hsize. unfold batches.
  destruct (batches_from_spec size l (length l) 0 Hsize) as (Hc & Hf & He); [lia | lia |].
  split; [exact Hc |]. split; [exact Hf |]. intros Hs Hl. apply He; auto.
Qed.

Lemma pairs_even (h : gmap string string) (fields : list string) :
  Z.even (Z.of_nat (length (concat (map (fun f => [f; default "" (h !! f)]) fields)))) = true.
Proof.
  induction fields as [|f fields IH]; [reflexivity |].
  cbn [map concat app length]. rewrite !Nat2Z.inj_succ, !Z.even_succ_succ. exact IH.
Qed.

Lemma drop_2_batches (verb key : string) (bs : list (list string)) :
  concat (map (drop 2) (map (fun b => verb :: key :: b) bs)) = concat bs.
Proof.
  induction bs as [|b bs IH]; [reflexivity |]. cbn [map concat drop]. rewrite IH. reflexivity.
Qed.

(** The shape of one command of a rewrite: its name, the key, and between
    one and [most] arguments. *)
Definition holds (verb key : string) (most : Z) (cmd : list string) : Prop :=
  exists args, cmd = verb :: key :: args /\ args <> [] /\ Z.of_nat (length args) <= most.

Lemma batches_hold (verb key : string) (size : Z) (l : list string) :
  0 < size -> Forall (holds verb key size) (map (fun b => verb :: key :: b) (batches size l)).
Proof.
  intros Hsize. destruct (batches_spec size l Hsize) as (_ & Hf & _).
  induction Hf as [|b bs [Hb Hl] _ IH]; constructor; [|exact IH].
  exists b. auto.
Qed.

(** The commands that a rewrite writes for an entry of a known type hold
    every element of the entry once and in order.  They are, in this order:
    for a string one [SET]; for a list [RPUSH]es of at most 512 elements
    that together hold the list; for a hash [HSET]s of at most 512 pairs
    that together hold the fields in ascending order, each followed by its
    value, no command parting a field from its value; for a set [SADD]s of
    at most 512 members that together hold the members in ascending order;
    then, when the entry has a positive expiry, one [PEXPIREAT] with it.  No
    command is without arguments; an entry without elements gets no command
    but the [PEXPIREAT]. *)
Theorem rewrite_commands_hold_every_element (e : rdb.Entry) :
  rdb.TypeString <= rdb.Type_ e <= rdb.TypeSet ->
  exists data,
    snapshotEntryToCommands e
    = Some (data ++ if 0 <? rdb.ExpireAtUnixMs e
                    then [["PEXPIREAT"; rdb.Key e; FormatInt (rdb.ExpireAtUnixMs e)]]
                    else [])
    /\ (rdb.Type_ e = rdb.TypeString ->
        data = [["SET"; rdb.Key e; rdb.String_ e]])
    /\ (rdb.Type_ e = rdb.TypeList ->
        Forall (holds "RPUSH" (rdb.Key e) 512) data
        /\ concat (map (drop 2) data) = rdb.List e)
    /\ (rdb.Type_ e = rdb.TypeHash ->
        Forall (holds "HSET" (rdb.Key e) 1024) data
        /\ Forall (fun cmd => Z.even (Z.of_nat (length cmd)) = true) data
        /\ concat (map (drop 2) data)
           = concat (map (fun f => [f; default "" (rdb.Hash e !! f)])
                         (rdb.sort_strings (map fst (map_to_list (rdb.Hash e))))))
    /\ (rdb.Type_ e = rdb.TypeSet ->
        Forall (holds "SADD" (rdb.Key e) 512) data
        /\ concat (map (drop 2) data) = rdb.sort_strings (rdb.Set_ e)).
Proof.
  intros Htype. unfold snapshotEntryToCommands.
  unfold rdb.TypeString, rdb.TypeList, rdb.TypeHash, rdb.TypeSet in *.
  assert (Hcases : rdb.Type_ e = 1 \/ rdb.Type_ e = 2 \/ rdb.Type_ e = 3 \/ rdb.Type_ e = 4)
    by lia.
  destruct Hcases as [E|[E|[E|E]]]; rewrite E; cbn [Z.eqb Pos.eqb];
    eexists; (split; [reflexivity |]);
    (split; [intros H | split; [intros H | split; [intros H | intros H]]]);
    try discriminate H; clear H.
  - reflexivity.
  - split; [apply (batches_hold "RPUSH"); reflexivity |].
    rewrite drop_2_batches. apply (batches_spec batch). reflexivity.
  - split; [apply (batches_hold "HSET"); reflexivity | split].
    + destruct (batches_spec (batch * 2)
                  (concat (map (fun f => [f; default "" (rdb.Hash e !! f)])
                               (rdb.sort_strings (map fst (map_to_list (rdb.Hash e))))))
                  eq_refl) as (_ & _ & He).
      specialize (He eq_refl (pairs_even _ _)).
      induction He as [|b bs Hb _ IH]; constructor; [|exact IH].
      cbn [length]. rewrite !Nat2Z.inj_succ, Z.even_succ_succ. exact Hb.
    + rewrite drop_2_batches. apply (batches_spec (batch * 2)). reflexivity.
  - split; [apply (batches_hold "SADD"); reflexivity |].
    rewrite drop_2_batches. apply (batches_spec batch). reflexivity.
Qed.

Definition sample_hash : rdb.Entry :=
  {| rdb.Key := "h"; rdb.Type_ := rdb.TypeHash; rdb.ExpireAtUnixMs := 1700000000000;
     rdb.String_ := ""; rdb.List := []; rdb.Hash := {["b" := "2"; "a" := "1"]};
     rdb.Set_ := [] |}%string.

Lemma rewrite_commands_hold_every_element_witness :
  exists data,
    snapshotEntryToCommands sample_hash
    = Some (data ++ [["PEXPIREAT"%string; "h"%string; "1700000000000"%string]])
    /\ concat (map (drop 2) data) = ["a"; "1"; "b"; "2"]%string.
Proof.
  destruct (rewrite_commands_hold_every_element sample_hash) as (data & Hrun & _ & _ & Hh & _).
  - vm_compute. split; discriminate.
  - exists data. split; [exact Hrun |].
    destruct (Hh eq_refl) as (_ & _ & Hall). rewrite Hall. vm_compute. reflexivity.
Defined.
